(** * page.js: route-pattern compiler and two-phase dispatch engine

    A shallow embedding of [src/page.ts] (the [Page], [Context] and [Route]
    classes) and of the bundled [path-to-regex] module, together with the
    pieces of the JavaScript host they rely on (strings as sequences of
    UTF-16 code units, [RegExp], [encodeURIComponent],
    [decodeURIComponent]). *)

From Stdlib Require Import NArith ZArith Lia Bool Ascii String.
From stdpp Require Import base option list gmap.

Set Default Proof Using "Type".
Local Open Scope N_scope.

(* ================================================================== *)
(** * The JavaScript host: strings, exceptions *)
(* ================================================================== *)

Module JS.

(** A JavaScript string is a finite sequence of 16-bit code units. *)
Abbreviation jstring := (list N).

Definition ch (a : ascii) : N := N_of_ascii a.

(** [js "abc"] is the JavaScript string literal ['abc'] (one code unit per
    character of the Rocq literal). *)
Definition js (s : string) : jstring := ch <$> list_ascii_of_string s.

(** The double quote, which a Rocq string literal cannot hold directly. *)
Definition dquote : jstring := [34].

Inductive Exn : Type :=
| URIError
| TypeError (msg : jstring)
| SyntaxError
| Error (msg : jstring)
| Unmodelled.   (* the host model met a construct or a size it does not cover *)

Inductive result (A : Type) : Type :=
| Ok (a : A)
| Throw (e : Exn).
Arguments Ok {A} a.
Arguments Throw {A} e.

Definition bind {A B} (r : result A) (f : A -> result B) : result B :=
  match r with
  | Ok a => f a
  | Throw e => Throw e
  end.

Notation "x <- r ;; k" := (bind r (fun x => k))
  (at level 100, r at next level, right associativity, only parsing).

Definition throws {A} (r : result A) : Prop :=
  exists e, r = Throw e.

(** JavaScript values that occur as parameters: [undefined] (or [null],
    which the code does not tell apart from it), a string, an array of
    strings, or any other value (a number, a boolean, a function, an object),
    of which only the conversion to a string is used: [String(value)]
    returns a string or throws. *)
Inductive Value : Type :=
| VUndefined
| VString (s : jstring)
| VArray (l : list jstring)
| VOther (str : result jstring).

(** ** Numbers *)

(** A counter is a JavaScript number, a double; the counters that occur hold
    integers and are kept as [Z]. The result of an addition is the double
    nearest to the exact sum, the one with the even significand when two are
    equally near: every integer below [2^53] in absolute value is a double,
    and from there on the doubles are the multiples of [2^e] with a quotient
    of 53 bits. One more or one less than a double never reaches the
    largest double, so the overflow to [Infinity] does not occur. *)
Definition round_to_double (z : Z) : Z :=
  let a := Z.abs z in
  if (a <? 2 ^ 53)%Z then z
  else
    let e := (Z.log2 a - 52)%Z in
    let q := (a / 2 ^ e)%Z in
    let r := (a mod 2 ^ e)%Z in
    let half := (2 ^ (e - 1))%Z in
    let q := if (r <? half)%Z then q
             else if (half <? r)%Z then (q + 1)%Z
             else if Z.even q then q else (q + 1)%Z in
    (Z.sgn z * (q * 2 ^ e))%Z.

(** [n++] and [n--], as what they leave in [n]. *)
Definition number_incr (n : Z) : Z := round_to_double (n + 1).
Definition number_decr (n : Z) : Z := round_to_double (n - 1).

(** ** Number to string *)

Fixpoint uint_digits (d : Decimal.uint) : jstring :=
  match d with
  | Decimal.Nil => []
  | Decimal.D0 d => 48 :: uint_digits d
  | Decimal.D1 d => 49 :: uint_digits d
  | Decimal.D2 d => 50 :: uint_digits d
  | Decimal.D3 d => 51 :: uint_digits d
  | Decimal.D4 d => 52 :: uint_digits d
  | Decimal.D5 d => 53 :: uint_digits d
  | Decimal.D6 d => 54 :: uint_digits d
  | Decimal.D7 d => 55 :: uint_digits d
  | Decimal.D8 d => 56 :: uint_digits d
  | Decimal.D9 d => 57 :: uint_digits d
  end.

(** [String(n)] for a non-negative integer [n]. *)
Definition N_toString (n : N) : jstring := uint_digits (N.to_uint n).

(** ** String primitives *)

Fixpoint starts_with (p s : jstring) : bool :=
  match p, s with
  | [], _ => true
  | a :: p', b :: s' => (a =? b) && starts_with p' s'
  | _ :: _, [] => false
  end.

(** [s.indexOf(p)]: the first index at which [p] occurs, [None] for -1. *)
Fixpoint indexOf_from (p s : jstring) (i : nat) : option nat :=
  if starts_with p s then Some i
  else match s with
       | [] => None
       | _ :: s' => indexOf_from p s' (S i)
       end.

Definition indexOf (s p : jstring) : option nat := indexOf_from p s 0.

(** [s.slice(i, j)] and [s.slice(i)] for in-range non-negative indices. *)
Definition slice (s : jstring) (i j : nat) : jstring := take (j - i) (drop i s).
Definition slice_from (s : jstring) (i : nat) : jstring := drop i s.

(** [s.replace(p, r)] for a string pattern [p]: the first occurrence only. *)
Definition replace_first (s p r : jstring) : jstring :=
  match indexOf s p with
  | Some i => take i s ++ r ++ drop (i + length p) s
  | None => s
  end.

(** [s.split(c)] for a one-character separator. *)
Fixpoint split_on (c : N) (s : jstring) : list jstring :=
  match s with
  | [] => [[]]
  | a :: s' =>
      if a =? c then [] :: split_on c s'
      else match split_on c s' with
           | [] => [[a]]
           | w :: ws => (a :: w) :: ws
           end
  end.

(** [l.join(sep)] *)
Fixpoint join (sep : jstring) (l : list jstring) : jstring :=
  match l with
  | [] => []
  | [x] => x
  | x :: l' => x ++ sep ++ join sep l'
  end.

(** ** [encodeURIComponent] (ECMAScript Encode with the unreserved set) *)

Definition is_digit (c : N) : bool := (48 <=? c) && (c <=? 57).
Definition is_upper (c : N) : bool := (65 <=? c) && (c <=? 90).
Definition is_lower (c : N) : bool := (97 <=? c) && (c <=? 122).
Definition is_alpha (c : N) : bool := is_upper c || is_lower c.

(** uriMark: [- _ . ! ~ * ' ( )] *)
Definition is_uriMark (c : N) : bool :=
  bool_decide (c ∈ [45; 95; 46; 33; 126; 42; 39; 40; 41]).

Definition is_unreserved (c : N) : bool :=
  is_alpha c || is_digit c || is_uriMark c.

Definition hexdigit (n : N) : N :=
  if n <? 10 then 48 + n else 55 + n.        (* upper case A-F *)

Definition pct (b : N) : jstring := [37; hexdigit (b / 16); hexdigit (b mod 16)].

(** The UTF-8 octets of a code point. *)
Definition utf8_octets (v : N) : list N :=
  if v <? 128 then [v]
  else if v <? 2048 then [192 + v / 64; 128 + v mod 64]
  else if v <? 65536 then [224 + v / 4096; 128 + (v / 64) mod 64; 128 + v mod 64]
  else [240 + v / 262144; 128 + (v / 4096) mod 64; 128 + (v / 64) mod 64;
        128 + v mod 64].

Definition is_high_surrogate (c : N) : bool := (55296 <=? c) && (c <=? 56319).
Definition is_low_surrogate (c : N) : bool := (56320 <=? c) && (c <=? 57343).

Fixpoint encodeURIComponent (s : jstring) : result jstring :=
  match s with
  | [] => Ok []
  | c :: s' =>
      if is_unreserved c then r <- encodeURIComponent s';; Ok (c :: r)
      else if is_low_surrogate c then Throw URIError
      else if is_high_surrogate c then
        match s' with
        | [] => Throw URIError
        | d :: s'' =>
            if is_low_surrogate d then
              r <- encodeURIComponent s'';;
              Ok (mjoin (pct <$> utf8_octets ((c - 55296) * 1024 + (d - 56320) + 65536)) ++ r)
            else Throw URIError
        end
      else r <- encodeURIComponent s';; Ok (mjoin (pct <$> utf8_octets c) ++ r)
  end.

(** ** [decodeURIComponent] (ECMAScript Decode with an empty reserved set) *)

Definition hexval (c : N) : option N :=
  if is_digit c then Some (c - 48)
  else if (65 <=? c) && (c <=? 70) then Some (c - 55)
  else if (97 <=? c) && (c <=? 102) then Some (c - 87)
  else None.

(** First the escapes are read: a [%] must be followed by two hex digits. *)
Inductive UriItem : Type :=
| Plain (c : N)          (* a code unit copied as it is *)
| Octet (b : N).         (* the value of an escape [%XX] *)

Fixpoint read_escapes (s : jstring) : result (list UriItem) :=
  match s with
  | [] => Ok []
  | c :: s1 =>
      if c =? 37 then
        match s1 with
        | h1 :: h2 :: s3 =>
            match hexval h1, hexval h2 with
            | Some a, Some b => r <- read_escapes s3;; Ok (Octet (16 * a + b) :: r)
            | _, _ => Throw URIError
            end
        | _ => Throw URIError
        end
      else r <- read_escapes s1;; Ok (Plain c :: r)
  end.

Definition is_cont (b : N) : bool := (128 <=? b) && (b <=? 191).

(** A code point as UTF-16 code units. *)
Definition utf16_units (v : N) : jstring :=
  if v <? 65536 then [v]
  else [55296 + (v - 65536) / 1024; 56320 + (v - 65536) mod 1024].

(** A decoded code point is accepted when it is in shortest form, is not a
    surrogate and does not exceed U+10FFFF. *)
Definition valid_scalar (lo v : N) : bool :=
  (lo <=? v) && (v <=? 1114111) && negb ((55296 <=? v) && (v <=? 57343)).

(** Then the octets are grouped into UTF-8 sequences. *)
Fixpoint decode_items (l : list UriItem) : result jstring :=
  match l with
  | [] => Ok []
  | Plain c :: l' => r <- decode_items l';; Ok (c :: r)
  | Octet b :: l1 =>
      if b <? 128 then r <- decode_items l1;; Ok (b :: r)
      else if b <? 192 then Throw URIError            (* a stray continuation octet *)
      else if b <? 224 then
        match l1 with
        | Octet b1 :: l2 =>
            let v := (b - 192) * 64 + (b1 - 128) in
            if is_cont b1 && valid_scalar 128 v
            then r <- decode_items l2;; Ok (utf16_units v ++ r)
            else Throw URIError
        | _ => Throw URIError
        end
      else if b <? 240 then
        match l1 with
        | Octet b1 :: Octet b2 :: l3 =>
            let v := (b - 224) * 4096 + (b1 - 128) * 64 + (b2 - 128) in
            if is_cont b1 && is_cont b2 && valid_scalar 2048 v
            then r <- decode_items l3;; Ok (utf16_units v ++ r)
            else Throw URIError
        | _ => Throw URIError
        end
      else if b <? 248 then
        match l1 with
        | Octet b1 :: Octet b2 :: Octet b3 :: l4 =>
            let v := (b - 240) * 262144 + (b1 - 128) * 4096 + (b2 - 128) * 64
                     + (b3 - 128) in
            if is_cont b1 && is_cont b2 && is_cont b3 && valid_scalar 65536 v
            then r <- decode_items l4;; Ok (utf16_units v ++ r)
            else Throw URIError
        | _ => Throw URIError
        end
      else Throw URIError
  end.

Definition decodeURIComponent (s : jstring) : result jstring :=
  l <- read_escapes s;; decode_items l.

End JS.
Export JS.

(* ================================================================== *)
(** * The JavaScript host: regular expressions *)
(* ================================================================== *)

(** A backtracking matcher after the ECMAScript pattern semantics
    (continuation-passing, captures reset on each iteration of a quantifier,
    an iteration that consumes nothing is refused once the minimum is
    reached). The subset covers what [page.ts] and [path-to-regex] hand to
    [RegExp]: characters, escapes, classes, groups, alternation, greedy and
    lazy quantifiers, [^], [$] and lookahead. Case folding under the [i]
    flag is that of the ASCII letters. Word boundaries, back references,
    named groups and lookbehind are answered with [Unmodelled]. *)

Module RegExp.

Inductive ClassItem : Type :=
| CChar (c : N)
| CRange (lo hi : N)
| CDigit (neg : bool)       (* \d \D *)
| CWord (neg : bool)        (* \w \W *)
| CSpace (neg : bool).      (* \s \S *)

Inductive Re : Type :=
| REmpty
| RChar (c : N)
| RAny
| RClass (neg : bool) (items : list ClassItem)
| RSeq (r1 r2 : Re)
| RAlt (r1 r2 : Re)
| RGroup (idx : nat) (r : Re)
| RQuant (min : nat) (max : option nat) (greedy : bool) (r : Re)
| RLook (neg : bool) (r : Re)
| RBol
| REol.

(** ** Parsing a pattern source *)

Definition PRes : Type := result (Re * jstring * nat).

Fixpoint p_digits (s : jstring) (acc : option nat) : option nat * jstring :=
  match s with
  | c :: s' =>
      if is_digit c
      then p_digits s' (Some (10 * default 0%nat acc + N.to_nat (c - 48))%nat)
      else (acc, s)
  | [] => (acc, s)
  end.

(** The braces of a quantifier, after the opening brace. *)
Definition p_braces (s : jstring) : option (nat * option nat * jstring) :=
  match p_digits s None with
  | (Some lo, c :: s1) =>
      if c =? 125 then Some (lo, Some lo, s1)
      else if c =? 44 then
        match p_digits s1 None with
        | (None, d :: s2) => if d =? 125 then Some (lo, None, s2) else None
        | (Some hi, d :: s2) => if d =? 125 then Some (lo, Some hi, s2) else None
        | _ => None
        end
      else None
  | _ => None
  end.

Definition p_lazy (mn : nat) (mx : option nat) (s : jstring)
  : result (option (nat * option nat * bool) * jstring) :=
  match s with
  | c :: s' => if c =? 63 then Ok (Some (mn, mx, false), s') else Ok (Some (mn, mx, true), s)
  | [] => Ok (Some (mn, mx, true), s)
  end.

Definition p_quant (s : jstring) : result (option (nat * option nat * bool) * jstring) :=
  match s with
  | c :: s' =>
      if c =? 42 then p_lazy 0 None s'
      else if c =? 43 then p_lazy 1 None s'
      else if c =? 63 then p_lazy 0 (Some 1%nat) s'
      else if c =? 123 then
        match p_braces s' with
        | Some (lo, Some hi, s'') =>
            if (hi <? lo)%nat then Throw SyntaxError else p_lazy lo (Some hi) s''
        | Some (lo, None, s'') => p_lazy lo None s''
        | None => Ok (None, s)
        end
      else Ok (None, s)
  | [] => Ok (None, s)
  end.

Definition with_quant (a : Re) (s : jstring) (n : nat) : PRes :=
  q <- p_quant s;;
  match q with
  | (None, s') => Ok (a, s', n)
  | (Some (mn, mx, g), s') => Ok (RQuant mn mx g a, s', n)
  end.

Inductive Esc : Type :=
| EChar (c : N)
| EItem (i : ClassItem).

Definition hex2 (a b : N) : option N :=
  match hexval a, hexval b with
  | Some x, Some y => Some (16 * x + y)
  | _, _ => None
  end.

(** An escape, after the backslash. [in_class] tells a class atom. *)
Definition p_escape (in_class : bool) (s : jstring) : result (Esc * jstring) :=
  match s with
  | [] => Throw SyntaxError
  | c :: s' =>
      if c =? 100 then Ok (EItem (CDigit false), s')
      else if c =? 68 then Ok (EItem (CDigit true), s')
      else if c =? 119 then Ok (EItem (CWord false), s')
      else if c =? 87 then Ok (EItem (CWord true), s')
      else if c =? 115 then Ok (EItem (CSpace false), s')
      else if c =? 83 then Ok (EItem (CSpace true), s')
      else if c =? 116 then Ok (EChar 9, s')
      else if c =? 110 then Ok (EChar 10, s')
      else if c =? 118 then Ok (EChar 11, s')
      else if c =? 102 then Ok (EChar 12, s')
      else if c =? 114 then Ok (EChar 13, s')
      else if c =? 98 then (if in_class then Ok (EChar 8, s') else Throw Unmodelled)
      else if c =? 66 then (if in_class then Ok (EChar 66, s') else Throw Unmodelled)
      else if c =? 99 then Throw Unmodelled
      else if c =? 107 then Throw Unmodelled
      else if c =? 48 then
        match s' with
        | d :: _ => if is_digit d then Throw Unmodelled else Ok (EChar 0, s')
        | [] => Ok (EChar 0, s')
        end
      else if is_digit c then Throw Unmodelled
      else if c =? 120 then
        match s' with
        | a :: b :: s'' =>
            match hex2 a b with
            | Some v => Ok (EChar v, s'')
            | None => Ok (EChar c, s')
            end
        | _ => Ok (EChar c, s')
        end
      else if c =? 117 then
        match s' with
        | a :: b :: d :: e :: s'' =>
            match hex2 a b, hex2 d e with
            | Some v, Some w => Ok (EChar (256 * v + w), s'')
            | _, _ => Ok (EChar c, s')
            end
        | _ => Ok (EChar c, s')
        end
      else Ok (EChar c, s')
  end.

(** One class atom. *)
Definition p_class_atom (s : jstring) : result (Esc * jstring) :=
  match s with
  | [] => Throw SyntaxError
  | c :: s' => if c =? 92 then p_escape true s' else Ok (EChar c, s')
  end.

(** The members of a class, after the opening bracket and the caret. *)
Fixpoint p_class_items (fuel : nat) (s : jstring) : result (list ClassItem * jstring) :=
  match fuel with
  | O => Throw Unmodelled
  | S fuel' =>
      match s with
      | [] => Throw SyntaxError
      | c :: s' =>
          if c =? 93 then Ok ([], s')
          else
            a <- p_class_atom s;;
            let '(e1, s1) := a in
            match e1, s1 with
            | EChar lo, d :: s2 =>
                if (d =? 45) && negb (starts_with [93] s2) then
                  b <- p_class_atom s2;;
                  let '(e2, s3) := b in
                  match e2 with
                  | EChar hi =>
                      if hi <? lo then Throw SyntaxError
                      else
                        r <- p_class_items fuel' s3;;
                        Ok (CRange lo hi :: r.1, r.2)
                  | EItem i =>
                      r <- p_class_items fuel' s3;;
                      Ok (CChar lo :: CChar 45 :: i :: r.1, r.2)
                  end
                else
                  r <- p_class_items fuel' s1;;
                  Ok (CChar lo :: r.1, r.2)
            | EChar lo, [] => Throw SyntaxError
            | EItem i, _ =>
                r <- p_class_items fuel' s1;;
                Ok (i :: r.1, r.2)
            end
      end
  end.

Definition p_class (s : jstring) (n : nat) : PRes :=
  match s with
  | c :: s' =>
      if c =? 94 then
        r <- p_class_items (S (length s')) s';; with_quant (RClass true r.1) r.2 n
      else
        r <- p_class_items (S (length s)) s;; with_quant (RClass false r.1) r.2 n
  | [] => Throw SyntaxError
  end.

Definition expect_rparen (s : jstring) : result jstring :=
  match s with
  | c :: s' => if c =? 41 then Ok s' else Throw SyntaxError
  | [] => Throw SyntaxError
  end.

Definition ends_alternative (s : jstring) : bool :=
  match s with
  | [] => true
  | c :: _ => (c =? 124) || (c =? 41)
  end.

Fixpoint p_disj (fuel : nat) (s : jstring) (n : nat) {struct fuel} : PRes :=
  match fuel with
  | O => Throw Unmodelled
  | S fuel' =>
      a <- p_alt fuel' s n;;
      let '(r1, s1, n1) := a in
      match s1 with
      | c :: s2 =>
          if c =? 124 then
            b <- p_disj fuel' s2 n1;;
            let '(r2, s3, n2) := b in
            Ok (RAlt r1 r2, s3, n2)
          else Ok a
      | [] => Ok a
      end
  end
with p_alt (fuel : nat) (s : jstring) (n : nat) {struct fuel} : PRes :=
  match fuel with
  | O => Throw Unmodelled
  | S fuel' =>
      if ends_alternative s then Ok (REmpty, s, n)
      else
        a <- p_term fuel' s n;;
        let '(t, s1, n1) := a in
        b <- p_alt fuel' s1 n1;;
        let '(r, s2, n2) := b in
        Ok (RSeq t r, s2, n2)
  end
with p_term (fuel : nat) (s : jstring) (n : nat) {struct fuel} : PRes :=
  match fuel with
  | O => Throw Unmodelled
  | S fuel' =>
      match s with
      | [] => Throw SyntaxError
      | c :: s1 =>
          if c =? 94 then Ok (RBol, s1, n)
          else if c =? 36 then Ok (REol, s1, n)
          else if c =? 40 then
            if starts_with [63; 61] s1 || starts_with [63; 33] s1 then
              a <- p_disj fuel' (drop 2 s1) n;;
              let '(r, s2, n1) := a in
              s3 <- expect_rparen s2;;
              q <- p_quant s3;;
              match q with
              | (None, _) => Ok (RLook (starts_with [63; 33] s1) r, s3, n1)
              | (Some _, _) => Throw Unmodelled
              end
            else if starts_with [63; 58] s1 then
              a <- p_disj fuel' (drop 2 s1) n;;
              let '(r, s2, n1) := a in
              s3 <- expect_rparen s2;;
              with_quant r s3 n1
            else if starts_with [63; 60] s1 then Throw Unmodelled
            else if starts_with [63] s1 then Throw SyntaxError
            else
              a <- p_disj fuel' s1 (S n);;
              let '(r, s2, n1) := a in
              s3 <- expect_rparen s2;;
              with_quant (RGroup (S n) r) s3 n1
          else if c =? 92 then
            e <- p_escape false s1;;
            match e with
            | (EChar a, s2) => with_quant (RChar a) s2 n
            | (EItem i, s2) => with_quant (RClass false [i]) s2 n
            end
          else if c =? 91 then p_class s1 n
          else if c =? 46 then with_quant RAny s1 n
          else if (c =? 42) || (c =? 43) || (c =? 63) then Throw SyntaxError
          else if c =? 123 then Throw Unmodelled
          else with_quant (RChar c) s1 n
      end
  end.

(** A compiled regular expression object. *)
Record t : Type := mk {
  source : jstring;
  global : bool;
  ignoreCase : bool;
  prog : Re;
  ngroups : nat
}.

(** [new RegExp(src, flags)], the flags being [g] and [i]. *)
Definition create (src : jstring) (g i : bool) : result t :=
  a <- p_disj (4 * length src + 8) src 0;;
  let '(r, s', n) := a in
  match s' with
  | [] => Ok (mk src g i r n)
  | _ :: _ => Throw SyntaxError       (* an unmatched closing parenthesis *)
  end.

(** ** Matching *)

Record MState : Type := mkS {
  rest : jstring;                     (* the input from the current index on *)
  pos : nat;                          (* the current index *)
  caps : list (option jstring)        (* captures; index 0 is unused here *)
}.

Definition Cont : Type := MState -> option MState.

Definition canon (ic : bool) (c : N) : N :=
  if ic && is_lower c then c - 32 else c.

(** The code units that fold to the same canonical unit as [c]. *)
Definition variants (ic : bool) (c : N) : list N :=
  if ic then
    if is_lower c then [c; c - 32]
    else if is_upper c then [c; c + 32]
    else [c]
  else [c].

Definition is_space (c : N) : bool :=
  bool_decide (c ∈ [9; 10; 11; 12; 13; 32; 160; 5760; 8232; 8233; 8239; 8287; 12288; 65279])
  || ((8192 <=? c) && (c <=? 8202)).

Definition is_word (c : N) : bool := is_alpha c || is_digit c || (c =? 95).

Definition is_line_terminator (c : N) : bool :=
  bool_decide (c ∈ [10; 13; 8232; 8233]).

Definition item_has (i : ClassItem) (c : N) : bool :=
  match i with
  | CChar a => a =? c
  | CRange lo hi => (lo <=? c) && (c <=? hi)
  | CDigit neg => xorb neg (is_digit c)
  | CWord neg => xorb neg (is_word c)
  | CSpace neg => xorb neg (is_space c)
  end.

Definition class_has (ic : bool) (items : list ClassItem) (c : N) : bool :=
  existsb (fun v => existsb (fun i => item_has i v) items) (variants ic c).

Fixpoint groups_of (r : Re) : list nat :=
  match r with
  | RSeq a b | RAlt a b => groups_of a ++ groups_of b
  | RGroup i a => i :: groups_of a
  | RQuant _ _ _ a | RLook _ a => groups_of a
  | _ => []
  end.

Definition reset_caps (gs : list nat) (x : MState) : MState :=
  mkS (rest x) (pos x) (foldr (fun i cs => <[i := None]> cs) (caps x) gs).

Definition step1 (x : MState) (p : N -> bool) (c : Cont) : option MState :=
  match rest x with
  | b :: s' => if p b then c (mkS s' (S (pos x)) (caps x)) else None
  | [] => None
  end.

Definition or_else (a : option MState) (b : unit -> option MState) : option MState :=
  match a with
  | Some z => Some z
  | None => b tt
  end.

Definition pred_max (mx : option nat) : option nat := Nat.pred <$> mx.

(** The repetition of a matcher [mb] (RepeatMatcher): [mn] and [mx] are the
    iterations still required and still allowed, [g] tells a greedy
    quantifier, [gs] are the groups to reset on each iteration. Each
    iteration past the minimum consumes input, so [fuel] beyond the minimum
    plus the length of the input is never used up. *)
Fixpoint rep (mb : MState -> Cont -> option MState) (gs : list nat) (g : bool) (c : Cont)
    (fuel mn : nat) (mx : option nat) (x : MState) {struct fuel} : option MState :=
  match fuel with
  | O => None
  | S fuel' =>
      if bool_decide (mx = Some O) then c x
      else
        let d : Cont := fun y =>
          if (mn =? 0)%nat && (pos y =? pos x)%nat then None
          else rep mb gs g c fuel' (Nat.pred mn) (pred_max mx) y in
        let xr := reset_caps gs x in
        if negb (mn =? 0)%nat then mb xr d
        else if g then or_else (mb xr d) (fun _ => c x)
        else or_else (c x) (fun _ => mb xr d)
  end.

Fixpoint m (ic : bool) (r : Re) (x : MState) (c : Cont) {struct r} : option MState :=
  match r with
  | REmpty => c x
  | RChar a => step1 x (fun b => canon ic a =? canon ic b) c
  | RAny => step1 x (fun b => negb (is_line_terminator b)) c
  | RClass neg items => step1 x (fun b => xorb neg (class_has ic items b)) c
  | RSeq r1 r2 => m ic r1 x (fun y => m ic r2 y c)
  | RAlt r1 r2 => or_else (m ic r1 x c) (fun _ => m ic r2 x c)
  | RGroup i r1 =>
      m ic r1 x (fun y =>
        c (mkS (rest y) (pos y)
               (<[i := Some (take (pos y - pos x) (rest x))]> (caps y))))
  | RQuant mn mx g r1 =>
      rep (m ic r1) (groups_of r1) g c (mn + length (rest x) + 2)%nat mn mx x
  | RLook neg r1 =>
      match m ic r1 x Some with
      | Some y => if neg then None else c (mkS (rest x) (pos x) (caps y))
      | None => if neg then c x else None
      end
  | RBol => if (pos x =? 0)%nat then c x else None
  | REol => match rest x with [] => c x | _ :: _ => None end
  end.

(** The result of a successful [exec]: the array of captures (element 0 is
    the whole match, an unmatched group is [undefined]) and its [index]. *)
Record MatchResult : Type := mkR {
  captures : list (option jstring);
  index : nat;
  endIndex : nat
}.

Definition match_at (re : t) (s : jstring) (i : nat) : option MatchResult :=
  match m (ignoreCase re) (prog re)
          (mkS s i (replicate (S (ngroups re)) None)) Some with
  | Some y =>
      Some (mkR (<[O := Some (take (pos y - i) s)]> (caps y)) i (pos y))
  | None => None
  end.

(** Try every start index from [i] on; [s] is the input from [i]. *)
Fixpoint scan (re : t) (s : jstring) (i : nat) : option MatchResult :=
  match match_at re s i with
  | Some r => Some r
  | None =>
      match s with
      | [] => None
      | _ :: s' => scan re s' (S i)
      end
  end.

(** [re.exec(s)] with [lastIndex] given (0 for a regular expression without
    the [g] flag). *)
Definition exec_from (re : t) (s : jstring) (lastIndex : nat) : option MatchResult :=
  if (length s <? lastIndex)%nat then None
  else scan re (drop lastIndex s) lastIndex.

Definition exec (re : t) (s : jstring) : option MatchResult := exec_from re s 0.

Definition test (re : t) (s : jstring) : bool := bool_decide (is_Some (exec re s)).

End RegExp.

(* ================================================================== *)
(** * path-to-regex: the route-pattern compiler *)
(* ================================================================== *)

Module PathToRegexp.

(** [token.name] is a string or a number. *)
Inductive Name : Type :=
| NameStr (s : jstring)
| NameIdx (n : N).

(** The property key a name denotes: a number is converted to a string. *)
Definition prop_of_name (n : Name) : jstring :=
  match n with
  | NameStr s => s
  | NameIdx i => N_toString i
  end.

Record Token : Type := mkToken {
  name : Name;
  prefix : jstring;
  delimiter : jstring;
  optional : bool;
  repeat : bool;
  pattern : jstring
}.

(** An element of the token array: [string | Token]. *)
Inductive Tok : Type :=
| TStr (s : jstring)
| TKey (t : Token).

(** [str.replace(/([...])/g, '\\$1')]: every code unit of the class gets a
    backslash in front of it. *)
Definition escape_class (cls : list N) (s : jstring) : jstring :=
  mjoin ((fun c => if bool_decide (c ∈ cls) then [92; c] else [c]) <$> s).

(** The class of [escapeString]: [. + * ? = ^ ! : $ { } ( ) [ ] | /] *)
Definition escapeString (s : jstring) : jstring :=
  escape_class [46; 43; 42; 63; 61; 94; 33; 58; 36; 123; 125; 40; 41; 91; 93; 124; 47] s.

(** The class of [escapeGroup]: [= ! : $ / ( )] *)
Definition escapeGroup (s : jstring) : jstring :=
  escape_class [61; 33; 58; 36; 47; 40; 41] s.

Definition PATH_REGEXP_source : jstring :=
  join (js "|")
    [ js "(\\.)";
      js "([\/.])?(?:(?:\:(\w+)(?:\(((?:\\.|[^()])+)\))?|\(((?:\\.|[^()])+)\))([+*?])?|(\*))" ].

Definition regexp_or_never (r : result RegExp.t) : RegExp.t :=
  match r with
  | Ok re => re
  | Throw _ => RegExp.mk [] false false (RegExp.RClass false []) 0
  end.

Definition PATH_REGEXP : RegExp.t :=
  Eval vm_compute in regexp_or_never (RegExp.create PATH_REGEXP_source true false).

(** A capture of a match result as a string; [undefined] and the empty
    string are both falsy. *)
Definition group (res : RegExp.MatchResult) (i : nat) : option jstring :=
  match RegExp.captures res !! i with
  | Some (Some (c :: s)) => Some (c :: s)
  | _ => None
  end.

Definition push_path (path : jstring) (tokens : list Tok) : list Tok :=
  match path with
  | [] => tokens
  | _ :: _ => tokens ++ [TStr path]
  end.

(** The [while] loop of [parse]; [lastIndex] is that of the global
    [PATH_REGEXP]. [None] stands for a loop that does not end. *)
Fixpoint parse_loop (fuel : nat) (str : jstring) (lastIndex index : nat) (key : N)
    (path : jstring) (tokens : list Tok) : option (list Tok) :=
  match fuel with
  | O => None
  | S fuel' =>
      match RegExp.exec_from PATH_REGEXP str lastIndex with
      | None =>
          let path := if (index <? length str)%nat then path ++ drop index str else path in
          Some (push_path path tokens)
      | Some res =>
          let m := default [] (default None (RegExp.captures res !! O)) in
          let offset := RegExp.index res in
          let path := path ++ slice str index offset in
          let index := (offset + length m)%nat in
          match group res 1 with
          | Some escaped =>
              parse_loop fuel' str (RegExp.endIndex res) index key
                (path ++ take 1 (drop 1 escaped)) tokens
          | None =>
              let tokens := push_path path tokens in
              let prefix := group res 2 in
              let name := group res 3 in
              let capture := group res 4 in
              let grp := group res 5 in
              let suffix := group res 6 in
              let asterisk := group res 7 in
              let repeat := bool_decide (suffix = Some (js "+")) || bool_decide (suffix = Some (js "*")) in
              let optional := bool_decide (suffix = Some (js "?")) || bool_decide (suffix = Some (js "*")) in
              let delimiter := default (js "/") prefix in
              let pattern :=
                match capture, grp, asterisk with
                | Some c, _, _ => c
                | None, Some g, _ => g
                | None, None, Some _ => js ".*"
                | None, None, None => js "[^" ++ delimiter ++ js "]+?"
                end in
              let tok := mkToken (match name with Some n => NameStr n | None => NameIdx key end)
                           (default [] prefix) delimiter optional repeat (escapeGroup pattern) in
              parse_loop fuel' str (RegExp.endIndex res) index
                (match name with Some _ => key | None => key + 1 end) []
                (tokens ++ [TKey tok])
          end
      end
  end.

(** [parse(str)] *)
Definition parse (str : jstring) : option (list Tok) :=
  parse_loop (S (length str)) str 0 0 0 [] [].

(** ** [tokensToFunction]: the reverse builder *)

(** The object handed to the builder. The builder only reads it, and only
    through [data[token.name]]: the object is represented by what such a read
    returns for each property key, whether the property is its own or comes
    from its prototype chain. *)
Definition Data : Type := jstring -> Value.

(** An object with the own properties [own] that inherits nothing, as
    [Object.assign(Object.create(null), own)] makes it. For a key that
    [Object.prototype] does not have, an object literal reads the same. *)
Definition obj (own : gmap jstring Value) : Data :=
  fun k => default VUndefined (own !! k).

Definition name_toString (n : Name) : jstring := prop_of_name n.

Definition compile_token (t : Tok) : result (option RegExp.t) :=
  match t with
  | TStr _ => Ok None
  | TKey k => re <- RegExp.create (js "^" ++ pattern k ++ js "$") false false;; Ok (Some re)
  end.

Fixpoint compile_tokens (tokens : list Tok) : result (list (option RegExp.t)) :=
  match tokens with
  | [] => Ok []
  | t :: ts => re <- compile_token t;; res <- compile_tokens ts;; Ok (re :: res)
  end.

Definition matches_test (mre : option RegExp.t) (segment : jstring) : bool :=
  match mre with
  | Some re => RegExp.test re segment
  | None => false
  end.

Definition err_defined (t : Token) : Exn :=
  TypeError (js "Expected " ++ dquote ++ name_toString (name t) ++ dquote ++ js " to be defined").
Definition err_not_repeat (t : Token) (l : list jstring) : Exn :=
  TypeError (js "Expected " ++ dquote ++ name_toString (name t) ++ dquote
             ++ js " to not repeat, but received " ++ dquote ++ join (js ",") l ++ dquote).
Definition err_empty (t : Token) : Exn :=
  TypeError (js "Expected " ++ dquote ++ name_toString (name t) ++ dquote ++ js " to not be empty").
Definition err_all_match (t : Token) (segment : jstring) : Exn :=
  TypeError (js "Expected all " ++ dquote ++ name_toString (name t) ++ dquote ++ js " to match "
             ++ dquote ++ pattern t ++ dquote ++ js ", but received " ++ dquote ++ segment ++ dquote).
Definition err_match (t : Token) (segment : jstring) : Exn :=
  TypeError (js "Expected " ++ dquote ++ name_toString (name t) ++ dquote ++ js " to match "
             ++ dquote ++ pattern t ++ dquote ++ js ", but received " ++ dquote ++ segment ++ dquote).

(** The inner loop over the elements of an array value. *)
Fixpoint build_repeat (t : Token) (mre : option RegExp.t) (first : bool)
    (l : list jstring) (path : jstring) : result jstring :=
  match l with
  | [] => Ok path
  | v :: l' =>
      segment <- encodeURIComponent v;;
      if negb (matches_test mre segment) then Throw (err_all_match t segment)
      else build_repeat t mre false l'
             (path ++ (if first then prefix t else delimiter t) ++ segment)
  end.

(** The loop of the returned function over the tokens and their compiled
    patterns. *)
Fixpoint build (tms : list (Tok * option RegExp.t)) (data : Data) (path : jstring)
  : result jstring :=
  match tms with
  | [] => Ok path
  | (TStr s, _) :: tms' => build tms' data (path ++ s)
  | (TKey t, mre) :: tms' =>
      match data (prop_of_name (name t)) with
      | VUndefined =>
          if optional t then build tms' data path else Throw (err_defined t)
      | VArray l =>
          if negb (repeat t) then Throw (err_not_repeat t l)
          else
            match l with
            | [] => if optional t then build tms' data path else Throw (err_empty t)
            | _ :: _ =>
                path' <- build_repeat t mre true l path;;
                build tms' data path'
            end
      | VString v =>
          segment <- encodeURIComponent v;;
          if negb (matches_test mre segment) then Throw (err_match t segment)
          else build tms' data (path ++ prefix t ++ segment)
      | VOther str =>
          v <- str;;
          segment <- encodeURIComponent v;;
          if negb (matches_test mre segment) then Throw (err_match t segment)
          else build tms' data (path ++ prefix t ++ segment)
      end
  end.

(** [tokensToFunction(tokens)]: the patterns are compiled first, which can
    throw; the result is the builder. *)
Definition tokensToFunction (tokens : list Tok) : result (Data -> result jstring) :=
  matches <- compile_tokens tokens;;
  Ok (fun data => build (zip tokens matches) data []).

(** [compile(str)] *)
Definition compile (str : jstring) : result (Data -> result jstring) :=
  match parse str with
  | Some tokens => tokensToFunction tokens
  | None => Throw Unmodelled
  end.

(** ** [tokensToRegExp] *)

Record Options : Type := mkOptions {
  sensitive : bool;
  strict : bool;
  end_ : option bool        (* [undefined] is [None] *)
}.

Definition no_options : Options := mkOptions false false None.

(** [flags(options)]: is the [i] flag set? *)
Definition flags (o : Options) : bool := negb (sensitive o).

Definition route_of_token (t : Tok) : jstring :=
  match t with
  | TStr s => escapeString s
  | TKey k =>
      let prefix := escapeString (prefix k) in
      let capture := pattern k in
      let capture :=
        if repeat k then capture ++ js "(?:" ++ prefix ++ capture ++ js ")*" else capture in
      if optional k then
        match prefix with
        | _ :: _ => js "(?:" ++ prefix ++ js "(" ++ capture ++ js "))?"
        | [] => js "(" ++ capture ++ js ")?"
        end
      else prefix ++ js "(" ++ capture ++ js ")"
  end.

(** [typeof lastToken === 'string' && /\/$/.test(lastToken)] *)
Definition endsWithSlash (tokens : list Tok) : bool :=
  match last tokens with
  | Some (TStr s) => bool_decide (last s = Some 47)
  | _ => false
  end.

(** The source handed to [new RegExp] by [tokensToRegExp]. *)
Definition route_source (tokens : list Tok) (o : Options) : jstring :=
  let end_ := negb (bool_decide (end_ o = Some false)) in
  let route := mjoin (route_of_token <$> tokens) in
  let route :=
    if negb (strict o) then
      (if endsWithSlash tokens then take (length route - 2) route else route)
      ++ js "(?:\/(?=$))?"
    else route in
  let route :=
    if end_ then route ++ js "$"
    else route ++ (if strict o && endsWithSlash tokens then [] else js "(?=\/|$)") in
  js "^" ++ route.

Definition tokensToRegExp (tokens : list Tok) (o : Options) : result RegExp.t :=
  RegExp.create (route_source tokens o) false (flags o).

Definition keys_of (tokens : list Tok) : list Token :=
  omap (fun t => match t with TKey k => Some k | TStr _ => None end) tokens.

(** [stringToRegexp(path, keys, options)]: the result and the [keys] array
    after the call. *)
Definition stringToRegexp (path : jstring) (keys : list Token) (o : Options)
  : result (RegExp.t * list Token) :=
  match parse path with
  | Some tokens =>
      re <- tokensToRegExp tokens o;;
      Ok (re, keys ++ keys_of tokens)
  | None => Throw Unmodelled
  end.

(** [path.source.match(/\((?!\?)/g)]: the opening parentheses that are not
    followed by a question mark. *)
Fixpoint count_groups (s : jstring) : nat :=
  match s with
  | [] => O
  | c :: s' =>
      (if (c =? 40) && negb (starts_with [63] s') then S (count_groups s') else count_groups s')
  end.

(** [regexpToRegexp(path, keys)]; the [null] fields of the keys it pushes
    are never read and are left empty here. *)
Definition regexpToRegexp (path : RegExp.t) (keys : list Token)
  : RegExp.t * list Token :=
  (path, keys ++ ((fun i => mkToken (NameIdx (N.of_nat i)) [] [] false false [])
                   <$> seq 0 (count_groups (RegExp.source path)))).

(** [arrayToRegexp(path, keys, options)] *)
Fixpoint array_parts (path : list jstring) (keys : list Token) (o : Options)
  : result (list jstring * list Token) :=
  match path with
  | [] => Ok ([], keys)
  | segment :: path' =>
      r <- stringToRegexp segment keys o;;
      r' <- array_parts path' r.2 o;;
      Ok (RegExp.source r.1 :: r'.1, r'.2)
  end.

Definition arrayToRegexp (path : list jstring) (keys : list Token) (o : Options)
  : result (RegExp.t * list Token) :=
  r <- array_parts path keys o;;
  re <- RegExp.create (js "(?:" ++ join (js "|") r.1 ++ js ")") false (flags o);;
  Ok (re, r.2).

Inductive Path : Type :=
| PString (s : jstring)
| PRegExp (re : RegExp.t)
| PArray (l : list jstring).

(** [pathToRegexp(path, keys, options)] *)
Definition pathToRegexp (path : Path) (keys : list Token) (o : Options)
  : result (RegExp.t * list Token) :=
  match path with
  | PRegExp re => Ok (regexpToRegexp re keys)
  | PArray l => arrayToRegexp l keys o
  | PString s => stringToRegexp s keys o
  end.

End PathToRegexp.

(* ================================================================== *)
(** * page.ts: Context, Route and the Page controller *)
(* ================================================================== *)

Module PageJS.
Import PathToRegexp.

(** ** Data *)

(** The [params] object of a context: a plain object as [new Context] makes
    it ([this.params = {}], so its prototype is [Object.prototype]), by own
    property, each holding a string or [undefined] ([None]). *)
Abbreviation Params := (gmap jstring (option jstring)).

(** [params[k] = v]. The one accessor of [Object.prototype] is [__proto__],
    whose setter ignores a value that is neither an object nor [null]: unless
    the object has an own property of that name, the assignment writes
    nothing. Every other key becomes or stays an own property. *)
Definition params_set (params : Params) (k : jstring) (v : option jstring) : Params :=
  if bool_decide (k = js "__proto__") && negb (bool_decide (is_Some (params !! k)))
  then params
  else <[k := v]> params.

(** [params.hasOwnProperty(k)]. An own property named [hasOwnProperty] hides
    the method of [Object.prototype]; it holds a string or [undefined], and
    calling that throws. *)
Definition params_hasOwnProperty (params : Params) (k : jstring) : result bool :=
  if bool_decide (is_Some (params !! js "hasOwnProperty"))
  then Throw (TypeError (js "params.hasOwnProperty is not a function"))
  else Ok (bool_decide (is_Some (params !! k))).

(** A history state object, by own property; [state.path] is the property
    [path]. *)
Abbreviation StateObj := (gmap jstring jstring).

(** Contexts and dispatch closures live in the heap and are referred to by
    their index. *)
Abbreviation CtxRef := nat (only parsing).
Abbreviation FrameRef := nat (only parsing).

Record Context : Type := mkContext {
  canonicalPath : jstring;
  path : jstring;
  title : jstring;
  state : StateObj;
  querystring : jstring;
  pathname : jstring;
  params : Params;
  hash : jstring;
  handled : option bool;        (* [undefined], [true] or [false] *)
  init : option bool
}.

Record Route : Type := mkRoute {
  r_path : Path;
  r_regexp : RegExp.t;
  r_keys : list Token
}.

(** The continuation a middleware receives: [nextExit] or [nextEnter] of
    one [dispatch] call. *)
Inductive Cont : Type :=
| KExit (d : FrameRef)
| KEnter (d : FrameRef).

(** What a handler observes of the controller. *)
Record View : Type := mkView {
  v_current : jstring;
  v_len : Z;
  v_ctxs : list Context
}.

(** The body of a handler [(ctx, next) => ...], as the sequence of what it
    does to the controller. This is the code of the application, not of the
    library: it may call its continuation any number of times, navigate,
    mark a context, look at the controller, set a timer or throw. *)
Inductive Prog : Type :=
| Done
| Next (k : Prog)                                            (* [next()] *)
| Show (path : jstring) (st : option StateObj) (dispatch push : option bool)
       (k : CtxRef -> Prog)                                  (* [page.show(...)] *)
| Replace (path : jstring) (st : option StateObj) (init dispatch : option bool)
       (k : CtxRef -> Prog)                                  (* [page.replace(...)] *)
| Back (path : option jstring) (st : option StateObj) (k : Prog)  (* [page.back(...)] *)
| Redirect (to : jstring) (k : Prog)                         (* [page.redirect(to)] *)
| SetHandled (c : CtxRef) (b : bool) (k : Prog)              (* [ctx.handled = b] *)
| Observe (k : View -> Prog)
| Defer (p : Prog) (k : Prog)                                (* [setTimeout(() => p)] *)
| Raise (e : Exn).                                           (* [throw e] *)

(** [route.middleware(fn)]: the closure over the route and the handler. *)
Record Middleware : Type := mkMiddleware {
  mw_route : Route;
  mw_fn : CtxRef -> Prog
}.

(** The closure variables of one [dispatch(ctx, prev)] call. *)
Record Frame : Type := mkFrame {
  f_ctx : CtxRef;
  f_prev : option CtxRef;
  f_i : nat;
  f_j : nat
}.

Record Page : Type := mkPage {
  callbacks : list Middleware;
  exits : list Middleware;
  current : jstring;
  len : Z;
  _decodeURLComponents : bool;
  _base : jstring;
  _strict : bool;
  _running : bool;
  _hashbang : bool;
  _click : bool;
  prevContext : option CtxRef
}.

Record Location : Type := mkLocation {
  loc_pathname : jstring;
  loc_search : jstring;
  loc_hash : jstring;
  loc_protocol : jstring
}.

(** Calls issued to the window. *)
Inductive HostCall : Type :=
| PushState (st : StateObj) (title url : jstring)
| ReplaceState (st : StateObj) (title url : jstring)
| HistoryBack
| SetLocationHref (url : jstring)
| RemoveEventListener (target event : jstring).

(** A function handed to [setTimeout]. *)
Inductive Task : Type :=
| TaskShow (path : jstring) (st : option StateObj)     (* [page.show(path, state)] *)
| TaskShowBase (st : option StateObj)                  (* [page.show(page._getBase(), state)] *)
| TaskReplace (path : jstring)                         (* [inst.replace(to)] *)
| TaskHandler (self : Cont) (p : Prog).                (* set by a handler *)

Inductive Phase : Type := Exit | Enter.

(** Ghost record of the middleware invoked by the dispatch closures, and of
    the handlers their routes let through. *)
Inductive Event : Type :=
| EvInvoke (ph : Phase) (d : FrameRef) (idx : nat)
| EvHandler (ph : Phase) (d : FrameRef) (idx : nat).

(** The window: what [window.location] reads, given the calls issued to the
    window so far. [history.pushState] and [history.replaceState] change the
    location at once, by the rules of the browser for resolving their URL;
    nothing here depends on what these rules are. *)
Definition Window : Type := list HostCall -> Location.

Record World : Type := mkWorld {
  page : Page;
  ctxs : list Context;
  frames : list Frame;
  window : Window;
  doc_title : jstring;
  calls : list HostCall;
  timers : list Task;
  trace : list Event
}.

(** [window.location], now. *)
Definition location (w : World) : Location := window w (calls w).

Inductive outcome (A : Type) : Type :=
| Ret (a : A) (w : World)
| Exc (e : Exn) (w : World)
| OutOfFuel.
Arguments Ret {A} a w.
Arguments Exc {A} e w.
Arguments OutOfFuel {A}.

Definition obind {A B} (o : outcome A) (f : A -> World -> outcome B) : outcome B :=
  match o with
  | Ret a w => f a w
  | Exc e w => Exc e w
  | OutOfFuel => OutOfFuel
  end.

(** ** Field updates *)

Definition with_page (f : Page -> Page) (w : World) : World :=
  mkWorld (f (page w)) (ctxs w) (frames w) (window w) (doc_title w) (calls w)
          (timers w) (trace w).
Definition with_ctxs (f : list Context -> list Context) (w : World) : World :=
  mkWorld (page w) (f (ctxs w)) (frames w) (window w) (doc_title w) (calls w)
          (timers w) (trace w).
Definition with_frames (f : list Frame -> list Frame) (w : World) : World :=
  mkWorld (page w) (ctxs w) (f (frames w)) (window w) (doc_title w) (calls w)
          (timers w) (trace w).
Definition host_call (c : HostCall) (w : World) : World :=
  mkWorld (page w) (ctxs w) (frames w) (window w) (doc_title w) (calls w ++ [c])
          (timers w) (trace w).
Definition setTimeout (t : Task) (w : World) : World :=
  mkWorld (page w) (ctxs w) (frames w) (window w) (doc_title w) (calls w)
          (timers w ++ [t]) (trace w).
Definition with_timers (ts : list Task) (w : World) : World :=
  mkWorld (page w) (ctxs w) (frames w) (window w) (doc_title w) (calls w)
          ts (trace w).
Definition log (e : Event) (w : World) : World :=
  mkWorld (page w) (ctxs w) (frames w) (window w) (doc_title w) (calls w)
          (timers w) (trace w ++ [e]).

Definition set_current (s : jstring) (p : Page) : Page :=
  mkPage (callbacks p) (exits p) s (len p) (_decodeURLComponents p) (_base p)
         (_strict p) (_running p) (_hashbang p) (_click p) (prevContext p).
Definition set_len (n : Z) (p : Page) : Page :=
  mkPage (callbacks p) (exits p) (current p) n (_decodeURLComponents p) (_base p)
         (_strict p) (_running p) (_hashbang p) (_click p) (prevContext p).
Definition set_running (b : bool) (p : Page) : Page :=
  mkPage (callbacks p) (exits p) (current p) (len p) (_decodeURLComponents p) (_base p)
         (_strict p) b (_hashbang p) (_click p) (prevContext p).
Definition set_prevContext (c : option CtxRef) (p : Page) : Page :=
  mkPage (callbacks p) (exits p) (current p) (len p) (_decodeURLComponents p) (_base p)
         (_strict p) (_running p) (_hashbang p) (_click p) c.
Definition set_callbacks (l : list Middleware) (p : Page) : Page :=
  mkPage l (exits p) (current p) (len p) (_decodeURLComponents p) (_base p)
         (_strict p) (_running p) (_hashbang p) (_click p) (prevContext p).
Definition set_exits (l : list Middleware) (p : Page) : Page :=
  mkPage (callbacks p) l (current p) (len p) (_decodeURLComponents p) (_base p)
         (_strict p) (_running p) (_hashbang p) (_click p) (prevContext p).

Definition set_handled (b : option bool) (c : Context) : Context :=
  mkContext (canonicalPath c) (path c) (title c) (state c) (querystring c)
            (pathname c) (params c) (hash c) b (init c).
Definition set_params (ps : Params) (c : Context) : Context :=
  mkContext (canonicalPath c) (path c) (title c) (state c) (querystring c)
            (pathname c) ps (hash c) (handled c) (init c).
Definition set_init (b : option bool) (c : Context) : Context :=
  mkContext (canonicalPath c) (path c) (title c) (state c) (querystring c)
            (pathname c) (params c) (hash c) (handled c) b.

Definition update_ctx (c : CtxRef) (f : Context -> Context) (w : World) : World :=
  with_ctxs (fun l => match l !! c with Some x => <[c := f x]> l | None => l end) w.

Definition set_i (n : nat) (f : Frame) : Frame := mkFrame (f_ctx f) (f_prev f) n (f_j f).
Definition set_j (n : nat) (f : Frame) : Frame := mkFrame (f_ctx f) (f_prev f) (f_i f) n.

Definition update_frame (d : FrameRef) (f : Frame -> Frame) (w : World) : World :=
  with_frames (fun l => match l !! d with Some x => <[d := f x]> l | None => l end) w.

(** ** Page: plain methods *)

(** [Page._getBase()] *)
Definition _getBase (w : World) : jstring :=
  match _base (page w) with
  | _ :: _ => _base (page w)
  | [] =>
      if _hashbang (page w) && bool_decide (loc_protocol (location w) = js "file:")
      then loc_pathname (location w)
      else []
  end.

(** [val.replace(/\+/g, ' ')] *)
Definition plus_to_space (s : jstring) : jstring :=
  (fun c => if c =? 43 then 32 else c) <$> s.

(** [Page._decodeURLEncodedURIComponent(val)] *)
Definition _decodeURLEncodedURIComponent (decode : bool) (val : option jstring)
  : result (option jstring) :=
  match val with
  | None => Ok None
  | Some s =>
      if decode then r <- decodeURIComponent (plus_to_space s);; Ok (Some r)
      else Ok (Some s)
  end.

(** [Page.stop()] *)
Definition stop (w : World) : World :=
  if negb (_running (page w)) then w
  else
    let w := with_page (fun p => set_running false (set_len 0 (set_current [] p))) w in
    let w := if _click (page w)
             then host_call (RemoveEventListener (js "document") (js "click")) w else w in
    let w := host_call (RemoveEventListener (js "window") (js "popstate")) w in
    host_call (RemoveEventListener (js "window") (js "hashchange")) w.

(** ** Route *)

(** [new Route(path, null, page)] *)
Definition Route_new (path : Path) (page_strict : bool) : result Route :=
  let opts := mkOptions false page_strict None in
  let path := match path with
              | PString s => if bool_decide (s = js "*") then PString (js "(.*)") else path
              | _ => path
              end in
  r <- pathToRegexp path [] opts;;
  Ok (mkRoute path r.1 r.2).

(** The [for] loop of [Route.match] over the captures [m[1..]]; [keys] are
    [keys[0..]]. The parameters written so far are returned with the result. *)
Fixpoint match_loop (decode : bool) (caps : list (option jstring)) (keys : list Token)
    (params : Params) : result unit * Params :=
  match caps with
  | [] => (Ok tt, params)
  | mi :: caps' =>
      match _decodeURLEncodedURIComponent decode mi with
      | Throw e => (Throw e, params)
      | Ok val =>
          match keys with
          | [] =>
              (* [key] is [undefined]: reading [key.name] throws *)
              (Throw (TypeError (js "Cannot read properties of undefined (reading 'name')")),
               params)
          | key :: keys' =>
              let k := prop_of_name (name key) in
              (* [val !== undefined || !(params.hasOwnProperty(key.name))] *)
              match (if bool_decide (val ≠ None) then Ok true
                     else b <- params_hasOwnProperty params k;; Ok (negb b)) with
              | Throw e => (Throw e, params)
              | Ok write =>
                  match_loop decode caps' keys'
                    (if write then params_set params k val else params)
              end
          end
      end
  end.

(** [Route.match(path, params)]: the result, and [params] after the call. *)
Definition pathname_of (path : jstring) : jstring :=
  match indexOf path (js "?") with
  | Some qsIndex => slice path 0 qsIndex
  | None => path
  end.

Definition Route_match (decode : bool) (r : Route) (path : jstring) (params : Params)
  : result bool * Params :=
  let pathname := pathname_of path in
  match decodeURIComponent pathname with
  | Throw e => (Throw e, params)
  | Ok decoded =>
      let m := RegExp.exec (r_regexp r) decoded in
      let params := delete (js "0") params in
      match m with
      | None => (Ok false, params)
      | Some res =>
          match match_loop decode (drop 1 (RegExp.captures res)) (r_keys r) params with
          | (Ok _, params) => (Ok true, params)
          | (Throw e, params) => (Throw e, params)
          end
      end
  end.

(** ** Context *)

(** The class of [escapeRegExp]: that of [escapeString] and the backslash. *)
Definition escapeRegExp (s : jstring) : jstring :=
  escape_class
    [46; 43; 42; 63; 61; 94; 33; 58; 36; 123; 125; 40; 41; 91; 93; 124; 47; 92] s.

(** [s.replace(re, '')] for a regular expression without the [g] flag. *)
Definition replace_re_empty (re : RegExp.t) (s : jstring) : jstring :=
  match RegExp.exec re s with
  | Some r => take (RegExp.index r) s ++ drop (RegExp.endIndex r) s
  | None => s
  end.

Definition or_slash (s : jstring) : jstring :=
  match s with [] => js "/" | _ :: _ => s end.

(** [new Context(path, state, page)]; decoding can throw. *)
Definition Context_new (p : jstring) (st : option StateObj) (w : World) : result Context :=
  let hashbang := _hashbang (page w) in
  let decode := _decodeURLComponents (page w) in
  let pageBase := _getBase w in
  let p :=
    if starts_with (js "/") p && negb (bool_decide (indexOf p pageBase = Some O))
    then pageBase ++ (if hashbang then js "#!" else []) ++ p
    else p in
  let i := indexOf p (js "?") in
  re <- RegExp.create (js "^" ++ escapeRegExp pageBase) false false;;
  let path := or_slash (replace_re_empty re p) in
  let path := if hashbang then or_slash (replace_first path (js "#!") []) else path in
  let state := <[js "path" := p]> (default ∅ st) in
  qs <- match i with
        | Some i => _decodeURLEncodedURIComponent decode (Some (slice_from p (S i)))
        | None => Ok (Some [])
        end;;
  pn <- _decodeURLEncodedURIComponent decode
          (Some (match i with Some i => slice p 0 i | None => p end));;
  let querystring := default [] qs in
  let pathname := default [] pn in
  if hashbang || negb (bool_decide (is_Some (indexOf path (js "#")))) then
    Ok (mkContext p path (doc_title w) state querystring pathname ∅ [] None None)
  else
    let parts := split_on 35 path in
    let part0 := default [] (parts !! O) in
    h <- _decodeURLEncodedURIComponent decode (parts !! 1%nat);;
    Ok (mkContext p part0 (doc_title w) state
          (default [] (split_on 35 querystring !! O)) part0 ∅ (default [] h) None None).

(** The URL of a history entry: [#!]-prefixed under hashbang unless root. *)
Definition history_url (w : World) (c : Context) : jstring :=
  if _hashbang (page w) && negb (bool_decide (path c = js "/"))
  then js "#!" ++ path c
  else canonicalPath c.

(** [Context.pushState()] *)
Definition pushState (c : Context) (w : World) : World :=
  let w := with_page (fun p => set_len (number_incr (len p)) p) w in
  host_call (PushState (state c) (title c) (history_url w c)) w.

(** [Context.save()] *)
Definition save (c : Context) (w : World) : World :=
  host_call (ReplaceState (state c) (title c) (history_url w c)) w.

(** [unhandled(ctx)], called with the page as [this]. *)
Definition unhandled (c : CtxRef) (w : World) : World :=
  match ctxs w !! c with
  | None => w
  | Some ctx =>
      if bool_decide (handled ctx = Some true) then w
      else
        let current :=
          if _hashbang (page w)
          then _getBase w ++ replace_first (loc_hash (location w)) (js "#!") []
          else loc_pathname (location w) ++ loc_search (location w) in
        if bool_decide (current = canonicalPath ctx) then w
        else
          let w := stop w in
          let w := update_ctx c (set_handled (Some false)) w in
          host_call (SetLocationHref (canonicalPath ctx)) w
  end.

(** ** The dispatch engine *)

Definition view (w : World) : View :=
  mkView (current (page w)) (len (page w)) (ctxs w).

(** [Page.back(path, state)] *)
Definition back (p : option jstring) (st : option StateObj) (w : World) : World :=
  if (0 <? len (page w))%Z then
    let w := host_call HistoryBack w in
    with_page (fun pg => set_len (number_decr (len pg)) pg) w
  else
    match p with
    | Some (c :: s) => setTimeout (TaskShow (c :: s) st) w
    | _ => setTimeout (TaskShowBase st) w
    end.

(** [Page.redirect(from)] with [to] undefined. *)
Definition redirect_to (from : jstring) (w : World) : World :=
  setTimeout (TaskReplace from) w.

Definition frame_of_cont (k : Cont) : FrameRef :=
  match k with KExit d | KEnter d => d end.
Definition phase_of_cont (k : Cont) : Phase :=
  match k with KExit _ => Exit | KEnter _ => Enter end.

(** The mutually recursive closures of the engine. [fuel] bounds the number
    of calls; [OutOfFuel] is a computation cut short, it never stands for a
    result. *)
Fixpoint nextExit (fuel : nat) (d : FrameRef) (w : World) {struct fuel} : outcome unit :=
  match fuel with
  | O => OutOfFuel
  | S fuel =>
      match frames w !! d with
      | None => Exc Unmodelled w
      | Some fr =>
          let fn := exits (page w) !! f_j fr in
          let w := update_frame d (set_j (S (f_j fr))) w in
          match fn with
          | None => nextEnter fuel d w
          | Some mw =>
              match f_prev fr with
              | None => Exc Unmodelled w
              | Some prev =>
                  middleware fuel mw prev (KExit d) (f_j fr)
                    (log (EvInvoke Exit d (f_j fr)) w)
              end
          end
      end
  end
with nextEnter (fuel : nat) (d : FrameRef) (w : World) {struct fuel} : outcome unit :=
  match fuel with
  | O => OutOfFuel
  | S fuel =>
      match frames w !! d with
      | None => Exc Unmodelled w
      | Some fr =>
          let fn := callbacks (page w) !! f_i fr in
          let w := update_frame d (set_i (S (f_i fr))) w in
          match ctxs w !! f_ctx fr with
          | None => Exc Unmodelled w
          | Some ctx =>
              if negb (bool_decide (path ctx = current (page w))) then
                Ret tt (update_ctx (f_ctx fr) (set_handled (Some false)) w)
              else
                match fn with
                | None => Ret tt (unhandled (f_ctx fr) w)
                | Some mw =>
                    middleware fuel mw (f_ctx fr) (KEnter d) (f_i fr)
                      (log (EvInvoke Enter d (f_i fr)) w)
                end
          end
      end
  end
(** the function returned by [route.middleware(fn)], called with [(ctx, next)] *)
with middleware (fuel : nat) (mw : Middleware) (c : CtxRef) (next : Cont)
       (idx : nat) (w : World) {struct fuel} : outcome unit :=
  match fuel with
  | O => OutOfFuel
  | S fuel =>
      match ctxs w !! c with
      | None => Exc Unmodelled w
      | Some ctx =>
          let '(r, ps) :=
            Route_match (_decodeURLComponents (page w)) (mw_route mw) (path ctx) (params ctx) in
          let w := update_ctx c (set_params ps) w in
          match r with
          | Throw e => Exc e w
          | Ok true =>
              run fuel next (mw_fn mw c)
                (log (EvHandler (phase_of_cont next) (frame_of_cont next) idx) w)
          | Ok false => call fuel next w
          end
      end
  end
(** calling a continuation *)
with call (fuel : nat) (k : Cont) (w : World) {struct fuel} : outcome unit :=
  match fuel with
  | O => OutOfFuel
  | S fuel =>
      match k with
      | KExit d => nextExit fuel d w
      | KEnter d => nextEnter fuel d w
      end
  end
(** [Page.dispatch(ctx, prev)] *)
with dispatch (fuel : nat) (c : CtxRef) (prev : option CtxRef) (w : World) {struct fuel}
  : outcome unit :=
  match fuel with
  | O => OutOfFuel
  | S fuel =>
      let d := length (frames w) in
      let w := with_frames (fun l => l ++ [mkFrame c prev 0 0]) w in
      match prev with
      | Some _ => nextExit fuel d w
      | None => nextEnter fuel d w
      end
  end
(** [Page.show(path, state, dispatch, push)] *)
with show (fuel : nat) (p : jstring) (st : option StateObj) (disp push : option bool)
       (w : World) {struct fuel} : outcome CtxRef :=
  match fuel with
  | O => OutOfFuel
  | S fuel =>
      match Context_new p st w with
      | Throw e => Exc e w
      | Ok ctx =>
          let c := length (ctxs w) in
          let prev := prevContext (page w) in
          let w := with_ctxs (fun l => l ++ [ctx]) w in
          let w := with_page (fun pg => set_current (path ctx) (set_prevContext (Some c) pg)) w in
          obind (if bool_decide (disp = Some false) then Ret tt w else dispatch fuel c prev w)
            (fun _ w =>
               match ctxs w !! c with
               | None => Exc Unmodelled w
               | Some ctx =>
                   if negb (bool_decide (handled ctx = Some false))
                      && negb (bool_decide (push = Some false))
                   then Ret c (pushState ctx w)
                   else Ret c w
               end)
      end
  end
(** [Page.replace(path, state, init, dispatch)] *)
with replace (fuel : nat) (p : jstring) (st : option StateObj) (ini disp : option bool)
       (w : World) {struct fuel} : outcome CtxRef :=
  match fuel with
  | O => OutOfFuel
  | S fuel =>
      match Context_new p st w with
      | Throw e => Exc e w
      | Ok ctx =>
          let c := length (ctxs w) in
          let prev := prevContext (page w) in
          let ctx := set_init ini ctx in
          let w := with_ctxs (fun l => l ++ [ctx]) w in
          let w := with_page (fun pg => set_current (path ctx) (set_prevContext (Some c) pg)) w in
          let w := save ctx w in
          obind (if bool_decide (disp = Some false) then Ret tt w else dispatch fuel c prev w)
            (fun _ w => Ret c w)
      end
  end
(** the body of a handler *)
with run (fuel : nat) (self : Cont) (p : Prog) (w : World) {struct fuel} : outcome unit :=
  match fuel with
  | O => OutOfFuel
  | S fuel =>
      match p with
      | Done => Ret tt w
      | Next k => obind (call fuel self w) (fun _ w => run fuel self k w)
      | Show p st disp push k =>
          obind (show fuel p st disp push w) (fun c w => run fuel self (k c) w)
      | Replace p st ini disp k =>
          obind (replace fuel p st ini disp w) (fun c w => run fuel self (k c) w)
      | Back p st k => run fuel self k (back p st w)
      | Redirect to k => run fuel self k (redirect_to to w)
      | SetHandled c b k => run fuel self k (update_ctx c (set_handled (Some b)) w)
      | Observe k => run fuel self (k (view w)) w
      | Defer p k => run fuel self k (setTimeout (TaskHandler self p) w)
      | Raise e => Exc e w
      end
  end.

(** Running one function handed to [setTimeout]. *)
Definition run_task (fuel : nat) (t : Task) (w : World) : outcome unit :=
  match t with
  | TaskShow p st => obind (show fuel p st None None w) (fun _ w => Ret tt w)
  | TaskShowBase st => obind (show fuel (_getBase w) st None None w) (fun _ w => Ret tt w)
  | TaskReplace p => obind (replace fuel p None None None w) (fun _ w => Ret tt w)
  | TaskHandler self p => run fuel self p w
  end.

(** One turn of the event loop: the oldest timer fires. *)
Definition tick (fuel : nat) (w : World) : outcome unit :=
  match timers w with
  | [] => Ret tt w
  | t :: ts => run_task fuel t (with_timers ts w)
  end.

(** ** Registration *)

(** [Page.route(path, ...callbacks)] *)
Definition route (p : Path) (fns : list (CtxRef -> Prog)) (w : World) : result World :=
  r <- Route_new p (_strict (page w));;
  Ok (with_page (fun pg => set_callbacks (callbacks pg ++ (mkMiddleware r <$> fns)) pg) w).

(** [Page.exit(path, ...callbacks)] *)
Definition exit (p : Path) (fns : list (CtxRef -> Prog)) (w : World) : result World :=
  r <- Route_new p (_strict (page w));;
  Ok (with_page (fun pg => set_exits (exits pg ++ (mkMiddleware r <$> fns)) pg) w).

(** [Page.redirect(from, to)]: with [to], a route for [from] whose handler
    sets a timer that replaces the navigation by one to [to]; without it, a
    timer that replaces the navigation by one to [from]. *)
Definition redirect (from : jstring) (to : option jstring) (w : World) : result World :=
  match to with
  | Some to =>
      route (PString from)
        [fun _ => Defer (Replace to None None None (fun _ => Done)) Done] w
  | None => Ok (redirect_to from w)
  end.

(** A controller as [new Page()] makes it, in a window at [loc]. *)
Definition new_Page : Page :=
  mkPage [] [] [] 0 true [] false false false true None.

(** The path, the query and the fragment of a URL that starts with its
    path. *)
Definition url_parts (url : jstring) : jstring * jstring * jstring :=
  let (rest, hash) :=
    match indexOf url (js "#") with
    | Some i => (take i url, drop i url)
    | None => (url, [])
    end in
  match indexOf rest (js "?") with
  | Some i => (take i rest, drop i rest, hash)
  | None => (rest, [], hash)
  end.

(** The location after the history entry of [url] is entered from [loc]: a
    path from the root ([/path?query#hash]) becomes the location, a
    fragment ([#hash]) its fragment. This is what the browser does for a URL
    that its parser leaves as written (no dot segments, no character it
    would escape); the examples below use such URLs only. Any other URL
    leaves the location as it is here. *)
Definition visit (loc : Location) (url : jstring) : Location :=
  if starts_with (js "/") url then
    let '(pathname, search, hash) := url_parts url in
    mkLocation pathname search hash (loc_protocol loc)
  else if starts_with (js "#") url then
    mkLocation (loc_pathname loc) (loc_search loc) url (loc_protocol loc)
  else loc.

(** A window that starts at [loc], for the examples: [history.pushState]
    and [history.replaceState] move it by [visit]; no example reads the
    location after [history.back()], which moves it later, or after an
    assignment to [location.href], which loads another document, and here
    these leave it as it is. The theorems are stated for any [Window]. *)
Definition window_at (loc : Location) : Window :=
  foldl (fun loc c =>
           match c with
           | PushState _ _ url | ReplaceState _ _ url => visit loc url
           | _ => loc
           end) loc.

Definition new_World (loc : Location) : World :=
  mkWorld new_Page [] [] (window_at loc) [] [] [] [].

End PageJS.

(* ================================================================== *)
(** * Properties *)
(* ================================================================== *)

Import PathToRegexp PageJS.

(** ** Sanity checks of the host model *)

Example encode_reserved :
  encodeURIComponent (js "a b/c") = Ok (js "a%20b%2Fc").
Proof. vm_compute. reflexivity. Qed.

Example encode_utf8 :
  encodeURIComponent [8364; 233] = Ok (js "%E2%82%AC%C3%A9").
Proof. vm_compute. reflexivity. Qed.

Example decode_utf8 :
  decodeURIComponent (js "a%20b%2Fc%E2%82%AC") = Ok (js "a b/c" ++ [8364]).
Proof. vm_compute. reflexivity. Qed.

Example decode_overlong : decodeURIComponent (js "%C0%80") = Throw URIError.
Proof. vm_compute. reflexivity. Qed.

Definition exec_source (src : string) (i : bool) (input : string)
  : result (option (list (option jstring))) :=
  re <- RegExp.create (js src) false i;;
  Ok (RegExp.captures <$> RegExp.exec re (js input)).

(** The examples of the ECMAScript specification for backtracking, greedy
    quantifiers and the reset of captures. *)
Example exec_alternatives :
  exec_source "((a)|(ab))((c)|(bc))" false "abc"
  = Ok (Some [Some (js "abc"); Some (js "a"); Some (js "a"); None;
              Some (js "bc"); None; Some (js "bc")]).
Proof. vm_compute. reflexivity. Qed.

Example exec_reset_captures :
  exec_source "(z)((a+)?(b+)?(c))*" false "zaacbbbcac"
  = Ok (Some [Some (js "zaacbbbcac"); Some (js "z"); Some (js "ac"); Some (js "a");
              None; Some (js "c")]).
Proof. vm_compute. reflexivity. Qed.

Example exec_empty_iteration :
  exec_source "(a*)*" false "b" = Ok (Some [Some (js ""); None]).
Proof. vm_compute. reflexivity. Qed.

Example exec_lazy_braces :
  exec_source "a[a-z]{2,4}?" false "abcdefghi" = Ok (Some [Some (js "abc")]).
Proof. vm_compute. reflexivity. Qed.

Example exec_backreference_unmodelled :
  exec_source "(?=(a+))a*b\1" false "baaabac" = Throw Unmodelled.
Proof. vm_compute. reflexivity. Qed.

Example exec_ignore_case :
  exec_source "^\/user\/([^\/]+?)(?:\/(?=$))?$" true "/USER/tj/"
  = Ok (Some [Some (js "/USER/tj/"); Some (js "tj")]).
Proof. vm_compute. reflexivity. Qed.

(** ** Sanity checks of the pattern compiler *)

Lemma PATH_REGEXP_compiles :
  RegExp.create PATH_REGEXP_source true false = Ok PATH_REGEXP.
Proof. vm_compute. reflexivity. Qed.

(** The three examples in the comment above [PATH_REGEXP]. *)
Example parse_named_custom_optional :
  parse (js "/:test(\d+)?")
  = Some [TKey (mkToken (NameStr (js "test")) (js "/") (js "/") true false (js "\d+"))].
Proof. vm_compute. reflexivity. Qed.

Example parse_unnamed_group_and_asterisk :
  parse (js "/route(\d+)/*")
  = Some [TStr (js "/route");
          TKey (mkToken (NameIdx 0) [] (js "/") false false (js "\d+"));
          TKey (mkToken (NameIdx 1) (js "/") (js "/") false false (js ".*"))].
Proof. vm_compute. reflexivity. Qed.

Example parse_user_id :
  parse (js "/user/:id")
  = Some [TStr (js "/user");
          TKey (mkToken (NameStr (js "id")) (js "/") (js "/") false false (js "[^\/]+?"))].
Proof. vm_compute. reflexivity. Qed.

Example source_literal :
  route_source [TStr (js "/a/b")] no_options = js "^\/a\/b(?:\/(?=$))?$".
Proof. vm_compute. reflexivity. Qed.

(* ------------------------------------------------------------------ *)
(** ** The reverse builder (C5) *)
(* ------------------------------------------------------------------ *)

(** [compile(pattern)(data)] *)
Definition toPath (pattern : string) (data : Data) : result jstring :=
  f <- compile (js pattern);; f data.

Lemma build_repeat_throws_at t mre v l :
  v ∈ l ->
  (forall segment, encodeURIComponent v = Ok segment -> matches_test mre segment = false) ->
  forall first path, throws (build_repeat t mre first l path).
Proof.
  intros Hin Hv. induction l as [|a l IH]; intros first path.
  - inversion Hin.
  - simpl. destruct (encodeURIComponent a) as [seg|e] eqn:He; simpl; [|by eexists].
    destruct (matches_test mre seg) eqn:Hm; simpl; [|by eexists].
    apply elem_of_cons in Hin as [->|Hin].
    + rewrite (Hv seg He) in Hm. discriminate.
    + apply IH, Hin.
Qed.

(** What makes the builder throw at a token [t] compiled to [mre]. *)
Definition rejects (t : Token) (mre : option RegExp.t) (data : Data) : Prop :=
  match data (prop_of_name (name t)) with
  | VUndefined => optional t = false
  | VArray l =>
      repeat t = false
      \/ (l = [] /\ optional t = false)
      \/ (exists v, v ∈ l /\ forall segment,
             encodeURIComponent v = Ok segment -> matches_test mre segment = false)
  | VString v =>
      forall segment, encodeURIComponent v = Ok segment -> matches_test mre segment = false
  | VOther str =>
      forall v segment,
        str = Ok v -> encodeURIComponent v = Ok segment -> matches_test mre segment = false
  end.

Lemma build_throws_at tms t mre data :
  (TKey t, mre) ∈ tms -> rejects t mre data ->
  forall path, throws (build tms data path).
Proof.
  intros Hin Hrej. induction tms as [|[tok re] tms IH]; intros path.
  - inversion Hin.
  - apply elem_of_cons in Hin as [Heq|Hin].
    + inversion Heq; subst tok re. clear IH. unfold rejects in Hrej. simpl.
      destruct (data (prop_of_name (name t))) as [|v|l|[v|e]].
      * rewrite Hrej. by eexists.
      * destruct (encodeURIComponent v) as [seg|e] eqn:He; simpl; [|by eexists].
        rewrite (Hrej seg eq_refl). simpl. by eexists.
      * destruct Hrej as [Hr|[[-> Ho]|(v & Hv & Hseg)]].
        -- rewrite Hr. simpl. by eexists.
        -- destruct (repeat t); simpl; [|by eexists]. rewrite Ho. by eexists.
        -- destruct (repeat t); simpl; [|by eexists].
           destruct l as [|a l]; [inversion Hv|].
           destruct (build_repeat_throws_at t mre v (a :: l) Hv Hseg true path) as [e He].
           rewrite He. simpl. by eexists.
      * simpl. destruct (encodeURIComponent v) as [seg|e] eqn:He; simpl; [|by eexists].
        rewrite (Hrej v seg eq_refl He). simpl. by eexists.
      * simpl. by eexists.
    + specialize (IH Hin). destruct tok as [s|k]; simpl; [apply IH|].
      destruct (data (prop_of_name (name k))) as [|v|l|[v|e]].
      * destruct (optional k); [apply IH | by eexists].
      * destruct (encodeURIComponent v) as [seg|e]; simpl; [|by eexists].
        destruct (matches_test re seg); simpl; [apply IH | by eexists].
      * destruct (repeat k); simpl; [|by eexists].
        destruct l as [|a l].
        -- destruct (optional k); [apply IH | by eexists].
        -- destruct (build_repeat k re true (a :: l) path); simpl; [apply IH | by eexists].
      * simpl. destruct (encodeURIComponent v) as [seg|e]; simpl; [|by eexists].
        destruct (matches_test re seg); simpl; [apply IH | by eexists].
      * simpl. by eexists.
Qed.

Lemma compile_tokens_zip tokens matches t :
  compile_tokens tokens = Ok matches -> TKey t ∈ tokens ->
  exists re, RegExp.create (js "^" ++ pattern t ++ js "$") false false = Ok re
             /\ (TKey t, Some re) ∈ zip tokens matches.
Proof.
  revert matches. induction tokens as [|a tokens IH]; intros matches Hc Hin.
  - inversion Hin.
  - simpl in Hc.
    destruct (compile_token a) as [re|] eqn:Ha; simpl in Hc; [|discriminate].
    destruct (compile_tokens tokens) as [res|] eqn:Hr; simpl in Hc; [|discriminate].
    inversion Hc; subst matches. simpl.
    apply elem_of_cons in Hin as [<-|Hin].
    + simpl in Ha.
      destruct (RegExp.create _ false false) as [r|] eqn:Hre; simpl in Ha; [|discriminate].
      inversion Ha; subst re. exists r. split; [reflexivity | left].
    + destruct (IH res eq_refl Hin) as (r & Hre & Hz).
      exists r. split; [exact Hre | right; exact Hz].
Qed.

(** The builder of [/a/:x+]: the token list and the compiled patterns. *)
Definition repeat_x : Token :=
  mkToken (NameStr (js "x")) (js "/") (js "/") false true (js "[^\/]+?").

Lemma compile_repeat_x :
  exists re,
    RegExp.create (js "^" ++ pattern repeat_x ++ js "$") false false = Ok re
    /\ forall data,
         toPath "/a/:x+" data = build [(TStr (js "/a"), None); (TKey repeat_x, Some re)] data [].
Proof.
  destruct (RegExp.create (js "^" ++ pattern repeat_x ++ js "$") false false) as [re|e] eqn:Hre;
    [|vm_compute in Hre; discriminate].
  exists re. split; [reflexivity|]. intros data.
  assert (Hp : parse (js "/a/:x+") = Some [TStr (js "/a"); TKey repeat_x])
    by (vm_compute; reflexivity).
  unfold toPath, compile. rewrite Hp. unfold tokensToFunction.
  cbn [compile_tokens compile_token bind]. rewrite Hre. reflexivity.
Qed.

(** The value [{x: '1'}] for the repeating [:x+] is not rejected: the claim
    as written, that a non-array given for a repeat token throws, fails. *)
Lemma C5_scalar_for_repeat_accepted :
  toPath "/a/:x+" (obj {[ js "x" := VString (js "1") ]}) = Ok (js "/a/1")
  /\ ~ throws (toPath "/a/:x+" (obj {[ js "x" := VString (js "1") ]})).
Proof.
  assert (H : toPath "/a/:x+" (obj {[ js "x" := VString (js "1") ]}) = Ok (js "/a/1"))
    by (vm_compute; reflexivity).
  split; [exact H|]. rewrite H. intros [e He]. discriminate.
Qed.

(** C5, as the code has it. For [/a/:x+] the builder returns [/a/1/2] for
    every object whose [x] reads [['1','2']], throws for one whose [x] reads
    [[]], and returns [/a/1] for one whose [x] reads ['1']. For every token
    list that compiles and every key token [t] in it, the builder throws
    whenever reading [data[t.name]], own or inherited, gives [undefined] and
    [t] is required, gives an array and [t] does not repeat, gives the empty
    array and [t] is required, or gives a value (or an array holding a value)
    whose encoding fails the sub-pattern of [t]. A string given for a
    repeating token is not an error: it is embedded as one segment. *)
Theorem C5_builder_validation :
  (forall data, data (js "x") = VArray [js "1"; js "2"] ->
     toPath "/a/:x+" data = Ok (js "/a/1/2"))
  /\ (forall data, data (js "x") = VArray [] ->
        toPath "/a/:x+" data
        = Throw (TypeError (js "Expected " ++ dquote ++ js "x" ++ dquote
                            ++ js " to not be empty")))
  /\ (forall data, data (js "x") = VString (js "1") ->
        toPath "/a/:x+" data = Ok (js "/a/1"))
  /\ (forall tokens f t data,
        tokensToFunction tokens = Ok f ->
        TKey t ∈ tokens ->
        let v := data (prop_of_name (name t)) in
        (v = VUndefined /\ optional t = false)
        \/ (exists l, v = VArray l /\ repeat t = false)
        \/ (v = VArray [] /\ optional t = false)
        \/ (exists s segment re,
              (v = VString s \/ v = VOther (Ok s) \/ exists l, v = VArray l /\ s ∈ l)
              /\ encodeURIComponent s = Ok segment
              /\ RegExp.create (js "^" ++ pattern t ++ js "$") false false = Ok re
              /\ RegExp.test re segment = false) ->
        throws (f data)).
Proof.
  destruct compile_repeat_x as (re & Hre & Hb).
  assert (Hx : prop_of_name (name repeat_x) = js "x") by reflexivity.
  split.
  { intros data Hd. rewrite Hb. cbn [build]. rewrite Hx, Hd.
    vm_compute in Hre. injection Hre as <-. vm_compute. reflexivity. }
  split.
  { intros data Hd. rewrite Hb. cbn [build]. rewrite Hx, Hd. reflexivity. }
  split.
  { intros data Hd. rewrite Hb. cbn [build]. rewrite Hx, Hd.
    vm_compute in Hre. injection Hre as <-. vm_compute. reflexivity. }
  clear re Hre Hb Hx.
  intros tokens f t data Hf Hin v Hcase.
  unfold tokensToFunction in Hf.
  destruct (compile_tokens tokens) as [matches|] eqn:Hc; simpl in Hf; [|discriminate].
  inversion Hf; subst f; clear Hf.
  destruct (compile_tokens_zip tokens matches t Hc Hin) as (re & Hre & Hz).
  apply (build_throws_at _ t (Some re) data Hz). unfold rejects. fold v.
  destruct Hcase as [[-> Ho]|[(l & -> & Hr)|[[-> Ho]|(s & seg & re' & Hv & He & Hre' & Ht)]]].
  - exact Ho.
  - left. exact Hr.
  - right. left. split; [reflexivity | exact Ho].
  - rewrite Hre in Hre'. inversion Hre'; subst re'.
    assert (Hs : forall segment, encodeURIComponent s = Ok segment ->
                                 matches_test (Some re) segment = false).
    { intros segment He'. rewrite He in He'. inversion He'; subst. exact Ht. }
    destruct Hv as [->|[->|(l & -> & Hl)]].
    + exact Hs.
    + intros v' segment Hv'. injection Hv' as <-. exact (Hs segment).
    + right. right. exists s. split; [exact Hl | exact Hs].
Qed.

(** An instance: the required [:id] of [/user/:id] is missing. *)
Lemma C5_builder_validation_witness :
  throws (toPath "/user/:id" (obj ∅)).
Proof.
  pose (t := mkToken (NameStr (js "id")) (js "/") (js "/") false false (js "[^\/]+?")).
  pose (tokens := [TStr (js "/user"); TKey t]).
  assert (Hp : parse (js "/user/:id") = Some tokens) by (vm_compute; reflexivity).
  destruct (compile_tokens tokens) as [ms|e] eqn:Hc; [|vm_compute in Hc; discriminate].
  assert (Hf : tokensToFunction tokens = Ok (fun data => build (zip tokens ms) data [])).
  { unfold tokensToFunction. rewrite Hc. reflexivity. }
  assert (Ht : toPath "/user/:id" (obj ∅) = build (zip tokens ms) (obj ∅) []).
  { unfold toPath, compile. rewrite Hp, Hf. reflexivity. }
  rewrite Ht.
  apply (proj2 (proj2 (proj2 C5_builder_validation)) tokens _ t (obj ∅) Hf).
  - apply elem_of_cons; right; apply elem_of_cons; left; reflexivity.
  - left. split; reflexivity.
Defined.

(** An object literal [{}] read at [constructor]: the property comes from
    [Object.prototype] and is a function, whose conversion to a string the
    builder embeds. Every other key reads [undefined] here. *)
Definition empty_literal : Data :=
  fun k =>
    if bool_decide (k = js "constructor")
    then VOther (Ok (js "function Object() { [native code] }"))
    else VUndefined.

(** What the object inherits is not missing: [compile('/:constructor')({})]
    returns a path, while [compile('/:id')({})] throws. *)
Lemma inherited_property_is_read :
  toPath "/:constructor" empty_literal
  = Ok (js "/function%20Object()%20%7B%20%5Bnative%20code%5D%20%7D")
  /\ throws (toPath "/:id" empty_literal).
Proof. split; [vm_compute; reflexivity | eexists; vm_compute; reflexivity]. Qed.

(* ------------------------------------------------------------------ *)
(** ** Malformed percent-encoding (C2) *)
(* ------------------------------------------------------------------ *)

(** Does [s] start with two hexadecimal digits? *)
Definition two_hex (s : jstring) : bool :=
  match s with
  | a :: b :: _ => bool_decide (is_Some (hexval a)) && bool_decide (is_Some (hexval b))
  | _ => false
  end.

(** [s] holds a percent sign that is not followed by two hexadecimal
    digits. *)
Definition bad_escape (s : jstring) : Prop :=
  exists pre post, s = pre ++ 37 :: post /\ two_hex post = false.

Lemma hexval_percent : hexval 37 = None.
Proof. reflexivity. Qed.

Lemma read_escapes_bad_aux (n : nat) :
  forall pre post, (length pre <= n)%nat -> two_hex post = false ->
  read_escapes (pre ++ 37 :: post) = Throw URIError.
Proof.
  induction n as [n IH] using lt_wf_ind. intros pre post Hn Hbad.
  destruct pre as [|c pre].
  - simpl. destruct post as [|a [|b post]]; try reflexivity.
    simpl in Hbad.
    destruct (hexval a); [|reflexivity].
    destruct (hexval b); [|reflexivity].
    rewrite !bool_decide_eq_true_2 in Hbad by eauto. discriminate.
  - simpl in Hn. simpl.
    destruct (c =? 37) eqn:Hc.
    + destruct pre as [|a [|b pre]]; simpl.
      * destruct post; reflexivity.
      * destruct (hexval a); reflexivity.
      * destruct (hexval a); [|reflexivity]. destruct (hexval b); [|reflexivity].
        rewrite (IH (length pre)); [reflexivity | simpl in Hn; lia | lia | exact Hbad].
    + rewrite (IH (length pre)); [reflexivity | lia | lia | exact Hbad].
Qed.

Lemma decodeURIComponent_bad s :
  bad_escape s -> decodeURIComponent s = Throw URIError.
Proof.
  intros (pre & post & -> & Hbad). unfold decodeURIComponent.
  rewrite (read_escapes_bad_aux (length pre)); [reflexivity | lia | exact Hbad].
Qed.

Lemma hexval_plus_to_space c :
  hexval (if c =? 43 then 32 else c) = hexval c.
Proof. destruct (N.eqb_spec c 43) as [->|]; reflexivity. Qed.

Lemma bad_escape_plus_to_space s : bad_escape s -> bad_escape (plus_to_space s).
Proof.
  intros (pre & post & -> & Hbad).
  exists (plus_to_space pre), (plus_to_space post). split.
  - unfold plus_to_space. rewrite fmap_app. reflexivity.
  - destruct post as [|a [|b post]]; try reflexivity.
    simpl in *. rewrite !hexval_plus_to_space. exact Hbad.
Qed.

Definition a_location : Location := mkLocation (js "/") [] [] (js "http:").


Definition show_in (w : result World) (fuel : nat) (p : string) : result (outcome CtxRef) :=
  w <- w;; Ok (show fuel (js p) None None None w).


(* ------------------------------------------------------------------ *)
(** ** What [Route.match] writes into [params] (C7, C10) *)
(* ------------------------------------------------------------------ *)

(** The rule for one captured group, in the words of the specification: the
    group is written under its key, except that a key already present is
    kept when the new value is undefined. The writing is an assignment to a
    property of a plain object. *)
Definition write_group (p : Params) (kv : jstring * option jstring) : Params :=
  match kv.2, p !! kv.1 with
  | None, Some _ => p
  | _, _ => params_set p kv.1 kv.2
  end.

Definition key_names (r : Route) : list jstring :=
  (fun k => prop_of_name (name k)) <$> r_keys r.

(** [vals] are the captured groups after [_decodeURLEncodedURIComponent]. *)
Definition decoded_as (decode : bool) (caps vals : list (option jstring)) : Prop :=
  Forall2 (fun c v => _decodeURLEncodedURIComponent decode c = Ok v) caps vals.

Lemma match_loop_spec decode caps :
  forall keys params params',
  match_loop decode caps keys params = (Ok tt, params') ->
  exists vals,
    decoded_as decode caps vals
    /\ (length caps <= length keys)%nat
    /\ params' = foldl write_group params
                   (zip ((fun k => prop_of_name (name k)) <$> keys) vals).
Proof.
  induction caps as [|mi caps IH]; intros keys params params' H.
  - simpl in H. inversion H; subst. exists []. repeat split.
    + constructor.
    + simpl; lia.
    + destruct keys; reflexivity.
  - simpl in H.
    destruct (_decodeURLEncodedURIComponent decode mi) as [val|e] eqn:Hd; [|inversion H].
    destruct keys as [|key keys]; [inversion H|].
    set (k := prop_of_name (name key)) in *.
    assert (Hw : exists write,
               (if bool_decide (val ≠ None) then Ok true
                else b <- params_hasOwnProperty params k;; Ok (negb b)) = Ok write
               /\ (if write then params_set params k val else params)
                  = match val, params !! k with
                    | None, Some _ => params
                    | _, _ => params_set params k val
                    end).
    { destruct val as [v|].
      - exists true. split; reflexivity.
      - rewrite bool_decide_eq_false_2 in H |- * by (intros Hn; apply Hn; reflexivity).
        unfold params_hasOwnProperty in H |- *.
        destruct (bool_decide (is_Some (params !! js "hasOwnProperty"))); [inversion H|].
        cbn [bind]. eexists. split; [reflexivity|].
        destruct (params !! k) eqn:Hk.
        + rewrite bool_decide_eq_true_2 by eauto. reflexivity.
        + rewrite bool_decide_eq_false_2 by (intros [? ?]; discriminate). reflexivity. }
    destruct Hw as (write & Hw1 & Hw). rewrite Hw1 in H. rewrite Hw in H. clear Hw1.
    apply IH in H as (vals & Hvals & Hlen & ->).
    exists (val :: vals). repeat split.
    + constructor; assumption.
    + simpl; lia.
Qed.

Lemma Route_match_true decode r path params params' :
  Route_match decode r path params = (Ok true, params') ->
  exists decoded res vals,
    decodeURIComponent (pathname_of path) = Ok decoded
    /\ RegExp.exec (r_regexp r) decoded = Some res
    /\ decoded_as decode (drop 1 (RegExp.captures res)) vals
    /\ (length vals <= length (r_keys r))%nat
    /\ params' = foldl write_group (delete (js "0") params) (zip (key_names r) vals).
Proof.
  unfold Route_match. intros H.
  destruct (decodeURIComponent (pathname_of path)) as [decoded|e]; [|inversion H].
  destruct (RegExp.exec (r_regexp r) decoded) as [res|] eqn:Hex; [|inversion H].
  destruct (match_loop decode (drop 1 (RegExp.captures res)) (r_keys r)
              (delete (js "0") params)) as [[[]|e] ps] eqn:Hl; [|inversion H].
  inversion H; subst ps.
  apply match_loop_spec in Hl as (vals & Hv & Hlen & ->).
  exists decoded, res, vals. repeat split; try assumption.
  rewrite <- (Forall2_length _ _ _ Hv). exact Hlen.
Qed.

Lemma Route_match_false decode r path params params' :
  Route_match decode r path params = (Ok false, params') ->
  params' = delete (js "0") params.
Proof.
  unfold Route_match. intros H.
  destruct (decodeURIComponent (pathname_of path)) as [decoded|e]; [|inversion H].
  destruct (RegExp.exec (r_regexp r) decoded) as [res|]; [|inversion H; reflexivity].
  destruct (match_loop decode (drop 1 (RegExp.captures res)) (r_keys r)
              (delete (js "0") params)) as [[[]|e] ps]; inversion H.
Qed.

Lemma params_set_other p k k' v :
  k' ≠ k -> params_set p k' v !! k = p !! k.
Proof.
  intros Hne. unfold params_set. destruct (_ && _); [reflexivity|].
  apply lookup_insert_ne, Hne.
Qed.

Lemma params_set_insert p k v :
  k ≠ js "__proto__" -> params_set p k v = <[k := v]> p.
Proof.
  intros Hk. unfold params_set. rewrite (bool_decide_eq_false_2 _ Hk). reflexivity.
Qed.

Lemma write_group_other p k kv :
  kv.1 ≠ k -> write_group p kv !! k = p !! k.
Proof.
  intros Hne. unfold write_group.
  destruct (kv.2), (p !! kv.1); try reflexivity; apply params_set_other, Hne.
Qed.

Lemma foldl_write_group_other kvs :
  forall p k, k ∉ kvs.*1 -> foldl write_group p kvs !! k = p !! k.
Proof.
  induction kvs as [|kv kvs IH]; intros p k Hk; [reflexivity|].
  simpl. rewrite fmap_cons in Hk. apply not_elem_of_cons in Hk as [Hne Hk].
  rewrite IH by exact Hk. apply write_group_other. congruence.
Qed.

(** The value under [k] after the rule is applied to [(k, v)]. *)
Definition written (p : Params) (k : jstring) (v : option jstring)
  : option (option jstring) :=
  match p !! k with
  | Some old =>
      match v with
      | Some s => Some (Some s)           (* a defined value overwrites *)
      | None => Some old                  (* present: kept *)
      end
  | None =>
      if bool_decide (k = js "__proto__")
      then None                           (* the setter of [Object.prototype]: no property *)
      else Some v                         (* absent: written, also as [undefined] *)
  end.

Lemma write_group_same p k v : write_group p (k, v) !! k = written p k v.
Proof.
  unfold write_group, written, params_set; simpl.
  destruct (p !! k) as [old|] eqn:Hk.
  - rewrite (bool_decide_eq_true_2 (is_Some (Some old))) by eauto.
    rewrite andb_false_r. destruct v as [s|]; [apply lookup_insert_eq | exact Hk].
  - rewrite (bool_decide_eq_false_2 (is_Some None)) by (intros [? ?]; discriminate).
    rewrite andb_true_r. destruct (bool_decide (k = js "__proto__")).
    + destruct v; exact Hk.
    + destruct v; apply lookup_insert_eq.
Qed.

Lemma foldl_write_group_once kvs i k v p :
  kvs !! i = Some (k, v) ->
  (forall j kv, kvs !! j = Some kv -> j ≠ i -> kv.1 ≠ k) ->
  foldl write_group p kvs !! k = written p k v.
Proof.
  intros Hi Huniq.
  rewrite <- (take_drop_middle kvs i (k, v) Hi).
  rewrite foldl_app. simpl.
  rewrite foldl_write_group_other.
  - rewrite write_group_same. unfold written.
    rewrite foldl_write_group_other; [reflexivity|].
    intros Hin. apply list_elem_of_fmap in Hin as (kv & Hk & Hin).
    apply list_elem_of_lookup in Hin as (j & Hj).
    apply lookup_take_Some in Hj as [Hj Hlt].
    apply (Huniq j kv Hj); [lia | congruence].
  - intros Hin. apply list_elem_of_fmap in Hin as (kv & Hk & Hin).
    apply list_elem_of_lookup in Hin as (j & Hj).
    rewrite lookup_drop in Hj.
    apply (Huniq _ kv Hj); [lia | congruence].
Qed.

(** Three calls at which the claim as written fails. A route with an
    optional unnamed group, matched against [/a] with [params] holding
    [0: 'old']: the group did not take part in the match, the key 0 was
    present, and yet it ends up [undefined]. A route with a key named
    [__proto__], matched against [/a] with empty [params]: the key is absent,
    the captured value is defined, and nothing is written. A route with an
    optional key, matched against [/a] with [params] holding an own
    [hasOwnProperty]: the call throws instead of keeping or writing. *)
Lemma C7_groups_not_written_as_claimed :
  (exists r,
     Route_new (PString (js "/a/(\d+)?")) false = Ok r
     /\ key_names r = [js "0"]
     /\ Route_match true r (js "/a") {[ js "0" := Some (js "old") ]}
        = (Ok true, {[ js "0" := None ]}))
  /\ (exists r,
        Route_new (PString (js "/:__proto__")) false = Ok r
        /\ key_names r = [js "__proto__"]
        /\ Route_match true r (js "/a") ∅ = (Ok true, ∅))
  /\ (exists r,
        Route_new (PString (js "/a/:x?")) false = Ok r
        /\ key_names r = [js "x"]
        /\ Route_match true r (js "/a") {[ js "hasOwnProperty" := Some (js "h") ]}
           = (Throw (TypeError (js "params.hasOwnProperty is not a function")),
              {[ js "hasOwnProperty" := Some (js "h") ]})).
Proof.
  split; [|split].
  - destruct (Route_new (PString (js "/a/(\d+)?")) false) as [r|e] eqn:Hr;
      [|vm_compute in Hr; discriminate].
    exists r. split; [reflexivity|].
    vm_compute in Hr. inversion Hr; subst r.
    split; vm_compute; reflexivity.
  - destruct (Route_new (PString (js "/:__proto__")) false) as [r|e] eqn:Hr;
      [|vm_compute in Hr; discriminate].
    exists r. split; [reflexivity|].
    vm_compute in Hr. inversion Hr; subst r.
    split; vm_compute; reflexivity.
  - destruct (Route_new (PString (js "/a/:x?")) false) as [r|e] eqn:Hr;
      [|vm_compute in Hr; discriminate].
    exists r. split; [reflexivity|].
    vm_compute in Hr. inversion Hr; subst r.
    split; vm_compute; reflexivity.
Qed.

(** C7, as the code has it. When [Route.match] returns [true], [params] is
    the result of applying the rule to each captured group in turn,
    starting from [params] without the key 0 (which is deleted first, so a
    value under 0 from an earlier route is never kept). For a key that names
    exactly one group: a defined value overwrites a present key, an
    undefined value leaves a present key as it is, and an absent key is
    written, also with an undefined value, unless it is named [__proto__],
    which is never written. Keys that name no group keep their value. When
    the first group is undefined while [params] has an own property
    [hasOwnProperty], the call does not return: it throws [TypeError]. *)
Theorem C7_match_writes_params decode r path params :
  (forall params',
     Route_match decode r path params = (Ok true, params') ->
     exists decoded res vals,
       decodeURIComponent (pathname_of path) = Ok decoded
       /\ RegExp.exec (r_regexp r) decoded = Some res
       /\ decoded_as decode (drop 1 (RegExp.captures res)) vals
       /\ params' = foldl write_group (delete (js "0") params) (zip (key_names r) vals)
       /\ (forall i k v,
             key_names r !! i = Some k -> vals !! i = Some v ->
             (forall j, j ≠ i -> (j < length vals)%nat -> key_names r !! j ≠ Some k) ->
             params' !! k = written (delete (js "0") params) k v)
       /\ (forall k,
             k ∉ take (length vals) (key_names r) ->
             params' !! k = delete (js "0") params !! k))
  /\ (forall decoded res key keys,
        decodeURIComponent (pathname_of path) = Ok decoded ->
        RegExp.exec (r_regexp r) decoded = Some res ->
        RegExp.captures res !! 1%nat = Some None ->
        r_keys r = key :: keys ->
        is_Some (params !! js "hasOwnProperty") ->
        Route_match decode r path params
        = (Throw (TypeError (js "params.hasOwnProperty is not a function")),
           delete (js "0") params)).
Proof.
  split.
  - intros params' H.
    apply Route_match_true in H as (decoded & res & vals & Hd & Hex & Hv & Hlen & ->).
    exists decoded, res, vals. repeat split; try assumption.
    + intros i k v Hk Hvi Huniq.
      apply (foldl_write_group_once _ i).
      * apply lookup_zip_with_Some. eauto.
      * intros j [k' v'] Hj Hne. simpl.
        apply lookup_zip_with_Some in Hj as (a & b & Heq & Ha & Hb). inversion Heq; subst a b.
        intros ->. apply (Huniq j Hne); [|exact Ha].
        apply lookup_lt_Some in Hb. exact Hb.
    + intros k Hk. apply foldl_write_group_other.
      intros Hin. apply Hk.
      apply list_elem_of_fmap in Hin as ([k' v'] & -> & Hin). simpl.
      apply list_elem_of_lookup in Hin as (j & Hj).
      apply lookup_zip_with_Some in Hj as (a & b & Heq & Ha & Hb). inversion Heq; subst a b.
      apply elem_of_take. exists j. split; [exact Ha|].
      apply lookup_lt_Some in Hb. exact Hb.
  - intros decoded res key keys Hd Hex Hcap Hkeys Hown.
    unfold Route_match. rewrite Hd, Hex, Hkeys.
    destruct (RegExp.captures res) as [|c0 [|c1 caps]]; try discriminate.
    injection Hcap as ->. cbn [drop match_loop _decodeURLEncodedURIComponent].
    rewrite bool_decide_eq_false_2 by (intros Hn; apply Hn; reflexivity).
    unfold params_hasOwnProperty.
    rewrite lookup_delete_ne by discriminate.
    rewrite (bool_decide_eq_true_2 _ Hown). reflexivity.
Qed.

Definition user_route : result Route := Route_new (PString (js "/user/:id/:tab?")) false.

(** An instance: [/user/:id/:tab?] against [/user/tj], where [tab] was set
    by an earlier route and [id] is new. *)
Lemma C7_match_writes_params_witness :
  exists r params',
    user_route = Ok r
    /\ Route_match true r (js "/user/tj") {[ js "tab" := Some (js "posts") ]}
       = (Ok true, params')
    /\ params' !! js "id" = Some (Some (js "tj"))
    /\ params' !! js "tab" = Some (Some (js "posts")).
Proof.
  destruct user_route as [r|e] eqn:Hr; [|vm_compute in Hr; discriminate].
  vm_compute in Hr. inversion Hr; subst r; clear Hr.
  match goal with |- exists r params', Ok ?R = Ok r /\ _ => set (r := R) end.
  pose (params := ({[ js "tab" := Some (js "posts") ]} : Params)).
  destruct (Route_match true r (js "/user/tj") params) as [[[|]|e] params'] eqn:Hm;
    try (vm_compute in Hm; discriminate).
  exists r, params'. split; [reflexivity|]. split; [exact Hm|].
  destruct (proj1 (C7_match_writes_params true r (js "/user/tj") params) params' Hm)
    as (decoded & res & vals & Hd & Hex & Hv & _ & Hkey & _).
  vm_compute in Hd. inversion Hd; subst decoded; clear Hd.
  vm_compute in Hex. inversion Hex; subst res; clear Hex.
  simpl in Hv.
  inversion Hv as [|c1 v1 cs1 vs1 H1 Hv1]; subst.
  inversion Hv1 as [|c2 v2 cs2 vs2 H2 Hv2]; subst.
  inversion Hv2; subst.
  vm_compute in H1. inversion H1; subst v1.
  vm_compute in H2. inversion H2; subst v2.
  split.
  - rewrite (Hkey 0%nat (js "id") (Some (js "tj")) eq_refl eq_refl); [reflexivity|].
    intros [|[|j]] Hne Hlt; simpl in *; try lia; discriminate.
  - rewrite (Hkey 1%nat (js "tab") None eq_refl eq_refl); [reflexivity|].
    intros [|[|j]] Hne Hlt; simpl in *; try lia; discriminate.
Defined.

(** A path that cannot be decoded, against a route without keys: the call
    throws before the [delete] is reached and the key 0 is still there. The
    claim as written, for every call, fails. *)
Lemma C10_key_0_survives_a_throw :
  exists r,
    Route_new (PString (js "/x")) false = Ok r
    /\ key_names r = []
    /\ Route_match true r (js "/%") {[ js "0" := Some (js "old") ]}
       = (Throw URIError, {[ js "0" := Some (js "old") ]})
    /\ ({[ js "0" := Some (js "old") ]} : Params) !! js "0" = Some (Some (js "old")).
Proof.
  destruct (Route_new (PString (js "/x")) false) as [r|e] eqn:Hr;
    [|vm_compute in Hr; discriminate].
  exists r. split; [reflexivity|].
  vm_compute in Hr. inversion Hr; subst r.
  split; [reflexivity|]. split; [reflexivity | apply lookup_singleton_eq].
Qed.

(** C10, as the code has it. The pathname is decoded and the expression run
    first, then the key 0 is deleted, then the result is looked at. So
    whenever [Route.match] returns, [params] has lost its key 0: when the
    result is [false], [params] is exactly the former one without the key 0,
    every other key unchanged; and a key 0 present afterwards was written by
    this route, for one of its own groups. When the pathname cannot be
    decoded the call throws and [params] is as before, key 0 included. *)
Theorem C10_match_deletes_key_0 decode r path params :
  (forall b params',
     Route_match decode r path params = (Ok b, params') ->
     (b = false ->
        params' = delete (js "0") params
        /\ params' !! js "0" = None
        /\ forall k, k ≠ js "0" -> params' !! k = params !! k)
     /\ (is_Some (params' !! js "0") ->
           b = true
           /\ exists i key,
                r_keys r !! i = Some key
                /\ prop_of_name (name key) = js "0"))
  /\ (forall e,
        decodeURIComponent (pathname_of path) = Throw e ->
        Route_match decode r path params = (Throw e, params)).
Proof.
  split.
  - intros b params' H. split.
    + intros ->. apply Route_match_false in H as ->.
      split; [reflexivity|]. split; [apply lookup_delete_eq|].
      intros k Hk. apply lookup_delete_ne. congruence.
    + intros Hsome. destruct b.
      * split; [reflexivity|].
        apply Route_match_true in H as (decoded & res & vals & _ & _ & _ & _ & ->).
        destruct (decide (js "0" ∈ (zip (key_names r) vals).*1)) as [Hin|Hnin].
        -- apply list_elem_of_fmap in Hin as ([k v] & Hk & Hin). simpl in Hk. subst k.
           apply list_elem_of_lookup in Hin as (i & Hi).
           apply lookup_zip_with_Some in Hi as (a & c & Heq & Ha & Hc).
           inversion Heq; subst a c.
           unfold key_names in Ha. rewrite list_lookup_fmap in Ha.
           destruct (r_keys r !! i) as [key|] eqn:Hkey; [|discriminate].
           simpl in Ha. exists i, key. split; [exact Hkey | congruence].
        -- rewrite (foldl_write_group_other _ _ _ Hnin), lookup_delete_eq in Hsome.
           destruct Hsome as [? ?]; discriminate.
      * apply Route_match_false in H as ->. rewrite lookup_delete_eq in Hsome.
        destruct Hsome as [? ?]; discriminate.
  - intros e He. unfold Route_match. rewrite He. reflexivity.
Qed.

(** An instance: the route [/x] does not match [/y]; the key 0 left by an
    earlier route is gone and the other key is untouched. *)
Lemma C10_match_deletes_key_0_witness :
  exists r params',
    Route_new (PString (js "/x")) false = Ok r
    /\ Route_match true r (js "/y")
         {[ js "0" := Some (js "/y"); js "k" := Some (js "v") ]} = (Ok false, params')
    /\ params' !! js "0" = None
    /\ params' !! js "k" = Some (Some (js "v")).
Proof.
  destruct (Route_new (PString (js "/x")) false) as [r|e] eqn:Hr;
    [|vm_compute in Hr; discriminate].
  pose (params := ({[ js "0" := Some (js "/y"); js "k" := Some (js "v") ]} : Params)).
  destruct (Route_match true r (js "/y") params) as [[[|]|e] params'] eqn:Hm;
    try (vm_compute in Hr; inversion Hr; subst r; vm_compute in Hm; discriminate).
  exists r, params'. split; [reflexivity|]. split; [exact Hm|].
  destruct (proj1 (C10_match_deletes_key_0 true r (js "/y") params) false params' Hm)
    as [Hfalse _].
  destruct (Hfalse eq_refl) as (_ & H0 & Hother).
  split; [exact H0|].
  rewrite Hother by (intros Heq; vm_compute in Heq; discriminate).
  reflexivity.
Defined.

(* ------------------------------------------------------------------ *)
(** ** [back] (C8) *)
(* ------------------------------------------------------------------ *)

(** The integers up to [2^53] in absolute value are doubles. *)
Lemma round_to_double_exact z :
  (- 2 ^ 53 <= z <= 2 ^ 53)%Z -> round_to_double z = z.
Proof.
  intros Hz. unfold round_to_double.
  destruct (Z.ltb_spec (Z.abs z) (2 ^ 53)) as [Hlt|Hge]; [reflexivity|].
  assert (Hcase : z = (2 ^ 53)%Z \/ z = (- 2 ^ 53)%Z) by lia.
  destruct Hcase as [-> | ->]; vm_compute; reflexivity.
Qed.

Lemma number_incr_exact n :
  (- 2 ^ 53 <= n < 2 ^ 53)%Z -> number_incr n = (n + 1)%Z.
Proof. intros Hn. apply round_to_double_exact. lia. Qed.

Lemma number_decr_exact n :
  (- 2 ^ 53 < n <= 2 ^ 53)%Z -> number_decr n = (n - 1)%Z.
Proof. intros Hn. apply round_to_double_exact. lia. Qed.



Definition world_with_len (n : Z) : World :=
  with_page (set_len n) (new_World a_location).




(* ------------------------------------------------------------------ *)
(** ** [show] without dispatch (C9) *)
(* ------------------------------------------------------------------ *)

Ltac bind_inv H :=
  repeat match type of H with
         | bind ?x _ = Ok _ =>
             let a := fresh "a" in
             destruct x as [a|] eqn:?; cbn [bind] in H; [|discriminate H]
         end.

Lemma Context_new_handled p st w ctx :
  Context_new p st w = Ok ctx -> handled ctx = None.
Proof.
  intros H. cbv beta zeta delta [Context_new] in H.
  bind_inv H.
  destruct (_ || _) in H.
  - inversion H; reflexivity.
  - bind_inv H. inversion H; reflexivity.
Qed.

(** [len] is a JavaScript number: at [2^53] adding one gives [2^53] again.
    [show('/about', undefined, false)] in such a state pushes its history
    entry and leaves [len] where it was: the claim as written, that [len] is
    incremented by one for every call, fails there. *)
Lemma C9_len_not_incremented :
  exists w',
    show 1 (js "/about") None (Some false) None (world_with_len (2 ^ 53)) = Ret 0%nat w'
    /\ calls w' = [PushState {[ js "path" := js "/about" ]} [] (js "/about")]
    /\ len (page w') = (2 ^ 53)%Z
    /\ len (page w') <> (len (page (world_with_len (2 ^ 53))) + 1)%Z.
Proof.
  eexists. split; [vm_compute; reflexivity|].
  split; [reflexivity|]. split; [reflexivity | vm_compute; discriminate].
Qed.

(** C9, as the code has it. [show(path, state, false, push)] with [push] not
    [false], for a path of which the context can be built: no dispatch takes
    place (no closure is made, no middleware is invoked), the context is
    returned with [handled] unset, and because unset is not [false],
    [pushState] runs: one history entry is pushed and [len] is incremented
    as a JavaScript number is, which is by exactly one when [len] is an
    integer from [-2^53] to [2^53 - 1]. *)
Theorem C9_show_without_dispatch fuel p st push w ctx :
  push ≠ Some false ->
  Context_new p st w = Ok ctx ->
  exists w',
    show (S fuel) p st (Some false) push w = Ret (length (ctxs w)) w'
    /\ ctxs w' = ctxs w ++ [ctx]
    /\ handled ctx = None
    /\ len (page w') = number_incr (len (page w))
    /\ ((- 2 ^ 53 <= len (page w) < 2 ^ 53)%Z -> len (page w') = (len (page w) + 1)%Z)
    /\ calls w' = calls w ++ [PushState (state ctx) (title ctx) (history_url w ctx)]
    /\ current (page w') = path ctx
    /\ frames w' = frames w
    /\ trace w' = trace w.
Proof.
  intros Hpush Hctx. pose proof (Context_new_handled _ _ _ _ Hctx) as Hh.
  simpl. rewrite Hctx. simpl.
  rewrite lookup_app_r by lia. rewrite Nat.sub_diag. simpl.
  rewrite Hh. simpl.
  rewrite (bool_decide_eq_false_2 (push = Some false)) by exact Hpush. simpl.
  eexists. split; [reflexivity|]. repeat split.
  intros Hsafe. apply number_incr_exact. exact Hsafe.
Qed.

Lemma C9_show_without_dispatch_witness :
  exists w',
    show 1 (js "/about") None (Some false) None (new_World a_location) = Ret 0%nat w'
    /\ len (page w') = 1%Z
    /\ calls w' = [PushState {[ js "path" := js "/about" ]} [] (js "/about")].
Proof.
  destruct (Context_new (js "/about") None (new_World a_location)) as [ctx|e] eqn:Hc;
    [|vm_compute in Hc; discriminate].
  destruct (C9_show_without_dispatch 0 (js "/about") None None (new_World a_location) ctx
              ltac:(discriminate) Hc)
    as (w' & Hs & _ & _ & _ & Hl & Hcalls & _).
  exists w'. split; [exact Hs|]. split; [apply Hl; simpl; lia|].
  rewrite Hcalls. vm_compute in Hc. inversion Hc; subst ctx. reflexivity.
Defined.

(* ------------------------------------------------------------------ *)
(** ** The dispatch engine: what every run preserves *)
(* ------------------------------------------------------------------ *)

Definition frame_of (e : Event) : FrameRef :=
  match e with EvInvoke _ d _ | EvHandler _ d _ => d end.
Definition phase_of (e : Event) : Phase :=
  match e with EvInvoke ph _ _ | EvHandler ph _ _ => ph end.

(** [e] records a middleware or handler of phase [ph] of the dispatch [d]. *)
Definition is_ev (ph : Phase) (d : FrameRef) (e : Event) : Prop :=
  frame_of e = d /\ phase_of e = ph.

Definition entered (d : FrameRef) (tr : list Event) : Prop :=
  exists e, e ∈ tr /\ is_ev Enter d e.
Definition exited (d : FrameRef) (tr : list Event) : Prop :=
  exists e, e ∈ tr /\ is_ev Exit d e.

(** Every exit event of [d] comes strictly before every enter event of [d]. *)
Definition exits_first (d : FrameRef) (tr : list Event) : Prop :=
  forall i j e1 e2,
    tr !! i = Some e1 -> tr !! j = Some e2 ->
    is_ev Exit d e1 -> is_ev Enter d e2 -> (i < j)%nat.

(** The exit cursor of the closure is past the end of the exit list (or the
    closure has no exit phase at all). *)
Definition enter_ready (w : World) (fr : Frame) : Prop :=
  f_prev fr = None \/ (length (exits (page w)) < f_j fr)%nat.

Definition ready (d : FrameRef) (w : World) : Prop :=
  exists fr, frames w !! d = Some fr /\ enter_ready w fr.

Section Tracked.

(** The closures the invariant speaks of. Nothing is asked of the others:
    for the empty set the invariant holds in every world, and for the
    closures made from some point of a session on it holds at that point
    whatever came before. *)
Variable T : FrameRef -> Prop.

(** What must hold when a continuation is called. *)
Definition pre_call (k : Cont) (w : World) : Prop :=
  T (frame_of_cont k) ->
  (frame_of_cont k < length (frames w))%nat
  /\ match k with
     | KExit _ => True
     | KEnter d => ready d w
     end.

(** What must hold when a middleware is called with [next]. *)
Definition pre_mw (next : Cont) (w : World) : Prop :=
  T (frame_of_cont next) ->
  match next with
  | KExit d =>
      ~ entered d (trace w)
      /\ exists fr, frames w !! d = Some fr /\ f_prev fr <> None
  | KEnter d => ready d w
  end.

(** The invariant of the engine, for the closures in [T]. *)
Record Inv (w : World) : Prop := mkInv {
  inv_frames : forall d fr, T d -> frames w !! d = Some fr ->
      exits_first d (trace w)
      /\ (entered d (trace w) -> enter_ready w fr)
      /\ (f_prev fr = None -> ~ exited d (trace w));
  inv_trace : forall e, e ∈ trace w -> T (frame_of e) ->
      (frame_of e < length (frames w))%nat;
  inv_timers : forall k p, TaskHandler k p ∈ timers w -> pre_call k w
}.

Definition ctxs_ext (l l' : list Context) : Prop :=
  forall c ctx, l !! c = Some ctx ->
    exists ctx', l' !! c = Some ctx' /\ path ctx' = path ctx.

Definition frames_ext (l l' : list Frame) : Prop :=
  forall d fr, l !! d = Some fr ->
    exists fr', l' !! d = Some fr' /\ f_ctx fr' = f_ctx fr /\ f_prev fr' = f_prev fr
                /\ (f_j fr <= f_j fr')%nat /\ (f_i fr <= f_i fr')%nat.

(** [w'] comes after [w] in a run. *)
Record Ext (w w' : World) : Prop := mkExt {
  ext_exits : exits (page w') = exits (page w);
  ext_callbacks : callbacks (page w') = callbacks (page w);
  ext_ctxs : ctxs_ext (ctxs w) (ctxs w');
  ext_frames : frames_ext (frames w) (frames w');
  ext_length : (length (frames w) <= length (frames w'))%nat
}.

(** An event of the closure [own], or of a closure made later than the
    first [n]. *)
Definition allowed (own : option FrameRef) (n : nat) (e : Event) : Prop :=
  own = Some (frame_of e) \/ (n <= frame_of e)%nat.

(** What a run from [w] to [w'] on behalf of the closure [own] satisfies. *)
Record Step (own : option FrameRef) (w w' : World) : Prop := mkStep {
  step_inv : Inv w';
  step_ext : Ext w w';
  step_trace : exists evs, trace w' = trace w ++ evs
                           /\ Forall (allowed own (length (frames w))) evs
}.

Definition post {A} (own : option FrameRef) (w : World) (o : outcome A) : Prop :=
  match o with
  | Ret _ w' | Exc _ w' => Step own w w'
  | OutOfFuel => True
  end.

Lemma entered_snoc d tr e :
  entered d (tr ++ [e]) <-> entered d tr \/ is_ev Enter d e.
Proof.
  unfold entered. split.
  - intros (e' & Hin & He). apply elem_of_app in Hin as [Hin|Hin]; [left; eauto|].
    apply list_elem_of_singleton in Hin as ->. right; exact He.
  - intros [(e' & Hin & He)|He].
    + exists e'. split; [apply elem_of_app; left; exact Hin | exact He].
    + exists e. split; [apply elem_of_app; right; apply list_elem_of_singleton; reflexivity
                       | exact He].
Qed.

Lemma exited_snoc d tr e :
  exited d (tr ++ [e]) <-> exited d tr \/ is_ev Exit d e.
Proof.
  unfold exited. split.
  - intros (e' & Hin & He). apply elem_of_app in Hin as [Hin|Hin]; [left; eauto|].
    apply list_elem_of_singleton in Hin as ->. right; exact He.
  - intros [(e' & Hin & He)|He].
    + exists e'. split; [apply elem_of_app; left; exact Hin | exact He].
    + exists e. split; [apply elem_of_app; right; apply list_elem_of_singleton; reflexivity
                       | exact He].
Qed.

Lemma exits_first_snoc d tr e :
  exits_first d tr ->
  (is_ev Exit d e -> ~ entered d tr) ->
  exits_first d (tr ++ [e]).
Proof.
  intros Hord Hlast i j e1 e2 Hi Hj H1 H2.
  destruct (decide (j < length tr)%nat) as [Hjl|Hjl].
  - rewrite lookup_app_l in Hj by exact Hjl.
    destruct (decide (i < length tr)%nat) as [Hil|Hil].
    + rewrite lookup_app_l in Hi by exact Hil. exact (Hord i j e1 e2 Hi Hj H1 H2).
    + rewrite lookup_app_r in Hi by lia.
      destruct (i - length tr)%nat; [|destruct n; discriminate].
      inversion Hi; subst e1. exfalso. apply (Hlast H1).
      exists e2. split; [eapply list_elem_of_lookup_2; exact Hj | exact H2].
  - rewrite lookup_app_r in Hj by lia.
    destruct (j - length tr)%nat eqn:Hjn; [|destruct n; discriminate].
    inversion Hj; subst e2.
    destruct (decide (i < length tr)%nat) as [Hil|Hil]; [lia|].
    rewrite lookup_app_r in Hi by lia.
    destruct (i - length tr)%nat; [|destruct n; discriminate].
    inversion Hi; subst e1. destruct H1 as [_ H1], H2 as [_ H2]. congruence.
Qed.

Lemma ctxs_ext_refl l : ctxs_ext l l.
Proof. intros c ctx H. eauto. Qed.

Lemma ctxs_ext_trans l1 l2 l3 : ctxs_ext l1 l2 -> ctxs_ext l2 l3 -> ctxs_ext l1 l3.
Proof.
  intros H1 H2 c ctx Hc. destruct (H1 c ctx Hc) as (ctx' & Hc' & Hp).
  destruct (H2 c ctx' Hc') as (ctx'' & Hc'' & Hp'). exists ctx''. split; [assumption|congruence].
Qed.

Lemma frames_ext_refl l : frames_ext l l.
Proof. intros d fr H. exists fr. repeat split; [assumption|lia|lia]. Qed.

Lemma frames_ext_trans l1 l2 l3 : frames_ext l1 l2 -> frames_ext l2 l3 -> frames_ext l1 l3.
Proof.
  intros H1 H2 d fr Hd. destruct (H1 d fr Hd) as (fr' & Hd' & Ha & Hb & Hc & He).
  destruct (H2 d fr' Hd') as (fr'' & Hd'' & Ha' & Hb' & Hc' & He').
  exists fr''. repeat split; [assumption|congruence|congruence|lia|lia].
Qed.

Lemma Ext_refl w : Ext w w.
Proof.
  constructor; [reflexivity | reflexivity | apply ctxs_ext_refl | apply frames_ext_refl | lia].
Qed.

Lemma Ext_trans w1 w2 w3 : Ext w1 w2 -> Ext w2 w3 -> Ext w1 w3.
Proof.
  intros [a1 b1 c1 d1 e1] [a2 b2 c2 d2 e2]. constructor.
  - congruence.
  - congruence.
  - eapply ctxs_ext_trans; eassumption.
  - eapply frames_ext_trans; eassumption.
  - lia.
Qed.

Lemma ready_ext d w w' : Ext w w' -> ready d w -> ready d w'.
Proof.
  intros HE (fr & Hfr & Hr).
  destruct (ext_frames _ _ HE d fr Hfr) as (fr' & Hfr' & _ & Hp & Hj & _).
  exists fr'. split; [exact Hfr'|].
  destruct Hr as [Hr|Hr]; [left; congruence|right].
  rewrite (ext_exits _ _ HE). lia.
Qed.

Lemma pre_call_ext k w w' : Ext w w' -> pre_call k w -> pre_call k w'.
Proof.
  intros HE H Ht. destruct (H Ht) as [Hlt Hk]. split.
  - pose proof (ext_length _ _ HE). lia.
  - destruct k; [exact I|]. eapply ready_ext; eassumption.
Qed.

Lemma allowed_weaken own own' n n' e :
  (n <= n')%nat ->
  (own' = own \/ own' = None \/ exists d, own' = Some d /\ (n <= d)%nat) ->
  allowed own' n' e -> allowed own n e.
Proof.
  intros Hn Hown [H|H].
  - destruct Hown as [->|[->|(d & -> & Hd)]].
    + left; exact H.
    + discriminate.
    + inversion H; subst d. right; exact Hd.
  - right; lia.
Qed.

Lemma Step_refl own w : Inv w -> Step own w w.
Proof.
  intros HI. constructor; [exact HI | apply Ext_refl |].
  exists []. split; [symmetry; apply app_nil_r | constructor].
Qed.

Lemma Step_trans_gen own own' w w1 w2 :
  (own' = own \/ own' = None \/ exists d, own' = Some d /\ (length (frames w) <= d)%nat) ->
  Step own w w1 -> Step own' w1 w2 -> Step own w w2.
Proof.
  intros Hown [I1 E1 (evs1 & T1 & A1)] [I2 E2 (evs2 & T2 & A2)].
  constructor; [exact I2 | eapply Ext_trans; eassumption |].
  exists (evs1 ++ evs2). split.
  - rewrite T2, T1. symmetry. apply app_assoc.
  - apply Forall_app. split; [exact A1|].
    eapply Forall_impl; [exact A2|].
    intros e. apply allowed_weaken; [apply (ext_length _ _ E1) | exact Hown].
Qed.

Lemma Step_trans own w w1 w2 : Step own w w1 -> Step own w1 w2 -> Step own w w2.
Proof. apply Step_trans_gen. left; reflexivity. Qed.

Lemma post_obind {A B} own (o : outcome A) (f : A -> World -> outcome B) w :
  post own w o ->
  (forall a w1, o = Ret a w1 -> Step own w w1 -> post own w1 (f a w1)) ->
  post own w (obind o f).
Proof.
  intros Ho Hf. destruct o as [a w1|e w1|]; simpl in *; [|exact Ho|exact I].
  specialize (Hf a w1 eq_refl Ho).
  destruct (f a w1) as [b w2|e w2|]; simpl in *; [| |exact I];
    eapply Step_trans; eassumption.
Qed.

Lemma post_trans {A} own (o : outcome A) w w1 :
  Step own w w1 -> post own w1 o -> post own w o.
Proof.
  intros H1 H2. destruct o; simpl in *; [| |exact I]; eapply Step_trans; eassumption.
Qed.

Lemma post_weaken {A} own own' (o : outcome A) w :
  (own' = own \/ own' = None \/ exists d, own' = Some d /\ (length (frames w) <= d)%nat) ->
  post own' w o -> post own w o.
Proof.
  intros Hown H. destruct o; simpl in *; [| |exact I];
    destruct H as [HI HE (evs & HT & HA)]; (constructor; [exact HI | exact HE |]);
    exists evs; (split; [exact HT|]); (eapply Forall_impl; [exact HA|]);
    intros ev; apply allowed_weaken; [lia | exact Hown | lia | exact Hown].
Qed.

(** A step that touches neither the closures nor the trace nor the lists of
    middleware, and sets no timer for a handler. *)
Record Quiet (w w' : World) : Prop := mkQuiet {
  q_exits : exits (page w') = exits (page w);
  q_callbacks : callbacks (page w') = callbacks (page w);
  q_frames : frames w' = frames w;
  q_trace : trace w' = trace w;
  q_ctxs : ctxs_ext (ctxs w) (ctxs w');
  q_timers : exists ts, timers w' = timers w ++ ts /\ forall k p, TaskHandler k p ∉ ts
}.

Lemma Quiet_refl w : Quiet w w.
Proof.
  constructor; try reflexivity; [apply ctxs_ext_refl|].
  exists []. split; [symmetry; apply app_nil_r | intros k p H; inversion H].
Qed.

Lemma Quiet_trans w1 w2 w3 : Quiet w1 w2 -> Quiet w2 w3 -> Quiet w1 w3.
Proof.
  intros [a1 b1 c1 d1 e1 (ts1 & T1 & N1)] [a2 b2 c2 d2 e2 (ts2 & T2 & N2)].
  constructor; try congruence.
  - eapply ctxs_ext_trans; eassumption.
  - exists (ts1 ++ ts2). split; [rewrite T2, T1; symmetry; apply app_assoc|].
    intros k p H. apply elem_of_app in H as [H|H]; [eapply N1 | eapply N2]; exact H.
Qed.

Lemma Quiet_Step own w w' : Inv w -> Quiet w w' -> Step own w w'.
Proof.
  intros [IF IT IM] [Qe Qc Qf Qt Qx (ts & QT & QN)].
  assert (HE : Ext w w').
  { constructor; try assumption.
    - rewrite Qf. apply frames_ext_refl.
    - rewrite Qf. lia. }
  constructor; [|exact HE|].
  - constructor.
    + intros d fr Ht Hd. rewrite Qf in Hd. rewrite Qt.
      destruct (IF d fr Ht Hd) as (H1 & H2 & H3). repeat split; try assumption.
      intros He. destruct (H2 He) as [H|H]; [left; exact H | right; rewrite Qe; exact H].
    + intros e He Ht. rewrite Qt in He. rewrite Qf. apply IT; assumption.
    + intros k p Hk. rewrite QT in Hk. apply elem_of_app in Hk as [Hk|Hk].
      * eapply pre_call_ext; [exact HE | eapply IM; exact Hk].
      * exfalso. eapply QN; exact Hk.
  - exists []. split; [rewrite Qt; symmetry; apply app_nil_r | constructor].
Qed.

Lemma ctxs_ext_update l c (f : Context -> Context) :
  (forall x, path (f x) = path x) ->
  ctxs_ext l (match l !! c with Some x => <[c := f x]> l | None => l end).
Proof.
  intros Hf c' ctx Hc'. destruct (l !! c) as [x|] eqn:Hc; [|eauto].
  destruct (decide (c = c')) as [<-|Hne].
  - exists (f x). split; [|rewrite Hf; congruence].
    apply list_lookup_insert_eq. eapply lookup_lt_Some; exact Hc.
  - exists ctx. split; [|reflexivity]. rewrite list_lookup_insert_ne by exact Hne. exact Hc'.
Qed.

Lemma Quiet_update_ctx c f w :
  (forall x, path (f x) = path x) -> Quiet w (update_ctx c f w).
Proof.
  intros Hf. constructor; try reflexivity.
  - simpl. apply ctxs_ext_update, Hf.
  - exists []. split; [symmetry; apply app_nil_r | intros k p H; inversion H].
Qed.

Lemma Quiet_with_page f w :
  (forall p, exits (f p) = exits p) -> (forall p, callbacks (f p) = callbacks p) ->
  Quiet w (with_page f w).
Proof.
  intros He Hc. constructor; simpl; try reflexivity; [apply He | apply Hc | apply ctxs_ext_refl|].
  exists []. split; [symmetry; apply app_nil_r | intros k p H; inversion H].
Qed.

Lemma Quiet_host_call c w : Quiet w (host_call c w).
Proof.
  constructor; simpl; try reflexivity; [apply ctxs_ext_refl|].
  exists []. split; [symmetry; apply app_nil_r | intros k p H; inversion H].
Qed.

Lemma Quiet_alloc_ctx ctx w : Quiet w (with_ctxs (fun l => l ++ [ctx]) w).
Proof.
  constructor; simpl; try reflexivity.
  - intros c x Hc. exists x. split; [|reflexivity].
    rewrite lookup_app_l; [exact Hc | eapply lookup_lt_Some; exact Hc].
  - exists []. split; [symmetry; apply app_nil_r | intros k p H; inversion H].
Qed.

Lemma Quiet_setTimeout t w :
  (forall k p, t <> TaskHandler k p) -> Quiet w (setTimeout t w).
Proof.
  intros Ht. constructor; simpl; try reflexivity; [apply ctxs_ext_refl|].
  exists [t]. split; [reflexivity|].
  intros k p H. apply list_elem_of_singleton in H. eapply Ht. symmetry; exact H.
Qed.

Lemma Quiet_stop w : Quiet w (stop w).
Proof.
  unfold stop. destruct (negb (_running (page w))); [apply Quiet_refl|].
  cbv zeta.
  eapply Quiet_trans; [|apply Quiet_host_call].
  eapply Quiet_trans; [|apply Quiet_host_call].
  match goal with |- context [if ?b then _ else _] => destruct b end.
  - eapply Quiet_trans; [|apply Quiet_host_call]. apply Quiet_with_page; reflexivity.
  - apply Quiet_with_page; reflexivity.
Qed.

Lemma Quiet_unhandled c w : Quiet w (unhandled c w).
Proof.
  unfold unhandled. destruct (ctxs w !! c) as [ctx|]; [|apply Quiet_refl].
  destruct (bool_decide (handled ctx = Some true)); [apply Quiet_refl|].
  cbv zeta.
  match goal with |- context [if bool_decide ?P then _ else _] => destruct (bool_decide P) end;
    [apply Quiet_refl|].
  eapply Quiet_trans; [|apply Quiet_host_call].
  eapply Quiet_trans; [|apply Quiet_update_ctx; reflexivity].
  apply Quiet_stop.
Qed.

Lemma Quiet_back p st w : Quiet w (back p st w).
Proof.
  unfold back. destruct (0 <? len (page w))%Z.
  - cbv zeta.
    eapply Quiet_trans; [apply Quiet_host_call | apply Quiet_with_page; reflexivity].
  - destruct p as [[|c s]|]; apply Quiet_setTimeout; discriminate.
Qed.

Lemma Quiet_redirect_to p w : Quiet w (redirect_to p w).
Proof. apply Quiet_setTimeout; discriminate. Qed.

Lemma Quiet_pushState ctx w : Quiet w (pushState ctx w).
Proof.
  unfold pushState. cbv zeta.
  eapply Quiet_trans; [|apply Quiet_host_call]. apply Quiet_with_page; reflexivity.
Qed.

Lemma Quiet_save ctx w : Quiet w (save ctx w).
Proof. apply Quiet_host_call. Qed.

Ltac same_lookup :=
  repeat match goal with
         | H1 : _ = Some ?a, H2 : _ = Some ?b |- _ =>
             tryif constr_eq a b then fail
             else (let E := fresh "E" in
                   assert (E : Some a = Some b) by (rewrite <- H1; exact H2);
                   inversion E; subst; clear E)
         end.

Lemma frames_update_frame d f w :
  frames (update_frame d f w)
  = match frames w !! d with Some x => <[d := f x]> (frames w) | None => frames w end.
Proof. reflexivity. Qed.

Lemma ctxs_update_ctx c f w :
  ctxs (update_ctx c f w)
  = match ctxs w !! c with Some x => <[c := f x]> (ctxs w) | None => ctxs w end.
Proof. reflexivity. Qed.

(** The closure [d] moves a cursor forward. *)
Lemma Step_update_frame own d f w :
  Inv w ->
  (forall fr, frames w !! d = Some fr ->
              f_ctx (f fr) = f_ctx fr /\ f_prev (f fr) = f_prev fr
              /\ (f_j fr <= f_j (f fr))%nat /\ (f_i fr <= f_i (f fr))%nat) ->
  Step own w (update_frame d f w).
Proof.
  intros HI Hf.
  assert (HFE : frames_ext (frames w) (frames (update_frame d f w))).
  { rewrite frames_update_frame. intros d' fr Hd'. destruct (frames w !! d) as [x|] eqn:Hd.
    - destruct (decide (d = d')) as [<-|Hne].
      + exists (f x). rewrite list_lookup_insert_eq by (eapply lookup_lt_Some; exact Hd).
        assert (x = fr) as -> by (rewrite Hd in Hd'; inversion Hd'; reflexivity).
        destruct (Hf fr eq_refl) as (? & ? & ? & ?). repeat split; assumption.
      + exists fr. rewrite list_lookup_insert_ne by exact Hne.
        repeat split; [assumption | lia | lia].
    - exists fr. repeat split; [assumption | lia | lia]. }
  assert (HL : length (frames (update_frame d f w)) = length (frames w)).
  { rewrite frames_update_frame. destruct (frames w !! d); [apply length_insert | reflexivity]. }
  assert (HE : Ext w (update_frame d f w)).
  { constructor; try reflexivity; [apply ctxs_ext_refl | exact HFE | lia]. }
  constructor; [|exact HE|].
  - destruct HI as [IF IT IM]. constructor.
    + intros d' fr' Ht' Hd'. change (trace (update_frame d f w)) with (trace w).
      assert (Hcase : frames w !! d' = Some fr'
                      \/ exists fr, frames w !! d' = Some fr /\ fr' = f fr /\ d = d').
      { rewrite frames_update_frame in Hd'.
        destruct (frames w !! d) as [x|] eqn:Hd; [|left; exact Hd'].
        destruct (decide (d = d')) as [<-|Hne].
        - rewrite list_lookup_insert_eq in Hd' by (eapply lookup_lt_Some; exact Hd).
          right. exists x. split; [exact Hd|]. split; [inversion Hd'; reflexivity | reflexivity].
        - rewrite list_lookup_insert_ne in Hd' by exact Hne. left; exact Hd'. }
      destruct Hcase as [Hold|(fr & Hfr & -> & <-)].
      * exact (IF d' fr' Ht' Hold).
      * destruct (IF d fr Ht' Hfr) as (H1 & H2 & H3).
        destruct (Hf fr Hfr) as (_ & Hp & Hj & _).
        split; [exact H1|]. split.
        -- intros He. destruct (H2 He) as [H|H]; [left; congruence|].
           right. unfold update_frame; simpl. lia.
        -- rewrite Hp. exact H3.
    + intros e He Ht. rewrite HL. apply IT; assumption.
    + intros k p Hk. eapply pre_call_ext; [exact HE | eapply IM; exact Hk].
  - exists []. split; [symmetry; apply app_nil_r | constructor].
Qed.

Lemma set_j_mono n fr :
  (f_j fr <= n)%nat ->
  f_ctx (set_j n fr) = f_ctx fr /\ f_prev (set_j n fr) = f_prev fr
  /\ (f_j fr <= f_j (set_j n fr))%nat /\ (f_i fr <= f_i (set_j n fr))%nat.
Proof. intros H. repeat split; simpl; lia. Qed.

Lemma set_i_mono n fr :
  (f_i fr <= n)%nat ->
  f_ctx (set_i n fr) = f_ctx fr /\ f_prev (set_i n fr) = f_prev fr
  /\ (f_j fr <= f_j (set_i n fr))%nat /\ (f_i fr <= f_i (set_i n fr))%nat.
Proof. intros H. repeat split; simpl; lia. Qed.

(** Writing an event of the closure [d]. *)
Lemma Step_log own e w :
  Inv w ->
  own = Some (frame_of e) ->
  (T (frame_of e) ->
   exists fr, frames w !! frame_of e = Some fr
     /\ match phase_of e with
        | Exit => f_prev fr <> None /\ ~ entered (frame_of e) (trace w)
        | Enter => enter_ready w fr
        end) ->
  Step own w (log e w).
Proof.
  intros [IF IT IM] Hown Hev.
  assert (HE : Ext w (log e w)).
  { constructor; try reflexivity; first [apply ctxs_ext_refl | apply frames_ext_refl]. }
  constructor; [|exact HE|].
  - constructor.
    + intros d fr' Ht Hd. change (frames (log e w)) with (frames w) in Hd.
      change (trace (log e w)) with (trace w ++ [e]).
      destruct (IF d fr' Ht Hd) as (H1 & H2 & H3). repeat split.
      * apply exits_first_snoc; [exact H1|].
        intros [Hd' Hx]. subst d. destruct (Hev Ht) as (fr & Hfr & Hph).
        rewrite Hx in Hph. apply Hph.
      * intros He. apply entered_snoc in He as [He|[Hd' Hx]]; [exact (H2 He)|].
        subst d. destruct (Hev Ht) as (fr & Hfr & Hph).
        rewrite Hx in Hph. same_lookup. exact Hph.
      * intros Hp Hx. apply exited_snoc in Hx as [Hx|[Hd' Hx]]; [exact (H3 Hp Hx)|].
        subst d. destruct (Hev Ht) as (fr & Hfr & Hph).
        rewrite Hx in Hph. same_lookup.
        destruct Hph as [Hph _]. contradiction.
    + intros e' He' Ht. change (trace (log e w)) with (trace w ++ [e]) in He'.
      change (length (frames (log e w))) with (length (frames w)).
      apply elem_of_app in He' as [He'|He']; [apply IT; assumption|].
      apply list_elem_of_singleton in He' as ->.
      destruct (Hev Ht) as (fr & Hfr & _). eapply lookup_lt_Some; exact Hfr.
    + intros k p Hk. eapply pre_call_ext; [exact HE | eapply IM; exact Hk].
  - exists [e]. split; [reflexivity|]. constructor; [left; exact Hown | constructor].
Qed.

(** A handler sets a timer for a continuation of its own. *)
Lemma Step_defer own self p w :
  Inv w -> pre_call self w -> Step own w (setTimeout (TaskHandler self p) w).
Proof.
  intros [IF IT IM] Hpre.
  assert (HE : Ext w (setTimeout (TaskHandler self p) w)).
  { constructor; try reflexivity; first [apply ctxs_ext_refl | apply frames_ext_refl]. }
  constructor; [|exact HE|].
  - constructor.
    + exact IF.
    + exact IT.
    + intros k q Hk. change (TaskHandler k q ∈ timers w ++ [TaskHandler self p]) in Hk.
      apply elem_of_app in Hk as [Hk|Hk].
      * eapply pre_call_ext; [exact HE | eapply IM; exact Hk].
      * apply list_elem_of_singleton in Hk. inversion Hk; subst k q.
        eapply pre_call_ext; [exact HE | exact Hpre].
  - exists []. split; [symmetry; apply app_nil_r | constructor].
Qed.

(** [dispatch] makes its closure. *)
Lemma Step_alloc_frame own c prev w :
  Inv w ->
  Step own w (with_frames (fun l => l ++ [mkFrame c prev 0 0]) w).
Proof.
  intros [IF IT IM].
  set (w1 := with_frames (fun l => l ++ [mkFrame c prev 0 0]) w).
  assert (HE : Ext w w1).
  { constructor; try reflexivity; [apply ctxs_ext_refl | |simpl; rewrite length_app; lia].
    intros d fr Hd. exists fr. simpl.
    rewrite lookup_app_l by (eapply lookup_lt_Some; exact Hd).
    repeat split; [exact Hd | lia | lia]. }
  constructor; [|exact HE|].
  - constructor.
    + intros d fr Ht Hd. change (trace w1) with (trace w).
      change (frames w1) with (frames w ++ [mkFrame c prev 0 0]) in Hd.
      destruct (decide (d < length (frames w))%nat) as [Hlt|Hge].
      * rewrite lookup_app_l in Hd by exact Hlt. exact (IF d fr Ht Hd).
      * assert (Hnone : forall e, e ∈ trace w -> frame_of e <> d).
        { intros e He Heq. subst d. specialize (IT e He Ht). lia. }
        repeat split.
        -- intros i j e1 e2 Hi _ [H1 _] _. exfalso.
           eapply Hnone; [eapply list_elem_of_lookup_2; exact Hi | exact H1].
        -- intros (e & He & [H1 _]). exfalso. eapply Hnone; eassumption.
        -- intros _ (e & He & [H1 _]). eapply Hnone; eassumption.
    + intros e He Ht. change (trace w1) with (trace w) in He. simpl. rewrite length_app.
      specialize (IT e He Ht). lia.
    + intros k p Hk. eapply pre_call_ext; [exact HE | eapply IM; exact Hk].
  - exists []. split; [symmetry; apply app_nil_r | constructor].
Qed.

Lemma lookup_update_frame d f w fr :
  frames w !! d = Some fr -> frames (update_frame d f w) !! d = Some (f fr).
Proof.
  intros H. rewrite frames_update_frame, H.
  apply list_lookup_insert_eq. eapply lookup_lt_Some; exact H.
Qed.

(** ** One step of each closure *)

Lemma nextExit_S fuel d w :
  nextExit (S fuel) d w
  = match frames w !! d with
    | None => Exc Unmodelled w
    | Some fr =>
        let w1 := update_frame d (set_j (S (f_j fr))) w in
        match exits (page w) !! f_j fr with
        | None => nextEnter fuel d w1
        | Some mw =>
            match f_prev fr with
            | None => Exc Unmodelled w1
            | Some prev =>
                middleware fuel mw prev (KExit d) (f_j fr)
                  (log (EvInvoke Exit d (f_j fr)) w1)
            end
        end
    end.
Proof. reflexivity. Qed.

Lemma nextEnter_S fuel d w :
  nextEnter (S fuel) d w
  = match frames w !! d with
    | None => Exc Unmodelled w
    | Some fr =>
        let w1 := update_frame d (set_i (S (f_i fr))) w in
        match ctxs w1 !! f_ctx fr with
        | None => Exc Unmodelled w1
        | Some ctx =>
            if negb (bool_decide (path ctx = current (page w1))) then
              Ret tt (update_ctx (f_ctx fr) (set_handled (Some false)) w1)
            else
              match callbacks (page w) !! f_i fr with
              | None => Ret tt (unhandled (f_ctx fr) w1)
              | Some mw =>
                  middleware fuel mw (f_ctx fr) (KEnter d) (f_i fr)
                    (log (EvInvoke Enter d (f_i fr)) w1)
              end
        end
    end.
Proof. reflexivity. Qed.

Lemma middleware_S fuel mw c next idx w :
  middleware (S fuel) mw c next idx w
  = match ctxs w !! c with
    | None => Exc Unmodelled w
    | Some ctx =>
        let rp := Route_match (_decodeURLComponents (page w)) (mw_route mw)
                    (path ctx) (params ctx) in
        let w1 := update_ctx c (set_params rp.2) w in
        match rp.1 with
        | Throw e => Exc e w1
        | Ok true =>
            run fuel next (mw_fn mw c)
              (log (EvHandler (phase_of_cont next) (frame_of_cont next) idx) w1)
        | Ok false => call fuel next w1
        end
    end.
Proof.
  simpl. destruct (ctxs w !! c); [|reflexivity].
  destruct (Route_match _ _ _ _) as [r ps]. reflexivity.
Qed.

Lemma call_S fuel k w :
  call (S fuel) k w
  = match k with
    | KExit d => nextExit fuel d w
    | KEnter d => nextEnter fuel d w
    end.
Proof. reflexivity. Qed.

Lemma dispatch_S fuel c prev w :
  dispatch (S fuel) c prev w
  = let w1 := with_frames (fun l => l ++ [mkFrame c prev 0 0]) w in
    match prev with
    | Some _ => nextExit fuel (length (frames w)) w1
    | None => nextEnter fuel (length (frames w)) w1
    end.
Proof. reflexivity. Qed.

(** The world of [show] and [replace] once the context [ctx] is made. *)
Definition enter_context (ctx : Context) (w : World) : World :=
  with_page (fun pg => set_current (path ctx) (set_prevContext (Some (length (ctxs w))) pg))
    (with_ctxs (fun l => l ++ [ctx]) w).

Lemma show_S fuel p st disp push w :
  show (S fuel) p st disp push w
  = match Context_new p st w with
    | Throw e => Exc e w
    | Ok ctx =>
        let c := length (ctxs w) in
        let w1 := enter_context ctx w in
        obind (if bool_decide (disp = Some false) then Ret tt w1
               else dispatch fuel c (prevContext (page w)) w1)
          (fun _ w2 =>
             match ctxs w2 !! c with
             | None => Exc Unmodelled w2
             | Some ctx' =>
                 if negb (bool_decide (handled ctx' = Some false))
                    && negb (bool_decide (push = Some false))
                 then Ret c (pushState ctx' w2)
                 else Ret c w2
             end)
    end.
Proof. reflexivity. Qed.

Lemma replace_S fuel p st ini disp w :
  replace (S fuel) p st ini disp w
  = match Context_new p st w with
    | Throw e => Exc e w
    | Ok ctx =>
        let c := length (ctxs w) in
        let w1 := save (set_init ini ctx) (enter_context (set_init ini ctx) w) in
        obind (if bool_decide (disp = Some false) then Ret tt w1
               else dispatch fuel c (prevContext (page w)) w1)
          (fun _ w2 => Ret c w2)
    end.
Proof. reflexivity. Qed.

Lemma run_S fuel self p w :
  run (S fuel) self p w
  = match p with
    | Done => Ret tt w
    | Next k => obind (call fuel self w) (fun _ w1 => run fuel self k w1)
    | Show p st disp push k =>
        obind (show fuel p st disp push w) (fun c w1 => run fuel self (k c) w1)
    | Replace p st ini disp k =>
        obind (replace fuel p st ini disp w) (fun c w1 => run fuel self (k c) w1)
    | Back p st k => run fuel self k (back p st w)
    | Redirect to k => run fuel self k (redirect_to to w)
    | SetHandled c b k => run fuel self k (update_ctx c (set_handled (Some b)) w)
    | Observe k => run fuel self (k (view w)) w
    | Defer p k => run fuel self k (setTimeout (TaskHandler self p) w)
    | Raise e => Exc e w
    end.
Proof. reflexivity. Qed.

Lemma post_trans_gen {A} own own' (o : outcome A) w w1 :
  (own' = own \/ own' = None \/ exists d, own' = Some d /\ (length (frames w) <= d)%nat) ->
  Step own w w1 -> post own' w1 o -> post own w o.
Proof.
  intros Hown H1 H2. destruct o; simpl in *; [| |exact I];
    eapply Step_trans_gen; eassumption.
Qed.

Lemma post_any {A} own (o : outcome A) w : post None w o -> post own w o.
Proof. apply post_weaken. right; left; reflexivity. Qed.

(** ** The invariant holds along every run *)

Definition engine_ok (fuel : nat) : Prop :=
  (forall d w, Inv w -> post (Some d) w (nextExit fuel d w))
  /\ (forall d w, Inv w -> (T d -> ready d w) -> post (Some d) w (nextEnter fuel d w))
  /\ (forall mw c next idx w, Inv w -> pre_mw next w ->
        post (Some (frame_of_cont next)) w (middleware fuel mw c next idx w))
  /\ (forall k w, Inv w -> pre_call k w -> post (Some (frame_of_cont k)) w (call fuel k w))
  /\ (forall c prev w, Inv w -> post None w (dispatch fuel c prev w))
  /\ (forall p st disp push w, Inv w -> post None w (show fuel p st disp push w))
  /\ (forall p st ini disp w, Inv w -> post None w (replace fuel p st ini disp w))
  /\ (forall self p w, Inv w -> pre_call self w ->
        post (Some (frame_of_cont self)) w (run fuel self p w)).

Lemma not_entered_after_exit d tr ph idx :
  ph = Exit -> ~ entered d tr -> ~ entered d (tr ++ [EvInvoke ph d idx]).
Proof.
  intros -> H He. apply entered_snoc in He as [He|[_ He]]; [exact (H He) | discriminate].
Qed.

Lemma engine_nextExit fuel :
  engine_ok fuel -> forall d w, Inv w -> post (Some d) w (nextExit (S fuel) d w).
Proof.
  intros (_ & IHenter & IHmw & _) d w HI. rewrite nextExit_S.
  destruct (frames w !! d) as [fr|] eqn:Hfr; [|apply Step_refl, HI].
  cbv zeta. set (w1 := update_frame d (set_j (S (f_j fr))) w).
  assert (S1 : Step (Some d) w w1).
  { apply Step_update_frame; [exact HI|]. intros fr' Hfr'. same_lookup.
    apply set_j_mono. lia. }
  assert (Hfr1 : frames w1 !! d = Some (set_j (S (f_j fr)) fr))
    by (apply lookup_update_frame, Hfr).
  destruct (exits (page w) !! f_j fr) as [mw|] eqn:Hmw.
  - destruct (f_prev fr) as [prev|] eqn:Hprev; [|exact S1].
    assert (Hne : T d -> ~ entered d (trace w)).
    { intros Ht He. destruct (inv_frames _ HI d fr Ht Hfr) as (_ & H2 & _).
      destruct (H2 He) as [H|H]; [congruence|].
      apply lookup_lt_Some in Hmw. lia. }
    eapply post_trans; [exact S1|].
    assert (S2 : Step (Some d) w1 (log (EvInvoke Exit d (f_j fr)) w1)).
    { apply Step_log; [apply S1 | reflexivity |]. intros Ht.
      exists (set_j (S (f_j fr)) fr). split; [exact Hfr1|]. simpl.
      split; [congruence | exact (Hne Ht)]. }
    eapply post_trans; [exact S2|].
    apply (IHmw mw prev (KExit d)); [apply S2|]. intros Ht. split.
    + apply not_entered_after_exit; [reflexivity | exact (Hne Ht)].
    + exists (set_j (S (f_j fr)) fr). split; [exact Hfr1 | simpl; congruence].
  - eapply post_trans; [exact S1|]. apply IHenter; [apply S1|]. intros _.
    exists (set_j (S (f_j fr)) fr). split; [exact Hfr1|]. right.
    apply lookup_ge_None in Hmw. simpl. lia.
Qed.

Lemma engine_nextEnter fuel :
  engine_ok fuel ->
  forall d w, Inv w -> (T d -> ready d w) -> post (Some d) w (nextEnter (S fuel) d w).
Proof.
  intros (_ & _ & IHmw & _) d w HI Hready. rewrite nextEnter_S.
  destruct (frames w !! d) as [fr|] eqn:Hfr; [|apply Step_refl, HI].
  cbv zeta. set (w1 := update_frame d (set_i (S (f_i fr))) w).
  assert (S1 : Step (Some d) w w1).
  { apply Step_update_frame; [exact HI|]. intros fr' Hfr'. same_lookup.
    apply set_i_mono. lia. }
  assert (Hfr1 : frames w1 !! d = Some (set_i (S (f_i fr)) fr))
    by (apply lookup_update_frame, Hfr).
  assert (Hready1 : T d -> ready d w1).
  { intros Ht. destruct (Hready Ht) as (fr0 & Hfr0 & Hr). same_lookup.
    exists (set_i (S (f_i fr0)) fr0). split; [exact Hfr1 | exact Hr]. }
  destruct (ctxs w1 !! f_ctx fr) as [ctx|]; [|exact S1].
  destruct (negb (bool_decide (path ctx = current (page w1)))).
  { eapply Step_trans; [exact S1|].
    apply Quiet_Step; [apply S1 | apply Quiet_update_ctx; reflexivity]. }
  destruct (callbacks (page w) !! f_i fr) as [mw|].
  - eapply post_trans; [exact S1|].
    assert (S2 : Step (Some d) w1 (log (EvInvoke Enter d (f_i fr)) w1)).
    { apply Step_log; [apply S1 | reflexivity |]. intros Ht.
      destruct (Hready1 Ht) as (fr1 & Hf1 & Hr1). exists fr1. split; [exact Hf1 | exact Hr1]. }
    eapply post_trans; [exact S2|].
    apply (IHmw mw (f_ctx fr) (KEnter d)); [apply S2|]. intros Ht. exact (Hready1 Ht).
  - eapply Step_trans; [exact S1|].
    apply Quiet_Step; [apply S1 | apply Quiet_unhandled].
Qed.

Lemma engine_middleware fuel :
  engine_ok fuel ->
  forall mw c next idx w, Inv w -> pre_mw next w ->
    post (Some (frame_of_cont next)) w (middleware (S fuel) mw c next idx w).
Proof.
  intros (_ & _ & _ & IHcall & _ & _ & _ & IHrun) mw c next idx w HI Hpre.
  rewrite middleware_S.
  destruct (ctxs w !! c) as [ctx|]; [|apply Step_refl, HI].
  cbv zeta.
  set (rp := Route_match (_decodeURLComponents (page w)) (mw_route mw) (path ctx) (params ctx)).
  set (w1 := update_ctx c (set_params rp.2) w).
  assert (Q1 : Quiet w w1) by (apply Quiet_update_ctx; reflexivity).
  assert (S1 : Step (Some (frame_of_cont next)) w w1) by (apply Quiet_Step; assumption).
  assert (Hcall : pre_call next w1).
  { intros Ht. specialize (Hpre Ht). destruct next as [d|d]; simpl in *.
    - destruct Hpre as (_ & fr & Hfr & _). split; [|exact I].
      change (frames w1) with (frames w). eapply lookup_lt_Some; exact Hfr.
    - assert (Hr : ready d w1) by (eapply ready_ext; [apply S1 | exact Hpre]).
      split; [|exact Hr]. destruct Hr as (fr & Hfr & _). eapply lookup_lt_Some; exact Hfr. }
  destruct (rp.1) as [[|]|e]; [| |exact S1].
  - eapply post_trans; [exact S1|].
    set (ev := EvHandler (phase_of_cont next) (frame_of_cont next) idx).
    assert (S2 : Step (Some (frame_of_cont next)) w1 (log ev w1)).
    { apply Step_log; [apply S1 | reflexivity |]. intros Ht.
      destruct next as [d|d]; simpl in *.
      - destruct (Hpre Ht) as (Hne & fr & Hfr & Hp).
        exists fr. split; [exact Hfr|]. split; [exact Hp | exact Hne].
      - destruct (Hcall Ht) as (_ & fr & Hfr & Hr). exists fr. split; [exact Hfr | exact Hr]. }
    eapply post_trans; [exact S2|].
    apply IHrun; [apply S2|]. eapply pre_call_ext; [apply S2 | exact Hcall].
  - eapply post_trans; [exact S1|]. apply IHcall; [apply S1 | exact Hcall].
Qed.

Lemma engine_call fuel :
  engine_ok fuel ->
  forall k w, Inv w -> pre_call k w -> post (Some (frame_of_cont k)) w (call (S fuel) k w).
Proof.
  intros (IHexit & IHenter & _) k w HI Hpre. rewrite call_S.
  destruct k as [d|d]; [apply IHexit, HI | apply IHenter; [exact HI|]].
  intros Ht. exact (proj2 (Hpre Ht)).
Qed.

Lemma engine_dispatch fuel :
  engine_ok fuel ->
  forall c prev w, Inv w -> post None w (dispatch (S fuel) c prev w).
Proof.
  intros (IHexit & IHenter & _) c prev w HI. rewrite dispatch_S. cbv zeta.
  set (w1 := with_frames (fun l => l ++ [mkFrame c prev 0 0]) w).
  assert (S1 : Step None w w1) by (apply Step_alloc_frame, HI).
  assert (Hd : frames w1 !! length (frames w) = Some (mkFrame c prev 0 0)).
  { unfold w1; simpl. rewrite lookup_app_r by lia. rewrite Nat.sub_diag. reflexivity. }
  assert (Hown : Some (length (frames w)) = None \/ Some (length (frames w)) = None
                 \/ exists d, Some (length (frames w)) = Some d
                              /\ (length (frames w) <= d)%nat).
  { right; right. eexists; split; [reflexivity | lia]. }
  destruct prev as [prev|].
  - eapply post_trans_gen; [exact Hown | exact S1 | apply IHexit, S1].
  - eapply post_trans_gen; [exact Hown | exact S1 |].
    apply IHenter; [apply S1|]. intros _.
    eexists. split; [exact Hd | left; reflexivity].
Qed.

Lemma Quiet_enter_context ctx w : Quiet w (enter_context ctx w).
Proof.
  unfold enter_context.
  eapply Quiet_trans; [apply Quiet_alloc_ctx | apply Quiet_with_page; reflexivity].
Qed.

Lemma engine_show fuel :
  engine_ok fuel ->
  forall p st disp push w, Inv w -> post None w (show (S fuel) p st disp push w).
Proof.
  intros (_ & _ & _ & _ & IHdispatch & _) p st disp push w HI. rewrite show_S.
  destruct (Context_new p st w) as [ctx|e]; [|apply Step_refl, HI].
  cbv zeta.
  assert (S1 : Step None w (enter_context ctx w))
    by (apply Quiet_Step; [exact HI | apply Quiet_enter_context]).
  eapply post_trans; [exact S1|].
  apply post_obind.
  - destruct (bool_decide (disp = Some false)); [apply Step_refl, S1 | apply IHdispatch, S1].
  - intros _ w2 _ S2.
    destruct (ctxs w2 !! length (ctxs w)) as [ctx'|]; [|apply Step_refl, S2].
    destruct (_ && _).
    + apply Quiet_Step; [apply S2 | apply Quiet_pushState].
    + apply Step_refl, S2.
Qed.

Lemma engine_replace fuel :
  engine_ok fuel ->
  forall p st ini disp w, Inv w -> post None w (replace (S fuel) p st ini disp w).
Proof.
  intros (_ & _ & _ & _ & IHdispatch & _) p st ini disp w HI. rewrite replace_S.
  destruct (Context_new p st w) as [ctx|e]; [|apply Step_refl, HI].
  cbv zeta.
  assert (S1 : Step None w (save (set_init ini ctx) (enter_context (set_init ini ctx) w))).
  { apply Quiet_Step; [exact HI|].
    eapply Quiet_trans; [apply Quiet_enter_context | apply Quiet_save]. }
  eapply post_trans; [exact S1|].
  apply post_obind.
  - destruct (bool_decide (disp = Some false)); [apply Step_refl, S1 | apply IHdispatch, S1].
  - intros _ w2 _ S2. apply Step_refl, S2.
Qed.

Lemma engine_run fuel :
  engine_ok fuel ->
  forall self p w, Inv w -> pre_call self w ->
    post (Some (frame_of_cont self)) w (run (S fuel) self p w).
Proof.
  intros (_ & _ & _ & IHcall & _ & IHshow & IHreplace & IHrun) self p w HI Hpre.
  rewrite run_S.
  assert (Hq : forall w', Quiet w w' ->
                 forall k, post (Some (frame_of_cont self)) w (run fuel self k w')).
  { intros w' Q k.
    assert (S1 : Step (Some (frame_of_cont self)) w w') by (apply Quiet_Step; assumption).
    eapply post_trans; [exact S1|].
    apply IHrun; [apply S1 | eapply pre_call_ext; [apply S1 | exact Hpre]]. }
  destruct p as [|k|p' st disp push k|p' st ini disp k|p' st k|to k|c b k|k|p' k|e].
  - apply Step_refl, HI.
  - apply post_obind; [apply IHcall; assumption|].
    intros _ w1 _ S1. apply IHrun; [apply S1 | eapply pre_call_ext; [apply S1 | exact Hpre]].
  - apply post_obind; [apply post_any, IHshow, HI|].
    intros c w1 _ S1. apply IHrun; [apply S1 | eapply pre_call_ext; [apply S1 | exact Hpre]].
  - apply post_obind; [apply post_any, IHreplace, HI|].
    intros c w1 _ S1. apply IHrun; [apply S1 | eapply pre_call_ext; [apply S1 | exact Hpre]].
  - apply Hq, Quiet_back.
  - apply Hq, Quiet_redirect_to.
  - apply Hq, Quiet_update_ctx. reflexivity.
  - apply IHrun; assumption.
  - assert (S1 : Step (Some (frame_of_cont self)) w (setTimeout (TaskHandler self p') w))
      by (apply Step_defer; assumption).
    eapply post_trans; [exact S1|].
    apply IHrun; [apply S1 | eapply pre_call_ext; [apply S1 | exact Hpre]].
  - apply Step_refl, HI.
Qed.

Theorem engine_ok_all fuel : engine_ok fuel.
Proof.
  induction fuel as [|fuel IH].
  - repeat split; intros; exact I.
  - split; [apply engine_nextExit, IH|].
    split; [apply engine_nextEnter, IH|].
    split; [apply engine_middleware, IH|].
    split; [apply engine_call, IH|].
    split; [apply engine_dispatch, IH|].
    split; [apply engine_show, IH|].
    split; [apply engine_replace, IH | apply engine_run, IH].
Qed.

(** The world an outcome ends in, when the computation was not cut short. *)
Definition ends_in {A} (o : outcome A) (w' : World) : Prop :=
  match o with
  | Ret _ w1 | Exc _ w1 => w1 = w'
  | OutOfFuel => False
  end.

Lemma post_ends_in {A} own w (o : outcome A) w' :
  post own w o -> ends_in o w' -> Step own w w'.
Proof. destruct o; simpl; intros H E; subst; [exact H | exact H | contradiction]. Qed.

(** The calls the host makes. *)
Lemma Step_show fuel p st disp push w w' :
  Inv w -> ends_in (show fuel p st disp push w) w' -> Step None w w'.
Proof.
  intros HI HE. destruct (engine_ok_all fuel) as (_ & _ & _ & _ & _ & H & _).
  apply (post_ends_in None w _ w' (H p st disp push w HI) HE).
Qed.

Lemma Step_replace fuel p st ini disp w w' :
  Inv w -> ends_in (replace fuel p st ini disp w) w' -> Step None w w'.
Proof.
  intros HI HE. destruct (engine_ok_all fuel) as (_ & _ & _ & _ & _ & _ & H & _).
  apply (post_ends_in None w _ w' (H p st ini disp w HI) HE).
Qed.

Lemma Step_with_timers own ts t w :
  Inv w -> timers w = t :: ts -> Step own w (with_timers ts w).
Proof.
  intros [IF IT IM] Ht.
  assert (HE : Ext w (with_timers ts w)).
  { constructor; try reflexivity; first [apply ctxs_ext_refl | apply frames_ext_refl]. }
  constructor; [|exact HE|].
  - constructor.
    + exact IF.
    + exact IT.
    + intros k p Hk. change (TaskHandler k p ∈ ts) in Hk.
      assert (Hin : TaskHandler k p ∈ timers w) by (rewrite Ht; right; exact Hk).
      exact (IM k p Hin).
  - exists []. split; [symmetry; apply app_nil_r | constructor].
Qed.

Lemma Step_tick fuel w w' :
  Inv w -> ends_in (tick fuel w) w' -> exists own, Step own w w'.
Proof.
  intros HI HE. unfold tick in HE.
  destruct (timers w) as [|t ts] eqn:Ht.
  { simpl in HE; subst. exists None. apply Step_refl, HI. }
  destruct (engine_ok_all fuel) as (_ & _ & _ & _ & _ & Hshow & Hreplace & Hrun).
  destruct t as [p st|st|p|self p]; unfold run_task in HE.
  - exists None. pose proof (Step_with_timers None ts _ w HI Ht) as S1.
    eapply Step_trans; [exact S1|].
    specialize (Hshow p st None None _ (step_inv _ _ _ S1)).
    destruct (show fuel p st None None (with_timers ts w)); simpl in *;
      [subst; apply Hshow | subst; apply Hshow | contradiction].
  - exists None. pose proof (Step_with_timers None ts _ w HI Ht) as S1.
    eapply Step_trans; [exact S1|].
    specialize (Hshow (_getBase (with_timers ts w)) st None None _ (step_inv _ _ _ S1)).
    destruct (show fuel (_getBase (with_timers ts w)) st None None (with_timers ts w));
      simpl in *; [subst; apply Hshow | subst; apply Hshow | contradiction].
  - exists None. pose proof (Step_with_timers None ts _ w HI Ht) as S1.
    eapply Step_trans; [exact S1|].
    specialize (Hreplace p None None None _ (step_inv _ _ _ S1)).
    destruct (replace fuel p None None None (with_timers ts w)); simpl in *;
      [subst; apply Hreplace | subst; apply Hreplace | contradiction].
  - exists (Some (frame_of_cont self)).
    pose proof (Step_with_timers (Some (frame_of_cont self)) ts _ w HI Ht) as S1.
    eapply Step_trans; [exact S1|].
    assert (Hpre : pre_call self (with_timers ts w)).
    { assert (Hin : TaskHandler self p ∈ timers w) by (rewrite Ht; left).
      exact (inv_timers _ HI self p Hin). }
    apply (post_ends_in _ _ _ w' (Hrun self p _ (step_inv _ _ _ S1) Hpre) HE).
Qed.

End Tracked.

Arguments step_inv {T own w w'} _.
Arguments step_ext {T own w w'} _.
Arguments step_trace {T own w w'} _.

(** For no closure at all the invariant asks nothing. *)
Definition untracked : FrameRef -> Prop := fun _ => False.

Lemma Inv_untracked w : Inv untracked w.
Proof.
  constructor.
  - intros d fr [].
  - intros e _ [].
  - intros k p _ [].
Qed.

(** The closures made from the [n]-th on. *)
Definition from (n : nat) : FrameRef -> Prop := fun d => (n <= d)%nat.

(** In a world of a session the trace and the timers only mention closures
    that were made. *)
Record well_formed (w : World) : Prop := mkWellFormed {
  wf_trace : forall e, e ∈ trace w -> (frame_of e < length (frames w))%nat;
  wf_timers : forall k p, TaskHandler k p ∈ timers w ->
      (frame_of_cont k < length (frames w))%nat
}.

Lemma Inv_from_here w : well_formed w -> Inv (from (length (frames w))) w.
Proof.
  intros [HT HM]. constructor.
  - intros d fr Ht Hd. apply lookup_lt_Some in Hd. unfold from in Ht. lia.
  - intros e He _. apply HT, He.
  - intros k p Hk Ht. specialize (HM k p Hk). unfold from in Ht. lia.
Qed.

Lemma Inv_well_formed n w :
  (n <= length (frames w))%nat -> Inv (from n) w -> well_formed w.
Proof.
  intros Hn [IF IT IM]. constructor.
  - intros e He. destruct (decide (n <= frame_of e)%nat) as [Hge|Hlt]; [|lia].
    apply IT; assumption.
  - intros k p Hk. destruct (decide (n <= frame_of_cont k)%nat) as [Hge|Hlt]; [|lia].
    apply (IM k p Hk Hge).
Qed.

(** What can happen in a session between two calls of the engine: [show],
    [replace], [back] and [redirect] called by the application, a timer that
    fires, and anything else that makes no closure, sets no timer and writes
    nothing to the trace, such as registering routes, changing the
    configuration, [stop], or the user changing the location. With [reg]
    unset the list of exit middleware is not changed. *)
Inductive step (reg : bool) (w : World) : World -> Prop :=
| step_show fuel p st disp push w' :
    ends_in (show fuel p st disp push w) w' -> step reg w w'
| step_replace fuel p st ini disp w' :
    ends_in (replace fuel p st ini disp w) w' -> step reg w w'
| step_tick fuel w' :
    ends_in (tick fuel w) w' -> step reg w w'
| step_back p st : step reg w (back p st w)
| step_redirect p : step reg w (redirect_to p w)
| step_other w' :
    frames w' = frames w -> trace w' = trace w -> timers w' = timers w ->
    (reg = false -> exits (page w') = exits (page w)) ->
    step reg w w'.

Inductive session (reg : bool) (w : World) : World -> Prop :=
| session_here : session reg w w
| session_then w1 w2 : session reg w w1 -> step reg w1 w2 -> session reg w w2.

Lemma step_cases reg w w' :
  step reg w w' ->
  (forall T, Inv T w -> exists own, Step T own w w')
  \/ (frames w' = frames w /\ trace w' = trace w /\ timers w' = timers w
      /\ (reg = false -> exits (page w') = exits (page w))).
Proof.
  intros [fuel p st disp push w1 H|fuel p st ini disp w1 H|fuel w1 H|p st|p|w1 H1 H2 H3 H4].
  - left. intros T HI. exists None. eapply Step_show; eassumption.
  - left. intros T HI. exists None. eapply Step_replace; eassumption.
  - left. intros T HI. eapply Step_tick; eassumption.
  - left. intros T HI. exists None. apply Quiet_Step; [exact HI | apply Quiet_back].
  - left. intros T HI. exists None. apply Quiet_Step; [exact HI | apply Quiet_redirect_to].
  - right. auto.
Qed.

Lemma Inv_other T w w' :
  frames w' = frames w -> trace w' = trace w -> timers w' = timers w ->
  exits (page w') = exits (page w) ->
  Inv T w -> Inv T w'.
Proof.
  intros Hf Ht Hm He [IF IT IM].
  assert (Hready : forall d, ready d w -> ready d w').
  { intros d (fr & Hfr & Hr). exists fr. rewrite Hf. split; [exact Hfr|].
    unfold enter_ready in *. rewrite He. exact Hr. }
  constructor.
  - intros d fr HT Hd. rewrite Hf in Hd. rewrite Ht.
    destruct (IF d fr HT Hd) as (H1 & H2 & H3). repeat split; try assumption.
    intros Hen. specialize (H2 Hen). unfold enter_ready in *. rewrite He. exact H2.
  - intros e Hin HT. rewrite Ht in Hin. rewrite Hf. apply IT; assumption.
  - intros k p Hk HT. rewrite Hm in Hk. destruct (IM k p Hk HT) as [Hlt Hpre].
    rewrite Hf. split; [exact Hlt|]. destruct k; [exact I | apply Hready, Hpre].
Qed.

Lemma well_formed_step reg w w' : well_formed w -> step reg w w' -> well_formed w'.
Proof.
  intros Hwf Hs. destruct (step_cases reg w w' Hs) as [H|(Hf & Ht & Hm & _)].
  - destruct (H _ (Inv_from_here w Hwf)) as [own S1].
    apply (Inv_well_formed (length (frames w))); [|exact (step_inv S1)].
    apply (ext_length _ _ (step_ext S1)).
  - destruct Hwf as [HT HM]. constructor.
    + intros e He. rewrite Ht in He. rewrite Hf. apply HT, He.
    + intros k p Hk. rewrite Hm in Hk. rewrite Hf. eapply HM, Hk.
Qed.

Lemma well_formed_session reg w w' : well_formed w -> session reg w w' -> well_formed w'.
Proof.
  intros Hwf Hs. induction Hs as [|w1 w2 _ IH Hstep]; [exact Hwf|].
  eapply well_formed_step; eassumption.
Qed.

Lemma Inv_session T w w' : Inv T w -> session false w w' -> Inv T w'.
Proof.
  intros HI Hs. induction Hs as [|w1 w2 _ IH Hstep]; [exact HI|].
  destruct (step_cases false w1 w2 Hstep) as [H|(Hf & Ht & Hm & He)].
  - destruct (H T IH) as [own S1]. exact (step_inv S1).
  - apply (Inv_other T w1 w2 Hf Ht Hm (He eq_refl) IH).
Qed.

Definition ok_or {A} (d : A) (r : result A) : A :=
  match r with Ok a => a | Throw _ => d end.

Definition after {A} (w : World) (o : outcome A) : World :=
  match o with Ret _ w' | Exc _ w' => w' | OutOfFuel => w end.

(* ------------------------------------------------------------------ *)
(** ** Exit before enter (C6) *)
(* ------------------------------------------------------------------ *)

(** A session in which an exit route is registered while a dispatch still
    holds a continuation. The exit handler for [/a] calls [next] at once
    and once more from a timer. After [show('/a')] and [show('/b')], two
    more exit routes are registered and the timer fires: the second call of
    [next] finds a new entry in the exit list. *)
Definition late_exit_start : World :=
  let w0 := new_World a_location in
  let w1 := ok_or w0 (route (PString (js "/a")) [fun _ => Done] w0) in
  let w2 := ok_or w1 (route (PString (js "/b")) [fun _ => Done] w1) in
  ok_or w2 (exit (PString (js "/a")) [fun _ => Next (Defer (Next Done) Done)] w2).

Definition late_exit_shown : World :=
  let w1 := after late_exit_start (show 20 (js "/a") None None None late_exit_start) in
  after w1 (show 20 (js "/b") None None None w1).

Definition late_exit_session : World :=
  let w1 := ok_or late_exit_shown
              (exit (PString (js "*")) [fun _ => Done; fun _ => Done] late_exit_shown) in
  after w1 (tick 20 w1).

(** The dispatch of [show('/b')] is the closure 1, with the context of
    [/a] as [prev]. Its exit middleware 2 is invoked after its enter
    middleware: the claim as written, for every dispatch, fails. *)
Lemma C6_exit_after_enter :
  (exists fr, frames late_exit_session !! 1%nat = Some fr /\ f_prev fr = Some 0%nat)
  /\ trace late_exit_session
     = [EvInvoke Enter 0 0; EvHandler Enter 0 0;
        EvInvoke Exit 1 0; EvHandler Exit 1 0;
        EvInvoke Enter 1 0; EvInvoke Enter 1 1; EvHandler Enter 1 1;
        EvInvoke Exit 1 2; EvHandler Exit 1 2]
  /\ ~ exits_first 1 (trace late_exit_session).
Proof.
  assert (Ht : trace late_exit_session
               = [EvInvoke Enter 0 0; EvHandler Enter 0 0;
                  EvInvoke Exit 1 0; EvHandler Exit 1 0;
                  EvInvoke Enter 1 0; EvInvoke Enter 1 1; EvHandler Enter 1 1;
                  EvInvoke Exit 1 2; EvHandler Exit 1 2])
    by (vm_compute; reflexivity).
  split; [eexists; split; vm_compute; reflexivity|].
  split; [exact Ht|].
  rewrite Ht. intros H.
  specialize (H 7%nat 4%nat (EvInvoke Exit 1 2) (EvInvoke Enter 1 0) eq_refl eq_refl
                (conj eq_refl eq_refl) (conj eq_refl eq_refl)).
  lia.
Qed.

(** C6, as the code has it. Take a session from a world in which nothing was
    dispatched yet (handlers are arbitrary programs that may call [next] any
    number of times, navigate, set timers or throw; routes and exit routes
    are registered at any time), a point [w] of it, and a later point [w']
    such that no exit route is registered between the two. For every
    dispatch begun after [w], with closure [d]: in the trace at [w'] every
    exit middleware and handler of [d] comes strictly before every enter
    middleware and handler of [d]; if any enter middleware of [d] ran, the
    exit cursor [j] is past the end of the exit list (or [prev] is null);
    and when [prev] is null no exit middleware of [d] ran at all. *)
Theorem C6_exit_before_enter w0 w w' d fr :
  frames w0 = [] -> timers w0 = [] -> trace w0 = [] ->
  session true w0 w ->
  session false w w' ->
  (length (frames w) <= d)%nat ->
  frames w' !! d = Some fr ->
  exits_first d (trace w')
  /\ (entered d (trace w') ->
        f_prev fr = None \/ (length (exits (page w')) < f_j fr)%nat)
  /\ (f_prev fr = None -> ~ exited d (trace w')).
Proof.
  intros Hf Hm Ht Hs Hs' Hd Hfr.
  assert (Hwf0 : well_formed w0).
  { constructor.
    - intros e He. rewrite Ht in He. inversion He.
    - intros k p Hk. rewrite Hm in Hk. inversion Hk. }
  pose proof (well_formed_session true w0 w Hwf0 Hs) as Hwf.
  pose proof (Inv_session _ w w' (Inv_from_here w Hwf) Hs') as HI.
  exact (inv_frames _ _ HI d fr Hd Hfr).
Qed.

(** The session of the test "should run when exiting the page": a route and
    an exit route for [/exit] (whose handler calls its continuation), and a
    route for [/]. *)
Definition exit_session : World :=
  let w0 := new_World a_location in
  let w1 := ok_or w0 (route (PString (js "/exit")) [fun _ => Done] w0) in
  let w2 := ok_or w1 (route (PString (js "/")) [fun _ => Done] w1) in
  ok_or w2 (exit (PString (js "/exit")) [fun _ => Next Done] w2).

(** After [page.show('/exit')]. *)
Definition exit_session_shown : World :=
  after exit_session (show 20 (js "/exit") None None None exit_session).

(** An instance: leaving [/exit] for [/]. The exit middleware and its
    handler run first, then the two enter middleware, the second of which
    lets its handler through. *)
Lemma C6_exit_before_enter_witness :
  exists w',
    show 20 (js "/") None None None exit_session_shown = Ret 1%nat w'
    /\ trace w'
       = trace exit_session_shown
         ++ [EvInvoke Exit 1 0; EvHandler Exit 1 0;
             EvInvoke Enter 1 0; EvInvoke Enter 1 1; EvHandler Enter 1 1]
    /\ exits_first 1 (trace w').
Proof.
  destruct (show 20 (js "/") None None None exit_session_shown) as [c w'|e w'|] eqn:Hd;
    try (vm_compute in Hd; discriminate).
  assert (Hc : c = 1%nat) by (vm_compute in Hd; injection Hd as <- _; reflexivity).
  subst c. exists w'. split; [reflexivity|].
  assert (Hfr : exists fr, frames w' !! 1%nat = Some fr)
    by (vm_compute in Hd; injection Hd as <-; eexists; reflexivity).
  destruct Hfr as [fr Hfr].
  destruct (C6_exit_before_enter (new_World a_location) exit_session_shown w' 1 fr)
    as (Hfirst & _); try reflexivity.
  - eapply session_then; [eapply session_then; [apply session_here|]|].
    + apply (step_other true (new_World a_location) exit_session); reflexivity || discriminate.
    + apply (step_show true exit_session 20 (js "/exit") None None None).
      vm_compute. reflexivity.
  - eapply session_then; [apply session_here|].
    apply (step_show false exit_session_shown 20 (js "/") None None None).
    rewrite Hd. reflexivity.
  - exact Hfr.
  - split; [|exact Hfirst].
    vm_compute in Hd. injection Hd as <-. vm_compute. reflexivity.
Defined.

(* ------------------------------------------------------------------ *)
(** ** The path guard of the enter phase (C1) *)
(* ------------------------------------------------------------------ *)

(** A navigation a handler can issue. *)
Inductive Nav : Type :=
| NavShow (p : jstring) (st : option StateObj) (disp push : option bool)
| NavReplace (p : jstring) (st : option StateObj) (ini disp : option bool).

Definition navigate (fuel : nat) (n : Nav) (w : World) : outcome CtxRef :=
  match n with
  | NavShow p st disp push => show fuel p st disp push w
  | NavReplace p st ini disp => replace fuel p st ini disp w
  end.

(** The handler body [page.show(...)] or [page.replace(...)], then [k]. *)
Definition nav_then (n : Nav) (k : Prog) : Prog :=
  match n with
  | NavShow p st disp push => Show p st disp push (fun _ => k)
  | NavReplace p st ini disp => Replace p st ini disp (fun _ => k)
  end.

(** The world [nextEnter] returns in when the guard fails. *)
Definition halted (d : FrameRef) (fr : Frame) (w : World) : World :=
  update_ctx (f_ctx fr) (set_handled (Some false))
    (update_frame d (set_i (S (f_i fr))) w).

Lemma nextEnter_guard fuel d w fr ctx :
  frames w !! d = Some fr ->
  ctxs w !! f_ctx fr = Some ctx ->
  path ctx <> current (page w) ->
  nextEnter (S fuel) d w = Ret tt (halted d fr w).
Proof.
  intros Hfr Hctx Hne. rewrite nextEnter_S, Hfr. cbv zeta.
  change (ctxs (update_frame d (set_i (S (f_i fr))) w)) with (ctxs w).
  rewrite Hctx.
  change (current (page (update_frame d (set_i (S (f_i fr))) w))) with (current (page w)).
  rewrite (bool_decide_eq_false_2 _ Hne). reflexivity.
Qed.

Lemma halted_handled d fr w ctx :
  ctxs w !! f_ctx fr = Some ctx ->
  ctxs (halted d fr w) !! f_ctx fr = Some (set_handled (Some false) ctx).
Proof.
  intros Hctx. unfold halted. rewrite ctxs_update_ctx.
  change (ctxs (update_frame d (set_i (S (f_i fr))) w)) with (ctxs w).
  rewrite Hctx. apply list_lookup_insert_eq. eapply lookup_lt_Some; exact Hctx.
Qed.

Lemma run_nav_S fuel self n k w :
  run (S fuel) self (nav_then n k) w
  = obind (navigate fuel n w) (fun _ w1 => run fuel self k w1).
Proof. destruct n; reflexivity. Qed.

(** A navigation leaves the closures and the paths of the contexts there
    are as they were, and every middleware it invokes belongs to a dispatch
    of its own. This holds in every world. *)
Lemma navigate_post fuel n w : post untracked None w (navigate fuel n w).
Proof.
  destruct (engine_ok_all untracked fuel) as (_ & _ & _ & _ & _ & Hs & Hr & _).
  destruct n; [apply Hs, Inv_untracked | apply Hr, Inv_untracked].
Qed.

(** A session with two handlers for [/a] and one for [/c]. The first
    handler of [/a] shows [/c] and then calls its continuation; the handler
    of [/c] shows [/a] again, without dispatch. *)
Definition there_and_back_session : World :=
  let w0 := new_World a_location in
  let w1 := ok_or w0 (route (PString (js "/a"))
                        [fun _ => Show (js "/c") None None None (fun _ => Next Done);
                         fun _ => Done] w0) in
  ok_or w1 (route (PString (js "/c"))
              [fun _ => Show (js "/a") None (Some false) None (fun _ => Done)] w1).

(** [page.show('/a')] in that session. The first handler of [/a] triggers
    a show to the different path [/c]; when it calls [next] the current path
    is [/a] again, the guard passes, and the second handler of [/a] runs
    (the last event, of closure 0 and index 1). The claim as written, that a
    handler which navigates to a different path keeps every later handler
    of its dispatch from running, fails. *)
Lemma C1_later_handler_runs :
  exists w',
    show 20 (js "/a") None None None there_and_back_session = Ret 0%nat w'
    /\ trace w' = [EvInvoke Enter 0 0; EvHandler Enter 0 0;
                   EvInvoke Enter 1 0; EvInvoke Enter 1 1; EvInvoke Enter 1 2;
                   EvHandler Enter 1 2;
                   EvInvoke Enter 0 1; EvHandler Enter 0 1]
    /\ (path <$> ctxs w' !! 1%nat) = Some (js "/c")
    /\ current (page w') = js "/a".
Proof.
  eexists. split; [vm_compute; reflexivity|].
  split; [reflexivity|]. split; reflexivity.
Qed.

(** C1, as the code has it. Whatever the lists of middleware and the
    context: when [nextEnter] is called and the path of the context differs
    from [current], the context gets [handled = false], no middleware is
    invoked (the trace is unchanged) and the call returns. Consequently, in
    every world, a handler of the dispatch [d] that navigates ([show] or
    [replace]) and then calls [next], while [current] is a different path
    after the navigation, starts no further middleware of [d]: every event
    of the whole run belongs to a later dispatch, and the context of [d]
    ends with [handled = false]. *)
Theorem C1_path_guard :
  (forall fuel d w fr ctx,
     frames w !! d = Some fr ->
     ctxs w !! f_ctx fr = Some ctx ->
     path ctx <> current (page w) ->
     nextEnter (S fuel) d w = Ret tt (halted d fr w)
     /\ trace (halted d fr w) = trace w
     /\ ctxs (halted d fr w) !! f_ctx fr = Some (set_handled (Some false) ctx)
     /\ calls (halted d fr w) = calls w)
  /\ (forall fuel d w fr ctx n c' w1,
        frames w !! d = Some fr ->
        ctxs w !! f_ctx fr = Some ctx ->
        navigate (3 + fuel) n w = Ret c' w1 ->
        current (page w1) <> path ctx ->
        exists w2 evs ctx',
          run (4 + fuel) (KEnter d) (nav_then n (Next Done)) w = Ret tt w2
          /\ trace w2 = trace w1
          /\ trace w2 = trace w ++ evs
          /\ Forall (fun e => frame_of e <> d) evs
          /\ ctxs w2 !! f_ctx fr = Some ctx'
          /\ handled ctx' = Some false).
Proof.
  split.
  - intros fuel d w fr ctx Hfr Hctx Hne.
    split; [apply nextEnter_guard with ctx; assumption|].
    split; [reflexivity|]. split; [apply halted_handled, Hctx | reflexivity].
  - intros fuel d w fr ctx n c' w1 Hfr Hctx Hnav Hne.
    pose proof (navigate_post (3 + fuel) n w) as Hpost. rewrite Hnav in Hpost.
    destruct Hpost as [_ HE (evs & Htr & Hall)].
    destruct (ext_frames _ _ HE d fr Hfr) as (fr1 & Hfr1 & Hc1 & _).
    destruct (ext_ctxs _ _ HE _ ctx Hctx) as (ctx1 & Hctx1 & Hp1).
    rewrite <- Hc1 in Hctx1.
    assert (Hguard : path ctx1 <> current (page w1)) by congruence.
    exists (halted d fr1 w1), evs, (set_handled (Some false) ctx1).
    split.
    { change (4 + fuel)%nat with (S (3 + fuel)). rewrite run_nav_S, Hnav.
      change (3 + fuel)%nat with (S (S (S fuel))). cbn [obind].
      rewrite run_S. rewrite call_S.
      rewrite (nextEnter_guard fuel d w1 fr1 ctx1 Hfr1 Hctx1 Hguard).
      cbn [obind]. rewrite run_S. reflexivity. }
    split; [reflexivity|]. split; [exact Htr|]. split.
    { eapply Forall_impl; [exact Hall|]. intros e [H|H]; [discriminate|].
      apply lookup_lt_Some in Hfr. lia. }
    split; [|reflexivity].
    rewrite <- Hc1. apply halted_handled. exact Hctx1.
Qed.

(** A session with two handlers for [/a], the first of which replaces the
    navigation by one to [/c] and then calls its continuation, and a
    handler for [/c]. *)
Definition redirect_session : World :=
  let w0 := new_World a_location in
  let w1 := ok_or w0 (route (PString (js "/a"))
                        [fun _ => Replace (js "/c") None None None (fun _ => Next Done);
                         fun _ => Done] w0) in
  ok_or w1 (route (PString (js "/c")) [fun _ => Done] w1).

(** That session at the point where [page.show('/a')] is about to run the
    first handler of [/a]: the context and the closure 0 are made, the first
    middleware was invoked and its route matched. *)
Definition redirect_midway : World :=
  match Context_new (js "/a") None redirect_session with
  | Ok ctx =>
      log (EvHandler Enter 0 0)
        (log (EvInvoke Enter 0 0)
           (update_frame 0 (set_i 1)
              (with_frames (fun l => l ++ [mkFrame 0 None 0 0])
                 (enter_context ctx redirect_session))))
  | Throw _ => redirect_session
  end.

(** An instance: [page.show('/a')]. The first handler of [/a] runs and
    redirects; the dispatch of [/c] (closure 1) walks the three middleware;
    the second handler of [/a] (closure 0, index 1) never runs, and calling
    the continuation of closure 0 again does nothing but mark its context
    unhandled. The second part, at the point where the first handler is
    about to run: the handler runs to its end, every event it adds belongs
    to the dispatch of [/c], and the context of [/a] ends unhandled. *)
Lemma C1_path_guard_witness :
  (exists w' fr,
    show 20 (js "/a") None None None redirect_session = Ret 0%nat w'
    /\ trace w' = [EvInvoke Enter 0 0; EvHandler Enter 0 0;
                   EvInvoke Enter 1 0; EvInvoke Enter 1 1; EvInvoke Enter 1 2;
                   EvHandler Enter 1 2]
    /\ handled <$> ctxs w' !! 0%nat = Some (Some false)
    /\ current (page w') = js "/c"
    /\ frames w' !! 0%nat = Some fr
    /\ nextEnter 1 0 w' = Ret tt (halted 0 fr w')
    /\ trace (halted 0 fr w') = trace w')
  /\ (exists w2 evs,
        run 20 (KEnter 0) (Replace (js "/c") None None None (fun _ => Next Done))
          redirect_midway = Ret tt w2
        /\ trace w2 = trace redirect_midway ++ evs
        /\ Forall (fun e => frame_of e <> 0%nat) evs
        /\ handled <$> ctxs w2 !! 0%nat = Some (Some false)).
Proof.
  split.
  2:{ destruct (frames redirect_midway !! 0%nat) as [fr|] eqn:Hfr;
        [|vm_compute in Hfr; discriminate].
      destruct (ctxs redirect_midway !! f_ctx fr) as [ctx|] eqn:Hctx;
        [|vm_compute in Hfr; inversion Hfr; subst fr; vm_compute in Hctx; discriminate].
      destruct (navigate 19 (NavReplace (js "/c") None None None) redirect_midway)
        as [c' w1|e w1|] eqn:Hnav; try (vm_compute in Hnav; discriminate).
      destruct (proj2 C1_path_guard 16%nat 0%nat redirect_midway fr ctx
                  (NavReplace (js "/c") None None None) c' w1 Hfr Hctx Hnav)
        as (w2 & evs & ctx' & H1 & _ & H3 & H4 & H5 & H6).
      - vm_compute in Hfr. inversion Hfr; subst fr.
        vm_compute in Hctx. inversion Hctx; subst ctx.
        vm_compute in Hnav. inversion Hnav; subst c' w1. vm_compute. discriminate.
      - exists w2, evs. split; [exact H1|]. split; [exact H3|]. split; [exact H4|].
        vm_compute in Hfr. inversion Hfr; subst fr. cbn [f_ctx] in H5.
        rewrite H5. cbn [fmap option_fmap option_map]. rewrite H6. reflexivity. }
  destruct (show 20 (js "/a") None None None redirect_session) as [c w'|e w'|] eqn:Hs;
    try (vm_compute in Hs; discriminate).
  vm_compute in Hs. inversion Hs; subst c w'; clear Hs.
  eexists _, _. split; [reflexivity|].
  split; [vm_compute; reflexivity|].
  split; [vm_compute; reflexivity|].
  split; [vm_compute; reflexivity|].
  split; [vm_compute; reflexivity|].
  match goal with
  | |- nextEnter 1 0 ?W = Ret tt (halted 0 ?F ?W) /\ _ =>
      destruct (ctxs W !! 0%nat) as [ctx|] eqn:Hc; [|vm_compute in Hc; discriminate];
      destruct (proj1 C1_path_guard 0%nat 0%nat W F ctx) as (H1 & H2 & _)
  end.
  - vm_compute. reflexivity.
  - exact Hc.
  - vm_compute in Hc. inversion Hc; subst ctx. vm_compute. discriminate.
  - split; [exact H1 | exact H2].
Defined.

(* ------------------------------------------------------------------ *)
(** ** Building a path and matching it again (C4) *)
(* ------------------------------------------------------------------ *)

Import RegExp.

(** *** Facts about the matcher *)

Lemma eqb_succ_false (n : nat) : (S n =? n)%nat = false.
Proof. apply Nat.eqb_neq. lia. Qed.

Lemma rep_S mb gs g c fuel mn mx x :
  rep mb gs g c (S fuel) mn mx x
  = if bool_decide (mx = Some O) then c x
    else
      let d : Cont := fun y =>
        if (mn =? 0)%nat && (pos y =? pos x)%nat then None
        else rep mb gs g c fuel (Nat.pred mn) (pred_max mx) y in
      let xr := reset_caps gs x in
      if negb (mn =? 0)%nat then mb xr d
      else if g then or_else (mb xr d) (fun _ => c x)
      else or_else (c x) (fun _ => mb xr d).
Proof. reflexivity. Qed.

(** A lazy repetition of a one-character matcher in front of a
    continuation that fails everywhere but at the end of the input: the
    repetition runs to the end. *)
Lemma rep_lazy_to_end (P : N -> bool) (c : Cont) (z : MState) caps :
  (forall a s' p', P a = true -> c (mkS (a :: s') p' caps) = None) ->
  forall seg pos fuel,
    forallb P seg = true ->
    (length seg < fuel)%nat ->
    c (mkS [] (pos + length seg) caps) = Some z ->
    rep (fun x d => step1 x P d) [] false c fuel 0 None (mkS seg pos caps) = Some z.
Proof.
  intros Hfail seg. induction seg as [|a seg IH]; intros pos fuel HP Hfuel Hend.
  - destruct fuel as [|fuel]; [simpl in Hfuel; lia|].
    simpl in Hend. rewrite Nat.add_0_r in Hend.
    rewrite rep_S. cbn -[Nat.eqb rep]. rewrite Hend. reflexivity.
  - destruct fuel as [|fuel]; [simpl in Hfuel; lia|].
    simpl in HP. apply andb_true_iff in HP as [Ha HP].
    rewrite rep_S. cbn -[Nat.eqb rep].
    rewrite (Hfail a seg pos Ha). cbn -[Nat.eqb rep].
    rewrite Ha, eqb_succ_false. cbn -[Nat.eqb rep].
    apply IH; [exact HP | simpl in Hfuel; lia|].
    simpl in Hend. rewrite <- Nat.add_succ_comm in Hend. exact Hend.
Qed.

Lemma rep_lazy_plus_to_end (P : N -> bool) (c : Cont) (z : MState) caps :
  (forall a s' p', P a = true -> c (mkS (a :: s') p' caps) = None) ->
  forall seg pos fuel,
    seg <> [] ->
    forallb P seg = true ->
    (S (length seg) < fuel)%nat ->
    c (mkS [] (pos + length seg) caps) = Some z ->
    rep (fun x d => step1 x P d) [] false c fuel 1 None (mkS seg pos caps) = Some z.
Proof.
  intros Hfail seg pos fuel Hne HP Hfuel Hend.
  destruct seg as [|a seg]; [contradiction|].
  destruct fuel as [|fuel]; [lia|].
  simpl in HP. apply andb_true_iff in HP as [Ha HP].
  rewrite rep_S. cbn -[Nat.eqb rep]. rewrite Ha. cbn -[Nat.eqb rep].
  apply rep_lazy_to_end; [exact Hfail | exact HP | simpl in Hfuel; lia|].
  simpl in Hend. rewrite <- Nat.add_succ_comm in Hend. exact Hend.
Qed.

(** *** Facts about [encodeURIComponent] *)

Lemma hexdigit_not_slash n : hexdigit n <> 47.
Proof. unfold hexdigit. destruct (N.ltb_spec n 10); lia. Qed.

Lemma pct_no_slash b : Forall (fun c => c <> 47) (pct b).
Proof.
  unfold pct. repeat constructor; try apply hexdigit_not_slash. discriminate.
Qed.

Lemma pcts_no_slash l : Forall (fun c => c <> 47) (mjoin (pct <$> l)).
Proof.
  induction l as [|b l IH]; [constructor|].
  change (Forall (fun c => c <> 47) (pct b ++ mjoin (pct <$> l))).
  apply Forall_app_2; [apply pct_no_slash | exact IH].
Qed.

Lemma unreserved_not_slash c : is_unreserved c = true -> c <> 47.
Proof. intros H ->. vm_compute in H. discriminate. Qed.

Lemma encode_no_slash_aux (n : nat) :
  forall v seg, (length v <= n)%nat -> encodeURIComponent v = Ok seg ->
                Forall (fun c => c <> 47) seg.
Proof.
  induction n as [n IH] using lt_wf_ind. intros v seg Hn H.
  destruct v as [|c v]; [inversion H; constructor|].
  simpl in Hn. cbn [encodeURIComponent] in H.
  destruct (is_unreserved c) eqn:Hu.
  { destruct (encodeURIComponent v) as [r|] eqn:Hr; cbn [bind] in H; [|discriminate].
    inversion H; subst seg. constructor; [apply unreserved_not_slash, Hu|].
    apply (IH (length v)) with v; [lia | lia | exact Hr]. }
  destruct (is_low_surrogate c); [discriminate|].
  destruct (is_high_surrogate c).
  - destruct v as [|d v]; [discriminate|].
    destruct (is_low_surrogate d); [|discriminate].
    destruct (encodeURIComponent v) as [r|] eqn:Hr; cbn [bind] in H; [|discriminate].
    inversion H; subst seg. apply Forall_app_2; [apply pcts_no_slash|].
    apply (IH (length v)) with v; [simpl in Hn; lia | lia | exact Hr].
  - destruct (encodeURIComponent v) as [r|] eqn:Hr; cbn [bind] in H; [|discriminate].
    inversion H; subst seg. apply Forall_app_2; [apply pcts_no_slash|].
    apply (IH (length v)) with v; [lia | lia | exact Hr].
Qed.

(** The encoding never holds a slash. *)
Lemma encode_no_slash v seg :
  encodeURIComponent v = Ok seg -> Forall (fun c => c <> 47) seg.
Proof. apply (encode_no_slash_aux (length v)). lia. Qed.

Lemma pcts_nonempty v : mjoin (pct <$> utf8_octets v) <> [].
Proof.
  unfold utf8_octets.
  destruct (v <? 128); [discriminate|].
  destruct (v <? 2048); [discriminate|].
  destruct (v <? 65536); discriminate.
Qed.

(** The encoding of a non-empty string is not empty. *)
Lemma encode_nonempty v seg :
  v <> [] -> encodeURIComponent v = Ok seg -> seg <> [].
Proof.
  intros Hne H. destruct v as [|c v]; [contradiction|].
  cbn [encodeURIComponent] in H.
  destruct (is_unreserved c).
  { destruct (encodeURIComponent v); cbn [bind] in H; [|discriminate].
    inversion H. discriminate. }
  destruct (is_low_surrogate c); [discriminate|].
  destruct (is_high_surrogate c).
  - destruct v as [|d v]; [discriminate|].
    destruct (is_low_surrogate d); [|discriminate].
    destruct (encodeURIComponent v) as [r|]; cbn [bind] in H; [|discriminate].
    inversion H. intros Heq. apply app_eq_nil in Heq as [Heq _].
    exact (pcts_nonempty _ Heq).
  - destruct (encodeURIComponent v) as [r|]; cbn [bind] in H; [|discriminate].
    inversion H. intros Heq. apply app_eq_nil in Heq as [Heq _].
    exact (pcts_nonempty _ Heq).
Qed.


(** *** Matching does not depend on the start index *)

(** No [^] in the expression. *)
Fixpoint bol_free (r : Re) : bool :=
  match r with
  | RBol => false
  | RSeq a b | RAlt a b => bol_free a && bol_free b
  | RGroup _ a | RQuant _ _ _ a | RLook _ a => bol_free a
  | _ => true
  end.

Definition shift (k : nat) (x : MState) : MState :=
  mkS (rest x) (pos x + k) (caps x).

(** [c'] continues from a state moved by [k] as [c] does from the state. *)
Definition shifts (k : nat) (c c' : Cont) : Prop :=
  forall y, c' (shift k y) = shift k <$> c y.

Lemma shifts_Some k : shifts k Some Some.
Proof. intros y. reflexivity. Qed.

Lemma step1_shift k x p c c' :
  shifts k c c' -> step1 (shift k x) p c' = shift k <$> step1 x p c.
Proof.
  intros H. unfold step1. cbn [rest shift].
  destruct (rest x) as [|b s']; [reflexivity|].
  destruct (p b); [|reflexivity].
  exact (H (mkS s' (S (pos x)) (caps x))).
Qed.

Lemma or_else_shift k a a' b b' :
  a' = shift k <$> a -> b' tt = shift k <$> b tt ->
  or_else a' b' = shift k <$> or_else a b.
Proof. intros -> Hb. destruct a; [reflexivity | exact Hb]. Qed.

Lemma rep_shift k (mb : MState -> Cont -> option MState) gs g c c' :
  (forall x d d', shifts k d d' -> mb (shift k x) d' = shift k <$> mb x d) ->
  shifts k c c' ->
  forall fuel mn mx x,
    rep mb gs g c' fuel mn mx (shift k x) = shift k <$> rep mb gs g c fuel mn mx x.
Proof.
  intros Hmb Hc. induction fuel as [|fuel IH]; intros mn mx x; [reflexivity|].
  rewrite !rep_S. destruct (bool_decide (mx = Some 0%nat)); [apply Hc|].
  cbv zeta.
  assert (Hd : shifts k
            (fun y => if (mn =? 0)%nat && (pos y =? pos x)%nat then None
                      else rep mb gs g c fuel (Nat.pred mn) (pred_max mx) y)
            (fun y => if (mn =? 0)%nat && (pos y =? pos (shift k x))%nat then None
                      else rep mb gs g c' fuel (Nat.pred mn) (pred_max mx) y)).
  { intros y. cbn [pos shift].
    replace (pos y + k =? pos x + k)%nat with (pos y =? pos x)%nat
      by (destruct (Nat.eqb_spec (pos y) (pos x)), (Nat.eqb_spec (pos y + k) (pos x + k));
          try reflexivity; lia).
    destruct ((mn =? 0)%nat && (pos y =? pos x)%nat); [reflexivity | apply IH]. }
  change (reset_caps gs (shift k x)) with (shift k (reset_caps gs x)).
  destruct (negb (mn =? 0)%nat); [apply Hmb, Hd|].
  destruct g; apply or_else_shift; first [apply Hc | apply Hmb, Hd].
Qed.

Lemma m_shift ic k r :
  bol_free r = true ->
  forall x c c', shifts k c c' -> m ic r (shift k x) c' = shift k <$> m ic r x c.
Proof.
  induction r as [| a | | neg items | r1 IH1 r2 IH2 | r1 IH1 r2 IH2 | i r1 IH1
                 | mn mx g r1 IH1 | neg r1 IH1 | |];
    cbn [bol_free]; intros Hb x c c' Hc; try discriminate; cbn [m].
  - apply Hc.
  - apply step1_shift, Hc.
  - apply step1_shift, Hc.
  - apply step1_shift, Hc.
  - apply andb_true_iff in Hb as [Hb1 Hb2].
    apply IH1; [exact Hb1|]. intros y. apply IH2; assumption.
  - apply andb_true_iff in Hb as [Hb1 Hb2].
    apply or_else_shift; [apply IH1 | apply IH2]; assumption.
  - apply IH1; [exact Hb|]. intros y. cbn [rest pos caps shift].
    replace (pos y + k - (pos x + k))%nat with (pos y - pos x)%nat by lia.
    exact (Hc (mkS (rest y) (pos y) (<[i := Some (take (pos y - pos x) (rest x))]> (caps y)))).
  - apply rep_shift; [|exact Hc]. intros y d d' Hd. apply IH1; assumption.
  - rewrite (IH1 Hb x Some Some (shifts_Some k)).
    destruct (m ic r1 x Some) as [y|]; cbn [fmap option_fmap option_map].
    + destruct neg; [reflexivity|].
      exact (Hc (mkS (rest x) (pos x) (caps y))).
    + destruct neg; [apply Hc | reflexivity].
  - cbn [rest shift]. destruct (rest x); [apply Hc | reflexivity].
Qed.

(** A match result moved by [k]. *)
Definition shiftR (k : nat) (r : MatchResult) : MatchResult :=
  mkR (captures r) (index r + k) (endIndex r + k).

Lemma match_at_shift re s i :
  bol_free (prog re) = true ->
  match_at re s i = shiftR i <$> match_at re s 0.
Proof.
  intros Hb. unfold match_at.
  change (mkS s i (replicate (S (ngroups re)) None))
    with (shift i (mkS s 0 (replicate (S (ngroups re)) None))).
  rewrite (m_shift (ignoreCase re) i (prog re) Hb _ Some Some (shifts_Some i)).
  destruct (m _ _ _ Some) as [y|]; [|reflexivity].
  cbn [fmap option_fmap option_map shift pos caps]. unfold shiftR. cbn [captures index endIndex].
  replace (pos y + i - i)%nat with (pos y - 0)%nat by lia. reflexivity.
Qed.

(** *** The expression compiled for a literal followed by [/:x] *)

Definition lit_re (l : jstring) (k : Re) : Re :=
  foldr (fun c r => RSeq (RChar c) r) k l.

(** [([^\/]+?)] *)
Definition x_group : Re :=
  RGroup 1 (RSeq (RQuant 1 None false (RClass true [CChar 47])) REmpty).

(** [(?:\/(?=$))?$] *)
Definition tail_re : Re :=
  RSeq (RQuant 0 (Some 1%nat) true
          (RSeq (RChar 47) (RSeq (RLook false (RSeq REol REmpty)) REmpty)))
       (RSeq REol REmpty).

Lemma canon_eqb_refl ic a : (canon ic a =? canon ic a) = true.
Proof. apply N.eqb_refl. Qed.

Lemma m_lit ic L k :
  forall s pos caps c,
    m ic (lit_re L k) (mkS (L ++ s) pos caps) c
    = m ic k (mkS s (pos + length L) caps) c.
Proof.
  induction L as [|a L IH]; intros s pos caps c.
  - simpl. rewrite Nat.add_0_r. reflexivity.
  - cbn [lit_re foldr m app]. unfold step1. cbn [rest RegExp.pos RegExp.caps].
    rewrite canon_eqb_refl. fold (lit_re L k). rewrite IH.
    cbn [length]. rewrite Nat.add_succ_comm. reflexivity.
Qed.

Lemma is_lower_range c : is_lower c = true -> 97 <= c /\ c <= 122.
Proof.
  unfold is_lower. intros H. apply andb_true_iff in H as [H1 H2].
  apply N.leb_le in H1, H2. lia.
Qed.

Lemma is_upper_range c : is_upper c = true -> 65 <= c /\ c <= 90.
Proof.
  unfold is_upper. intros H. apply andb_true_iff in H as [H1 H2].
  apply N.leb_le in H1, H2. lia.
Qed.

Lemma canon_slash ic a : a <> 47 -> (canon ic 47 =? canon ic a) = false.
Proof.
  intros Ha. apply N.eqb_neq. unfold canon.
  replace (is_lower 47) with false by reflexivity. rewrite andb_false_r.
  destruct ic; simpl; [|congruence].
  destruct (is_lower a) eqn:Hl; [|congruence].
  apply is_lower_range in Hl. lia.
Qed.

Lemma class_slash ic a : a <> 47 -> class_has ic [CChar 47] a = false.
Proof.
  intros Ha. unfold class_has, variants.
  assert (E : forall b, b <> 47 -> (47 =? b) = false)
    by (intros b Hb; apply N.eqb_neq; congruence).
  destruct ic.
  - destruct (is_lower a) eqn:Hl.
    + apply is_lower_range in Hl. cbn [existsb item_has].
      rewrite !E by lia. reflexivity.
    + destruct (is_upper a) eqn:Hup.
      * apply is_upper_range in Hup. cbn [existsb item_has]. rewrite !E by lia. reflexivity.
      * cbn [existsb item_has]. rewrite E by exact Ha. reflexivity.
  - cbn [existsb item_has]. rewrite E by exact Ha. reflexivity.
Qed.

Definition not_slash_class (ic : bool) (b : N) : bool :=
  xorb true (class_has ic [CChar 47] b).

Lemma forallb_not_slash ic seg :
  Forall (fun c => c <> 47) seg -> forallb (not_slash_class ic) seg = true.
Proof.
  induction 1 as [|c seg Hc _ IH]; [reflexivity|].
  simpl. rewrite IH, andb_true_r. unfold not_slash_class.
  rewrite (class_slash ic c Hc). reflexivity.
Qed.

Lemma not_slash_class_inv ic a : not_slash_class ic a = true -> a <> 47.
Proof.
  unfold not_slash_class. intros H ->.
  destruct ic; vm_compute in H; discriminate.
Qed.

Lemma scan_eq re s i :
  scan re s i
  = match match_at re s i with
    | Some r => Some r
    | None => match s with [] => None | _ :: s' => scan re s' (S i) end
    end.
Proof. destruct s; reflexivity. Qed.

Lemma exec_eq re s : exec re s = scan re s 0.
Proof. reflexivity. Qed.

Lemma class_matcher ic :
  m ic (RClass true [CChar 47]) = fun x d => step1 x (not_slash_class ic) d.
Proof. reflexivity. Qed.

(** The continuation after the group fails in front of any character that is
    not a slash, and succeeds at the end of the input. *)
Lemma tail_fails ic a s' p' caps :
  a <> 47 -> m ic tail_re (mkS (a :: s') p' caps) Some = None.
Proof.
  intros Ha. unfold tail_re. cbn [m length Nat.add rest]. rewrite rep_S.
  cbn -[canon N.eqb rep]. unfold step1. cbn [rest]. rewrite (canon_slash ic a Ha).
  reflexivity.
Qed.

Lemma tail_at_end ic p' caps :
  m ic tail_re (mkS [] p' caps) Some = Some (mkS [] p' caps).
Proof. reflexivity. Qed.

Lemma match_literal_then_x re L seg :
  prog re = RSeq RBol (lit_re L (RSeq x_group tail_re)) ->
  ngroups re = 1%nat ->
  seg <> [] ->
  Forall (fun c => c <> 47) seg ->
  match_at re (L ++ seg) 0
  = Some (mkR [Some (L ++ seg); Some seg] 0 (length (L ++ seg))).
Proof.
  intros Hprog Hng Hne Hseg. unfold match_at. rewrite Hprog, Hng.
  cbn [m RegExp.pos Nat.eqb replicate]. rewrite m_lit.
  unfold x_group. cbn [m groups_of app RegExp.rest RegExp.pos RegExp.caps].
  set (z := mkS [] (0 + length L + length seg)
              (<[1%nat := Some (take (0 + length L + length seg - (0 + length L)) seg)]>
                 [None; None])).
  match goal with
  | |- match ?R with Some _ => _ | None => _ end = _ => assert (Hrep : R = Some z)
  end.
  { apply (rep_lazy_plus_to_end
             (fun b => xorb true (class_has (ignoreCase re) [CChar 47] b))).
    - intros a s' p' Ha. cbn [RegExp.rest RegExp.pos RegExp.caps].
      apply tail_fails. apply (not_slash_class_inv (ignoreCase re)). exact Ha.
    - exact Hne.
    - apply (forallb_not_slash (ignoreCase re)), Hseg.
    - lia.
    - cbn [RegExp.rest RegExp.pos RegExp.caps]. rewrite tail_at_end. reflexivity. }
  rewrite Hrep. unfold z. cbn [RegExp.pos RegExp.caps Nat.add].
  replace (length L + length seg - length L)%nat with (length seg) by lia.
  rewrite Nat.sub_0_r, <- length_app, !firstn_all. reflexivity.
Qed.

(** [^[^\/]+?$], the expression the builder tests a value of [:x] with. *)
Definition x_test_re : Re :=
  RSeq RBol (RSeq (RQuant 1 None false (RClass true [CChar 47])) (RSeq REol REmpty)).

Lemma test_x re seg :
  prog re = x_test_re ->
  seg <> [] ->
  Forall (fun c => c <> 47) seg ->
  RegExp.test re seg = true.
Proof.
  intros Hprog Hne Hseg. unfold RegExp.test. apply bool_decide_eq_true_2.
  rewrite exec_eq, scan_eq.
  assert (Hm : is_Some (match_at re seg 0)).
  { unfold match_at. rewrite Hprog. unfold x_test_re.
    cbn [m RegExp.pos Nat.eqb groups_of RegExp.rest RegExp.caps].
    set (caps0 := replicate (S (ngroups re)) None).
    set (z := mkS [] (0 + length seg) caps0).
    match goal with
    | |- is_Some (match ?R with Some _ => _ | None => _ end) => assert (Hrep : R = Some z)
    end.
    { apply (rep_lazy_plus_to_end
               (fun b => xorb true (class_has (ignoreCase re) [CChar 47] b))).
      - intros a s' p' _. reflexivity.
      - exact Hne.
      - apply (forallb_not_slash (ignoreCase re)), Hseg.
      - lia.
      - reflexivity. }
    rewrite Hrep. eauto. }
  destruct Hm as [r ->]. eauto.
Qed.

(** *** The tokens of a literal followed by [/:x] *)

(** The token of a capture [:x] after a slash, with the default pattern. *)
Definition x_token : Token :=
  mkToken (NameStr (js "x")) (js "/") (js "/") false false (js "[^\/]+?").

Definition literal_tokens (lit : jstring) : list Tok :=
  match lit with
  | [] => []
  | _ :: _ => [TStr lit]
  end.

(** [pattern] is the literal [lit] followed by [/:x]: its tokens are the
    literal and the capture, and its compiled expression is the literal, a
    slash, the capture group and the end of the match. *)
Definition literal_then_x (pattern lit : jstring) : Prop :=
  parse pattern = Some (literal_tokens lit ++ [TKey x_token])
  /\ exists re,
       pathToRegexp (PString pattern) [] no_options = Ok (re, [x_token])
       /\ prog re = RSeq RBol (lit_re (lit ++ js "/") (RSeq x_group tail_re))
       /\ ngroups re = 1%nat.

(** *** [parse] on a literal followed by [/:x] *)

(** A code unit that [PATH_REGEXP] cannot start a match on, unless it is a
    prefix: not a backslash, a colon, an opening parenthesis or an asterisk. *)
Definition plain (c : N) : Prop := c <> 92 /\ c <> 58 /\ c <> 40 /\ c <> 42.

Lemma PATH_REGEXP_bol_free : bol_free (prog PATH_REGEXP) = true.
Proof. reflexivity. Qed.

Lemma neq_eqb (a b : N) : a <> b -> (a =? b) = false.
Proof. apply N.eqb_neq. Qed.

(** An optional greedy item: one iteration that consumes input, or none. *)
Lemma rep_optional_greedy mb gs c fuel x :
  rep mb gs true c (S (S fuel)) 0 (Some 1%nat) x
  = or_else (mb (reset_caps gs x) (fun y => if (pos y =? pos x)%nat then None else c y))
            (fun _ => c x).
Proof. reflexivity. Qed.

(** What follows the optional prefix in [PATH_REGEXP]: a named or unnamed
    capture with its suffix, or an asterisk. *)
Definition after_prefix : Re :=
  Eval cbv in
    match prog PATH_REGEXP with
    | RAlt _ (RSeq _ k) => k
    | _ => REmpty
    end.

Definition prefix_group : Re :=
  RGroup 2 (RSeq (RClass false [CChar 47; CChar 46]) REmpty).

Lemma PATH_REGEXP_prog :
  prog PATH_REGEXP
  = RAlt (RSeq (RGroup 1 (RSeq (RChar 92) (RSeq RAny REmpty))) REmpty)
         (RSeq (RQuant 0 (Some 1%nat) true prefix_group) after_prefix).
Proof. reflexivity. Qed.

(** The input is empty or starts with a plain code unit. *)
Definition starts_plain (s : jstring) : Prop :=
  match s with
  | [] => True
  | d :: _ => plain d
  end.

Lemma after_prefix_fails s p cs c :
  starts_plain s -> m false after_prefix (mkS s p cs) c = None.
Proof.
  destruct s as [|d s]; [reflexivity|]. intros (_ & d2 & d3 & d4).
  unfold after_prefix. cbn [m]. unfold step1. cbn [rest canon andb].
  rewrite !neq_eqb by congruence. reflexivity.
Qed.

(** No match of [PATH_REGEXP] starts at a plain code unit that is followed by
    another one or by the end of the input. *)
Lemma no_match_at_plain c s :
  plain c -> starts_plain s -> match_at PATH_REGEXP (c :: s) 0 = None.
Proof.
  intros Hc Hs. assert (c1 : c <> 92) by apply Hc.
  unfold match_at. rewrite PATH_REGEXP_prog.
  change (ignoreCase PATH_REGEXP) with false.
  set (cs := replicate (S (ngroups PATH_REGEXP)) None).
  cbn [m rest length Nat.add].
  replace (length s + 2)%nat with (S (S (length s))) by lia.
  rewrite rep_optional_greedy.
  unfold step1 at 1. cbn [rest canon andb]. rewrite (neq_eqb 92 c) by congruence.
  cbn [or_else]. rewrite (after_prefix_fails (c :: s)) by exact Hc.
  unfold prefix_group. cbn [m]. unfold step1. cbn [rest reset_caps pos caps].
  destruct (xorb false (class_has false [CChar 47; CChar 46] c)); [|reflexivity].
  cbn [Nat.eqb]. rewrite (after_prefix_fails s) by exact Hs. reflexivity.
Qed.

(** The match of [PATH_REGEXP] at [/:x]. *)
Definition x_match : MatchResult :=
  mkR [Some (js "/:x"); None; Some (js "/"); Some (js "x"); None; None; None; None] 0 3.

Lemma match_at_x : match_at PATH_REGEXP (js "/:x") 0 = Some x_match.
Proof. vm_compute. reflexivity. Qed.

Lemma scan_literal_then_x lit i :
  Forall plain lit ->
  scan PATH_REGEXP (lit ++ js "/:x") i = Some (shiftR (length lit + i) x_match).
Proof.
  intros H. revert i. induction H as [|c lit Hc Hlit IH]; intros i.
  - cbn [app]. rewrite scan_eq, (match_at_shift _ _ i PATH_REGEXP_bol_free), match_at_x.
    reflexivity.
  - cbn [app]. rewrite scan_eq, (match_at_shift _ _ i PATH_REGEXP_bol_free).
    assert (Hs : starts_plain (lit ++ js "/:x")).
    { destruct Hlit as [|d lit Hd _]; [repeat split; discriminate | exact Hd]. }
    rewrite (no_match_at_plain c _ Hc Hs).
    cbn [fmap option_fmap option_map]. rewrite IH.
    f_equal. f_equal. cbn [length]. lia.
Qed.

Lemma scan_end i : scan PATH_REGEXP [] i = None.
Proof.
  rewrite scan_eq, (match_at_shift _ _ i PATH_REGEXP_bol_free).
  reflexivity.
Qed.

(** One turn of the loop of [parse] on a match of [/:x] at [k], and the
    last one. *)
Lemma parse_loop_x fuel str lastIndex index key path tokens k :
  exec_from PATH_REGEXP str lastIndex = Some (shiftR k x_match) ->
  parse_loop (S fuel) str lastIndex index key path tokens
  = parse_loop fuel str (3 + k) (k + 3) key []
      (push_path (path ++ slice str index k) tokens ++ [TKey x_token]).
Proof. intros H. cbn [parse_loop]. rewrite H. reflexivity. Qed.

Lemma parse_loop_end fuel str lastIndex index key path tokens :
  exec_from PATH_REGEXP str lastIndex = None ->
  parse_loop (S fuel) str lastIndex index key path tokens
  = Some (push_path (if (index <? length str)%nat then path ++ drop index str else path)
            tokens).
Proof. intros H. cbn [parse_loop]. rewrite H. reflexivity. Qed.

Lemma parse_literal_then_x lit :
  Forall plain lit ->
  parse (lit ++ js "/:x") = Some (literal_tokens lit ++ [TKey x_token]).
Proof.
  intros H. unfold parse.
  assert (Hlen : length (lit ++ js "/:x") = S (S (S (length lit))))
    by (rewrite length_app; cbn [length js]; simpl; lia).
  rewrite (parse_loop_x _ _ _ _ _ _ _ (length lit + 0)).
  2:{ unfold exec_from. cbn [Nat.ltb Nat.leb drop]. apply scan_literal_then_x, H. }
  rewrite Hlen at 1. rewrite parse_loop_end.
  2:{ unfold exec_from. rewrite Hlen.
      replace (S (S (S (length lit))) <? 3 + (length lit + 0))%nat with false
        by (symmetry; apply Nat.ltb_ge; lia).
      rewrite drop_ge by lia. apply scan_end. }
  rewrite Hlen.
  replace (length lit + 0 + 3 <? S (S (S (length lit))))%nat with false
    by (symmetry; apply Nat.ltb_ge; lia).
  unfold slice. rewrite Nat.add_0_r, Nat.sub_0_r, drop_0, take_app_length.
  destruct lit; reflexivity.
Qed.

(** *** Compiling a literal followed by [/:x] *)

Definition esc_class : list N :=
  [46; 43; 42; 63; 61; 94; 33; 58; 36; 123; 125; 40; 41; 91; 93; 124; 47].

(** What [escapeString] puts for one code unit. *)
Definition escaped (c : N) : jstring :=
  if bool_decide (c ∈ esc_class) then [92; c] else [c].

Lemma escapeString_cons c s : escapeString (c :: s) = escaped c ++ escapeString s.
Proof. reflexivity. Qed.

Lemma length_escapeString s : (length s <= length (escapeString s))%nat.
Proof.
  induction s as [|c s IH]; [reflexivity|].
  rewrite escapeString_cons, length_app. unfold escaped.
  destruct (bool_decide _); cbn [length]; lia.
Qed.

Lemma not_in_esc_class c :
  c ∉ esc_class ->
  c <> 46 /\ c <> 43 /\ c <> 42 /\ c <> 63 /\ c <> 94 /\ c <> 36 /\ c <> 123
  /\ c <> 40 /\ c <> 41 /\ c <> 91 /\ c <> 124.
Proof.
  intros H. repeat split; intros ->; apply H; unfold esc_class;
    repeat first [apply list_elem_of_here | apply list_elem_of_further].
Qed.

Lemma p_quant_escaped c s : p_quant (escaped c ++ s) = Ok (None, escaped c ++ s).
Proof.
  unfold escaped. destruct (bool_decide_reflect (c ∈ esc_class)) as [H|H]; [reflexivity|].
  apply not_in_esc_class in H as (_ & H43 & H42 & H63 & _ & _ & H123 & _).
  cbn [app p_quant].
  rewrite (neq_eqb c 42), (neq_eqb c 43), (neq_eqb c 63), (neq_eqb c 123) by assumption.
  reflexivity.
Qed.

Lemma p_quant_escapeString lit rest :
  p_quant rest = Ok (None, rest) ->
  p_quant (escapeString lit ++ rest) = Ok (None, escapeString lit ++ rest).
Proof.
  intros H. destruct lit as [|c lit]; [exact H|].
  rewrite escapeString_cons, <- app_assoc. apply p_quant_escaped.
Qed.

Lemma ends_alternative_escaped c s : ends_alternative (escaped c ++ s) = false.
Proof.
  unfold escaped. destruct (bool_decide_reflect (c ∈ esc_class)) as [H|H]; [reflexivity|].
  apply not_in_esc_class in H as (_ & _ & _ & _ & _ & _ & _ & _ & H41 & _ & H124).
  cbn [app ends_alternative]. rewrite (neq_eqb c 124), (neq_eqb c 41) by assumption.
  reflexivity.
Qed.

(** An escaped code unit is parsed as the code unit itself. *)
Lemma p_term_escaped c s f n :
  c <> 92 -> p_quant s = Ok (None, s) ->
  p_term (S f) (escaped c ++ s) n = Ok (RChar c, s, n).
Proof.
  intros Hc Hq. unfold escaped.
  destruct (bool_decide_reflect (c ∈ esc_class)) as [H|H].
  - unfold esc_class in H.
    repeat (apply elem_of_cons in H as [->|H]); try (by apply elem_of_nil in H);
      cbn -[p_quant with_quant]; unfold with_quant; rewrite Hq; reflexivity.
  - apply not_in_esc_class in H
      as (H46 & H43 & H42 & H63 & H94 & H36 & H123 & H40 & H41 & H91 & H124).
    cbn [app p_term].
    rewrite (neq_eqb c 94), (neq_eqb c 36), (neq_eqb c 40), (neq_eqb c 92),
      (neq_eqb c 91), (neq_eqb c 46), (neq_eqb c 42), (neq_eqb c 43), (neq_eqb c 63),
      (neq_eqb c 123) by assumption.
    cbn [orb]. unfold with_quant. rewrite Hq. reflexivity.
Qed.

Lemma p_alt_S f s n :
  p_alt (S f) s n
  = if ends_alternative s then Ok (REmpty, s, n)
    else a <- p_term f s n;;
         let '(t, s1, n1) := a in
         b <- p_alt f s1 n1;;
         let '(r, s2, n2) := b in
         Ok (RSeq t r, s2, n2).
Proof. reflexivity. Qed.

Lemma p_disj_S f s n :
  p_disj (S f) s n
  = (a <- p_alt f s n;;
     let '(r1, s1, n1) := a in
     match s1 with
     | c :: s2 =>
         if c =? 124 then
           b <- p_disj f s2 n1;;
           let '(r2, s3, n2) := b in
           Ok (RAlt r1 r2, s3, n2)
         else Ok a
     | [] => Ok a
     end).
Proof. reflexivity. Qed.

Lemma p_alt_escapeString lit :
  Forall (fun c => c <> 92) lit ->
  forall rest f n,
    p_quant rest = Ok (None, rest) ->
    p_alt (length lit + S f) (escapeString lit ++ rest) n
    = (b <- p_alt (S f) rest n;;
       let '(r, s2, n2) := b in
       Ok (lit_re lit r, s2, n2)).
Proof.
  intros Hlit. induction Hlit as [|c lit Hc _ IH]; intros rest f n Hq.
  - cbn [length Nat.add escapeString app].
    change (escapeString [] ++ rest) with rest.
    destruct (p_alt (S f) rest n) as [[[r s2] n2]|e]; reflexivity.
  - rewrite escapeString_cons, <- app_assoc. cbn [length Nat.add].
    rewrite p_alt_S, ends_alternative_escaped.
    replace (length lit + S f)%nat with (S (length lit + f)) by lia.
    rewrite (p_term_escaped c _ _ n Hc (p_quant_escapeString lit rest Hq)).
    cbn [bind].
    replace (S (length lit + f)) with (length lit + S f)%nat by lia.
    rewrite (IH rest f n Hq).
    destruct (p_alt (S f) rest n) as [[[r s2] n2]|e]; reflexivity.
Qed.

(** The source after the literal: [\/([^\/]+?)(?:\/(?=$))?$] *)
Definition x_rest : jstring := js "\/([^\/]+?)(?:\/(?=$))?$".

Lemma p_alt_x_rest f :
  p_alt (S (39 + f)) x_rest 0 = Ok (RSeq (RChar 47) (RSeq x_group tail_re), [], 1%nat).
Proof. reflexivity. Qed.

Lemma lit_re_app l1 l2 k : lit_re (l1 ++ l2) k = lit_re l1 (lit_re l2 k).
Proof. apply foldr_app. Qed.

(** The expression compiled from [^], an escaped literal and a source
    [rest] that is parsed, with [k0] levels of recursion, to [k]. *)
Lemma create_literal lit rest k n k0 g i :
  Forall (fun c => c <> 92) lit ->
  p_quant rest = Ok (None, rest) ->
  (forall f, p_alt (S (k0 + f)) rest 0 = Ok (k, [], n)) ->
  (k0 <= 4 * length rest + 9)%nat ->
  exists re,
    RegExp.create (js "^" ++ escapeString lit ++ rest) g i = Ok re
    /\ prog re = RSeq RBol (lit_re lit k)
    /\ ngroups re = n /\ ignoreCase re = i.
Proof.
  intros Hlit Hq Hrest Hk0. unfold RegExp.create.
  set (src := js "^" ++ escapeString lit ++ rest).
  assert (Hf : exists f, (4 * length src + 8 = S (S (length lit + S (k0 + f))))%nat).
  { exists (4 * length (escapeString lit) - length lit + (4 * length rest + 9 - k0))%nat.
    pose proof (length_escapeString lit). unfold src.
    rewrite !length_app. replace (length (js "^")) with 1%nat by reflexivity. lia. }
  destruct Hf as [f ->].
  rewrite p_disj_S. unfold src at 1.
  change (js "^" ++ escapeString lit ++ rest) with (94 :: escapeString lit ++ rest).
  rewrite p_alt_S. cbn [ends_alternative]. cbn [N.eqb Pos.eqb orb].
  rewrite (Nat.add_succ_r (length lit) (k0 + f)).
  cbn [p_term]. cbn [N.eqb Pos.eqb bind].
  rewrite <- (Nat.add_succ_r (length lit) (k0 + f)).
  rewrite (p_alt_escapeString lit Hlit rest (k0 + f) 0 Hq).
  rewrite (Hrest f). cbn [bind].
  eexists. split; [reflexivity|]. repeat split; reflexivity.
Qed.

Lemma create_literal_then_x lit g i :
  Forall (fun c => c <> 92) lit ->
  exists re,
    RegExp.create (js "^" ++ escapeString lit ++ x_rest) g i = Ok re
    /\ prog re = RSeq RBol (lit_re (lit ++ js "/") (RSeq x_group tail_re))
    /\ ngroups re = 1%nat /\ ignoreCase re = i.
Proof.
  intros Hlit.
  destruct (create_literal lit x_rest _ 1%nat 39%nat g i Hlit eq_refl p_alt_x_rest)
    as (re & Hre & Hprog & Hn & Hi); [cbn; lia|].
  exists re. rewrite lit_re_app. repeat split; assumption.
Qed.

Lemma route_source_literal_then_x lit :
  route_source (literal_tokens lit ++ [TKey x_token]) no_options
  = js "^" ++ escapeString lit ++ x_rest.
Proof.
  unfold route_source, endsWithSlash. rewrite last_snoc.
  destruct lit as [|a lit]; [reflexivity|].
  change (route_of_token <$> literal_tokens (a :: lit) ++ [TKey x_token])
    with [escapeString (a :: lit); route_of_token (TKey x_token)].
  generalize (escapeString (a :: lit)). intros e.
  cbn [mjoin list_join strict no_options negb end_].
  change (bool_decide (None = Some false)) with false. cbn [negb].
  rewrite app_nil_r, <- !app_assoc. reflexivity.
Qed.

(** A literal with no backslash, colon, opening parenthesis or asterisk. *)
Definition is_plain (c : N) : bool :=
  negb ((c =? 92) || (c =? 58) || (c =? 40) || (c =? 42)).

Lemma is_plain_spec lit : forallb is_plain lit = true -> Forall plain lit.
Proof.
  induction lit as [|c lit IH]; [constructor|].
  cbn [forallb]. intros H. apply andb_true_iff in H as [Hc Hlit].
  constructor; [|apply IH, Hlit].
  unfold is_plain in Hc. apply negb_true_iff in Hc.
  repeat (apply orb_false_iff in Hc as [Hc ?]).
  repeat split; apply N.eqb_neq; assumption.
Qed.

Lemma plain_literal_then_x lit :
  forallb is_plain lit = true -> literal_then_x (lit ++ js "/:x") lit.
Proof.
  intros H. apply is_plain_spec in H.
  assert (Hparse := parse_literal_then_x lit H).
  split; [exact Hparse|].
  assert (H92 : Forall (fun c => c <> 92) lit).
  { eapply Forall_impl; [exact H|]. intros c Hc. apply Hc. }
  destruct (create_literal_then_x lit false true H92) as (re & Hre & Hprog & Hng & _).
  exists re. split; [|split; assumption].
  unfold pathToRegexp, stringToRegexp, tokensToRegExp. rewrite Hparse.
  rewrite route_source_literal_then_x.
  change (flags no_options) with true. rewrite Hre. cbn [bind app].
  destruct lit; reflexivity.
Qed.

(** *** The round trip *)



Lemma x_token_compiles :
  exists re, RegExp.create (js "^" ++ pattern x_token ++ js "$") false false = Ok re
             /\ prog re = x_test_re.
Proof.
  destruct (RegExp.create (js "^" ++ pattern x_token ++ js "$") false false) as [re|e] eqn:H;
    [|vm_compute in H; discriminate].
  exists re. split; [reflexivity|]. vm_compute in H. inversion H. reflexivity.
Qed.

Lemma build_literal_then_x lit v seg data :
  v <> [] ->
  encodeURIComponent v = Ok seg ->
  data (js "x") = VString v ->
  (f <- tokensToFunction (literal_tokens lit ++ [TKey x_token]);; f data)
  = Ok (lit ++ js "/" ++ seg).
Proof.
  intros Hne Henc Hlook.
  destruct x_token_compiles as (re & Hre & Hprog).
  assert (Htest : matches_test (Some re) seg = true).
  { apply test_x; [exact Hprog | eapply encode_nonempty; eassumption
                   | eapply encode_no_slash; eassumption]. }
  change (js "x") with (prop_of_name (name x_token)) in Hlook.
  unfold tokensToFunction.
  destruct lit as [|a lit]; cbn [literal_tokens app compile_tokens compile_token bind];
    rewrite Hre; cbn [bind zip zip_with build];
    rewrite Hlook; rewrite Henc; cbn [bind];
    rewrite Htest; cbn [negb build]; reflexivity.
Qed.



(** [compile(pattern)({x: v})] *)
Definition toPath_x (pattern v : jstring) : result jstring :=
  f <- compile pattern;; f (obj {[ js "x" := VString v ]}).
(* ------------------------------------------------------------------ *)
(** ** Strict and non-strict matching (C3) *)
(* ------------------------------------------------------------------ *)

Definition non_strict : Options := mkOptions false false None.
Definition strict_mode : Options := mkOptions false true None.

(** [pathToRegexp(pattern, [], options).test(path)] *)
Definition compiled_test (pattern : jstring) (o : Options) (input : jstring) : result bool :=
  r <- pathToRegexp (PString pattern) [] o;;
  Ok (RegExp.test r.1 input).

(** The allowance for one trailing separator. *)
Definition trailing_allowance : jstring := js "(?:\/(?=$))?".

Lemma route_source_strict tokens sens e :
  route_source tokens (mkOptions sens true e)
  = js "^" ++ mjoin (route_of_token <$> tokens)
    ++ (if bool_decide (e = Some false)
        then (if endsWithSlash tokens then [] else js "(?=\/|$)")
        else js "$").
Proof.
  unfold route_source; simpl.
  destruct (bool_decide (e = Some false)); simpl; reflexivity.
Qed.

Lemma route_source_non_strict tokens sens e :
  route_source tokens (mkOptions sens false e)
  = js "^"
    ++ ((if endsWithSlash tokens
         then take (length (mjoin (route_of_token <$> tokens)) - 2)
                (mjoin (route_of_token <$> tokens))
         else mjoin (route_of_token <$> tokens))
        ++ trailing_allowance)
    ++ (if bool_decide (e = Some false) then js "(?=\/|$)" else js "$").
Proof.
  unfold route_source; simpl.
  destruct (bool_decide (e = Some false)); simpl; reflexivity.
Qed.

(** *** A literal pattern and its tokens *)

Lemma scan_plain lit i : Forall plain lit -> scan PATH_REGEXP lit i = None.
Proof.
  intros H. revert i. induction H as [|c lit Hc Hlit IH]; intros i; [apply scan_end|].
  rewrite scan_eq, (match_at_shift _ _ i PATH_REGEXP_bol_free).
  rewrite (no_match_at_plain c lit Hc); [apply IH|].
  destruct Hlit; [exact I | assumption].
Qed.

Lemma parse_plain lit : Forall plain lit -> parse lit = Some (literal_tokens lit).
Proof.
  intros H. unfold parse. rewrite parse_loop_end.
  - destruct lit; reflexivity.
  - unfold exec_from. cbn [Nat.ltb Nat.leb drop]. apply scan_plain, H.
Qed.

Lemma mjoin_literal lit : mjoin (route_of_token <$> literal_tokens lit) = escapeString lit.
Proof. destruct lit; [reflexivity|]. apply app_nil_r. Qed.

Lemma endsWithSlash_literal lit :
  endsWithSlash (literal_tokens lit) = bool_decide (last lit = Some 47).
Proof. destruct lit; reflexivity. Qed.

Lemma escapeString_app a b : escapeString (a ++ b) = escapeString a ++ escapeString b.
Proof.
  induction a as [|c a IH]; [reflexivity|].
  cbn [app]. rewrite !escapeString_cons, IH, app_assoc. reflexivity.
Qed.

Lemma source_strict lit :
  route_source (literal_tokens lit) strict_mode = js "^" ++ escapeString lit ++ js "$".
Proof. unfold strict_mode. rewrite route_source_strict, mjoin_literal. reflexivity. Qed.

Lemma source_non_strict lit :
  last lit <> Some 47 ->
  route_source (literal_tokens lit) non_strict
  = js "^" ++ escapeString lit ++ trailing_allowance ++ js "$".
Proof.
  intros H. unfold non_strict.
  rewrite route_source_non_strict, endsWithSlash_literal, bool_decide_eq_false_2 by exact H.
  rewrite mjoin_literal, <- app_assoc. reflexivity.
Qed.

(** Without [strict], the slash that ends a pattern is dropped from the
    source: it is the source of the pattern without it. *)
Lemma source_non_strict_slash lit :
  route_source (literal_tokens (lit ++ js "/")) non_strict
  = js "^" ++ escapeString lit ++ trailing_allowance ++ js "$".
Proof.
  unfold non_strict.
  rewrite route_source_non_strict, endsWithSlash_literal, bool_decide_eq_true_2
    by apply last_snoc.
  rewrite mjoin_literal, escapeString_app, length_app.
  replace (length (escapeString lit) + length (escapeString (js "/")) - 2)%nat
    with (length (escapeString lit))
    by (change (length (escapeString (js "/"))) with 2%nat; lia).
  rewrite take_app_length, <- app_assoc. reflexivity.
Qed.

(** *** An anchored expression matches at the start only *)

Lemma scan_anchored re k s i : prog re = RSeq RBol k -> scan re s (S i) = None.
Proof.
  intros Hprog. revert i. induction s as [|a s IH]; intros i;
    rewrite scan_eq; unfold match_at; rewrite Hprog; cbn [m pos Nat.eqb];
    [reflexivity | apply IH].
Qed.

Lemma exec_anchored re k s : prog re = RSeq RBol k -> exec re s = match_at re s 0.
Proof.
  intros Hprog. rewrite exec_eq, scan_eq.
  destruct (match_at re s 0); [reflexivity|].
  destruct s; [reflexivity | apply (scan_anchored re k), Hprog].
Qed.

(** An anchored literal followed by [k], on an input that starts with the
    literal: [k] decides. *)
Lemma test_literal re L k t :
  prog re = RSeq RBol (lit_re L k) ->
  RegExp.test re (L ++ t)
  = bool_decide (is_Some (m (ignoreCase re) k
                            (mkS t (length L) (replicate (S (ngroups re)) None)) Some)).
Proof.
  intros Hprog. unfold RegExp.test. rewrite (exec_anchored re _ _ Hprog).
  unfold match_at. rewrite Hprog. cbn [m pos Nat.eqb]. rewrite m_lit. cbn [Nat.add].
  destruct (m _ k _ Some); apply bool_decide_ext; split; intros [? H]; eauto; discriminate.
Qed.

Lemma tail_at_slash ic p cs : is_Some (m ic tail_re (mkS (js "/") p cs) Some).
Proof.
  change (mkS (js "/") p cs) with (shift p (mkS (js "/") 0 cs)).
  rewrite (m_shift ic p tail_re eq_refl _ Some Some (shifts_Some p)).
  destruct ic; eexists; reflexivity.
Qed.

(** *** Compiling a literal pattern *)

Lemma p_alt_end f : p_alt (S (1 + f)) (js "$") 0 = Ok (RSeq REol REmpty, [], 0%nat).
Proof. reflexivity. Qed.

Lemma p_alt_allowance f :
  p_alt (S (20 + f)) (trailing_allowance ++ js "$") 0 = Ok (tail_re, [], 0%nat).
Proof. reflexivity. Qed.

Lemma plain_no_backslash lit : Forall plain lit -> Forall (fun c => c <> 92) lit.
Proof. intros H. eapply Forall_impl; [exact H|]. intros c Hc. apply Hc. Qed.

Lemma compile_literal L L' o rest k n k0 :
  Forall plain L ->
  Forall (fun c => c <> 92) L' ->
  route_source (literal_tokens L) o = js "^" ++ escapeString L' ++ rest ->
  p_quant rest = Ok (None, rest) ->
  (forall f, p_alt (S (k0 + f)) rest 0 = Ok (k, [], n)) ->
  (k0 <= 4 * length rest + 9)%nat ->
  exists re,
    pathToRegexp (PString L) [] o = Ok (re, []) /\ prog re = RSeq RBol (lit_re L' k).
Proof.
  intros HL HL' Hsrc Hq Hrest Hk0.
  destruct (create_literal L' rest k n k0 false (flags o) HL' Hq Hrest Hk0)
    as (re & Hre & Hprog & _).
  exists re. split; [|exact Hprog].
  unfold pathToRegexp, stringToRegexp, tokensToRegExp.
  rewrite (parse_plain L HL), Hsrc, Hre. destruct L; reflexivity.
Qed.

Lemma plain_slash lit : Forall plain lit -> Forall plain (lit ++ js "/").
Proof.
  intros H. apply Forall_app_2; [exact H|].
  constructor; [repeat split; discriminate | constructor].
Qed.

Lemma strict_literal lit :
  Forall plain lit ->
  compiled_test lit strict_mode (lit ++ js "/") = Ok false
  /\ compiled_test (lit ++ js "/") strict_mode lit = Ok false
  /\ compiled_test lit strict_mode lit = Ok true.
Proof.
  intros H. pose proof (plain_no_backslash lit H) as H92.
  destruct (compile_literal lit lit strict_mode (js "$") _ _ 1 H H92
              (source_strict lit) eq_refl p_alt_end ltac:(cbn; lia))
    as (re & Hre & Hprog).
  destruct (compile_literal (lit ++ js "/") (lit ++ js "/") strict_mode (js "$") _ _ 1
              (plain_slash lit H) (plain_no_backslash _ (plain_slash lit H))
              (source_strict _) eq_refl p_alt_end ltac:(cbn; lia))
    as (re' & Hre' & Hprog').
  rewrite lit_re_app in Hprog'.
  unfold compiled_test. rewrite Hre, Hre'. cbn [bind fst].
  split; [|split]; f_equal.
  - rewrite (test_literal re lit _ _ Hprog). reflexivity.
  - rewrite <- (app_nil_r lit). rewrite (test_literal re' lit _ _ Hprog'). reflexivity.
  - rewrite <- (app_nil_r lit). rewrite (test_literal re lit _ _ Hprog). reflexivity.
Qed.

Lemma non_strict_literal lit :
  Forall plain lit ->
  last lit <> Some 47 ->
  compiled_test lit non_strict (lit ++ js "/") = Ok true
  /\ compiled_test (lit ++ js "/") non_strict lit = Ok true
  /\ compiled_test lit non_strict lit = Ok true.
Proof.
  intros H Hl. pose proof (plain_no_backslash lit H) as H92.
  destruct (compile_literal lit lit non_strict (trailing_allowance ++ js "$") _ _ 20 H H92
              (source_non_strict lit Hl) eq_refl p_alt_allowance ltac:(cbn; lia))
    as (re & Hre & Hprog).
  destruct (compile_literal (lit ++ js "/") lit non_strict (trailing_allowance ++ js "$")
              _ _ 20 (plain_slash lit H) H92
              (source_non_strict_slash lit) eq_refl p_alt_allowance ltac:(cbn; lia))
    as (re' & Hre' & Hprog').
  unfold compiled_test. rewrite Hre, Hre'. cbn [bind fst].
  split; [|split]; f_equal.
  - rewrite (test_literal re lit _ _ Hprog). apply bool_decide_eq_true_2, tail_at_slash.
  - rewrite <- (app_nil_r lit). rewrite (test_literal re' lit _ _ Hprog').
    rewrite tail_at_end. reflexivity.
  - rewrite <- (app_nil_r lit). rewrite (test_literal re lit _ _ Hprog).
    rewrite tail_at_end. reflexivity.
Qed.

(** C3. The pattern [/a/b] compiled without [strict] accepts [/a/b/]
    (and [/a/b]); compiled with [strict] it rejects [/a/b/] and still accepts
    [/a/b]. More generally, for every literal pattern free of backslashes,
    colons, opening parentheses and asterisks: in strict mode the pattern
    rejects its path with a slash added, the pattern with a slash added
    rejects the path, and the pattern accepts itself; without [strict], a
    pattern that does not end with a slash accepts all three. The reason is
    in the source that is compiled: in strict mode it is the tokens'
    expression followed by the end anchor only, and the allowance for a
    trailing separator is appended in non-strict mode alone. *)
Theorem C3_strict_trailing_slash :
  (compiled_test (js "/a/b") non_strict (js "/a/b/") = Ok true
   /\ compiled_test (js "/a/b") non_strict (js "/a/b") = Ok true
   /\ compiled_test (js "/a/b") strict_mode (js "/a/b/") = Ok false
   /\ compiled_test (js "/a/b") strict_mode (js "/a/b") = Ok true
   /\ compiled_test (js "/a/b/") strict_mode (js "/a/b") = Ok false
   /\ compiled_test (js "/a/b/") non_strict (js "/a/b") = Ok true)
  /\ (forall lit,
        forallb is_plain lit = true ->
        compiled_test lit strict_mode (lit ++ js "/") = Ok false
        /\ compiled_test (lit ++ js "/") strict_mode lit = Ok false
        /\ compiled_test lit strict_mode lit = Ok true
        /\ (last lit <> Some 47 ->
            compiled_test lit non_strict (lit ++ js "/") = Ok true
            /\ compiled_test (lit ++ js "/") non_strict lit = Ok true
            /\ compiled_test lit non_strict lit = Ok true))
  /\ (forall tokens sens,
        route_source tokens (mkOptions sens true None)
        = js "^" ++ mjoin (route_of_token <$> tokens) ++ js "$")
  /\ (forall tokens sens,
        endsWithSlash tokens = false ->
        route_source tokens (mkOptions sens false None)
        = js "^" ++ (mjoin (route_of_token <$> tokens) ++ trailing_allowance) ++ js "$").
Proof.
  split; [|split; [|split]].
  - do 5 (split; [vm_compute; reflexivity|]). vm_compute; reflexivity.
  - intros lit H. apply is_plain_spec in H.
    destruct (strict_literal lit H) as (H1 & H2 & H3).
    do 3 (split; [assumption|]). intros Hl. apply non_strict_literal; assumption.
  - intros tokens sens. exact (route_source_strict tokens sens None).
  - intros tokens sens H. rewrite route_source_non_strict, H. reflexivity.
Qed.

(** An instance: the pattern [/docs/v1.2]. *)
Lemma C3_strict_trailing_slash_witness :
  compiled_test (js "/docs/v1.2") strict_mode (js "/docs/v1.2/") = Ok false
  /\ compiled_test (js "/docs/v1.2") non_strict (js "/docs/v1.2/") = Ok true.
Proof.
  destruct C3_strict_trailing_slash as (_ & H & _).
  destruct (H (js "/docs/v1.2") eq_refl) as (H1 & _ & _ & H2).
  split; [exact H1 | apply H2; discriminate].
Defined.


(** * Further properties of the code *)

(* ------------------------------------------------------------------ *)
(** ** Percent-encoding and decoding *)
(* ------------------------------------------------------------------ *)

Lemma hexval_hexdigit n : n < 16 -> hexval (hexdigit n) = Some n.
Proof.
  intros Hn. unfold hexdigit, hexval, is_digit.
  destruct (N.ltb_spec n 10).
  - replace (48 <=? 48 + n) with true by (symmetry; apply N.leb_le; lia).
    replace (48 + n <=? 57) with true by (symmetry; apply N.leb_le; lia).
    cbn [andb]. f_equal. lia.
  - replace (55 + n <=? 57) with false by (symmetry; apply N.leb_gt; lia).
    rewrite andb_false_r.
    replace (65 <=? 55 + n) with true by (symmetry; apply N.leb_le; lia).
    replace (55 + n <=? 70) with true by (symmetry; apply N.leb_le; lia).
    cbn [andb]. f_equal. lia.
Qed.

Lemma read_escapes_pct b s :
  b < 256 ->
  read_escapes (pct b ++ s) = (r <- read_escapes s;; Ok (Octet b :: r)).
Proof.
  intros Hb. unfold pct. cbn [app read_escapes]. cbn [N.eqb Pos.eqb].
  assert (H1 : b / 16 < 16) by (apply N.Div0.div_lt_upper_bound; lia).
  assert (H2 : b mod 16 < 16) by (apply N.mod_lt; lia).
  rewrite (hexval_hexdigit _ H1), (hexval_hexdigit _ H2).
  replace (16 * (b / 16) + b mod 16) with b by (apply N.div_mod; lia).
  reflexivity.
Qed.

Ltac dlia := zify; Z.to_euclidean_division_equations; lia.

Lemma utf8_octets_bound v : v < 2097152 -> Forall (fun b => b < 256) (utf8_octets v).
Proof.
  intros Hv. unfold utf8_octets.
  destruct (N.ltb_spec v 128); [|destruct (N.ltb_spec v 2048); [|destruct (N.ltb_spec v 65536)]];
    repeat constructor; dlia.
Qed.

Lemma read_escapes_octets bs s :
  Forall (fun b => b < 256) bs ->
  read_escapes (mjoin (pct <$> bs) ++ s)
  = (r <- read_escapes s;; Ok ((Octet <$> bs) ++ r)).
Proof.
  induction 1 as [|b bs Hb _ IH].
  - cbn. destruct (read_escapes s); reflexivity.
  - change (mjoin (pct <$> b :: bs)) with (pct b ++ mjoin (pct <$> bs)).
    rewrite <- app_assoc, (read_escapes_pct _ _ Hb), IH.
    destruct (read_escapes s); reflexivity.
Qed.

Definition is_surrogate (c : N) : bool := (55296 <=? c) && (c <=? 57343).

Ltac ltb_cases :=
  repeat match goal with
         | |- context [?a <? ?b] =>
             destruct (N.ltb_spec a b); try (exfalso; dlia)
         | |- context [?a <=? ?b] =>
             destruct (N.leb_spec a b); try (exfalso; dlia)
         end.

(** The octets of a scalar value decode to its code units. *)
Lemma decode_utf8_octets v l :
  v <= 1114111 -> is_surrogate v = false ->
  decode_items ((Octet <$> utf8_octets v) ++ l)
  = (r <- decode_items l;; Ok (utf16_units v ++ r)).
Proof.
  intros Hv Hs. unfold is_surrogate in Hs.
  assert (Hs' : v < 55296 \/ 57343 < v).
  { destruct (N.leb_spec 55296 v), (N.leb_spec v 57343); try discriminate; lia. }
  clear Hs. unfold utf8_octets.
  destruct (N.ltb_spec v 128) as [H1|H1];
    [|destruct (N.ltb_spec v 2048) as [H2|H2]; [|destruct (N.ltb_spec v 65536) as [H3|H3]]];
    cbn [fmap list_fmap app decode_items].
  - ltb_cases; unfold utf16_units; ltb_cases; reflexivity.
  - match goal with
    | |- context [valid_scalar _ ?e] => replace e with v by dlia
    end.
    unfold is_cont, valid_scalar; ltb_cases; reflexivity.
  - match goal with
    | |- context [valid_scalar _ ?e] => replace e with v by dlia
    end.
    unfold is_cont, valid_scalar; ltb_cases; reflexivity.
  - match goal with
    | |- context [valid_scalar _ ?e] => replace e with v by dlia
    end.
    unfold is_cont, valid_scalar; ltb_cases; reflexivity.
Qed.

Lemma unreserved_ascii c : is_unreserved c = true -> c <> 37 /\ c <> 43 /\ c <> 47 /\ c < 128.
Proof.
  unfold is_unreserved, is_alpha, is_upper, is_lower, is_digit, is_uriMark.
  intros H. apply orb_true_iff in H as [H|H]; [apply orb_true_iff in H as [H|H];
    [apply orb_true_iff in H as [H|H]|]|].
  1-3: apply andb_true_iff in H as [H1 H2]; apply N.leb_le in H1, H2; lia.
  apply bool_decide_eq_true_1 in H.
  repeat (apply elem_of_cons in H as [->|H]); try lia. by apply elem_of_nil in H.
Qed.

Lemma decode_encode_aux (n : nat) :
  forall v seg, (length v <= n)%nat ->
    Forall (fun c => c < 65536) v ->
    encodeURIComponent v = Ok seg ->
    exists items, read_escapes seg = Ok items /\ decode_items items = Ok v.
Proof.
  induction n as [n IH] using lt_wf_ind. intros v seg Hn Hv H.
  destruct v as [|c v]; [inversion H; exists []; split; reflexivity|].
  cbn [length] in Hn. cbn [encodeURIComponent] in H.
  apply Forall_cons in Hv as [Hc Hv].
  destruct (is_unreserved c) eqn:Hu.
  { destruct (encodeURIComponent v) as [r|] eqn:Hr; cbn [bind] in H; [|discriminate].
    inversion H; subst seg.
    destruct (IH (length v) ltac:(lia) v r ltac:(lia) Hv Hr) as (items & H1 & H2).
    exists (Plain c :: items). apply unreserved_ascii in Hu as (H37 & _).
    cbn [read_escapes]. rewrite (proj2 (N.eqb_neq c 37) H37), H1. cbn [bind decode_items].
    rewrite H2. split; reflexivity. }
  destruct (is_low_surrogate c) eqn:Hlo; [discriminate|].
  destruct (is_high_surrogate c) eqn:Hhi.
  - destruct v as [|d v]; [discriminate|].
    destruct (is_low_surrogate d) eqn:Hd; [|discriminate].
    destruct (encodeURIComponent v) as [r|] eqn:Hr; cbn [bind] in H; [|discriminate].
    inversion H; subst seg. apply Forall_cons in Hv as [_ Hv].
    destruct (IH (length v) ltac:(cbn [length] in Hn; lia) v r ltac:(lia) Hv Hr)
      as (items & H1 & H2).
    unfold is_high_surrogate in Hhi. unfold is_low_surrogate in Hd.
    apply andb_true_iff in Hhi as [Ha Hb]. apply andb_true_iff in Hd as [Hd1 Hd2].
    apply N.leb_le in Ha, Hb, Hd1, Hd2.
    set (u := (c - 55296) * 1024 + (d - 56320) + 65536).
    assert (Hu1 : 65536 <= u <= 1114111) by (unfold u; lia).
    exists ((Octet <$> utf8_octets u) ++ items).
    rewrite read_escapes_octets, H1 by (apply utf8_octets_bound; lia).
    split; [reflexivity|].
    rewrite decode_utf8_octets, H2; [|lia|unfold is_surrogate; ltb_cases; reflexivity].
    cbn [bind]. unfold utf16_units. ltb_cases.
    all: replace (55296 + (u - 65536) / 1024) with c by (unfold u; dlia).
    all: replace (56320 + (u - 65536) mod 1024) with d by (unfold u; dlia).
    all: reflexivity.
  - destruct (encodeURIComponent v) as [r|] eqn:Hr; cbn [bind] in H; [|discriminate].
    inversion H; subst seg.
    destruct (IH (length v) ltac:(lia) v r ltac:(lia) Hv Hr) as (items & H1 & H2).
    exists ((Octet <$> utf8_octets c) ++ items).
    rewrite read_escapes_octets, H1 by (apply utf8_octets_bound; lia).
    split; [reflexivity|].
    rewrite decode_utf8_octets, H2; [|lia|].
    + cbn [bind]. unfold utf16_units. ltb_cases; reflexivity.
    + unfold is_surrogate, is_high_surrogate, is_low_surrogate in *.
      destruct (N.leb_spec 55296 c), (N.leb_spec c 57343), (N.leb_spec c 56319),
        (N.leb_spec 56320 c); cbn in *; try reflexivity; try discriminate; lia.
Qed.

(** Decoding undoes encoding, for a string of 16-bit code units. *)
Lemma decode_encode v seg :
  Forall (fun c => c < 65536) v ->
  encodeURIComponent v = Ok seg ->
  decodeURIComponent seg = Ok v.
Proof.
  intros Hv H.
  destruct (decode_encode_aux (length v) v seg ltac:(lia) Hv H) as (items & H1 & H2).
  unfold decodeURIComponent. rewrite H1. exact H2.
Qed.

(** [s] holds no code unit [c]. *)
Definition lacks (c : N) (s : jstring) : bool := forallb (fun a => negb (a =? c)) s.

(** Every code unit of [s] is a 16-bit one. *)
Definition utf16 (s : jstring) : bool := forallb (fun c => c <? 65536) s.

Lemma lacks_Forall c s : lacks c s = true -> Forall (fun a => a <> c) s.
Proof.
  induction s as [|a s IH]; [constructor|].
  cbn [lacks forallb]. intros H. apply andb_true_iff in H as [Ha Hs].
  constructor; [|apply IH, Hs]. apply negb_true_iff, N.eqb_neq in Ha. exact Ha.
Qed.

Lemma Forall_lacks c s : Forall (fun a => a <> c) s -> lacks c s = true.
Proof.
  induction 1 as [|a s Ha _ IH]; [reflexivity|].
  cbn [lacks forallb]. apply andb_true_iff. split; [|exact IH].
  apply negb_true_iff, N.eqb_neq, Ha.
Qed.

Lemma utf16_Forall s : utf16 s = true -> Forall (fun c => c < 65536) s.
Proof.
  induction s as [|a s IH]; [constructor|].
  cbn [utf16 forallb]. intros H. apply andb_true_iff in H as [Ha Hs].
  constructor; [apply N.ltb_lt, Ha | apply IH, Hs].
Qed.

Lemma read_escapes_app_no_pct a b :
  Forall (fun c => c <> 37) a ->
  read_escapes (a ++ b) = (r <- read_escapes b;; Ok ((Plain <$> a) ++ r)).
Proof.
  induction 1 as [|c a Hc _ IH].
  - cbn. destruct (read_escapes b); reflexivity.
  - cbn [app read_escapes]. rewrite (proj2 (N.eqb_neq c 37) Hc), IH.
    destruct (read_escapes b); reflexivity.
Qed.

Lemma decode_items_plain a l :
  decode_items ((Plain <$> a) ++ l) = (r <- decode_items l;; Ok (a ++ r)).
Proof.
  induction a as [|c a IH].
  - cbn. destruct (decode_items l); reflexivity.
  - cbn [fmap list_fmap app decode_items].
    change (list_fmap N UriItem Plain a) with (Plain <$> a). rewrite IH.
    destruct (decode_items l); reflexivity.
Qed.

(** Without a percent sign there is nothing to decode. *)
Lemma decode_app_no_pct a b :
  lacks 37 a = true ->
  decodeURIComponent (a ++ b) = (r <- decodeURIComponent b;; Ok (a ++ r)).
Proof.
  intros H. apply lacks_Forall in H. unfold decodeURIComponent.
  rewrite (read_escapes_app_no_pct a b H).
  destruct (read_escapes b) as [l|]; cbn [bind]; [|reflexivity].
  apply decode_items_plain.
Qed.

Lemma decode_no_pct s : lacks 37 s = true -> decodeURIComponent s = Ok s.
Proof.
  intros H. rewrite <- (app_nil_r s) at 1. rewrite (decode_app_no_pct _ _ H).
  cbn. rewrite app_nil_r. reflexivity.
Qed.

Lemma plus_to_space_id s : lacks 43 s = true -> plus_to_space s = s.
Proof.
  intros H. apply lacks_Forall in H. unfold plus_to_space.
  induction H as [|c s Hc _ IH]; [reflexivity|].
  cbn [fmap list_fmap]. rewrite (proj2 (N.eqb_neq c 43) Hc). f_equal. exact IH.
Qed.

Lemma plus_to_space_lacks c s : c <> 32 -> lacks c s = true -> lacks c (plus_to_space s) = true.
Proof.
  intros Hc. unfold plus_to_space, lacks. induction s as [|a s IH]; [reflexivity|].
  cbn [fmap list_fmap forallb]. intros H. apply andb_true_iff in H as [Ha Hs].
  apply andb_true_iff. split; [|apply IH, Hs].
  destruct (a =? 43); [apply negb_true_iff, N.eqb_neq; congruence | exact Ha].
Qed.

Lemma indexOf_from_lacks c s i : lacks c s = true -> indexOf_from [c] s i = None.
Proof.
  revert i. induction s as [|a s IH]; intros i H; [reflexivity|].
  cbn [lacks forallb] in H. apply andb_true_iff in H as [Ha Hs].
  cbn [indexOf_from starts_with]. apply negb_true_iff in Ha.
  rewrite N.eqb_sym, Ha. cbn [andb]. apply IH, Hs.
Qed.

Lemma indexOf_lacks c s : lacks c s = true -> indexOf s [c] = None.
Proof. apply indexOf_from_lacks. Qed.

Lemma lacks_app c a b : lacks c (a ++ b) = lacks c a && lacks c b.
Proof. apply forallb_app. Qed.

(** *** What the builder embeds *)

(** A code unit the encoding can hold: unreserved, the percent sign, or an
    upper-case hexadecimal digit. *)
Definition uri_safe (c : N) : bool :=
  is_unreserved c || (c =? 37) || ((65 <=? c) && (c <=? 70)).

Lemma hexdigit_safe n : n < 16 -> uri_safe (hexdigit n) = true.
Proof.
  intros Hn. unfold hexdigit, uri_safe.
  destruct (N.ltb_spec n 10).
  - unfold is_unreserved, is_digit.
    replace (48 <=? 48 + n) with true by (symmetry; apply N.leb_le; lia).
    replace (48 + n <=? 57) with true by (symmetry; apply N.leb_le; lia).
    cbn [andb]. rewrite orb_true_r. reflexivity.
  - replace (65 <=? 55 + n) with true by (symmetry; apply N.leb_le; lia).
    replace (55 + n <=? 70) with true by (symmetry; apply N.leb_le; lia).
    apply orb_true_r.
Qed.

Lemma pct_safe b : b < 256 -> forallb uri_safe (pct b) = true.
Proof.
  intros Hb. unfold pct. cbn [forallb].
  rewrite !hexdigit_safe; [reflexivity | apply N.mod_lt; lia
                          | apply N.Div0.div_lt_upper_bound; lia].
Qed.

Lemma pcts_safe bs :
  Forall (fun b => b < 256) bs -> forallb uri_safe (mjoin (pct <$> bs)) = true.
Proof.
  induction 1 as [|b bs Hb _ IH]; [reflexivity|].
  change (mjoin (pct <$> b :: bs)) with (pct b ++ mjoin (pct <$> bs)).
  rewrite forallb_app, (pct_safe b Hb), IH. reflexivity.
Qed.

Lemma encode_safe_aux (n : nat) :
  forall v seg, (length v <= n)%nat ->
    Forall (fun c => c < 65536) v ->
    encodeURIComponent v = Ok seg -> forallb uri_safe seg = true.
Proof.
  induction n as [n IH] using lt_wf_ind. intros v seg Hn Hv H.
  destruct v as [|c v]; [inversion H; reflexivity|].
  cbn [length] in Hn. cbn [encodeURIComponent] in H.
  apply Forall_cons in Hv as [Hc Hv].
  destruct (is_unreserved c) eqn:Hu.
  { destruct (encodeURIComponent v) as [r|] eqn:Hr; cbn [bind] in H; [|discriminate].
    inversion H; subst seg. cbn [forallb]. unfold uri_safe at 1. rewrite Hu. cbn [orb andb].
    apply (IH (length v)) with v; [lia | lia | exact Hv | exact Hr]. }
  destruct (is_low_surrogate c); [discriminate|].
  destruct (is_high_surrogate c) eqn:Hhi.
  - destruct v as [|d v]; [discriminate|].
    destruct (is_low_surrogate d) eqn:Hd; [|discriminate].
    destruct (encodeURIComponent v) as [r|] eqn:Hr; cbn [bind] in H; [|discriminate].
    inversion H; subst seg. apply Forall_cons in Hv as [Hd' Hv].
    rewrite forallb_app. apply andb_true_iff. split.
    + apply pcts_safe, utf8_octets_bound.
      unfold is_high_surrogate in Hhi. unfold is_low_surrogate in Hd.
      apply andb_true_iff in Hhi as [Ha Hb]. apply andb_true_iff in Hd as [Hd1 Hd2].
      apply N.leb_le in Ha, Hb, Hd1, Hd2. lia.
    + apply (IH (length v)) with v; [cbn [length] in Hn; lia | lia | exact Hv | exact Hr].
  - destruct (encodeURIComponent v) as [r|] eqn:Hr; cbn [bind] in H; [|discriminate].
    inversion H; subst seg.
    rewrite forallb_app. apply andb_true_iff. split.
    + apply pcts_safe, utf8_octets_bound. lia.
    + apply (IH (length v)) with v; [lia | lia | exact Hv | exact Hr].
Qed.

Lemma encode_safe v seg :
  utf16 v = true -> encodeURIComponent v = Ok seg -> forallb uri_safe seg = true.
Proof.
  intros Hv. apply (encode_safe_aux (length v)); [lia | apply utf16_Forall, Hv].
Qed.

Lemma safe_lacks c s :
  uri_safe c = false -> forallb uri_safe s = true -> lacks c s = true.
Proof.
  intros Hc. unfold lacks. induction s as [|a s IH]; [reflexivity|].
  cbn [forallb]. intros H. apply andb_true_iff in H as [Ha Hs].
  rewrite (IH Hs), andb_true_r. apply negb_true_iff, N.eqb_neq. intros ->. congruence.
Qed.

(* ------------------------------------------------------------------ *)
(** ** Reverse routing: from a value to a path and back through [Route.match] *)
(* ------------------------------------------------------------------ *)

(** A literal that is plain for [parse] and has no question mark and no
    percent sign, which [Route.match] would read on the path. *)
Definition is_path_plain (c : N) : bool :=
  is_plain c && negb (c =? 63) && negb (c =? 37).

Lemma path_plain_spec lit :
  forallb is_path_plain lit = true ->
  forallb is_plain lit = true /\ lacks 63 lit = true /\ lacks 37 lit = true.
Proof.
  induction lit as [|c lit IH]; [repeat split|].
  cbn [forallb lacks]. intros H. apply andb_true_iff in H as [Hc Hl].
  destruct (IH Hl) as (H1 & H2 & H3). unfold is_path_plain in Hc.
  apply andb_true_iff in Hc as [Hc Hc3]. apply andb_true_iff in Hc as [Hc1 Hc2].
  fold (lacks 63 lit). fold (lacks 37 lit).
  rewrite Hc1, Hc2, Hc3, H1, H2, H3. repeat split.
Qed.

(** The route [page.route(lit + '/:x', ...)] makes, with the default options. *)
Lemma Route_new_literal_then_x lit :
  forallb is_plain lit = true ->
  exists re,
    Route_new (PString (lit ++ js "/:x")) false
    = Ok (mkRoute (PString (lit ++ js "/:x")) re [x_token])
    /\ prog re = RSeq RBol (lit_re (lit ++ js "/") (RSeq x_group tail_re))
    /\ ngroups re = 1%nat.
Proof.
  intros H. destruct (plain_literal_then_x lit H) as (_ & re & Hre & Hprog & Hng).
  exists re. split; [|split; assumption].
  unfold Route_new. rewrite bool_decide_eq_false_2.
  - change (mkOptions false false None) with no_options. rewrite Hre. reflexivity.
  - intros Heq. apply (f_equal length) in Heq. rewrite length_app in Heq.
    cbn in Heq. lia.
Qed.

(** [Route.match] on the path the builder makes for [v]: the key [x] gets
    what the second decoding leaves of [v]. *)
Lemma match_built_path decode lit v seg re params :
  lacks 63 lit = true -> lacks 37 lit = true ->
  v <> [] -> utf16 v = true -> lacks 47 v = true ->
  encodeURIComponent v = Ok seg ->
  prog re = RSeq RBol (lit_re (lit ++ js "/") (RSeq x_group tail_re)) ->
  ngroups re = 1%nat ->
  Route_match decode (mkRoute (PString (lit ++ js "/:x")) re [x_token])
    (lit ++ js "/" ++ seg) params
  = match _decodeURLEncodedURIComponent decode (Some v) with
    | Ok val => (Ok true, <[js "x" := val]> (delete (js "0") params))
    | Throw e => (Throw e, delete (js "0") params)
    end.
Proof.
  intros Hq Hp Hne Hv Hs Henc Hprog Hng.
  assert (Hsafe := encode_safe v seg Hv Henc).
  unfold Route_match, pathname_of. change (js "?") with [63].
  rewrite (indexOf_lacks 63 (lit ++ js "/" ++ seg)).
  2:{ rewrite !lacks_app, Hq. cbn [andb]. apply (safe_lacks 63 _ eq_refl Hsafe). }
  rewrite (decode_app_no_pct lit _ Hp), (decode_app_no_pct (js "/") seg eq_refl).
  rewrite (decode_encode v seg (utf16_Forall v Hv) Henc). cbn [bind r_regexp r_keys].
  rewrite app_assoc, exec_eq, scan_eq.
  rewrite (match_literal_then_x re (lit ++ js "/") v Hprog Hng Hne (lacks_Forall 47 v Hs)).
  cbn [captures drop match_loop].
  destruct (_decodeURLEncodedURIComponent decode (Some v)) as [val|e] eqn:Hd; [|reflexivity].
  assert (Hval : val <> None).
  { unfold _decodeURLEncodedURIComponent in Hd. destruct decode.
    - destruct (decodeURIComponent (plus_to_space v)); cbn [bind] in Hd; congruence.
    - congruence. }
  rewrite (bool_decide_eq_true_2 _ Hval). reflexivity.
Qed.

(** X1. Reverse routing is a round trip. For a route [lit + '/:x'] whose
    literal is free of the characters the pattern syntax and [Route.match]
    read, and a non-empty value [v] without a slash that
    [encodeURIComponent] accepts: the path the builder makes for [{x: v}]
    matches the route, and the match stores [v] itself under [x]. With
    [decodeURLComponents] enabled this needs [v] to hold no percent and no
    plus sign, since the captured value is decoded a second time. *)
Theorem reverse_routing_round_trip (decode : bool) lit v seg params :
  forallb is_path_plain lit = true ->
  v <> [] -> utf16 v = true -> lacks 47 v = true ->
  (if decode then lacks 37 v && lacks 43 v else true) = true ->
  encodeURIComponent v = Ok seg ->
  exists r,
    Route_new (PString (lit ++ js "/:x")) false = Ok r
    /\ toPath_x (lit ++ js "/:x") v = Ok (lit ++ js "/" ++ seg)
    /\ Route_match decode r (lit ++ js "/" ++ seg) params
       = (Ok true, <[js "x" := Some v]> (delete (js "0") params)).
Proof.
  intros Hlit Hne Hv Hs Hd Henc.
  apply path_plain_spec in Hlit as (Hplain & Hq & Hp).
  destruct (Route_new_literal_then_x lit Hplain) as (re & Hr & Hprog & Hng).
  destruct (plain_literal_then_x lit Hplain) as (Hparse & _).
  eexists. split; [exact Hr|]. split.
  - unfold toPath_x, compile. rewrite Hparse. apply (build_literal_then_x lit v seg); [assumption | assumption | reflexivity].
  - rewrite (match_built_path decode lit v seg re params Hq Hp Hne Hv Hs Henc Hprog Hng).
    unfold _decodeURLEncodedURIComponent. destruct decode; [|reflexivity].
    apply andb_true_iff in Hd as [H37 H43].
    rewrite (plus_to_space_id v H43), (decode_no_pct v H37). reflexivity.
Qed.

Lemma reverse_routing_round_trip_witness :
  exists r,
    Route_new (PString (js "/user/:x")) false = Ok r
    /\ toPath_x (js "/user/:x") (js "tj holowaychuk") = Ok (js "/user/tj%20holowaychuk")
    /\ Route_match true r (js "/user/tj%20holowaychuk") ∅
       = (Ok true, {[ js "x" := Some (js "tj holowaychuk") ]}).
Proof.
  destruct (reverse_routing_round_trip true (js "/user") (js "tj holowaychuk")
              (js "tj%20holowaychuk") ∅) as (r & H1 & H2 & H3);
    [reflexivity | discriminate | reflexivity | reflexivity | reflexivity
    | vm_compute; reflexivity |].
  exists r. split; [exact H1|]. split; [exact H2|].
  rewrite delete_empty in H3. exact H3.
Defined.

(** X2. With [decodeURLComponents] enabled, [Route.match] decodes a captured
    value after having decoded the whole pathname. So on the path built for
    [v], the key [x] gets [v] with every plus sign turned into a space when
    [v] holds no percent sign, and the match throws [URIError] when [v]
    holds a percent sign that two hexadecimal digits do not follow: the
    builder accepts such a value and the route cannot read it back. *)
Theorem match_decodes_twice lit v seg params :
  forallb is_path_plain lit = true ->
  v <> [] -> utf16 v = true -> lacks 47 v = true ->
  encodeURIComponent v = Ok seg ->
  exists r,
    Route_new (PString (lit ++ js "/:x")) false = Ok r
    /\ (lacks 37 v = true ->
        Route_match true r (lit ++ js "/" ++ seg) params
        = (Ok true, <[js "x" := Some (plus_to_space v)]> (delete (js "0") params)))
    /\ (bad_escape v ->
        Route_match true r (lit ++ js "/" ++ seg) params
        = (Throw URIError, delete (js "0") params)).
Proof.
  intros Hlit Hne Hv Hs Henc.
  apply path_plain_spec in Hlit as (Hplain & Hq & Hp).
  destruct (Route_new_literal_then_x lit Hplain) as (re & Hr & Hprog & Hng).
  eexists. split; [exact Hr|].
  rewrite (match_built_path true lit v seg re params Hq Hp Hne Hv Hs Henc Hprog Hng).
  unfold _decodeURLEncodedURIComponent. split.
  - intros H37. rewrite decode_no_pct; [reflexivity|].
    apply plus_to_space_lacks; [discriminate | exact H37].
  - intros Hbad. rewrite (decodeURIComponent_bad _ (bad_escape_plus_to_space v Hbad)).
    reflexivity.
Qed.

Lemma match_decodes_twice_witness :
  exists r,
    Route_new (PString (js "/q/:x")) false = Ok r
    /\ Route_match true r (js "/q/a%2Bb") ∅ = (Ok true, {[ js "x" := Some (js "a b") ]})
    /\ Route_match true r (js "/q/100%25") ∅ = (Throw URIError, ∅).
Proof.
  destruct (match_decodes_twice (js "/q") (js "a+b") (js "a%2Bb") ∅)
    as (r & H1 & H2 & _);
    [reflexivity | discriminate | reflexivity | reflexivity | vm_compute; reflexivity |].
  destruct (match_decodes_twice (js "/q") (js "100%") (js "100%25") ∅)
    as (r' & H1' & _ & H3);
    [reflexivity | discriminate | reflexivity | reflexivity | vm_compute; reflexivity |].
  exists r. split; [exact H1|]. split.
  - specialize (H2 eq_refl). rewrite delete_empty in H2. exact H2.
  - assert (r' = r) as -> by congruence.
    assert (Hbad : bad_escape (js "100%")) by (exists (js "100"), []; split; reflexivity).
    specialize (H3 Hbad). rewrite delete_empty in H3. exact H3.
Defined.

(* ------------------------------------------------------------------ *)
(** ** The loop of [parse] ends *)
(* ------------------------------------------------------------------ *)

(** The least number of code units a match of [r] consumes. *)
Fixpoint min_len (r : Re) : nat :=
  match r with
  | REmpty | RLook _ _ | RBol | REol => 0
  | RChar _ | RAny | RClass _ _ => 1
  | RSeq a b => min_len a + min_len b
  | RAlt a b => Nat.min (min_len a) (min_len b)
  | RGroup _ a => min_len a
  | RQuant mn mx _ a =>
      if (mn =? 0)%nat || bool_decide (mx = Some 0%nat) then 0 else min_len a
  end.

(** [c] is reached from [x] after at least [k] code units, within the input. *)
Definition advances (k : nat) (x : MState) (c : Cont) (z : MState) : Prop :=
  exists y, c y = Some z
            /\ (pos x + k <= pos y)%nat
            /\ (pos y + length (rest y) = pos x + length (rest x))%nat.

Lemma step1_advances x p c z : step1 x p c = Some z -> advances 1 x c z.
Proof.
  unfold step1. destruct (rest x) as [|b s'] eqn:Hr; [discriminate|].
  destruct (p b); [|discriminate]. intros H.
  eexists. split; [exact H|]. cbn [pos rest length]. rewrite Hr. cbn [length]. lia.
Qed.

Lemma rep_advances (mb : MState -> Cont -> option MState) gs g c k :
  (forall x d z, mb x d = Some z -> advances k x d z) ->
  forall fuel mn mx x z,
    rep mb gs g c fuel mn mx x = Some z ->
    advances (if (mn =? 0)%nat || bool_decide (mx = Some 0%nat) then 0 else k) x c z.
Proof.
  intros Hmb. induction fuel as [|fuel IH]; intros mn mx x z; [discriminate|].
  rewrite rep_S. destruct (bool_decide (mx = Some 0%nat)) eqn:Hmx.
  { rewrite orb_true_r. intros H. exists x. split; [exact H | lia]. }
  rewrite orb_false_r. cbv zeta.
  set (d := fun y : MState => if (mn =? 0)%nat && (pos y =? pos x)%nat then None
                     else rep mb gs g c fuel (Nat.pred mn) (pred_max mx) y).
  assert (Hd : forall y1, d y1 = Some z ->
                 exists y, c y = Some z /\ (pos y1 <= pos y)%nat
                           /\ (pos y + length (rest y) = pos y1 + length (rest y1))%nat).
  { intros y1 H. unfold d in H.
    destruct ((mn =? 0)%nat && (pos y1 =? pos x)%nat); [discriminate|].
    destruct (IH _ _ _ _ H) as (y & Hy & Hp & Hl). exists y. split; [exact Hy|]. lia. }
  assert (Hb : mb (reset_caps gs x) d = Some z -> advances k x c z).
  { intros H. destruct (Hmb _ _ _ H) as (y1 & Hy1 & Hp1 & Hl1).
    destruct (Hd y1 Hy1) as (y & Hy & Hp & Hl). exists y. split; [exact Hy|].
    cbn [reset_caps pos rest] in *. lia. }
  assert (Hweak : advances k x c z -> advances 0 x c z).
  { intros (y & Hy & Hp & Hl). exists y. split; [exact Hy|]. lia. }
  assert (Hc : c x = Some z -> advances 0 x c z).
  { intros H. exists x. split; [exact H|]. lia. }
  destruct (mn =? 0)%nat; cbn [negb]; [|exact Hb].
  destruct g; unfold or_else.
  - destruct (mb (reset_caps gs x) d) eqn:Hm; [intros [= ->]; auto | auto].
  - destruct (c x) eqn:Hcx; [intros [= ->]; auto | auto].
Qed.

(** Every match of [r] consumes at least [min_len r] code units. *)
Lemma m_advances ic r : forall x c z, m ic r x c = Some z -> advances (min_len r) x c z.
Proof.
  induction r as [| a | | neg items | r1 IH1 r2 IH2 | r1 IH1 r2 IH2 | i r1 IH1
                 | mn mx g r1 IH1 | neg r1 IH1 | |];
    intros x c z; cbn [m min_len].
  - intros H. exists x. split; [exact H|]. lia.
  - apply step1_advances.
  - apply step1_advances.
  - apply step1_advances.
  - intros H. destruct (IH1 _ _ _ H) as (y1 & Hy1 & Hp1 & Hl1).
    destruct (IH2 _ _ _ Hy1) as (y & Hy & Hp & Hl).
    exists y. split; [exact Hy|]. lia.
  - unfold or_else. intros H.
    assert (H' : m ic r1 x c = Some z \/ m ic r2 x c = Some z)
      by (destruct (m ic r1 x c); [left; exact H | right; exact H]).
    destruct H' as [H'|H']; [destruct (IH1 _ _ _ H') as (y & Hy & Hp & Hl)
                            | destruct (IH2 _ _ _ H') as (y & Hy & Hp & Hl)];
      exists y; (split; [exact Hy|]); lia.
  - intros H. destruct (IH1 _ _ _ H) as (y & Hy & Hp & Hl).
    eexists. split; [exact Hy|]. cbn [pos rest]. lia.
  - apply rep_advances. exact IH1.
  - destruct (m ic r1 x Some) as [y|]; destruct neg; try discriminate; intros H.
    + eexists. split; [exact H|]. cbn [pos rest]. lia.
    + exists x. split; [exact H|]. lia.
  - destruct (pos x =? 0)%nat; [|discriminate]. intros H. exists x. split; [exact H|]. lia.
  - destruct (rest x); [|discriminate]. intros H. exists x. split; [exact H|]. lia.
Qed.

Lemma match_at_bounds re s i res :
  match_at re s i = Some res ->
  index res = i
  /\ (i + min_len (prog re) <= endIndex res)%nat
  /\ (endIndex res <= i + length s)%nat.
Proof.
  unfold match_at.
  destruct (m (ignoreCase re) (prog re) _ Some) as [y|] eqn:Hm; [|discriminate].
  intros [= <-]. cbn [index endIndex].
  destruct (m_advances _ _ _ _ _ Hm) as (y' & [= ->] & Hp & Hl).
  cbn [pos rest] in *. lia.
Qed.

Lemma scan_bounds re s i res :
  scan re s i = Some res ->
  (i <= index res)%nat
  /\ (index res + min_len (prog re) <= endIndex res)%nat
  /\ (endIndex res <= i + length s)%nat.
Proof.
  revert i. induction s as [|a s IH]; intros i; rewrite scan_eq;
    destruct (match_at re _ i) as [r|] eqn:Hm.
  - intros [= ->]. apply match_at_bounds in Hm. lia.
  - discriminate.
  - intros [= ->]. apply match_at_bounds in Hm. lia.
  - intros H. apply IH in H. cbn [length]. lia.
Qed.

(** A match found by [exec] from [lastIndex] lies between it and the end of
    the input. *)
Lemma exec_from_bounds re s lastIndex res :
  exec_from re s lastIndex = Some res ->
  (lastIndex <= index res)%nat
  /\ (index res + min_len (prog re) <= endIndex res)%nat
  /\ (endIndex res <= length s)%nat.
Proof.
  unfold exec_from. destruct (Nat.ltb_spec (length s) lastIndex) as [Hlt|Hle]; [discriminate|].
  intros H. apply scan_bounds in H. rewrite length_drop in H. lia.
Qed.

Lemma PATH_REGEXP_min_len : min_len (prog PATH_REGEXP) = 1%nat.
Proof. reflexivity. Qed.

Lemma parse_loop_ends fuel :
  forall str lastIndex index key path tokens,
    (length str - lastIndex < fuel)%nat ->
    is_Some (parse_loop fuel str lastIndex index key path tokens).
Proof.
  induction fuel as [|fuel IH]; intros str lastIndex index key path tokens Hf; [lia|].
  cbn [parse_loop].
  destruct (exec_from PATH_REGEXP str lastIndex) as [res|] eqn:He; [|eauto].
  apply exec_from_bounds in He. rewrite PATH_REGEXP_min_len in He.
  destruct (group res 1); apply IH; lia.
Qed.

Lemma push_path_no_empty path tokens :
  Forall (fun t => t <> TStr []) tokens ->
  Forall (fun t => t <> TStr []) (push_path path tokens).
Proof.
  intros H. destruct path; [exact H|]. apply Forall_app_2; [exact H|].
  constructor; [discriminate | constructor].
Qed.

Lemma parse_loop_no_empty fuel :
  forall str lastIndex index key path tokens toks,
    Forall (fun t => t <> TStr []) tokens ->
    parse_loop fuel str lastIndex index key path tokens = Some toks ->
    Forall (fun t => t <> TStr []) toks.
Proof.
  induction fuel as [|fuel IH]; intros str lastIndex index key path tokens toks Ht;
    [discriminate|].
  cbn [parse_loop].
  destruct (exec_from PATH_REGEXP str lastIndex) as [res|].
  - destruct (group res 1).
    + apply IH, Ht.
    + apply IH. apply Forall_app_2; [apply push_path_no_empty, Ht|].
      constructor; [discriminate | constructor].
  - intros [= <-]. apply push_path_no_empty, Ht.
Qed.

(** X3. [parse] returns on every input: each match of [PATH_REGEXP]
    consumes at least one code unit, so the loop ends within the length of
    the input. The tokens hold no empty literal. *)
Theorem parse_returns str :
  exists tokens, parse str = Some tokens /\ Forall (fun t => t <> TStr []) tokens.
Proof.
  destruct (parse_loop_ends (S (length str)) str 0 0 0 [] []) as [tokens H]; [lia|].
  exists tokens. split; [exact H|].
  exact (parse_loop_no_empty _ _ _ _ _ _ _ _ (Forall_nil_2 _) H).
Qed.

(* ------------------------------------------------------------------ *)
(** ** Routes without parameters *)
(* ------------------------------------------------------------------ *)

(** An anchored literal, on any input: the input must start with the
    literal, up to the folding of case the flag asks for. *)
Lemma m_lit_gen ic L k :
  forall s p cs c,
    m ic (lit_re L k) (mkS s p cs) c
    = if bool_decide (canon ic <$> take (length L) s = canon ic <$> L)
      then m ic k (mkS (drop (length L) s) (p + length L) cs) c
      else None.
Proof.
  induction L as [|a L IH]; intros s p cs c.
  - cbn [lit_re foldr length take drop fmap list_fmap]. rewrite Nat.add_0_r.
    rewrite bool_decide_eq_true_2 by reflexivity. destruct s; reflexivity.
  - cbn [lit_re foldr m]. fold (lit_re L k). unfold step1. cbn [rest pos caps].
    destruct s as [|b s].
    + rewrite bool_decide_eq_false_2; [reflexivity | discriminate].
    + cbn [length take drop fmap list_fmap].
      change (list_fmap N N (canon ic) (take (length L) s)) with (canon ic <$> take (length L) s).
      change (list_fmap N N (canon ic) L) with (canon ic <$> L).
      destruct (N.eqb_spec (canon ic a) (canon ic b)) as [Heq|Hne].
      * rewrite IH. rewrite Nat.add_succ_comm.
        destruct (bool_decide_reflect (canon ic <$> take (length L) s = canon ic <$> L))
          as [Ht|Ht].
        -- rewrite bool_decide_eq_true_2; [reflexivity | congruence].
        -- rewrite bool_decide_eq_false_2; [reflexivity | congruence].
      * rewrite bool_decide_eq_false_2; [reflexivity | congruence].
Qed.

(** The end anchor, and the allowance for a trailing slash followed by it. *)
Lemma eol_result ic t p cs :
  m ic (RSeq REol REmpty) (mkS t p cs) Some
  = match t with [] => Some (mkS [] p cs) | _ :: _ => None end.
Proof. destruct t; reflexivity. Qed.

Lemma tail_result ic t p cs :
  m ic tail_re (mkS t p cs) Some
  = if bool_decide (t = [])
    then Some (mkS [] p cs)
    else if bool_decide (t = js "/") then Some (mkS [] (S p) cs) else None.
Proof.
  change (mkS t p cs) with (shift p (mkS t 0 cs)).
  rewrite (m_shift ic p tail_re eq_refl _ Some Some (shifts_Some p)).
  destruct t as [|a [|b t]].
  - destruct ic; reflexivity.
  - destruct (N.eqb_spec a 47) as [->|Ha].
    + destruct ic; reflexivity.
    + rewrite (tail_fails ic a [] 0 cs Ha).
      rewrite bool_decide_eq_false_2 by discriminate.
      rewrite bool_decide_eq_false_2; [reflexivity|]. intros [= ->]. contradiction.
  - rewrite bool_decide_eq_false_2 by discriminate.
    rewrite bool_decide_eq_false_2 by discriminate.
    destruct (N.eqb_spec a 47) as [->|Ha].
    + destruct ic; reflexivity.
    + rewrite (tail_fails ic a (b :: t) 0 cs Ha). reflexivity.
Qed.

(** [exec] of an anchored literal followed by [k]. *)
Lemma exec_literal re L k s :
  prog re = RSeq RBol (lit_re L k) ->
  exec re s
  = if bool_decide (canon (ignoreCase re) <$> take (length L) s
                    = canon (ignoreCase re) <$> L)
    then match m (ignoreCase re) k
                 (mkS (drop (length L) s) (length L) (replicate (S (ngroups re)) None))
                 Some with
         | Some y => Some (mkR (<[O := Some (take (pos y - 0) s)]> (caps y)) 0 (pos y))
         | None => None
         end
    else None.
Proof.
  intros Hprog. rewrite (exec_anchored re _ s Hprog). unfold match_at.
  rewrite Hprog. cbn [m pos Nat.eqb]. rewrite m_lit_gen. cbn [Nat.add].
  destruct (bool_decide _); reflexivity.
Qed.

Lemma fold_whole (f : N -> N) (s L : jstring) :
  f <$> take (length L) s = f <$> L /\ drop (length L) s = [] <-> f <$> s = f <$> L.
Proof.
  split.
  - intros [H1 H2]. rewrite <- (take_drop (length L) s), H2, app_nil_r. exact H1.
  - intros H. assert (Hl : length s = length L).
    { apply (f_equal length) in H. rewrite !length_fmap in H. exact H. }
    rewrite <- Hl, firstn_all, drop_all. split; [exact H | reflexivity].
Qed.

Lemma fold_whole_slash (f : N -> N) (s L : jstring) :
  f 47 = 47 -> (forall c, f c = 47 -> c = 47) ->
  f <$> take (length L) s = f <$> L /\ drop (length L) s = js "/"
  <-> f <$> s = f <$> (L ++ js "/").
Proof.
  change (js "/") with [47]. intros Hf Hinj. split.
  - intros [H1 H2]. rewrite <- (take_drop (length L) s), H2, !fmap_app, H1. reflexivity.
  - intros H. assert (Hl : length s = S (length L)).
    { apply (f_equal length) in H. rewrite !length_fmap, length_app in H.
      cbn [length] in H. lia. }
    rewrite <- (take_drop (length L) s), !fmap_app in H.
    apply app_inj_1 in H as [H1 H2]; [|rewrite !length_fmap, length_take; lia].
    split; [exact H1|].
    destruct (drop (length L) s) as [|c [|c' t]] eqn:Hd; cbn [fmap list_fmap] in H2;
      try discriminate.
    injection H2 as H2. rewrite Hf in H2. apply Hinj in H2. subst c. reflexivity.
Qed.

Lemma canon_47 ic : canon ic 47 = 47.
Proof. destruct ic; reflexivity. Qed.

Lemma canon_47_inv ic c : canon ic c = 47 -> c = 47.
Proof.
  unfold canon. destruct (ic && is_lower c) eqn:H; [|auto].
  apply andb_true_iff in H as [_ H]. apply is_lower_range in H. lia.
Qed.

Definition is_ascii (c : N) : bool := c <? 128.

(** ASCII letters in upper case, which is how the [i] flag compares them. *)
Definition upper (s : jstring) : jstring := canon true <$> s.

Lemma plain_not_star lit : Forall plain lit -> lit <> js "*".
Proof.
  intros H ->. apply Forall_cons in H as [(_ & _ & _ & H) _]. apply H. reflexivity.
Qed.

(** The route [page.route(lit, ...)] makes for a plain literal, given the
    source after the literal and what it is parsed to. *)
Lemma Route_new_literal lit strict rest k k0 :
  Forall plain lit ->
  route_source (literal_tokens lit) (mkOptions false strict None)
  = js "^" ++ escapeString lit ++ rest ->
  p_quant rest = Ok (None, rest) ->
  (forall f, p_alt (S (k0 + f)) rest 0 = Ok (k, [], 0%nat)) ->
  (k0 <= 4 * length rest + 9)%nat ->
  exists re,
    Route_new (PString lit) strict = Ok (mkRoute (PString lit) re [])
    /\ prog re = RSeq RBol (lit_re lit k)
    /\ ngroups re = 0%nat /\ ignoreCase re = true.
Proof.
  intros Hlit Hsrc Hq Hrest Hk0.
  destruct (create_literal lit rest k 0%nat k0 false true (plain_no_backslash lit Hlit)
              Hq Hrest Hk0) as (re & Hre & Hprog & Hn & Hi).
  exists re. split; [|auto].
  unfold Route_new. rewrite bool_decide_eq_false_2 by (apply plain_not_star, Hlit).
  unfold pathToRegexp, stringToRegexp, tokensToRegExp.
  rewrite (parse_plain lit Hlit), Hsrc.
  change (flags (mkOptions false strict None)) with true. rewrite Hre.
  destruct lit; reflexivity.
Qed.

(** [Route.match] for a route without keys, from what [exec] gives. *)
Lemma Route_match_no_keys decode p re path d params :
  decodeURIComponent (pathname_of path) = Ok d ->
  ngroups re = 0%nat ->
  (forall res, exec re d = Some res -> length (captures res) = 1%nat) ->
  Route_match decode (mkRoute p re []) path params
  = (Ok (bool_decide (is_Some (exec re d))), delete (js "0") params).
Proof.
  intros Hd Hn Hlen. unfold Route_match. rewrite Hd. cbn [r_regexp r_keys].
  destruct (exec re d) as [res|] eqn:He.
  - specialize (Hlen res eq_refl).
    destruct (captures res) as [|c0 [|c1 l]]; try discriminate. reflexivity.
  - reflexivity.
Qed.

(** X4. A literal route in strict mode matches exactly the paths whose
    decoded pathname is the pattern, ASCII letters compared without case.
    The query string plays no part and [params] only loses its key [0]. *)
Theorem literal_route_strict lit decode path d params :
  forallb is_plain lit = true ->
  forallb is_ascii lit = true ->
  decodeURIComponent (pathname_of path) = Ok d ->
  exists r,
    Route_new (PString lit) true = Ok r
    /\ Route_match decode r path params
       = (Ok (bool_decide (upper d = upper lit)), delete (js "0") params).
Proof.
  intros Hlit _ Hd. apply is_plain_spec in Hlit.
  destruct (Route_new_literal lit true (js "$") _ 1 Hlit (source_strict lit) eq_refl
              p_alt_end ltac:(cbn; lia)) as (re & Hr & Hprog & Hn & Hi).
  eexists. split; [exact Hr|].
  pose proof (exec_literal re lit _ d Hprog) as He.
  rewrite Hi, Hn, eol_result in He.
  rewrite (Route_match_no_keys decode _ re path d params Hd Hn).
  - f_equal. f_equal. rewrite He. apply bool_decide_ext. unfold upper.
    rewrite <- (fold_whole (canon true) d lit).
    destruct (bool_decide_reflect (canon true <$> take (length lit) d = canon true <$> lit));
      destruct (drop (length lit) d); split; intros H;
      try (destruct H as [? H]; discriminate); try (destruct H; congruence); eauto.
  - intros res. rewrite He.
    destruct (bool_decide _); [|discriminate].
    destruct (drop (length lit) d); [|discriminate]. intros [= <-]. reflexivity.
Qed.

Lemma literal_route_strict_witness :
  exists r,
    Route_new (PString (js "/about")) true = Ok r
    /\ Route_match true r (js "/About?x=1") ∅ = (Ok true, ∅)
    /\ Route_match true r (js "/about/") ∅ = (Ok false, ∅).
Proof.
  destruct (literal_route_strict (js "/about") true (js "/About?x=1") (js "/About") ∅)
    as (r & H1 & H2); [reflexivity | reflexivity | reflexivity |].
  destruct (literal_route_strict (js "/about") true (js "/about/") (js "/about/") ∅)
    as (r' & H1' & H2'); [reflexivity | reflexivity | reflexivity |].
  assert (r' = r) as -> by congruence.
  exists r. split; [exact H1|]. rewrite delete_empty in H2, H2'. split; [exact H2 | exact H2'].
Defined.

(** X5. Without [strict], a literal route that does not end with a slash
    matches the same paths and those with one slash added at the end. *)
Theorem literal_route_trailing_slash lit decode path d params :
  forallb is_plain lit = true ->
  forallb is_ascii lit = true ->
  last lit <> Some 47 ->
  decodeURIComponent (pathname_of path) = Ok d ->
  exists r,
    Route_new (PString lit) false = Ok r
    /\ Route_match decode r path params
       = (Ok (bool_decide (upper d = upper lit \/ upper d = upper (lit ++ js "/"))),
          delete (js "0") params).
Proof.
  intros Hlit _ Hl Hd. apply is_plain_spec in Hlit.
  destruct (Route_new_literal lit false (trailing_allowance ++ js "$") _ 20 Hlit
              (source_non_strict lit Hl) eq_refl p_alt_allowance ltac:(cbn; lia))
    as (re & Hr & Hprog & Hn & Hi).
  eexists. split; [exact Hr|].
  pose proof (exec_literal re lit _ d Hprog) as He.
  rewrite Hi, Hn, tail_result in He.
  rewrite (Route_match_no_keys decode _ re path d params Hd Hn).
  - f_equal. f_equal. rewrite He. apply bool_decide_ext. unfold upper.
    rewrite <- (fold_whole (canon true) d lit).
    rewrite <- (fold_whole_slash (canon true) d lit (canon_47 true) (canon_47_inv true)).
    destruct (bool_decide_reflect (canon true <$> take (length lit) d = canon true <$> lit))
      as [Ht|Ht].
    + destruct (bool_decide_reflect (drop (length lit) d = [])) as [H0|H0].
      { split; [intros _; left; auto | eauto]. }
      destruct (bool_decide_reflect (drop (length lit) d = js "/")) as [H1|H1].
      { split; [intros _; right; auto | eauto]. }
      split; [intros [? H]; discriminate | intros [[_ H]|[_ H]]; contradiction].
    + split; [intros [? H]; discriminate | intros [[H _]|[H _]]; contradiction].
  - intros res. rewrite He.
    destruct (bool_decide _); [|discriminate].
    destruct (bool_decide _); [intros [= <-]; reflexivity|].
    destruct (bool_decide _); [intros [= <-]; reflexivity | discriminate].
Qed.

Lemma literal_route_trailing_slash_witness :
  exists r,
    Route_new (PString (js "/about")) false = Ok r
    /\ Route_match true r (js "/about/") ∅ = (Ok true, ∅)
    /\ Route_match true r (js "/about/us") ∅ = (Ok false, ∅).
Proof.
  destruct (literal_route_trailing_slash (js "/about") true (js "/about/") (js "/about/") ∅)
    as (r & H1 & H2); [reflexivity | reflexivity | discriminate | reflexivity |].
  destruct (literal_route_trailing_slash (js "/about") true (js "/about/us")
              (js "/about/us") ∅)
    as (r' & H1' & H2'); [reflexivity | reflexivity | discriminate | reflexivity |].
  assert (r' = r) as -> by congruence.
  exists r. split; [exact H1|]. rewrite delete_empty in H2, H2'. split; [exact H2 | exact H2'].
Defined.

(* ------------------------------------------------------------------ *)
(** ** The catch-all route *)
(* ------------------------------------------------------------------ *)

(** The matcher of one code unit of a set. *)
Definition step_matcher (P : N -> bool) : MState -> Cont -> option MState :=
  fun x d => step1 x P d.

Lemma rep_star_S mb gs c fuel x :
  rep mb gs true c (S fuel) 0 None x
  = or_else (mb (reset_caps gs x)
               (fun y => if (pos y =? pos x)%nat then None
                         else rep mb gs true c fuel 0 None y))
            (fun _ => c x).
Proof. reflexivity. Qed.

(** A greedy star over a set of code units takes the whole input when it
    can stop there. *)
Lemma rep_greedy_all (P : N -> bool) (c : Cont) z :
  forall s p cs fuel,
    forallb P s = true ->
    (length s < fuel)%nat ->
    c (mkS [] (p + length s) cs) = Some z ->
    rep (step_matcher P) [] true c fuel 0 None (mkS s p cs) = Some z.
Proof.
  induction s as [|a s IH]; intros p cs fuel HP Hf Hc;
    (destruct fuel as [|fuel]; [cbn [length] in Hf; lia|]); rewrite rep_star_S;
    unfold step_matcher at 1; unfold step1; cbn [rest pos caps reset_caps foldr].
  - cbn [length] in Hc. rewrite Nat.add_0_r in Hc. exact Hc.
  - cbn [forallb] in HP. apply andb_true_iff in HP as [Ha Hs].
    rewrite Ha, eqb_succ_false.
    rewrite (IH (S p) cs fuel Hs); [reflexivity | cbn [length] in Hf; lia|].
    cbn [length] in Hc. rewrite Nat.add_succ_comm. exact Hc.
Qed.

(** It finds no match when a code unit outside the set lies before every
    place where it could stop. *)
Lemma rep_greedy_none (P : N -> bool) (c : Cont) b post :
  P b = false ->
  (forall y q, rest y = q ++ b :: post -> c y = None) ->
  forall pre p cs fuel,
    rep (step_matcher P) [] true c fuel 0 None (mkS (pre ++ b :: post) p cs) = None.
Proof.
  intros Hb Hc. induction pre as [|a pre IH]; intros p cs fuel;
    (destruct fuel as [|fuel]; [reflexivity|]); rewrite rep_star_S;
    unfold step_matcher at 1; unfold step1; cbn [rest pos caps app reset_caps foldr].
  - rewrite Hb. cbn [or_else]. apply (Hc _ []). reflexivity.
  - rewrite (Hc (mkS (a :: pre ++ b :: post) p cs) (a :: pre) eq_refl).
    destruct (P a); [|reflexivity].
    rewrite eqb_succ_false, IH. reflexivity.
Qed.

Definition no_line_terminator (s : jstring) : bool :=
  forallb (fun b => negb (is_line_terminator b)) s.

(** The expression of the catch-all route: a group of any code units
    from the start, followed by [k]. *)
Definition star_re (k : Re) : Re :=
  RSeq RBol (RSeq (RGroup 1 (RSeq (RQuant 0 None true RAny) REmpty)) k).

Lemma not_all_split (P : N -> bool) s :
  forallb P s = false -> exists pre b post, s = pre ++ b :: post /\ P b = false.
Proof.
  induction s as [|a s IH]; [discriminate|]. cbn [forallb].
  destruct (P a) eqn:Ha.
  - intros H. destruct (IH H) as (pre & b & post & -> & Hb).
    exists (a :: pre), b, post. split; [reflexivity | exact Hb].
  - intros _. exists [], a, s. split; [reflexivity | exact Ha].
Qed.

(** [exec] of that expression when what follows the group is the end
    anchor, with or without the allowance for a slash. *)
Lemma exec_star re k d :
  prog re = star_re k ->
  ngroups re = 1%nat ->
  (forall ic t p cs,
      m ic k (mkS t p cs) Some
      = if bool_decide (t = []) then Some (mkS [] p cs)
        else if bool_decide (t = js "/") then m ic k (mkS t p cs) Some else None) ->
  exec re d
  = if no_line_terminator d
    then Some (mkR [Some d; Some d] 0 (length d))
    else None.
Proof.
  intros Hprog Hn Hk. rewrite (exec_anchored re _ d Hprog). unfold match_at.
  rewrite Hprog, Hn. unfold star_re. cbn [m pos Nat.eqb groups_of rest caps replicate].
  change (fun (x : MState) (c : Cont) => step1 x (fun b => negb (is_line_terminator b)) c)
    with (step_matcher (fun b => negb (is_line_terminator b))).
  destruct (no_line_terminator d) eqn:Hd.
  - erewrite rep_greedy_all; [| exact Hd | lia |].
    2:{ cbn [rest pos caps]. rewrite Hk. rewrite bool_decide_eq_true_2 by reflexivity.
        reflexivity. }
    cbn [pos caps Nat.add]. rewrite !Nat.sub_0_r, !firstn_all. reflexivity.
  - destruct (not_all_split _ d Hd) as (pre & b & post & -> & Hb).
    apply negb_false_iff in Hb.
    erewrite rep_greedy_none; [reflexivity | rewrite Hb; reflexivity |].
    intros y q Hy. cbn [rest pos caps]. rewrite Hk, Hy.
    rewrite bool_decide_eq_false_2 by (destruct q; discriminate).
    rewrite bool_decide_eq_false_2; [reflexivity|].
    destruct q as [|a [|a' q]]; try discriminate.
    + intros [= -> _]. discriminate.
Qed.

Lemma Route_new_star strict :
  exists re key,
    Route_new (PString (js "*")) strict = Ok (mkRoute (PString (js "(.*)")) re [key])
    /\ prop_of_name (name key) = js "0"
    /\ prog re = star_re (if strict then RSeq REol REmpty else tail_re)
    /\ ngroups re = 1%nat.
Proof.
  destruct (Route_new (PString (js "*")) strict) as [[p re keys]|e] eqn:H;
    destruct strict; vm_compute in H; try discriminate;
    injection H as <- <- <-; do 2 eexists; repeat split; reflexivity.
Qed.

(** X6. The route [*] matches every path whose decoded pathname holds no
    line terminator, and no other; on a match the key [0] gets that
    pathname, decoded once more when [decodeURLComponents] is enabled. *)
Theorem catch_all_route strict decode path d params :
  decodeURIComponent (pathname_of path) = Ok d ->
  exists r,
    Route_new (PString (js "*")) strict = Ok r
    /\ Route_match decode r path params
       = if no_line_terminator d
         then match _decodeURLEncodedURIComponent decode (Some d) with
              | Ok val => (Ok true, <[js "0" := val]> params)
              | Throw e => (Throw e, delete (js "0") params)
              end
         else (Ok false, delete (js "0") params).
Proof.
  intros Hd. destruct (Route_new_star strict) as (re & key & Hr & Hkey & Hprog & Hn).
  eexists. split; [exact Hr|].
  unfold Route_match. rewrite Hd. cbn [r_regexp r_keys].
  rewrite (exec_star re _ d Hprog Hn).
  2:{ intros ic t p cs. destruct strict.
      - rewrite eol_result. destruct t as [|a t]; [reflexivity|].
        rewrite bool_decide_eq_false_2 by discriminate.
        destruct (bool_decide _); reflexivity.
      - rewrite tail_result. destruct (bool_decide (t = [])); [reflexivity|].
        destruct (bool_decide _); reflexivity. }
  destruct (no_line_terminator d); [|reflexivity].
  cbn [captures drop match_loop].
  destruct (_decodeURLEncodedURIComponent decode (Some d)) as [val|e] eqn:Hv; [|reflexivity].
  assert (Hval : val <> None).
  { unfold _decodeURLEncodedURIComponent in Hv. destruct decode.
    - destruct (decodeURIComponent (plus_to_space d)); cbn [bind] in Hv; congruence.
    - congruence. }
  rewrite Hkey, (bool_decide_eq_true_2 _ Hval).
  rewrite params_set_insert by discriminate.
  rewrite insert_delete_eq. reflexivity.
Qed.

Lemma catch_all_route_witness :
  exists r,
    Route_new (PString (js "*")) false = Ok r
    /\ Route_match true r (js "/any/thing?q=1") ∅
       = (Ok true, {[ js "0" := Some (js "/any/thing") ]})
    /\ Route_match true r (js "/a%0Ab") ∅ = (Ok false, ∅).
Proof.
  destruct (catch_all_route false true (js "/any/thing?q=1") (js "/any/thing") ∅)
    as (r & H1 & H2); [reflexivity|].
  destruct (catch_all_route false true (js "/a%0Ab") [47; 97; 10; 98] ∅)
    as (r' & H1' & H2'); [reflexivity|].
  assert (r' = r) as -> by congruence.
  exists r. split; [exact H1|]. rewrite delete_empty in H2'. split; [exact H2 | exact H2'].
Defined.

(* ------------------------------------------------------------------ *)
(** ** [Route.match] and the query string *)
(* ------------------------------------------------------------------ *)

Lemma indexOf_from_first c p q i :
  lacks c p = true -> indexOf_from [c] (p ++ c :: q) i = Some (i + length p)%nat.
Proof.
  revert i. induction p as [|a p IH]; intros i H.
  - cbn [app indexOf_from starts_with]. rewrite N.eqb_refl. cbn [andb length]. f_equal. lia.
  - cbn [lacks forallb] in H. apply andb_true_iff in H as [Ha Hp].
    cbn [app indexOf_from starts_with]. apply negb_true_iff in Ha.
    rewrite N.eqb_sym, Ha. cbn [andb]. rewrite (IH (S i) Hp). cbn [length]. f_equal. lia.
Qed.

Lemma pathname_of_query p q : lacks 63 p = true -> pathname_of (p ++ js "?" ++ q) = p.
Proof.
  intros H. unfold pathname_of, indexOf. change (js "?" ++ q) with (63 :: q).
  change (js "?") with [63]. rewrite (indexOf_from_first 63 p q 0 H).
  unfold slice. rewrite Nat.sub_0_r, drop_0, Nat.add_0_l, take_app_length. reflexivity.
Qed.

Lemma pathname_of_plain p : lacks 63 p = true -> pathname_of p = p.
Proof.
  intros H. unfold pathname_of. change (js "?") with [63].
  rewrite (indexOf_lacks 63 p H). reflexivity.
Qed.

(** X7. [Route.match] does not look at the query string: for every route,
    a path followed by [?] and anything gives what the path alone gives. *)
Theorem match_ignores_query decode r p q params :
  lacks 63 p = true ->
  Route_match decode r (p ++ js "?" ++ q) params = Route_match decode r p params.
Proof.
  intros H. unfold Route_match.
  rewrite (pathname_of_query p q H), (pathname_of_plain p H). reflexivity.
Qed.

(** A route built by hand around the expression [^\/user\/([^\/]+?)$]. *)
Definition user_id_route : Route :=
  mkRoute (PString (js "/user/:id"))
    (regexp_or_never (RegExp.create (js "^\/user\/([^\/]+?)$") false true))
    [mkToken (NameStr (js "id")) (js "/") (js "/") false false (js "[^\/]+?")].

Lemma match_ignores_query_witness :
  Route_match true user_id_route (js "/user/12?tab=posts&x=%") ∅
  = Route_match true user_id_route (js "/user/12") ∅.
Proof. apply (match_ignores_query true user_id_route (js "/user/12")). reflexivity. Defined.

(* ------------------------------------------------------------------ *)
(** ** The paths of a context *)
(* ------------------------------------------------------------------ *)

(** *** The expression that removes the base *)

Definition re_class : list N :=
  [46; 43; 42; 63; 61; 94; 33; 58; 36; 123; 125; 40; 41; 91; 93; 124; 47; 92].

(** What [escapeRegExp] puts for one code unit. *)
Definition escaped_re (c : N) : jstring :=
  if bool_decide (c ∈ re_class) then [92; c] else [c].

Lemma escapeRegExp_cons c s : escapeRegExp (c :: s) = escaped_re c ++ escapeRegExp s.
Proof. reflexivity. Qed.

Lemma length_escapeRegExp s : (length s <= length (escapeRegExp s))%nat.
Proof.
  induction s as [|c s IH]; [reflexivity|].
  rewrite escapeRegExp_cons, length_app. unfold escaped_re.
  destruct (bool_decide _); cbn [length]; lia.
Qed.

Lemma not_in_re_class c :
  c ∉ re_class ->
  c <> 46 /\ c <> 43 /\ c <> 42 /\ c <> 63 /\ c <> 94 /\ c <> 36 /\ c <> 123
  /\ c <> 40 /\ c <> 41 /\ c <> 91 /\ c <> 124 /\ c <> 92.
Proof.
  intros H. repeat split; intros ->; apply H; unfold re_class;
    repeat first [apply list_elem_of_here | apply list_elem_of_further].
Qed.

Lemma p_quant_escaped_re c s : p_quant (escaped_re c ++ s) = Ok (None, escaped_re c ++ s).
Proof.
  unfold escaped_re. destruct (bool_decide_reflect (c ∈ re_class)) as [H|H]; [reflexivity|].
  apply not_in_re_class in H as (_ & H43 & H42 & H63 & _ & _ & H123 & _).
  cbn [app p_quant].
  rewrite (neq_eqb c 42), (neq_eqb c 43), (neq_eqb c 63), (neq_eqb c 123) by assumption.
  reflexivity.
Qed.

Lemma p_quant_escapeRegExp s : p_quant (escapeRegExp s) = Ok (None, escapeRegExp s).
Proof.
  destruct s as [|c s]; [reflexivity|]. rewrite escapeRegExp_cons. apply p_quant_escaped_re.
Qed.

Lemma ends_alternative_escaped_re c s : ends_alternative (escaped_re c ++ s) = false.
Proof.
  unfold escaped_re. destruct (bool_decide_reflect (c ∈ re_class)) as [H|H]; [reflexivity|].
  apply not_in_re_class in H as (_ & _ & _ & _ & _ & _ & _ & _ & H41 & _ & H124 & _).
  cbn [app ends_alternative]. rewrite (neq_eqb c 124), (neq_eqb c 41) by assumption.
  reflexivity.
Qed.

Lemma p_term_escaped_re c s f n :
  p_quant s = Ok (None, s) ->
  p_term (S f) (escaped_re c ++ s) n = Ok (RChar c, s, n).
Proof.
  intros Hq. unfold escaped_re.
  destruct (bool_decide_reflect (c ∈ re_class)) as [H|H].
  - unfold re_class in H.
    repeat (apply elem_of_cons in H as [->|H]); try (by apply elem_of_nil in H);
      cbn -[p_quant with_quant]; unfold with_quant; rewrite Hq; reflexivity.
  - apply not_in_re_class in H
      as (H46 & H43 & H42 & H63 & H94 & H36 & H123 & H40 & H41 & H91 & H124 & H92).
    cbn [app p_term].
    rewrite (neq_eqb c 94), (neq_eqb c 36), (neq_eqb c 40), (neq_eqb c 92),
      (neq_eqb c 91), (neq_eqb c 46), (neq_eqb c 42), (neq_eqb c 43), (neq_eqb c 63),
      (neq_eqb c 123) by assumption.
    cbn [orb]. unfold with_quant. rewrite Hq. reflexivity.
Qed.

Lemma p_alt_escapeRegExp B :
  forall f n, p_alt (length B + S f) (escapeRegExp B) n = Ok (lit_re B REmpty, [], n).
Proof.
  induction B as [|c B IH]; intros f n; [reflexivity|].
  rewrite escapeRegExp_cons. cbn [length Nat.add].
  rewrite p_alt_S, ends_alternative_escaped_re.
  replace (length B + S f)%nat with (S (length B + f)) by lia.
  rewrite (p_term_escaped_re c _ _ n (p_quant_escapeRegExp B)). cbn [bind].
  replace (S (length B + f)) with (length B + S f)%nat by lia.
  rewrite IH. reflexivity.
Qed.

(** [new RegExp('^' + escapeRegExp(base))] is the base as a literal, for
    every base. *)
Lemma create_base B :
  exists re,
    RegExp.create (js "^" ++ escapeRegExp B) false false = Ok re
    /\ prog re = RSeq RBol (lit_re B REmpty)
    /\ ngroups re = 0%nat /\ ignoreCase re = false.
Proof.
  unfold RegExp.create.
  set (src := js "^" ++ escapeRegExp B).
  assert (Hf : exists f, (4 * length src + 8 = S (S (length B + S f)))%nat).
  { exists (9 + 4 * length (escapeRegExp B) - length B)%nat.
    pose proof (length_escapeRegExp B). unfold src.
    rewrite length_app. replace (length (js "^")) with 1%nat by reflexivity. lia. }
  destruct Hf as [f ->].
  rewrite p_disj_S. unfold src at 1.
  change (js "^" ++ escapeRegExp B) with (94 :: escapeRegExp B).
  rewrite p_alt_S. cbn [ends_alternative]. cbn [N.eqb Pos.eqb orb].
  rewrite (Nat.add_succ_r (length B) f).
  cbn [p_term]. cbn [N.eqb Pos.eqb bind].
  rewrite <- (Nat.add_succ_r (length B) f).
  rewrite (p_alt_escapeRegExp B f 0). cbn [bind].
  eexists. split; [reflexivity|]. repeat split; reflexivity.
Qed.

Lemma canon_false_id (s : jstring) : canon false <$> s = s.
Proof. induction s as [|c s IH]; [reflexivity|]. cbn [fmap list_fmap]. f_equal. exact IH. Qed.

Lemma starts_with_take L s : starts_with L s = bool_decide (take (length L) s = L).
Proof.
  revert s. induction L as [|a L IH]; intros s.
  - cbn. rewrite bool_decide_eq_true_2 by reflexivity. reflexivity.
  - destruct s as [|b s]; cbn [starts_with length take].
    + rewrite bool_decide_eq_false_2 by discriminate. reflexivity.
    + rewrite IH. destruct (N.eqb_spec a b) as [->|Hne]; cbn [andb].
      * apply bool_decide_ext. split; [intros ->; reflexivity | intros [= H]; exact H].
      * rewrite bool_decide_eq_false_2; [reflexivity | congruence].
Qed.

(** [s.replace(re, '')] for that expression: the base is dropped from the
    start of a string that starts with it. *)
Lemma replace_base re B s :
  prog re = RSeq RBol (lit_re B REmpty) -> ignoreCase re = false ->
  replace_re_empty re s = if starts_with B s then drop (length B) s else s.
Proof.
  intros Hprog Hi. unfold replace_re_empty.
  rewrite (exec_literal re B _ s Hprog), Hi, !canon_false_id, <- starts_with_take.
  destruct (starts_with B s); reflexivity.
Qed.

Lemma indexOf_from_ge p s i j : indexOf_from p s i = Some j -> (i <= j)%nat.
Proof.
  revert i. induction s as [|a s IH]; intros i; cbn [indexOf_from];
    destruct (starts_with p _); try (intros [= <-]; lia); try discriminate.
  intros H. apply IH in H. lia.
Qed.

Lemma indexOf_zero s p : bool_decide (indexOf s p = Some O) = starts_with p s.
Proof.
  unfold indexOf. destruct s as [|a s]; cbn [indexOf_from];
    destruct (starts_with p _) eqn:Hs.
  - apply bool_decide_eq_true_2. reflexivity.
  - apply bool_decide_eq_false_2. discriminate.
  - apply bool_decide_eq_true_2. reflexivity.
  - apply bool_decide_eq_false_2. intros H. apply indexOf_from_ge in H. lia.
Qed.

Lemma starts_with_app B s : starts_with B (B ++ s) = true.
Proof. rewrite starts_with_take, take_app_length. apply bool_decide_eq_true_2. reflexivity. Qed.

Lemma lacks_drop c n s : lacks c s = true -> lacks c (drop n s) = true.
Proof.
  intros H. apply Forall_lacks. apply lacks_Forall in H. apply Forall_drop, H.
Qed.

Lemma getBase_history w : _hashbang (page w) = false -> _getBase w = _base (page w).
Proof. intros H. unfold _getBase. rewrite H. destruct (_base (page w)); reflexivity. Qed.

Lemma lacks_or_slash c s : c <> 47 -> lacks c s = true -> lacks c (or_slash s) = true.
Proof.
  intros Hc H. destruct s; [|exact H]. change (or_slash []) with [47].
  unfold lacks. cbn [forallb]. rewrite andb_true_r.
  apply negb_true_iff, N.eqb_neq. congruence.
Qed.

(** The path a context is made for, once the base is put in front of it. *)
Definition with_base (B p : jstring) : jstring :=
  if starts_with (js "/") p && negb (starts_with B p) then B ++ p else p.

(** [s] without the base [B] at its start. *)
Definition without_base (B s : jstring) : jstring :=
  if starts_with B s then drop (length B) s else s.

(** X8. The paths of a context, on a controller that does not use the
    hashbang, for a path without a fragment. [canonicalPath] is the path
    with the base put in front of it, when the path starts with a slash and
    not with the base already; [path] is [canonicalPath] with the base
    removed from its start, or [/] when nothing is left; [state.path] is
    [canonicalPath]; the context starts with no parameters, no fragment and
    [handled] unset. *)
Theorem context_paths p st w ctx :
  _hashbang (page w) = false ->
  lacks 35 p = true ->
  Context_new p st w = Ok ctx ->
  canonicalPath ctx = with_base (_base (page w)) p
  /\ path ctx = or_slash (without_base (_base (page w)) (canonicalPath ctx))
  /\ state ctx !! js "path" = Some (canonicalPath ctx)
  /\ title ctx = doc_title w
  /\ hash ctx = [] /\ params ctx = ∅ /\ handled ctx = None /\ init ctx = None.
Proof.
  intros Hhb Hp H. cbv beta zeta delta [Context_new] in H.
  rewrite (getBase_history w Hhb), Hhb, indexOf_zero in H.
  set (B := _base (page w)) in *. change (B ++ [] ++ p) with (B ++ p) in H.
  fold (with_base B p) in H.
  destruct (create_base B) as (re & Hre & Hprog & _ & Hi).
  rewrite Hre in H. cbn [bind orb] in H.
  rewrite (replace_base re B _ Hprog Hi) in H. fold (without_base B (with_base B p)) in H.
  assert (Hl : lacks 35 (or_slash (without_base B (with_base B p))) = true).
  { apply lacks_or_slash; [discriminate|]. unfold without_base, with_base.
    destruct (starts_with (js "/") p && negb (starts_with B p)).
    - rewrite starts_with_app, drop_app_length. exact Hp.
    - destruct (starts_with B p); [apply lacks_drop|]; exact Hp. }
  bind_inv H.
  change (js "#") with [35] in H. rewrite (indexOf_lacks 35 _ Hl) in H.
  rewrite bool_decide_eq_false_2 in H by (intros [? ?]; discriminate).
  cbn [negb] in H. injection H as <-. cbn [canonicalPath path state title hash params handled init].
  repeat split. apply lookup_insert_eq.
Qed.

Lemma context_paths_witness :
  exists ctx,
    Context_new (js "/user/12") None
      (with_page (fun pg => mkPage [] [] [] 0 true (js "/app") false false false true None)
         (new_World (mkLocation (js "/app/") [] [] (js "http:")))) = Ok ctx
    /\ canonicalPath ctx = js "/app/user/12"
    /\ path ctx = js "/user/12".
Proof.
  eexists. split; [vm_compute; reflexivity|].
  match goal with
  | |- canonicalPath ?c = _ /\ _ =>
      destruct (context_paths (js "/user/12") None
                  (with_page (fun pg => mkPage [] [] [] 0 true (js "/app") false false false
                                          true None)
                     (new_World (mkLocation (js "/app/") [] [] (js "http:")))) c)
        as (H1 & H2 & _)
  end; [reflexivity | reflexivity | vm_compute; reflexivity |].
  split; [exact H1 | exact H2].
Defined.

(* ------------------------------------------------------------------ *)
(** ** Decoding a URL component *)
(* ------------------------------------------------------------------ *)

(** X9. [_decodeURLEncodedURIComponent] with decoding enabled undoes
    [encodeURIComponent] on every string the latter accepts, and reads a
    string without a percent sign as itself with each plus sign turned into
    a space. With decoding disabled it gives its argument back. *)
Theorem decode_component v seg s :
  utf16 v = true ->
  encodeURIComponent v = Ok seg ->
  lacks 37 s = true ->
  _decodeURLEncodedURIComponent true (Some seg) = Ok (Some v)
  /\ _decodeURLEncodedURIComponent true (Some s) = Ok (Some (plus_to_space s))
  /\ _decodeURLEncodedURIComponent false (Some seg) = Ok (Some seg).
Proof.
  intros Hv Henc Hs. unfold _decodeURLEncodedURIComponent. split; [|split; [|reflexivity]].
  - rewrite (plus_to_space_id seg).
    + rewrite (decode_encode v seg (utf16_Forall v Hv) Henc). reflexivity.
    + apply (safe_lacks 43 seg eq_refl), (encode_safe v seg Hv Henc).
  - rewrite decode_no_pct; [reflexivity|].
    apply plus_to_space_lacks; [discriminate | exact Hs].
Qed.

Lemma decode_component_witness :
  _decodeURLEncodedURIComponent true (Some (js "caf%C3%A9%20%2B1")) = Ok (Some [99; 97; 102; 233; 32; 43; 49])
  /\ _decodeURLEncodedURIComponent true (Some (js "a+b c")) = Ok (Some (js "a b c")).
Proof.
  destruct (decode_component [99; 97; 102; 233; 32; 43; 49] (js "caf%C3%A9%20%2B1") (js "a+b c"))
    as (H1 & H2 & _); [reflexivity | vm_compute; reflexivity | reflexivity |].
  split; [exact H1 | exact H2].
Defined.

(* ------------------------------------------------------------------ *)
(** ** The builder on an array value *)
(* ------------------------------------------------------------------ *)

(** [encodeURIComponent] on each element, in order; the first failure is
    the result. *)
Fixpoint encode_all (l : list jstring) : result (list jstring) :=
  match l with
  | [] => Ok []
  | v :: l' => s <- encodeURIComponent v;; r <- encode_all l';; Ok (s :: r)
  end.

Lemma build_repeat_rest t mre :
  forall l segs path,
    encode_all l = Ok segs ->
    Forall (fun s => matches_test mre s = true) segs ->
    build_repeat t mre false l path
    = Ok (path ++ mjoin ((fun s => delimiter t ++ s) <$> segs)).
Proof.
  induction l as [|v l IH]; intros segs path Henc Hok.
  - injection Henc as <-. cbn. rewrite app_nil_r. reflexivity.
  - cbn [encode_all] in Henc.
    destruct (encodeURIComponent v) as [s|] eqn:Hs; cbn [bind] in Henc; [|discriminate].
    destruct (encode_all l) as [r|] eqn:Hr; cbn [bind] in Henc; [|discriminate].
    injection Henc as <-. apply Forall_cons in Hok as [Hs1 Hr1].
    cbn [build_repeat]. rewrite Hs. cbn [bind]. rewrite Hs1. cbn [negb].
    rewrite (IH r _ eq_refl Hr1). cbn [fmap list_fmap mjoin list_join].
    rewrite <- !app_assoc. reflexivity.
Qed.

Lemma join_delimiter (sep s : jstring) (r : list jstring) :
  s ++ mjoin ((fun x => sep ++ x) <$> r) = join sep (s :: r).
Proof.
  revert s. induction r as [|x r IH]; intros s.
  - cbn. apply app_nil_r.
  - cbn [fmap list_fmap mjoin list_join join].
    change (list_join N (list_fmap jstring jstring (fun x0 => sep ++ x0) r))
      with (mjoin ((fun x0 => sep ++ x0) <$> r)).
    rewrite <- app_assoc, IH. reflexivity.
Qed.

(** The loop over a non-empty array: the prefix, then the encoded elements
    joined with the delimiter. *)
Lemma build_repeat_join t mre l segs path :
  l <> [] ->
  encode_all l = Ok segs ->
  Forall (fun s => matches_test mre s = true) segs ->
  build_repeat t mre true l path = Ok (path ++ prefix t ++ join (delimiter t) segs).
Proof.
  intros Hne Henc Hok. destruct l as [|v l]; [contradiction|].
  cbn [encode_all] in Henc.
  destruct (encodeURIComponent v) as [s|] eqn:Hs; cbn [bind] in Henc; [|discriminate].
  destruct (encode_all l) as [r|] eqn:Hr; cbn [bind] in Henc; [|discriminate].
  injection Henc as <-. apply Forall_cons in Hok as [Hs1 Hr1].
  cbn [build_repeat]. rewrite Hs. cbn [bind]. rewrite Hs1. cbn [negb].
  rewrite (build_repeat_rest t mre l r _ Hr Hr1), <- !app_assoc, join_delimiter.
  reflexivity.
Qed.

(** X10. The builder for one repeating key whose pattern compiles: given an
    object whose property of that name reads a non-empty array whose encoded
    elements all pass the pattern, it returns the prefix followed by the
    encoded elements joined with the delimiter; given one whose property
    reads the empty array it returns the empty path when the key is
    optional and throws otherwise. *)
Theorem builder_joins_array t re l segs :
  repeat t = true ->
  RegExp.create (js "^" ++ pattern t ++ js "$") false false = Ok re ->
  l <> [] ->
  encode_all l = Ok segs ->
  Forall (fun s => RegExp.test re s = true) segs ->
  exists f,
    tokensToFunction [TKey t] = Ok f
    /\ (forall data, data (prop_of_name (name t)) = VArray l ->
          f data = Ok (prefix t ++ join (delimiter t) segs))
    /\ (forall data, data (prop_of_name (name t)) = VArray [] ->
          f data = if optional t then Ok [] else Throw (err_empty t)).
Proof.
  intros Hrep Hre Hne Henc Hok.
  unfold tokensToFunction. cbn [compile_tokens compile_token]. rewrite Hre. cbn [bind].
  eexists. split; [reflexivity|]. cbn [zip zip_with build].
  split; intros data Hd; rewrite Hd, Hrep; cbn [negb].
  - destruct l as [|v l]; [contradiction|].
    rewrite (build_repeat_join t (Some re) (v :: l) segs []); [reflexivity | discriminate
                                                               | exact Henc | exact Hok].
  - destruct (optional t); reflexivity.
Qed.

Lemma builder_joins_array_witness :
  exists f,
    tokensToFunction
      [TKey (mkToken (NameStr (js "x")) (js "/") (js "/") false true (js "[^\/]+?"))] = Ok f
    /\ f (obj {[ js "x" := VArray [js "a b"; js "c"] ]}) = Ok (js "/a%20b/c").
Proof.
  destruct (RegExp.create (js "^[^\/]+?$") false false) as [re|] eqn:Hre;
    [|vm_compute in Hre; discriminate].
  destruct (builder_joins_array
              (mkToken (NameStr (js "x")) (js "/") (js "/") false true (js "[^\/]+?"))
              re [js "a b"; js "c"] [js "a%20b"; js "c"])
    as (f & H1 & H2 & _);
    [reflexivity | exact Hre | discriminate | vm_compute; reflexivity | |].
  - vm_compute in Hre. injection Hre as <-. repeat constructor; vm_compute; reflexivity.
  - exists f. split; [exact H1 | apply H2; reflexivity].
Defined.

(* ------------------------------------------------------------------ *)
(** ** Patterns without parameters *)
(* ------------------------------------------------------------------ *)

(** X11. A pattern with no backslash, colon, opening parenthesis or
    asterisk is one literal token (none when it is empty), and the builder
    made for it returns the pattern itself, whatever it is given. *)
Theorem literal_pattern lit :
  forallb is_plain lit = true ->
  parse lit = Some (literal_tokens lit)
  /\ exists f, compile lit = Ok f /\ forall data, f data = Ok lit.
Proof.
  intros H. apply is_plain_spec in H. pose proof (parse_plain lit H) as Hp.
  split; [exact Hp|]. unfold compile. rewrite Hp.
  destruct lit as [|a lit]; eexists; (split; [reflexivity|]); intros data; reflexivity.
Qed.

Lemma literal_pattern_witness :
  parse (js "/docs/v1.2/index.html") = Some [TStr (js "/docs/v1.2/index.html")]
  /\ exists f, compile (js "/docs/v1.2/index.html") = Ok f
               /\ f (obj ∅) = Ok (js "/docs/v1.2/index.html").
Proof.
  destruct (literal_pattern (js "/docs/v1.2/index.html") eq_refl) as (H1 & f & H2 & H3).
  split; [exact H1|]. exists f. split; [exact H2 | exact (H3 (obj ∅))].
Defined.

(* ------------------------------------------------------------------ *)
(** ** The enter phase over routes that do not match *)
(* ------------------------------------------------------------------ *)

(** The route of [mw] does not match [p], whatever [params] holds. *)
Definition route_rejects (decode : bool) (mw : Middleware) (p : jstring) : Prop :=
  forall ps, (Route_match decode (mw_route mw) p ps).1 = Ok false.

(** [w'] is [w] after the closure [d] went over [n] middleware from index
    [i] that all let the context [c] pass: nothing changed but the cursor,
    the parameters of the context and the record of the invocations. *)
Record Skipped (d c i n : nat) (w w' : World) : Prop := mkSkipped {
  sk_page : page w' = page w;
  sk_frame : forall fr, frames w !! d = Some fr ->
                        frames w' !! d = Some (set_i (f_i fr + n) fr);
  sk_ctx : forall ctx, ctxs w !! c = Some ctx ->
                       exists ps, ctxs w' !! c = Some (set_params ps ctx)
                                  /\ delete (js "0") ps = delete (js "0") (params ctx);
  sk_location : location w' = location w;
  sk_calls : calls w' = calls w;
  sk_timers : timers w' = timers w;
  sk_trace : trace w' = trace w ++ (EvInvoke Enter d <$> seq i n)
}.

Lemma set_i_same fr : set_i (f_i fr + 0) fr = fr.
Proof. destruct fr. unfold set_i. cbn. rewrite Nat.add_0_r. reflexivity. Qed.

Lemma set_params_same ctx : set_params (params ctx) ctx = ctx.
Proof. destruct ctx; reflexivity. Qed.

Lemma Skipped_refl d c i w : Skipped d c i 0 w w.
Proof.
  constructor; try reflexivity.
  - intros fr H. rewrite set_i_same. exact H.
  - intros ctx H. exists (params ctx). rewrite set_params_same. split; [exact H | reflexivity].
  - cbn. rewrite app_nil_r. reflexivity.
Qed.

Lemma lookup_update_ctx c f w ctx :
  ctxs w !! c = Some ctx -> ctxs (update_ctx c f w) !! c = Some (f ctx).
Proof.
  intros H. rewrite ctxs_update_ctx, H.
  apply list_lookup_insert_eq. eapply lookup_lt_Some; exact H.
Qed.

(** One middleware that lets the context pass. *)
Lemma nextEnter_reject fuel d w fr ctx mw :
  frames w !! d = Some fr ->
  ctxs w !! f_ctx fr = Some ctx ->
  path ctx = current (page w) ->
  callbacks (page w) !! f_i fr = Some mw ->
  route_rejects (_decodeURLComponents (page w)) mw (path ctx) ->
  exists w',
    nextEnter (3 + fuel) d w = nextEnter fuel d w'
    /\ Skipped d (f_ctx fr) (f_i fr) 1 w w'.
Proof.
  intros Hfr Hc Hpath Hmw Hrej.
  change (3 + fuel)%nat with (S (S (S fuel))).
  rewrite nextEnter_S, Hfr. cbv zeta.
  change (ctxs (update_frame d (set_i (S (f_i fr))) w)) with (ctxs w).
  change (page (update_frame d (set_i (S (f_i fr))) w)) with (page w).
  rewrite Hc, (bool_decide_eq_true_2 _ Hpath), Hmw. cbn [negb].
  rewrite middleware_S.
  change (ctxs (log (EvInvoke Enter d (f_i fr)) (update_frame d (set_i (S (f_i fr))) w)))
    with (ctxs w).
  change (page (log (EvInvoke Enter d (f_i fr)) (update_frame d (set_i (S (f_i fr))) w)))
    with (page w).
  rewrite Hc. cbv zeta. rewrite (Hrej (params ctx)). rewrite call_S.
  assert (Hps : (Route_match (_decodeURLComponents (page w)) (mw_route mw) (path ctx)
                   (params ctx)).2 = delete (js "0") (params ctx)).
  { apply (Route_match_false (_decodeURLComponents (page w)) (mw_route mw) (path ctx)).
    rewrite <- (Hrej (params ctx)). apply surjective_pairing. }
  eexists. split; [reflexivity|].
  constructor; try reflexivity.
  - intros fr' Hfr'. rewrite Hfr in Hfr'. injection Hfr' as <-.
    change (frames (update_ctx ?c ?f (log ?e ?w0))) with (frames w0).
    rewrite (lookup_update_frame d _ w fr Hfr). f_equal.
    unfold set_i. cbn. f_equal. lia.
  - intros ctx' Hc'. rewrite Hc in Hc'. injection Hc' as <-.
    eexists. split; [apply lookup_update_ctx; exact Hc|].
    rewrite Hps. apply delete_delete_eq.
Qed.

Lemma Skipped_trans d c i n m w1 w2 w3 :
  Skipped d c i n w1 w2 -> Skipped d c (i + n) m w2 w3 ->
  (exists fr, frames w1 !! d = Some fr) -> (exists ctx, ctxs w1 !! c = Some ctx) ->
  Skipped d c i (n + m) w1 w3.
Proof.
  intros [] [] [fr Hfr] [ctx Hc]. constructor; try congruence.
  - intros fr' Hfr'. rewrite (sk_frame1 _ (sk_frame0 _ Hfr')).
    unfold set_i. cbn. rewrite Nat.add_assoc. reflexivity.
  - intros ctx' Hc'. destruct (sk_ctx0 _ Hc') as (ps & Hps & Hd).
    destruct (sk_ctx1 _ Hps) as (ps' & Hps' & Hd'). exists ps'.
    split; [exact Hps' | rewrite Hd'; exact Hd].
  - rewrite sk_trace1, sk_trace0, <- app_assoc, seq_app, fmap_app. reflexivity.
Qed.

(** The enter phase goes over [n] non-matching middleware in a row. *)
Lemma nextEnter_skip n :
  forall fuel d w fr ctx,
    frames w !! d = Some fr ->
    ctxs w !! f_ctx fr = Some ctx ->
    path ctx = current (page w) ->
    (forall k, (k < n)%nat ->
       exists mw, callbacks (page w) !! (f_i fr + k)%nat = Some mw
                  /\ route_rejects (_decodeURLComponents (page w)) mw (path ctx)) ->
    exists w',
      nextEnter (3 * n + fuel) d w = nextEnter fuel d w'
      /\ Skipped d (f_ctx fr) (f_i fr) n w w'.
Proof.
  induction n as [|n IH]; intros fuel d w fr ctx Hfr Hc Hpath Hall.
  - exists w. split; [reflexivity | apply Skipped_refl].
  - destruct (Hall 0%nat ltac:(lia)) as (mw & Hmw & Hrej). rewrite Nat.add_0_r in Hmw.
    replace (3 * S n + fuel)%nat with (3 + (3 * n + fuel))%nat by lia.
    destruct (nextEnter_reject (3 * n + fuel) d w fr ctx mw Hfr Hc Hpath Hmw Hrej)
      as (w1 & Hstep & Hsk). rewrite Hstep.
    destruct (sk_ctx _ _ _ _ _ _ Hsk ctx Hc) as (ps & Hc1 & _).
    pose proof (sk_frame _ _ _ _ _ _ Hsk fr Hfr) as Hfr1.
    destruct (IH fuel d w1 (set_i (f_i fr + 1) fr) (set_params ps ctx) Hfr1 Hc1)
      as (w2 & Hrun & Hsk2).
    + cbn [path set_params]. rewrite (sk_page _ _ _ _ _ _ Hsk). exact Hpath.
    + intros k Hk. rewrite (sk_page _ _ _ _ _ _ Hsk). cbn [f_i set_i path set_params].
      destruct (Hall (S k) ltac:(lia)) as (mw' & Hmw' & Hrej').
      exists mw'. split; [|exact Hrej'].
      replace (f_i fr + 1 + k)%nat with (f_i fr + S k)%nat by lia. exact Hmw'.
    + exists w2. split; [exact Hrun|].
      change (S n) with (1 + n)%nat.
      eapply Skipped_trans; [exact Hsk | exact Hsk2 | eauto | eauto].
Qed.

(** [w'] is [w] after [dispatch(c, prev)] made its closure [d] and went
    over the first [k] middleware, which let the context pass. *)
Record Entering (d c : nat) (prev : option nat) (k : nat) (ctx : Context) (w w' : World)
  : Prop := mkEntering {
  en_page : page w' = page w;
  en_frame : exists j, frames w' !! d = Some (mkFrame c prev k j);
  en_ctx : exists ps, ctxs w' !! c = Some (set_params ps ctx)
                      /\ delete (js "0") ps = delete (js "0") (params ctx);
  en_location : location w' = location w;
  en_calls : calls w' = calls w;
  en_timers : timers w' = timers w;
  en_trace : trace w' = trace w ++ (EvInvoke Enter d <$> seq 0 k)
}.

(** The calls [dispatch] spends before the enter phase, with no exit
    middleware. *)
Definition exit_steps (prev : option nat) : nat :=
  match prev with Some _ => 2%nat | None => 1%nat end.

(** With no exit middleware, a dispatch reaches the enter phase, and goes
    over the routes that do not match the path. *)
Lemma dispatch_enters k fuel c (prev : option nat) w ctx :
  ctxs w !! c = Some ctx ->
  path ctx = current (page w) ->
  exits (page w) = [] ->
  (forall i, (i < k)%nat ->
     exists mw, callbacks (page w) !! i = Some mw
                /\ route_rejects (_decodeURLComponents (page w)) mw (path ctx)) ->
  exists w',
    dispatch (3 * k + exit_steps prev + fuel) c prev w
    = nextEnter fuel (length (frames w)) w'
    /\ Entering (length (frames w)) c prev k ctx w w'.
Proof.
  intros Hc Hpath Hex Hall.
  set (d := length (frames w)).
  set (w1 := with_frames (fun l => l ++ [mkFrame c prev 0 0]) w).
  assert (Hfr1 : frames w1 !! d = Some (mkFrame c prev 0 0)).
  { unfold w1, d. cbn [frames with_frames]. rewrite lookup_app_r, Nat.sub_diag by lia.
    reflexivity. }
  assert (Hgo : exists w2 j,
             dispatch (3 * k + exit_steps prev + fuel) c prev w
             = nextEnter (3 * k + fuel) d w2
             /\ frames w2 !! d = Some (mkFrame c prev 0 j)
             /\ page w2 = page w /\ ctxs w2 = ctxs w /\ location w2 = location w
             /\ calls w2 = calls w /\ timers w2 = timers w /\ trace w2 = trace w).
  { destruct prev as [pc|].
    - exists (update_frame d (set_j 1) w1), 1%nat.
      replace (3 * k + exit_steps (Some pc) + fuel)%nat with (S (S (3 * k + fuel)))
        by (cbn [exit_steps]; lia).
      rewrite dispatch_S. cbv zeta. fold w1. fold d.
      rewrite nextExit_S, Hfr1. cbv zeta.
      change (exits (page w1)) with (exits (page w)). rewrite Hex. cbn [lookup list_lookup f_j].
      split; [reflexivity|]. split; [|repeat split].
      apply (lookup_update_frame d (set_j 1) w1 _ Hfr1).
    - exists w1, 0%nat.
      replace (3 * k + exit_steps None + fuel)%nat with (S (3 * k + fuel))
        by (cbn [exit_steps]; lia).
      rewrite dispatch_S. cbv zeta. fold w1. fold d.
      split; [reflexivity|]. split; [exact Hfr1 | repeat split]. }
  destruct Hgo as (w2 & j & Hd & Hfr2 & Hp2 & Hc2 & Hl2 & Hk2 & Ht2 & Hr2).
  destruct (nextEnter_skip k fuel d w2 (mkFrame c prev 0 j) ctx Hfr2) as (w' & Hrun & Hsk).
  - cbn [f_ctx]. rewrite Hc2. exact Hc.
  - rewrite Hp2. exact Hpath.
  - intros i Hi. rewrite Hp2. cbn [f_i]. apply Hall, Hi.
  - exists w'. split; [rewrite Hd; exact Hrun|].
    destruct Hsk as [S1 S2 S3 S4 S5 S6 S7]. constructor; try congruence.
    + exists j. rewrite (S2 _ Hfr2). reflexivity.
    + apply S3. cbn [f_ctx]. rewrite Hc2. exact Hc.
    + rewrite S7, Hr2. reflexivity.
Qed.

(** On a path that can be decoded, [Route.match] reads [params] only
    through what is left of it without the key [0]. *)
Lemma Route_match_delete decode r p ps ps' b out :
  delete (js "0") ps' = delete (js "0") ps ->
  Route_match decode r p ps = (Ok b, out) ->
  Route_match decode r p ps' = (Ok b, out).
Proof.
  unfold Route_match. intros Hd.
  destruct (decodeURIComponent (pathname_of p)); [|discriminate].
  rewrite Hd. auto.
Qed.

(** The URL [unhandled] compares the canonical path with. *)
Definition window_url (w : World) : jstring :=
  if _hashbang (page w)
  then _getBase w ++ replace_first (loc_hash (location w)) (js "#!") []
  else loc_pathname (location w) ++ loc_search (location w).

Definition is_PushState (c : HostCall) : bool :=
  match c with PushState _ _ _ => true | _ => false end.

(** X12. [show(path)] on a controller with no exit middleware: when the
    first route that matches the path is the one at index [k] and its
    handler returns without calling [next], the middleware up to [k] are
    invoked in order, that handler runs, no later middleware is invoked,
    the parameters of the match are stored in the context, and one history
    entry is pushed; [len] grows by one when it was at least -2^53 and
    below 2^53, the range in which [page.len++] is exact. *)
Theorem show_runs_first_match k p st w ctx mw ps :
  Context_new p st w = Ok ctx ->
  exits (page w) = [] ->
  (forall i, (i < k)%nat ->
     exists mw', callbacks (page w) !! i = Some mw'
                 /\ route_rejects (_decodeURLComponents (page w)) mw' (path ctx)) ->
  callbacks (page w) !! k = Some mw ->
  Route_match (_decodeURLComponents (page w)) (mw_route mw) (path ctx) (params ctx)
  = (Ok true, ps) ->
  mw_fn mw (length (ctxs w)) = Done ->
  exists n, forall fuel, exists w',
    show (n + fuel) p st None None w = Ret (length (ctxs w)) w'
    /\ trace w' = trace w ++ (EvInvoke Enter (length (frames w)) <$> seq 0 (S k))
                          ++ [EvHandler Enter (length (frames w)) k]
    /\ ctxs w' !! length (ctxs w) = Some (set_params ps ctx)
    /\ calls w' = calls w ++ [PushState (state ctx) (title ctx) (history_url w ctx)]
    /\ ((- 2 ^ 53 <= len (page w) < 2 ^ 53)%Z -> len (page w') = (len (page w) + 1)%Z)
    /\ current (page w') = path ctx.
Proof.
  intros Hctx Hex Hall Hmw Hmatch Hfn.
  exists (3 * k + exit_steps (prevContext (page w)) + 4)%nat. intros fuel.
  set (c := length (ctxs w)). set (d := length (frames w)).
  set (prev := prevContext (page w)).
  replace (3 * k + exit_steps prev + 4 + fuel)%nat
    with (S (3 * k + exit_steps prev + S (S (S fuel)))) by lia.
  rewrite show_S, Hctx. cbv zeta. cbn [bool_decide decide_rel]. 
  rewrite (bool_decide_eq_false_2 (None = Some false)) by discriminate.
  set (w1 := enter_context ctx w).
  assert (Hc1 : ctxs w1 !! c = Some ctx).
  { unfold w1, enter_context, c. cbn [ctxs with_page with_ctxs].
    rewrite lookup_app_r, Nat.sub_diag by lia. reflexivity. }
  destruct (dispatch_enters k (S (S (S fuel))) c prev w1 ctx Hc1 eq_refl Hex Hall)
    as (w2 & Hrun & He).
  fold c prev. rewrite Hrun. change (length (frames w1)) with d in *.
  destruct He as [E1 (j & E2) (ps0 & E3 & Ed) E4 E5 E6 E7].
  rewrite nextEnter_S, E2. cbv zeta. cbn [f_ctx f_i].
  change (ctxs (update_frame d (set_i (S k)) w2)) with (ctxs w2).
  change (page (update_frame d (set_i (S k)) w2)) with (page w2).
  rewrite E3, E1. cbn [path set_params].
  rewrite (bool_decide_eq_true_2 (path ctx = current (page w1))) by reflexivity.
  cbn [negb]. change (callbacks (page w1)) with (callbacks (page w)). rewrite Hmw.
  rewrite middleware_S.
  change (ctxs (log (EvInvoke Enter d k) (update_frame d (set_i (S k)) w2))) with (ctxs w2).
  change (page (log (EvInvoke Enter d k) (update_frame d (set_i (S k)) w2))) with (page w2).
  rewrite E3, E1. cbv zeta. cbn [path params set_params].
  change (_decodeURLComponents (page w1)) with (_decodeURLComponents (page w)).
  rewrite (Route_match_delete _ _ _ _ ps0 _ _ Ed Hmatch). cbn [fst snd].
  fold c in Hfn. rewrite Hfn, run_S. cbn [obind phase_of_cont frame_of_cont].
  set (w3 := log _ (update_ctx c (set_params ps) _)).
  assert (Hc3 : ctxs w3 !! c = Some (set_params ps ctx)).
  { unfold w3. change (ctxs (log ?e ?x)) with (ctxs x).
    rewrite (lookup_update_ctx c (set_params ps) _ (set_params ps0 ctx)); [|exact E3].
    destruct ctx; reflexivity. }
  rewrite Hc3. cbn [handled set_params].
  rewrite (Context_new_handled _ _ _ _ Hctx).
  rewrite (bool_decide_eq_false_2 (None = Some false)) by discriminate. cbn [negb andb].
  eexists. split; [reflexivity|].
  assert (Hp3 : page w3 = page w1) by exact E1.
  assert (Hk3 : calls w3 = calls w) by exact E5.
  assert (Ht3 : trace w3 = trace w ++ (EvInvoke Enter d <$> seq 0 (S k))
                                   ++ [EvHandler Enter d k]).
  { unfold w3. cbn [trace log]. change (trace (update_ctx ?a ?b ?x)) with (trace x).
    cbn [trace log]. change (trace (update_frame ?a ?b ?x)) with (trace x).
    rewrite E7. change (trace w1) with (trace w).
    rewrite seq_S, fmap_app, <- !app_assoc. reflexivity. }
  clearbody w3.
  unfold pushState. cbn [trace ctxs calls page host_call with_page state title set_params].
  split; [exact Ht3|]. split; [exact Hc3|]. split; [|split].
  - rewrite Hk3. f_equal. f_equal. f_equal. unfold history_url.
    cbn [page with_page path set_params canonicalPath].
    change (_hashbang (set_len (number_incr (len (page w3))) (page w3))) with (_hashbang (page w3)).
    rewrite Hp3. reflexivity.
  - intros Hb. cbn [len set_len]. rewrite Hp3. exact (number_incr_exact _ Hb).
  - cbn [current set_len]. rewrite Hp3. reflexivity.
Qed.

Lemma stop_spec w :
  ctxs (stop w) = ctxs w /\ frames (stop w) = frames w /\ trace (stop w) = trace w
  /\ _running (page (stop w)) = false
  /\ len (page (stop w)) = (if _running (page w) then 0%Z else len (page w))
  /\ exists l, calls (stop w) = calls w ++ l /\ forallb (fun c => negb (is_PushState c)) l = true.
Proof.
  unfold stop. destruct (_running (page w)) eqn:Hr; cbn [negb].
  - cbv zeta. cbn [page with_page _click set_running set_len set_current].
    destruct (_click (page w)); repeat split; eexists;
      cbn [calls host_call with_page]; rewrite <- ?app_assoc; (split; [reflexivity|]);
      reflexivity.
  - repeat split; [exact Hr|]. exists []. rewrite app_nil_r. split; reflexivity.
Qed.

(** X13. [show(path)] for a path that no route matches, on a controller
    with no exit middleware, when the window is not at that path already:
    every middleware is invoked in order and none of their handlers runs;
    then the controller stops, the context is marked unhandled, the window
    is sent to the canonical path, and no history entry is pushed. *)
Theorem show_unmatched p st w ctx :
  Context_new p st w = Ok ctx ->
  exits (page w) = [] ->
  (forall mw, mw ∈ callbacks (page w) ->
     route_rejects (_decodeURLComponents (page w)) mw (path ctx)) ->
  window_url w <> canonicalPath ctx ->
  exists n, forall fuel, exists w' ctx' l,
    show (n + fuel) p st None None w = Ret (length (ctxs w)) w'
    /\ trace w' = trace w ++ (EvInvoke Enter (length (frames w))
                               <$> seq 0 (length (callbacks (page w))))
    /\ ctxs w' !! length (ctxs w) = Some ctx' /\ handled ctx' = Some false
    /\ calls w' = calls w ++ l ++ [SetLocationHref (canonicalPath ctx)]
    /\ forallb (fun c => negb (is_PushState c)) l = true
    /\ _running (page w') = false
    /\ len (page w') = (if _running (page w) then 0%Z else len (page w)).
Proof.
  intros Hctx Hex Hall Hurl.
  set (k := length (callbacks (page w))).
  exists (3 * k + exit_steps (prevContext (page w)) + 2)%nat. intros fuel.
  set (c := length (ctxs w)). set (d := length (frames w)).
  set (prev := prevContext (page w)).
  replace (3 * k + exit_steps prev + 2 + fuel)%nat
    with (S (3 * k + exit_steps prev + S fuel)) by lia.
  rewrite show_S, Hctx. cbv zeta.
  rewrite (bool_decide_eq_false_2 (None = Some false)) by discriminate.
  set (w1 := enter_context ctx w).
  assert (Hc1 : ctxs w1 !! c = Some ctx).
  { unfold w1, enter_context, c. cbn [ctxs with_page with_ctxs].
    rewrite lookup_app_r, Nat.sub_diag by lia. reflexivity. }
  destruct (dispatch_enters k (S fuel) c prev w1 ctx Hc1 eq_refl Hex) as (w2 & Hrun & He).
  { intros i Hi. destruct (lookup_lt_is_Some_2 (callbacks (page w)) i Hi) as [mw Hmw].
    exists mw. split; [exact Hmw|]. apply Hall. eapply list_elem_of_lookup_2, Hmw. }
  fold c prev. rewrite Hrun. change (length (frames w1)) with d in *.
  destruct He as [E1 (j & E2) (ps0 & E3 & Ed) E4 E5 E6 E7].
  rewrite nextEnter_S, E2. cbv zeta. cbn [f_ctx f_i].
  set (w3 := update_frame d (set_i (S k)) w2).
  assert (Hp3 : page w3 = page w1) by exact E1.
  assert (Hc3 : ctxs w3 = ctxs w2) by reflexivity.
  assert (Hk3 : calls w3 = calls w) by exact E5.
  assert (Ht3 : trace w3 = trace w ++ (EvInvoke Enter d <$> seq 0 k)) by exact E7.
  assert (Hl3 : location w3 = location w) by exact E4.
  rewrite Hc3, E3, Hp3, E1. cbn [path set_params].
  rewrite (bool_decide_eq_true_2 (path ctx = current (page w1))) by reflexivity.
  cbn [negb]. change (callbacks (page w1)) with (callbacks (page w)).
  rewrite (lookup_ge_None_2 (callbacks (page w)) k) by (unfold k; lia).
  cbn [obind].
  assert (Hu : unhandled c w3
               = host_call (SetLocationHref (canonicalPath ctx))
                   (update_ctx c (set_handled (Some false)) (stop w3))).
  { unfold unhandled. rewrite Hc3, E3. cbn [handled set_params canonicalPath].
    rewrite (Context_new_handled _ _ _ _ Hctx).
    rewrite (bool_decide_eq_false_2 (None = Some true)) by discriminate.
    fold (window_url w3).
    assert (Hw : window_url w3 = window_url w).
    { unfold window_url, _getBase. rewrite Hp3, Hl3. reflexivity. }
    rewrite Hw, (bool_decide_eq_false_2 _ Hurl). reflexivity. }
  rewrite Hu. clear Hu.
  destruct (stop_spec w3) as (S1 & S2 & S3 & S5 & S6 & l & S7 & S8).
  set (w4 := stop w3) in *.
  assert (Hc4 : ctxs w4 !! c = Some (set_params ps0 ctx)) by (rewrite S1, Hc3; exact E3).
  cbn [ctxs host_call]. rewrite (lookup_update_ctx c _ w4 _ Hc4).
  cbn [handled set_handled]. rewrite (bool_decide_eq_true_2 (Some false = Some false)) by reflexivity.
  cbn [negb andb].
  exists (host_call (SetLocationHref (canonicalPath ctx))
            (update_ctx c (set_handled (Some false)) w4)),
         (set_handled (Some false) (set_params ps0 ctx)), l.
  split; [reflexivity|].
  cbn [trace calls page ctxs host_call].
  change (trace (update_ctx ?a ?b ?x)) with (trace x).
  change (calls (update_ctx ?a ?b ?x)) with (calls x).
  change (page (update_ctx ?a ?b ?x)) with (page x).
  rewrite S3, Ht3, S7, Hk3, S5, S6, Hp3, <- app_assoc.
  repeat split; try reflexivity; try assumption.
  apply (lookup_update_ctx c _ w4 _ Hc4).
Qed.

(** X14. [replace(path)] under the same conditions: the state is saved with
    [replaceState] before any middleware is invoked, the first matching
    handler runs and nothing after it, and [len] does not change. *)
Theorem replace_runs_first_match k p st ini w ctx mw ps :
  Context_new p st w = Ok ctx ->
  exits (page w) = [] ->
  (forall i, (i < k)%nat ->
     exists mw', callbacks (page w) !! i = Some mw'
                 /\ route_rejects (_decodeURLComponents (page w)) mw' (path ctx)) ->
  callbacks (page w) !! k = Some mw ->
  Route_match (_decodeURLComponents (page w)) (mw_route mw) (path ctx) (params ctx)
  = (Ok true, ps) ->
  mw_fn mw (length (ctxs w)) = Done ->
  exists n, forall fuel, exists w',
    replace (n + fuel) p st ini None w = Ret (length (ctxs w)) w'
    /\ trace w' = trace w ++ (EvInvoke Enter (length (frames w)) <$> seq 0 (S k))
                          ++ [EvHandler Enter (length (frames w)) k]
    /\ ctxs w' !! length (ctxs w) = Some (set_params ps (set_init ini ctx))
    /\ calls w' = calls w ++ [ReplaceState (state ctx) (title ctx) (history_url w ctx)]
    /\ len (page w') = len (page w)
    /\ current (page w') = path ctx.
Proof.
  intros Hctx Hex Hall Hmw Hmatch Hfn.
  exists (3 * k + exit_steps (prevContext (page w)) + 4)%nat. intros fuel.
  set (c := length (ctxs w)). set (d := length (frames w)).
  set (prev := prevContext (page w)).
  replace (3 * k + exit_steps prev + 4 + fuel)%nat
    with (S (3 * k + exit_steps prev + S (S (S fuel)))) by lia.
  rewrite replace_S, Hctx. cbv zeta.
  rewrite (bool_decide_eq_false_2 (None = Some false)) by discriminate.
  set (ctx0 := set_init ini ctx).
  set (w1 := save ctx0 (enter_context ctx0 w)).
  assert (Hc1 : ctxs w1 !! c = Some ctx0).
  { unfold w1, save, enter_context, c. cbn [ctxs host_call with_page with_ctxs].
    rewrite lookup_app_r, Nat.sub_diag by lia. reflexivity. }
  destruct (dispatch_enters k (S (S (S fuel))) c prev w1 ctx0 Hc1 eq_refl Hex Hall)
    as (w2 & Hrun & He).
  fold c prev. rewrite Hrun. change (length (frames w1)) with d in *.
  destruct He as [E1 (j & E2) (ps0 & E3 & Ed) E4 E5 E6 E7].
  rewrite nextEnter_S, E2. cbv zeta. cbn [f_ctx f_i].
  change (ctxs (update_frame d (set_i (S k)) w2)) with (ctxs w2).
  change (page (update_frame d (set_i (S k)) w2)) with (page w2).
  rewrite E3, E1. cbn [path set_params].
  rewrite (bool_decide_eq_true_2 (path ctx0 = current (page w1))) by reflexivity.
  cbn [negb]. change (callbacks (page w1)) with (callbacks (page w)). rewrite Hmw.
  rewrite middleware_S.
  change (ctxs (log (EvInvoke Enter d k) (update_frame d (set_i (S k)) w2))) with (ctxs w2).
  change (page (log (EvInvoke Enter d k) (update_frame d (set_i (S k)) w2))) with (page w2).
  rewrite E3, E1. cbv zeta. cbn [path params set_params].
  change (_decodeURLComponents (page w1)) with (_decodeURLComponents (page w)).
  change (path ctx0) with (path ctx).
  rewrite (Route_match_delete _ _ _ _ ps0 _ _ Ed Hmatch). cbn [fst snd].
  fold c in Hfn. rewrite Hfn, run_S. cbn [obind phase_of_cont frame_of_cont].
  set (w3 := log _ (update_ctx c (set_params ps) _)).
  assert (Hc3 : ctxs w3 !! c = Some (set_params ps ctx0)).
  { unfold w3. change (ctxs (log ?e ?x)) with (ctxs x).
    rewrite (lookup_update_ctx c (set_params ps) _ (set_params ps0 ctx0)); [|exact E3].
    destruct ctx; reflexivity. }
  assert (Hp3 : page w3 = page w1) by exact E1.
  assert (Hk3 : calls w3 = calls w1) by exact E5.
  assert (Ht3 : trace w3 = trace w ++ (EvInvoke Enter d <$> seq 0 (S k))
                                   ++ [EvHandler Enter d k]).
  { unfold w3. cbn [trace log]. change (trace (update_ctx ?a ?b ?x)) with (trace x).
    cbn [trace log]. change (trace (update_frame ?a ?b ?x)) with (trace x).
    rewrite E7. change (trace w1) with (trace w).
    rewrite seq_S, fmap_app, <- !app_assoc. reflexivity. }
  clearbody w3. exists w3. split; [reflexivity|].
  split; [exact Ht3|]. split; [exact Hc3|]. rewrite Hk3, Hp3. repeat split.
Qed.

(** X15. [show(path, state, false)] followed by [back()], when [len] is at
    least 0 and below 2^53: the history entry that was pushed is left
    through the history of the window, [len] is what it was, and no
    fallback is scheduled, whatever fallback path is given. *)
Theorem show_then_back fuel p st fb st' w ctx :
  (0 <= len (page w) < 2 ^ 53)%Z ->
  Context_new p st w = Ok ctx ->
  exists w1,
    show (S fuel) p st (Some false) None w = Ret (length (ctxs w)) w1
    /\ len (page (back fb st' w1)) = len (page w)
    /\ calls (back fb st' w1)
       = calls w ++ [PushState (state ctx) (title ctx) (history_url w ctx); HistoryBack]
    /\ timers (back fb st' w1) = timers w.
Proof.
  intros Hlen Hctx. rewrite show_S, Hctx. cbv zeta.
  rewrite (bool_decide_eq_true_2 (Some false = Some false)) by reflexivity.
  cbn [obind]. unfold enter_context at 1. cbn [ctxs with_page with_ctxs].
  rewrite lookup_app_r, Nat.sub_diag by lia. cbn [lookup list_lookup].
  rewrite (Context_new_handled _ _ _ _ Hctx).
  rewrite (bool_decide_eq_false_2 (None = Some false)) by discriminate.
  cbn [negb andb]. eexists. split; [reflexivity|].
  unfold back, pushState, enter_context.
  cbn [page len host_call with_page with_ctxs set_len set_current set_prevContext].
  change (len (set_current _ (set_prevContext _ (page (with_ctxs _ w))))) with (len (page w)).
  rewrite (number_incr_exact (len (page w))) by lia.
  replace (0 <? len (page w) + 1)%Z with true by (symmetry; apply Z.ltb_lt; lia).
  cbn [page len calls timers host_call with_page set_len]. rewrite <- app_assoc.
  split; [|split; reflexivity].
  change (len (set_current _ (set_prevContext _ (page (with_ctxs _ w))))) with (len (page w)).
  rewrite (number_incr_exact (len (page w))), number_decr_exact by lia. lia.
Qed.

(** A controller with the routes [/about] and [/user/:x], whose handlers
    return at once, in a window at [/]. *)
Definition demo_location : Location := mkLocation (js "/") [] [] (js "http:").

Definition demo_world : World :=
  Eval vm_compute in
  match (w1 <- route (PString (js "/about")) [fun _ => Done] (new_World demo_location);;
         route (PString (js "/user/:x")) [fun _ => Done] w1) with
  | Ok w => w
  | Throw _ => new_World demo_location
  end.

Lemma demo_about_rejects mw :
  callbacks (page demo_world) !! 0%nat = Some mw -> route_rejects true mw (js "/user/12").
Proof.
  intros H. vm_compute in H. injection H as <-. intros ps. vm_compute. reflexivity.
Qed.

Lemma show_runs_first_match_witness :
  exists n w',
    show n (js "/user/12") None None None demo_world = Ret 0%nat w'
    /\ trace w' = [EvInvoke Enter 0 0; EvInvoke Enter 0 1; EvHandler Enter 0 1]
    /\ len (page w') = 1%Z.
Proof.
  destruct (Context_new (js "/user/12") None demo_world) as [ctx|] eqn:Hctx;
    [|vm_compute in Hctx; discriminate].
  destruct (callbacks (page demo_world) !! 1%nat) as [mw|] eqn:Hmw;
    [|vm_compute in Hmw; discriminate].
  assert (Hpath : path ctx = js "/user/12")
    by (vm_compute in Hctx; injection Hctx as <-; reflexivity).
  assert (Hparams : params ctx = ∅)
    by (vm_compute in Hctx; injection Hctx as <-; reflexivity).
  destruct (show_runs_first_match 1 (js "/user/12") None demo_world ctx mw
              {[ js "x" := Some (js "12") ]} Hctx eq_refl) as (n & H).
  - intros i Hi. destruct i as [|i]; [|lia].
    destruct (callbacks (page demo_world) !! 0%nat) as [mw0|] eqn:Hmw0;
      [|vm_compute in Hmw0; discriminate].
    exists mw0. split; [reflexivity|]. rewrite Hpath. apply demo_about_rejects, Hmw0.
  - exact Hmw.
  - rewrite Hpath, Hparams. vm_compute in Hmw. injection Hmw as <-. vm_compute. reflexivity.
  - vm_compute in Hmw. injection Hmw as <-. reflexivity.
  - destruct (H 0%nat) as (w' & H1 & H2 & _ & _ & H5 & _).
    exists (n + 0)%nat, w'. split; [exact H1|]. split; [exact H2 | apply H5; vm_compute; split; [discriminate | reflexivity]].
Defined.

Lemma show_unmatched_witness :
  exists n w' ctx',
    show n (js "/nowhere") None None None demo_world = Ret 0%nat w'
    /\ trace w' = [EvInvoke Enter 0 0; EvInvoke Enter 0 1]
    /\ ctxs w' !! 0%nat = Some ctx' /\ handled ctx' = Some false
    /\ last (calls w') = Some (SetLocationHref (js "/nowhere")).
Proof.
  destruct (Context_new (js "/nowhere") None demo_world) as [ctx|] eqn:Hctx;
    [|vm_compute in Hctx; discriminate].
  assert (Hpath : path ctx = js "/nowhere")
    by (vm_compute in Hctx; injection Hctx as <-; reflexivity).
  assert (Hcan : canonicalPath ctx = js "/nowhere")
    by (vm_compute in Hctx; injection Hctx as <-; reflexivity).
  destruct (show_unmatched (js "/nowhere") None demo_world ctx Hctx eq_refl) as (n & H).
  - intros mw Hin. rewrite Hpath. apply list_elem_of_lookup_1 in Hin as [i Hi].
    destruct i as [|[|i]]; [| |discriminate Hi];
      vm_compute in Hi; injection Hi as <-; intros ps; vm_compute; reflexivity.
  - rewrite Hcan. vm_compute. discriminate.
  - destruct (H 0%nat) as (w' & ctx' & l & H1 & H2 & H3 & H4 & H5 & _).
    exists (n + 0)%nat, w', ctx'. split; [exact H1|]. split; [exact H2|].
    split; [exact H3|]. split; [exact H4|].
    rewrite H5, Hcan, app_assoc, last_snoc. reflexivity.
Defined.

Lemma replace_runs_first_match_witness :
  exists n w',
    replace n (js "/about") None None None demo_world = Ret 0%nat w'
    /\ trace w' = [EvInvoke Enter 0 0; EvHandler Enter 0 0]
    /\ len (page w') = 0%Z.
Proof.
  destruct (Context_new (js "/about") None demo_world) as [ctx|] eqn:Hctx;
    [|vm_compute in Hctx; discriminate].
  destruct (callbacks (page demo_world) !! 0%nat) as [mw|] eqn:Hmw;
    [|vm_compute in Hmw; discriminate].
  assert (Hpath : path ctx = js "/about")
    by (vm_compute in Hctx; injection Hctx as <-; reflexivity).
  assert (Hparams : params ctx = ∅)
    by (vm_compute in Hctx; injection Hctx as <-; reflexivity).
  destruct (replace_runs_first_match 0 (js "/about") None None demo_world ctx mw ∅
              Hctx eq_refl) as (n & H).
  - intros i Hi. lia.
  - exact Hmw.
  - rewrite Hpath, Hparams. vm_compute in Hmw. injection Hmw as <-. vm_compute. reflexivity.
  - vm_compute in Hmw. injection Hmw as <-. reflexivity.
  - destruct (H 0%nat) as (w' & H1 & H2 & _ & _ & H5 & _).
    exists (n + 0)%nat, w'. split; [exact H1|]. split; [exact H2 | exact H5].
Defined.

Lemma show_then_back_witness :
  exists w1,
    show 1 (js "/about") None (Some false) None demo_world = Ret 0%nat w1
    /\ len (page (back (Some (js "/home")) None w1)) = 0%Z
    /\ timers (back (Some (js "/home")) None w1) = [].
Proof.
  destruct (Context_new (js "/about") None demo_world) as [ctx|] eqn:Hctx;
    [|vm_compute in Hctx; discriminate].
  destruct (show_then_back 0 (js "/about") None (Some (js "/home")) None demo_world ctx)
    as (w1 & H1 & H2 & _ & H4); [vm_compute; split; [discriminate | reflexivity] | exact Hctx |].
  exists w1. split; [exact H1|]. split; [exact H2 | exact H4].
Defined.

(** The world after the closure [d] invoked the middleware at its cursor
    [i], whose route matched with the parameters [ps]. *)
Definition matched (d c i : nat) (ps : Params) (w : World) : World :=
  log (EvHandler Enter d i)
    (update_ctx c (set_params ps)
       (log (EvInvoke Enter d i) (update_frame d (set_i (S i)) w))).

(** One middleware whose route matches: its handler is run. *)
Lemma nextEnter_match fuel d w fr ctx mw ps :
  frames w !! d = Some fr ->
  ctxs w !! f_ctx fr = Some ctx ->
  path ctx = current (page w) ->
  callbacks (page w) !! f_i fr = Some mw ->
  Route_match (_decodeURLComponents (page w)) (mw_route mw) (path ctx) (params ctx)
  = (Ok true, ps) ->
  nextEnter (S (S fuel)) d w
  = run fuel (KEnter d) (mw_fn mw (f_ctx fr)) (matched d (f_ctx fr) (f_i fr) ps w).
Proof.
  intros Hfr Hc Hpath Hmw Hmatch.
  rewrite nextEnter_S, Hfr. cbv zeta.
  change (ctxs (update_frame d (set_i (S (f_i fr))) w)) with (ctxs w).
  change (page (update_frame d (set_i (S (f_i fr))) w)) with (page w).
  rewrite Hc, (bool_decide_eq_true_2 _ Hpath), Hmw. cbn [negb].
  rewrite middleware_S.
  change (ctxs (log (EvInvoke Enter d (f_i fr)) (update_frame d (set_i (S (f_i fr))) w)))
    with (ctxs w).
  change (page (log (EvInvoke Enter d (f_i fr)) (update_frame d (set_i (S (f_i fr))) w)))
    with (page w).
  rewrite Hc. cbv zeta. rewrite Hmatch. reflexivity.
Qed.

Lemma matched_frame d c i ps w fr :
  frames w !! d = Some fr -> frames (matched d c i ps w) !! d = Some (set_i (S i) fr).
Proof. intros H. apply (lookup_update_frame d (set_i (S i)) w fr H). Qed.

Lemma matched_ctx d c i ps w ctx :
  ctxs w !! c = Some ctx -> ctxs (matched d c i ps w) !! c = Some (set_params ps ctx).
Proof. intros H. apply (lookup_update_ctx c (set_params ps) _ ctx H). Qed.

(** X16. A handler that calls [next()] hands over to the next route that
    matches. On a controller with no exit middleware, when the routes that
    match the path are first the one at index [k1], whose handler calls
    [next()] and returns, and then the one at index [k2], whose handler
    returns: [show(path)] invokes the middleware up to [k2] in order, runs
    these two handlers and no other, the second with the parameters the
    first match left, and pushes one history entry; [len] grows by one when
    it was at least -2^53 and below 2^53. *)
Theorem show_chains_next k1 m p st w ctx mw1 mw2 ps1 ps2 :
  let k2 := (k1 + 1 + m)%nat in
  let dec := _decodeURLComponents (page w) in
  Context_new p st w = Ok ctx ->
  exits (page w) = [] ->
  (forall i, (i < k1 \/ k1 < i < k2)%nat ->
     exists mw', callbacks (page w) !! i = Some mw' /\ route_rejects dec mw' (path ctx)) ->
  callbacks (page w) !! k1 = Some mw1 ->
  callbacks (page w) !! k2 = Some mw2 ->
  Route_match dec (mw_route mw1) (path ctx) (params ctx) = (Ok true, ps1) ->
  Route_match dec (mw_route mw2) (path ctx) ps1 = (Ok true, ps2) ->
  mw_fn mw1 (length (ctxs w)) = Next Done ->
  mw_fn mw2 (length (ctxs w)) = Done ->
  exists n, forall fuel, exists w',
    show (n + fuel) p st None None w = Ret (length (ctxs w)) w'
    /\ trace w'
       = trace w ++ (EvInvoke Enter (length (frames w)) <$> seq 0 (S k1))
                 ++ [EvHandler Enter (length (frames w)) k1]
                 ++ (EvInvoke Enter (length (frames w)) <$> seq (S k1) (S m))
                 ++ [EvHandler Enter (length (frames w)) k2]
    /\ ctxs w' !! length (ctxs w) = Some (set_params ps2 ctx)
    /\ calls w' = calls w ++ [PushState (state ctx) (title ctx) (history_url w ctx)]
    /\ ((- 2 ^ 53 <= len (page w) < 2 ^ 53)%Z -> len (page w') = (len (page w) + 1)%Z).
Proof.
  intros k2 dec Hctx Hex Hall Hmw1 Hmw2 Hm1 Hm2 Hf1 Hf2.
  exists (3 * k1 + exit_steps (prevContext (page w)) + (3 * m + 8))%nat. intros fuel.
  set (c := length (ctxs w)) in *. set (d := length (frames w)).
  set (prev := prevContext (page w)).
  replace (3 * k1 + exit_steps prev + (3 * m + 8) + fuel)%nat
    with (S (3 * k1 + exit_steps prev + S (S (S (S (3 * m + S (S (S fuel))))))))
    by lia.
  rewrite show_S, Hctx. cbv zeta.
  rewrite (bool_decide_eq_false_2 (None = Some false)) by discriminate.
  set (w1 := enter_context ctx w).
  assert (Hc1 : ctxs w1 !! c = Some ctx).
  { unfold w1, enter_context, c. cbn [ctxs with_page with_ctxs].
    rewrite lookup_app_r, Nat.sub_diag by lia. reflexivity. }
  (* up to the first match *)
  destruct (dispatch_enters k1 (S (S (S (S (3 * m + S (S (S fuel))))))) c prev w1 ctx
              Hc1 eq_refl Hex) as (w2 & Hrun & He).
  { intros i Hi. apply Hall. left. exact Hi. }
  fold c prev. rewrite Hrun. change (length (frames w1)) with d in *.
  destruct He as [E1 (j & E2) (ps0 & E3 & Ed) E4 E5 E6 E7].
  rewrite (nextEnter_match _ d w2 _ (set_params ps0 ctx) mw1 ps1 E2 E3).
  2:{ rewrite E1. reflexivity. }
  2:{ rewrite E1. exact Hmw1. }
  2:{ rewrite E1. cbn [path params set_params].
      apply (Route_match_delete _ _ _ (params ctx) ps0 _ _ Ed Hm1). }
  cbn [f_ctx f_i]. rewrite Hf1, run_S, call_S.
  set (w3 := matched d c k1 ps1 w2).
  pose proof (matched_frame d c k1 ps1 w2 _ E2) as F3.
  pose proof (matched_ctx d c k1 ps1 w2 _ E3) as C3.
  fold w3 in F3, C3.
  assert (P3 : page w3 = page w1) by exact E1.
  (* from the first match to the second *)
  destruct (nextEnter_skip m (S (S (S fuel))) d w3 _ _ F3 C3) as (w4 & Hrun4 & Hsk).
  { rewrite P3. reflexivity. }
  { intros i Hi. rewrite P3. cbn [f_i set_i path set_params].
    destruct (Hall (S k1 + i)%nat) as (mw' & H1 & H2); [right; unfold k2; lia|].
    exists mw'. split; [exact H1 | exact H2]. }
  rewrite Hrun4. destruct Hsk as [S1 S2 S3 S4 S5 S6 S7].
  specialize (S2 _ F3). destruct (S3 _ C3) as (ps' & C4 & Hd4).
  cbn [f_i f_ctx set_i set_params params] in S2, C4, Hd4, S7.
  rewrite (nextEnter_match _ d w4 _ _ mw2 ps2 S2 C4).
  2:{ rewrite S1, P3. reflexivity. }
  2:{ rewrite S1, P3. cbn [f_i set_i]. replace (S k1 + m)%nat with k2 by (unfold k2; lia).
      exact Hmw2. }
  2:{ rewrite S1, P3. cbn [path params set_params].
      apply (Route_match_delete _ _ _ ps1 ps' _ _ Hd4 Hm2). }
  cbn [f_ctx f_i set_i]. rewrite Hf2, run_S. cbn [obind]. rewrite run_S. cbn [obind].
  set (w5 := matched d c (S k1 + m) ps2 w4).
  pose proof (matched_ctx d c (S k1 + m) ps2 w4 _ C4) as C5. fold w5 in C5.
  assert (C5' : ctxs w5 !! c = Some (set_params ps2 ctx)) by (rewrite C5; destruct ctx; reflexivity).
  assert (P5 : page w5 = page w1) by (transitivity (page w3); [exact S1 | exact P3]).
  assert (K5 : calls w5 = calls w).
  { transitivity (calls w3); [exact S5 | exact E5]. }
  assert (T5 : trace w5 = trace w ++ (EvInvoke Enter d <$> seq 0 (S k1))
                                  ++ [EvHandler Enter d k1]
                                  ++ (EvInvoke Enter d <$> seq (S k1) (S m))
                                  ++ [EvHandler Enter d k2]).
  { unfold w5, matched. cbn [trace log].
    change (trace (update_ctx ?a ?b ?x)) with (trace x). cbn [trace log].
    change (trace (update_frame ?a ?b ?x)) with (trace x).
    rewrite S7. unfold w3, matched. cbn [trace log].
    change (trace (update_ctx ?a ?b ?x)) with (trace x). cbn [trace log].
    change (trace (update_frame ?a ?b ?x)) with (trace x).
    rewrite E7. change (trace w1) with (trace w).
    rewrite !seq_S, !fmap_app, <- !app_assoc. cbn [fmap list_fmap app].
    replace (k1 + 1 + m)%nat with (S k1 + m)%nat by lia.
    replace (0 + k1)%nat with k1 by lia. subst k2.
    replace (k1 + 1 + m)%nat with (S k1 + m)%nat by lia. reflexivity. }
  clearbody w5. rewrite C5'. cbn [handled set_params].
  rewrite (Context_new_handled _ _ _ _ Hctx).
  rewrite (bool_decide_eq_false_2 (None = Some false)) by discriminate. cbn [negb andb].
  eexists. split; [reflexivity|].
  unfold pushState. cbn [trace ctxs calls page host_call with_page state title set_params].
  split; [exact T5|]. split; [exact C5'|]. split.
  - rewrite K5. f_equal. f_equal. f_equal. unfold history_url.
    cbn [page with_page path set_params canonicalPath].
    change (_hashbang (set_len (number_incr (len (page w5))) (page w5))) with (_hashbang (page w5)).
    rewrite P5. reflexivity.
  - intros Hb. cbn [len set_len]. rewrite P5. exact (number_incr_exact _ Hb).
Qed.

(** A controller with the routes [/user/:x], whose handler calls [next()],
    [/about] and [/user/:id], in a window at [/]. *)
Definition chain_world : World :=
  Eval vm_compute in
  match (w1 <- route (PString (js "/user/:x")) [fun _ => Next Done] (new_World demo_location);;
         w2 <- route (PString (js "/about")) [fun _ => Done] w1;;
         route (PString (js "/user/:id")) [fun _ => Done] w2) with
  | Ok w => w
  | Throw _ => new_World demo_location
  end.

Lemma show_chains_next_witness :
  exists n w',
    show n (js "/user/12") None None None chain_world = Ret 0%nat w'
    /\ trace w' = [EvInvoke Enter 0 0; EvHandler Enter 0 0;
                   EvInvoke Enter 0 1; EvInvoke Enter 0 2; EvHandler Enter 0 2]
    /\ (exists ctx', ctxs w' !! 0%nat = Some ctx'
          /\ params ctx' = {[ js "x" := Some (js "12"); js "id" := Some (js "12") ]}).
Proof.
  destruct (Context_new (js "/user/12") None chain_world) as [ctx|] eqn:Hctx;
    [|vm_compute in Hctx; discriminate].
  destruct (callbacks (page chain_world) !! 0%nat) as [mw1|] eqn:Hmw1;
    [|vm_compute in Hmw1; discriminate].
  destruct (callbacks (page chain_world) !! 2%nat) as [mw2|] eqn:Hmw2;
    [|vm_compute in Hmw2; discriminate].
  assert (Hpath : path ctx = js "/user/12")
    by (vm_compute in Hctx; injection Hctx as <-; reflexivity).
  assert (Hparams : params ctx = ∅)
    by (vm_compute in Hctx; injection Hctx as <-; reflexivity).
  destruct (show_chains_next 0 1 (js "/user/12") None chain_world ctx mw1 mw2
              {[ js "x" := Some (js "12") ]}
              {[ js "x" := Some (js "12"); js "id" := Some (js "12") ]}
              Hctx eq_refl) as (n & H).
  - intros i Hi. assert (i = 1%nat) as -> by lia.
    destruct (callbacks (page chain_world) !! 1%nat) as [mw|] eqn:Hmw;
      [|vm_compute in Hmw; discriminate].
    exists mw. split; [reflexivity|]. rewrite Hpath.
    vm_compute in Hmw. injection Hmw as <-. intros ps. vm_compute. reflexivity.
  - exact Hmw1.
  - exact Hmw2.
  - rewrite Hpath, Hparams. vm_compute in Hmw1. injection Hmw1 as <-. vm_compute. reflexivity.
  - rewrite Hpath. vm_compute in Hmw2. injection Hmw2 as <-. vm_compute. reflexivity.
  - vm_compute in Hmw1. injection Hmw1 as <-. reflexivity.
  - vm_compute in Hmw2. injection Hmw2 as <-. reflexivity.
  - destruct (H 0%nat) as (w' & H1 & H2 & H3 & _).
    exists (n + 0)%nat, w'. split; [exact H1|]. split; [exact H2|].
    eexists. split; [exact H3 | reflexivity].
Defined.

(** ** An unmatched path that is the current URL *)

(** X17. [show(path)] for a path that no route matches, when the window is
    at that path already: [unhandled] leaves the controller as it is, and
    since the context is not marked unhandled [show] goes on to push a
    history entry for the path; [len] grows by one when it was at least
    -2^53 and below 2^53. *)
Theorem show_unmatched_same_url p st w ctx :
  Context_new p st w = Ok ctx ->
  exits (page w) = [] ->
  (forall mw, mw ∈ callbacks (page w) ->
     route_rejects (_decodeURLComponents (page w)) mw (path ctx)) ->
  window_url w = canonicalPath ctx ->
  exists n, forall fuel, exists w' ctx',
    show (n + fuel) p st None None w = Ret (length (ctxs w)) w'
    /\ trace w' = trace w ++ (EvInvoke Enter (length (frames w))
                               <$> seq 0 (length (callbacks (page w))))
    /\ ctxs w' !! length (ctxs w) = Some ctx' /\ handled ctx' = None
    /\ calls w' = calls w ++ [PushState (state ctx) (title ctx) (history_url w ctx)]
    /\ _running (page w') = _running (page w)
    /\ ((- 2 ^ 53 <= len (page w) < 2 ^ 53)%Z -> len (page w') = (len (page w) + 1)%Z).
Proof.
  intros Hctx Hex Hall Hurl.
  set (k := length (callbacks (page w))).
  exists (3 * k + exit_steps (prevContext (page w)) + 2)%nat. intros fuel.
  set (c := length (ctxs w)). set (d := length (frames w)).
  set (prev := prevContext (page w)).
  replace (3 * k + exit_steps prev + 2 + fuel)%nat
    with (S (3 * k + exit_steps prev + S fuel)) by lia.
  rewrite show_S, Hctx. cbv zeta.
  rewrite (bool_decide_eq_false_2 (None = Some false)) by discriminate.
  set (w1 := enter_context ctx w).
  assert (Hc1 : ctxs w1 !! c = Some ctx).
  { unfold w1, enter_context, c. cbn [ctxs with_page with_ctxs].
    rewrite lookup_app_r, Nat.sub_diag by lia. reflexivity. }
  destruct (dispatch_enters k (S fuel) c prev w1 ctx Hc1 eq_refl Hex) as (w2 & Hrun & He).
  { intros i Hi. destruct (lookup_lt_is_Some_2 (callbacks (page w)) i Hi) as [mw Hmw].
    exists mw. split; [exact Hmw|]. apply Hall. eapply list_elem_of_lookup_2, Hmw. }
  fold c prev. rewrite Hrun. change (length (frames w1)) with d in *.
  destruct He as [E1 (j & E2) (ps0 & E3 & Ed) E4 E5 E6 E7].
  rewrite nextEnter_S, E2. cbv zeta. cbn [f_ctx f_i].
  set (w3 := update_frame d (set_i (S k)) w2).
  assert (Hp3 : page w3 = page w1) by exact E1.
  assert (Hc3 : ctxs w3 = ctxs w2) by reflexivity.
  assert (Hk3 : calls w3 = calls w) by exact E5.
  assert (Ht3 : trace w3 = trace w ++ (EvInvoke Enter d <$> seq 0 k)) by exact E7.
  assert (Hl3 : location w3 = location w) by exact E4.
  rewrite Hc3, E3, Hp3, E1. cbn [path set_params].
  rewrite (bool_decide_eq_true_2 (path ctx = current (page w1))) by reflexivity.
  cbn [negb]. change (callbacks (page w1)) with (callbacks (page w)).
  rewrite (lookup_ge_None_2 (callbacks (page w)) k) by (unfold k; lia).
  cbn [obind].
  assert (Hu : unhandled c w3 = w3).
  { unfold unhandled. rewrite Hc3, E3. cbn [handled set_params canonicalPath].
    rewrite (Context_new_handled _ _ _ _ Hctx).
    rewrite (bool_decide_eq_false_2 (None = Some true)) by discriminate.
    fold (window_url w3).
    assert (Hw : window_url w3 = window_url w).
    { unfold window_url, _getBase. rewrite Hp3, Hl3. reflexivity. }
    rewrite Hw, (bool_decide_eq_true_2 _ Hurl). reflexivity. }
  rewrite Hu. clear Hu.
  assert (Hc3' : ctxs w3 !! c = Some (set_params ps0 ctx)) by (rewrite Hc3; exact E3).
  clearbody w3. rewrite Hc3'. cbn [handled set_params].
  rewrite (Context_new_handled _ _ _ _ Hctx).
  rewrite (bool_decide_eq_false_2 (None = Some false)) by discriminate. cbn [negb andb].
  eexists. exists (set_params ps0 ctx). split; [reflexivity|].
  unfold pushState. cbn [trace ctxs calls page host_call with_page state title set_params].
  split; [exact Ht3|]. split; [exact Hc3'|]. split.
  { cbn [handled set_params]. apply (Context_new_handled _ _ _ _ Hctx). }
  split; [|split].
  - rewrite Hk3. f_equal. f_equal. f_equal. unfold history_url.
    cbn [page with_page path set_params canonicalPath].
    change (_hashbang (set_len (number_incr (len (page w3))) (page w3))) with (_hashbang (page w3)).
    rewrite Hp3. reflexivity.
  - change (_running (set_len (number_incr (len (page w3))) (page w3))) with (_running (page w3)).
    rewrite Hp3. reflexivity.
  - intros Hb. cbn [len set_len]. rewrite Hp3. exact (number_incr_exact _ Hb).
Qed.

Lemma show_unmatched_same_url_witness :
  exists n w',
    show n (js "/") None None None demo_world = Ret 0%nat w'
    /\ trace w' = [EvInvoke Enter 0 0; EvInvoke Enter 0 1]
    /\ len (page w') = 1%Z.
Proof.
  destruct (Context_new (js "/") None demo_world) as [ctx|] eqn:Hctx;
    [|vm_compute in Hctx; discriminate].
  assert (Hpath : path ctx = js "/")
    by (vm_compute in Hctx; injection Hctx as <-; reflexivity).
  assert (Hcan : canonicalPath ctx = js "/")
    by (vm_compute in Hctx; injection Hctx as <-; reflexivity).
  destruct (show_unmatched_same_url (js "/") None demo_world ctx Hctx eq_refl) as (n & H).
  - intros mw Hin. rewrite Hpath. apply list_elem_of_lookup_1 in Hin as [i Hi].
    destruct i as [|[|i]]; [| |discriminate Hi];
      vm_compute in Hi; injection Hi as <-; intros ps; vm_compute; reflexivity.
  - rewrite Hcan. vm_compute. reflexivity.
  - destruct (H 0%nat) as (w' & ctx' & H1 & H2 & _ & _ & _ & _ & H7).
    exists (n + 0)%nat, w'. split; [exact H1|]. split; [exact H2 | apply H7; vm_compute; split; [discriminate | reflexivity]].
Defined.

(** ** [redirect] *)

(** X18. [redirect(from, to)] adds, after the routes there are, one route
    for [from] whose handler only sets a timer. So on a controller with no
    exit middleware, [show] of a path that this route is the first to match
    pushes the history entry of that very path and leaves the replacement
    by [to] to the timer: no other history call is made within [show], the
    one timer added is the call of [replace(to)], and [len] grows by one
    when it was at least -2^53 and below 2^53. *)
Theorem redirect_defers from to r w0 :
  Route_new (PString from) (_strict (page w0)) = Ok r ->
  exits (page w0) = [] ->
  exists w,
    redirect from (Some to) w0 = Ok w
    /\ forall p st ctx ps,
         Context_new p st w = Ok ctx ->
         (forall mw, mw ∈ callbacks (page w0) ->
            route_rejects (_decodeURLComponents (page w0)) mw (path ctx)) ->
         Route_match (_decodeURLComponents (page w0)) r (path ctx) (params ctx)
         = (Ok true, ps) ->
         exists n, forall fuel, exists w',
           show (n + fuel) p st None None w = Ret (length (ctxs w0)) w'
           /\ trace w'
              = trace w0
                ++ (EvInvoke Enter (length (frames w0))
                      <$> seq 0 (S (length (callbacks (page w0)))))
                ++ [EvHandler Enter (length (frames w0)) (length (callbacks (page w0)))]
           /\ calls w' = calls w0 ++ [PushState (state ctx) (title ctx) (history_url w0 ctx)]
           /\ timers w'
              = timers w0 ++ [TaskHandler (KEnter (length (frames w0)))
                                (Replace to None None None (fun _ => Done))]
           /\ ((- 2 ^ 53 <= len (page w0) < 2 ^ 53)%Z -> len (page w') = (len (page w0) + 1)%Z).
Proof.
  intros Hr Hex.
  set (h := fun _ : CtxRef => Defer (Replace to None None None (fun _ => Done)) Done).
  set (w := with_page (fun pg => set_callbacks (callbacks pg ++ [mkMiddleware r h]) pg) w0).
  exists w. split.
  { unfold redirect, route. rewrite Hr. reflexivity. }
  intros p st ctx ps Hctx Hall Hmatch.
  set (k := length (callbacks (page w0))).
  assert (Hcb : callbacks (page w) = callbacks (page w0) ++ [mkMiddleware r h]) by reflexivity.
  exists (3 * k + exit_steps (prevContext (page w)) + 5)%nat. intros fuel.
  set (c := length (ctxs w0)). set (d := length (frames w0)).
  set (prev := prevContext (page w)).
  replace (3 * k + exit_steps prev + 5 + fuel)%nat
    with (S (3 * k + exit_steps prev + S (S (S (S fuel))))) by lia.
  rewrite show_S, Hctx. cbv zeta.
  rewrite (bool_decide_eq_false_2 (None = Some false)) by discriminate.
  set (w1 := enter_context ctx w).
  assert (Hc1 : ctxs w1 !! c = Some ctx).
  { unfold w1, enter_context, c. cbn [ctxs with_page with_ctxs].
    change (ctxs w) with (ctxs w0).
    rewrite lookup_app_r, Nat.sub_diag by lia. reflexivity. }
  change (length (ctxs w)) with c.
  destruct (dispatch_enters k (S (S (S (S fuel)))) c prev w1 ctx Hc1 eq_refl Hex)
    as (w2 & Hrun & He).
  { intros i Hi. change (callbacks (page w1)) with (callbacks (page w)). rewrite Hcb.
    destruct (lookup_lt_is_Some_2 (callbacks (page w0)) i Hi) as [mw Hmw].
    exists mw. split; [rewrite lookup_app_l by exact Hi; exact Hmw|].
    apply Hall. eapply list_elem_of_lookup_2, Hmw. }
  fold prev. rewrite Hrun. change (length (frames w1)) with d in *.
  destruct He as [E1 (j & E2) (ps0 & E3 & Ed) E4 E5 E6 E7].
  rewrite (nextEnter_match _ d w2 _ (set_params ps0 ctx) (mkMiddleware r h) ps E2 E3).
  2:{ rewrite E1. reflexivity. }
  2:{ rewrite E1. change (callbacks (page w1)) with (callbacks (page w)). rewrite Hcb.
      cbn [f_i]. rewrite lookup_app_r by (unfold k; lia).
      replace (k - length (callbacks (page w0)))%nat with 0%nat by (unfold k; lia).
      reflexivity. }
  2:{ rewrite E1. cbn [path params set_params mw_route].
      apply (Route_match_delete _ _ _ (params ctx) ps0 _ _ Ed Hmatch). }
  cbn [f_ctx f_i mw_fn]. unfold h at 1. rewrite run_S, run_S. cbn [obind].
  set (w3 := matched d c k ps w2).
  pose proof (matched_ctx d c k ps w2 _ E3) as C3. fold w3 in C3.
  assert (C3' : ctxs w3 !! c = Some (set_params ps ctx)) by (rewrite C3; destruct ctx; reflexivity).
  assert (P3 : page w3 = page w1) by exact E1.
  assert (K3 : calls w3 = calls w0) by exact E5.
  assert (M3 : timers w3 = timers w0) by exact E6.
  assert (T3 : trace w3 = trace w0 ++ (EvInvoke Enter d <$> seq 0 (S k))
                                  ++ [EvHandler Enter d k]).
  { unfold w3, matched. cbn [trace log].
    change (trace (update_ctx ?a ?b ?x)) with (trace x). cbn [trace log].
    change (trace (update_frame ?a ?b ?x)) with (trace x).
    rewrite E7. change (trace w1) with (trace w0).
    rewrite seq_S, fmap_app, <- !app_assoc. reflexivity. }
  set (w4 := setTimeout _ w3).
  assert (C4 : ctxs w4 !! c = Some (set_params ps ctx)) by exact C3'.
  assert (P4 : page w4 = page w1) by exact P3.
  assert (K4 : calls w4 = calls w0) by exact K3.
  assert (M4 : timers w4 = timers w0 ++ [TaskHandler (KEnter d)
                                           (Replace to None None None (fun _ => Done))]).
  { unfold w4. cbn [timers setTimeout]. rewrite M3. reflexivity. }
  assert (T4 : trace w4 = trace w0 ++ (EvInvoke Enter d <$> seq 0 (S k))
                                  ++ [EvHandler Enter d k]) by exact T3.
  clearbody w4. rewrite C4. cbn [handled set_params].
  rewrite (Context_new_handled _ _ _ _ Hctx).
  rewrite (bool_decide_eq_false_2 (None = Some false)) by discriminate. cbn [negb andb].
  eexists. split; [reflexivity|].
  unfold pushState.
  cbn [trace ctxs calls timers page host_call with_page setTimeout state title set_params].
  split; [exact T4|]. split; [|split].
  - rewrite K4. f_equal. f_equal. f_equal. unfold history_url.
    cbn [page with_page path set_params canonicalPath].
    change (_hashbang (set_len (number_incr (len (page w4))) (page w4))) with (_hashbang (page w4)).
    rewrite P4. reflexivity.
  - exact M4.
  - intros Hb. cbn [len set_len]. rewrite P4. exact (number_incr_exact _ Hb).
Qed.

(** A controller with the route [/new] and the redirection of [/old] to
    [/new], in a window at [/]. *)
Definition redirect_world0 : World :=
  Eval vm_compute in
  match route (PString (js "/new")) [fun _ => Done] (new_World demo_location) with
  | Ok w => w
  | Throw _ => new_World demo_location
  end.

Lemma redirect_defers_witness :
  exists w n w',
    redirect (js "/old") (Some (js "/new")) redirect_world0 = Ok w
    /\ show n (js "/old") None None None w = Ret 0%nat w'
    /\ trace w' = [EvInvoke Enter 0 0; EvInvoke Enter 0 1; EvHandler Enter 0 1]
    /\ length (timers w') = 1%nat.
Proof.
  destruct (Route_new (PString (js "/old")) (_strict (page redirect_world0))) as [r|] eqn:Hr;
    [|vm_compute in Hr; discriminate].
  destruct (redirect_defers (js "/old") (js "/new") r redirect_world0 Hr eq_refl)
    as (w & Hw & H).
  destruct (Context_new (js "/old") None w) as [ctx|] eqn:Hctx.
  2:{ vm_compute in Hw. injection Hw as <-. vm_compute in Hctx. discriminate. }
  assert (Hpath : path ctx = js "/old" /\ params ctx = ∅).
  { vm_compute in Hw. injection Hw as <-. vm_compute in Hctx. injection Hctx as <-.
    split; reflexivity. }
  destruct Hpath as [Hpath Hparams].
  destruct (H (js "/old") None ctx ∅ Hctx) as (n & Hn).
  - intros mw Hin. rewrite Hpath. apply list_elem_of_lookup_1 in Hin as [i Hi].
    destruct i as [|i]; [|discriminate Hi].
    vm_compute in Hi; injection Hi as <-; intros ps; vm_compute; reflexivity.
  - rewrite Hpath, Hparams. vm_compute in Hr. injection Hr as <-. vm_compute. reflexivity.
  - destruct (Hn 0%nat) as (w' & H1 & H2 & _ & H4 & _).
    exists w, (n + 0)%nat, w'. split; [exact Hw|]. split; [exact H1|]. split; [exact H2|].
    rewrite H4. reflexivity.
Defined.

(* ------------------------------------------------------------------ *)
(** ** Malformed percent-encoding and navigation (C2) *)
(* ------------------------------------------------------------------ *)

(** A string is malformed percent-encoding when [decodeURIComponent]
    rejects it: a percent sign is not followed by two hexadecimal digits
    ([bad_escape]), or the octets of its escapes are not the UTF-8 form of
    a character, as in [%80] or [%C0%80]. [URIError] is the only exception
    of [decodeURIComponent] ([decodeURIComponent_URIError]). *)
Definition malformed (s : jstring) : Prop := decodeURIComponent s = Throw URIError.

Lemma read_escapes_URIError_aux (n : nat) :
  forall s e, (length s <= n)%nat -> read_escapes s = Throw e -> e = URIError.
Proof.
  induction n as [n IH] using lt_wf_ind. intros s e Hn.
  destruct s as [|c s]; [discriminate|]. cbn [read_escapes length] in *.
  destruct (c =? 37).
  - destruct s as [|h1 [|h2 s]]; try (intros [= <-]; reflexivity).
    destruct (hexval h1); [|intros [= <-]; reflexivity].
    destruct (hexval h2); [|intros [= <-]; reflexivity].
    destruct (read_escapes s) eqn:Hs; [discriminate|]. cbn [bind]. intros [= <-].
    apply (IH (length s)) with (s := s); [cbn [length] in Hn; lia | lia | exact Hs].
  - destruct (read_escapes s) eqn:Hs; [discriminate|]. cbn [bind]. intros [= <-].
    apply (IH (length s)) with (s := s); [lia | lia | exact Hs].
Qed.

Lemma read_escapes_URIError s e : read_escapes s = Throw e -> e = URIError.
Proof. apply (read_escapes_URIError_aux (length s)). lia. Qed.

Ltac uri_throw :=
  match goal with
  | |- Throw _ = Throw _ -> _ => intros [= <-]; reflexivity
  | |- Ok _ = Throw _ -> _ => discriminate
  end.

Lemma decode_items_URIError_aux (n : nat) :
  forall l e, (length l <= n)%nat -> decode_items l = Throw e -> e = URIError.
Proof.
  induction n as [n IH] using lt_wf_ind. intros l e Hn.
  assert (Hrec : forall (l' : list UriItem) (f : jstring -> result jstring),
             (length l' < n)%nat -> (forall r, f r <> Throw e) ->
             bind (decode_items l') f = Throw e -> e = URIError).
  { intros l' f Hl Hf. destruct (decode_items l') eqn:Hd; cbn [bind].
    - intros H. destruct (Hf _ H).
    - intros [= <-]. apply (IH (length l')) with (l := l'); [lia | lia | exact Hd]. }
  destruct l as [|[c|b] l]; [discriminate| |]; cbn [decode_items length] in *.
  - apply Hrec; [lia | discriminate].
  - destruct (b <? 128); [apply Hrec; [lia | discriminate]|].
    destruct (b <? 192); [uri_throw|].
    destruct (b <? 224).
    { destruct l as [|[?|b1] l]; try uri_throw.
      destruct (_ && _); [|uri_throw]. apply Hrec; [cbn [length] in Hn; lia | discriminate]. }
    destruct (b <? 240).
    { destruct l as [|[?|b1] [|[?|b2] l]]; try uri_throw.
      destruct (_ && _); [|uri_throw]. apply Hrec; [cbn [length] in Hn; lia | discriminate]. }
    destruct (b <? 248); [|uri_throw].
    destruct l as [|[?|b1] [|[?|b2] [|[?|b3] l]]]; try uri_throw.
    destruct (_ && _); [|uri_throw]. apply Hrec; [cbn [length] in Hn; lia | discriminate].
Qed.

Lemma decode_items_URIError l e : decode_items l = Throw e -> e = URIError.
Proof. apply (decode_items_URIError_aux (length l)). lia. Qed.

(** [decodeURIComponent] throws nothing but [URIError]. *)
Lemma decodeURIComponent_URIError s e : decodeURIComponent s = Throw e -> e = URIError.
Proof.
  unfold decodeURIComponent. destruct (read_escapes s) eqn:Hr; cbn [bind].
  - apply decode_items_URIError.
  - intros [= <-]. apply (read_escapes_URIError _ _ Hr).
Qed.

Lemma malformed_throws s : throws (decodeURIComponent s) <-> malformed s.
Proof.
  split.
  - intros [e He]. unfold malformed. rewrite He. f_equal.
    apply (decodeURIComponent_URIError _ _ He).
  - intros H. exists URIError. exact H.
Qed.


(** A lone [%], an escape that is not hexadecimal, a stray continuation
    octet and an overlong form are malformed; the escapes of [U+00E9] are
    not. *)
Lemma malformed_examples :
  malformed (js "%") /\ malformed (js "/a%zz") /\ malformed (js "%80")
  /\ malformed (js "%C0%80") /\ ~ malformed (js "%C3%A9").
Proof. repeat split; try reflexivity. discriminate. Qed.

(** *** A character that is neither [%] nor a hexadecimal digit separates
    what is decoded before it from what is decoded after it. *)





(** *** Replacing [+] by a space does not repair a malformed string. *)

















(* ------------------------------------------------------------------ *)
(** ** Building a path and matching it again: one capture between
       literals (C4) *)
(* ------------------------------------------------------------------ *)

(** What [parse] can put in front of a capture: nothing, a slash or a
    dot. The delimiter of the capture is the prefix, or a slash when there
    is none. *)
Inductive XPrefix : Type := PNone | PSlash | PDot.


Definition delim_char (p : XPrefix) : N :=
  match p with PDot => 46 | _ => 47 end.




(** *** The value embedded holds no delimiter *)





(** *** Facts about the matcher *)

Lemma canon_delim ic p a :
  a <> delim_char p -> (canon ic (delim_char p) =? canon ic a) = false.
Proof.
  intros Ha. apply N.eqb_neq. unfold canon.
  replace (is_lower (delim_char p)) with false by (destruct p; reflexivity).
  rewrite andb_false_r.
  destruct ic; cbn [andb]; [|congruence].
  destruct (is_lower a) eqn:Hl; [|congruence].
  apply is_lower_range in Hl. destruct p; cbn [delim_char]; lia.
Qed.







(** *** What follows the capture: a literal and the end of the match *)







(** *** Compiling the capture between two literals *)





















(** *** The builder on these tokens *)




(** *** The round trip *)




